(** * The fiber tree, its update queue and the host-context stack of React's reconciler

    A shallow embedding of the reconciler core of the repository:

    - [ReactFiber.js]: the [Fiber] record, [createWorkInProgress] (the double buffer)
      and [createFiberFromTypeAndProps] (resolution of an element type to a fiber);
    - [ReactUpdateQueue.js]: the per-fiber queue of pending state updates, with
      [enqueueUpdate], [getStateFromUpdate], [processUpdateQueue] and
      [commitUpdateQueue];
    - the host-context stack ([pushHostContainer], [getHostContext], ...);
    - the DOM property table with [shouldRemoveAttribute] and [setValueForProperty].

    JavaScript objects that the code mutates and shares (fibers, queues, updates) live
    in arenas of a [Store] and are named by their index, so that aliasing between a
    fiber and its alternate, or between the update lists of two queues, is explicit.
    Functions of the source become computations in a state-and-exception monad over
    that store.  The production build is modelled: blocks under [__DEV__] only emit
    warnings and maintain debug fields. *)

From Stdlib Require Import ZArith NArith Ascii String.
From stdpp Require Import base numbers list strings gmap pretty.

#[local] Set Warnings "-register-all".

(** ** JavaScript values *)

Module JS.

(** The values the modelled code inspects.  An object is given by the properties a
    property read on it returns; the code never compares two objects by identity, so
    objects carry none.  A function is named by [fid]: what calling it computes is
    given by the application (see [Calls] below).  [VNumber] holds the integral
    numbers, [VNaN] stands for NaN. *)
Inductive value : Type :=
| VUndefined
| VNull
| VBool (b : bool)
| VNumber (n : Z)
| VNaN
| VString (s : string)
| VSymbol (key : string)
| VFunction (fid : nat) (props : gmap string value)
| VObject (props : gmap string value).

(** The results of the [typeof] operator. *)
Inductive jstype : Type :=
| TUndefined | TObject | TBoolean | TNumber | TString | TSymbol | TFunction.

#[global] Instance jstype_eq_dec : EqDecision jstype.
Proof. solve_decision. Defined.

Definition typeof (v : value) : jstype :=
  match v with
  | VUndefined => TUndefined
  | VNull => TObject
  | VBool _ => TBoolean
  | VNumber _ | VNaN => TNumber
  | VString _ => TString
  | VSymbol _ => TSymbol
  | VFunction _ _ => TFunction
  | VObject _ => TObject
  end.

(** [v === null]. *)
Definition is_null (v : value) : bool :=
  match v with VNull => true | _ => false end.

(** [v === undefined]. *)
Definition is_undefined (v : value) : bool :=
  match v with VUndefined => true | _ => false end.

(** [v === true] and [v === false]. *)
Definition is_true (v : value) : bool :=
  match v with VBool true => true | _ => false end.

Definition is_false (v : value) : bool :=
  match v with VBool false => true | _ => false end.

(** ToBoolean, as used by [!v], [v && w] and [if (v)]. *)
Definition toBoolean (v : value) : bool :=
  match v with
  | VUndefined | VNull | VNaN => false
  | VBool b => b
  | VNumber n => negb (n =? 0)%Z
  | VString s => negb (String.eqb s "")
  | VSymbol _ | VFunction _ _ | VObject _ => true
  end.

(** What a computation can end with besides a value.  [TypeError] and
    [InvariantViolation] are the two exceptions the modelled code can raise.
    [Diverges] marks a loop over a cyclic list, which would not end, and
    [BadReference] an address outside its arena, which no JavaScript reference is. *)
Inductive exn : Type :=
| TypeError
| InvariantViolation (message : string)
| Diverges
| BadReference.

Inductive result (A : Type) : Type :=
| Ok (a : A)
| Throw (e : exn).
Arguments Ok {A} a.
Arguments Throw {A} e.

(** A property read [v.k].  Reading a property of [null] or [undefined] throws; a
    primitive has none of the properties the modelled code asks for. *)
Definition getProp (v : value) (k : string) : result value :=
  match v with
  | VUndefined | VNull => Throw TypeError
  | VFunction _ props | VObject props => Ok (default VUndefined (props !! k))
  | _ => Ok VUndefined
  end.

(** The characters of a string as the index properties of its wrapper object. *)
Fixpoint indexProps (i : nat) (s : string) : gmap string value :=
  match s with
  | EmptyString => ∅
  | String c s' => <[pretty i := VString (String c EmptyString)]> (indexProps (S i) s')
  end.

(** The own enumerable properties [Object.assign] copies from a source: none for
    [null], [undefined], numbers, booleans and symbols. *)
Definition ownEnumerable (v : value) : gmap string value :=
  match v with
  | VFunction _ props | VObject props => props
  | VString s => indexProps 0 s
  | _ => ∅
  end.

(** [Object.assign(target, ...sources)] on the properties of the target: each
    source in turn overwrites the keys it has. *)
Definition Object_assign (target : gmap string value) (sources : list value)
  : gmap string value :=
  foldl (λ acc src, ownEnumerable src ∪ acc) target sources.

(** ToInt32 and the bitwise operators, which work on 32-bit signed integers. *)
Definition toInt32 (z : Z) : Z := ((z + 2 ^ 31) mod 2 ^ 32 - 2 ^ 31)%Z.

Definition bitor (a b : Z) : Z := Z.lor (toInt32 a) (toInt32 b).

Definition bitand (a b : Z) : Z := Z.land (toInt32 a) (toInt32 b).

Definition bitnot (a : Z) : Z := Z.lnot (toInt32 a).

(** The state-and-exception monad: a computation maps a state to an outcome and the
    state it leaves.  An exception does not undo the writes made before it. *)
Definition M (S A : Type) : Type := S → result A * S.

#[global] Instance M_ret {S : Type} : MRet (M S) := λ A a s, (Ok a, s).

#[global] Instance M_bind {S : Type} : MBind (M S) :=
  λ A B f m s,
    match m s with
    | (Ok a, s') => f a s'
    | (Throw e, s') => (Throw e, s')
    end.

Definition throw {S A : Type} (e : exn) : M S A := λ s, (Throw e, s).

Definition gets {S A : Type} (f : S → A) : M S A := λ s, (Ok (f s), s).

Definition modify {S : Type} (f : S → S) : M S unit := λ s, (Ok tt, f s).

Definition lift {S A : Type} (r : result A) : M S A := λ s, (r, s).

(** [invariant(condition, format, ...)] of shared/invariant.js: throws an error named
    'Invariant Violation' when the condition is false. *)
Definition invariant {S : Type} (condition : bool) (format : string) : M S unit :=
  if condition then mret tt else throw (InvariantViolation format).

(** [invariant(condition, format, a)], with an argument [a] for the [%s] of the
    format.  When the condition is false, [format.replace] builds the message
    before the error exists, and converts the argument to a string for it;
    [toString] is that conversion.  When it throws, the call throws its error and
    no invariant violation. *)
Definition invariantWith {S : Type} (toString : value → result string)
    (condition : bool) (format : string) (a : value) : M S unit :=
  if condition then mret tt
  else (lift (toString a);; throw (InvariantViolation format)).

End JS.
Export JS.

(** An address is an index into an arena. *)
Abbreviation addr := nat.

(** ** Constants of modules that the sources import *)

(** Modelled from the spec: shared/ReactSideEffectTags is not among the sources.  The
    spec calls [effectTag] a bitset of pending host mutations (callback-needed,
    capture, ...) with an empty value; the bits themselves are left open. *)
Class SideEffectTags : Type := {
  NoEffect : Z;
  Callback : Z;
  ShouldCapture : Z;
  DidCapture : Z
}.

(** Modelled from the spec: ReactFiberExpirationTime is not among the sources.
    [NoWork] is the sentinel meaning that nothing is pending. *)
Class ExpirationTimes : Type := {
  NoWork : Z
}.

(** Modelled from the spec: ReactTypeOfMode is not among the sources.  The mode is a
    bitset (concurrent, strict, profiling). *)
Class TypeOfMode : Type := {
  NoContext : Z;
  ConcurrentMode : Z;
  StrictMode : Z;
  ProfileMode : Z
}.

(** Modelled from the spec: shared/ReactFeatureFlags is not among the sources. *)
Class FeatureFlags : Type := {
  enableProfilerTimer : bool
}.

(** The well-known element types of shared/ReactSymbols, which is not among the
    sources: each is a registered symbol or, without symbol support, a number. *)
Inductive marker : Type :=
| SymbolFor (key : string)
| NumericTag (n : Z).

Definition marker_value (m : marker) : value :=
  match m with
  | SymbolFor key => VSymbol key
  | NumericTag n => VNumber n
  end.

(** [v === m] for a marker [m]. *)
Definition is_marker (m : marker) (v : value) : bool :=
  match m, v with
  | SymbolFor key, VSymbol key' => String.eqb key key'
  | NumericTag n, VNumber n' => (n =? n')%Z
  | _, _ => false
  end.

(** Modelled from the spec: the markers of shared/ReactSymbols (fragment, strict and
    concurrent mode, profiler, suspense) and the [$$typeof] tags of provider,
    context, forward-ref, memo and lazy objects. *)
Class ReactSymbols : Type := {
  REACT_FORWARD_REF_TYPE : marker;
  REACT_FRAGMENT_TYPE : marker;
  REACT_STRICT_MODE_TYPE : marker;
  REACT_PROFILER_TYPE : marker;
  REACT_PROVIDER_TYPE : marker;
  REACT_CONTEXT_TYPE : marker;
  REACT_CONCURRENT_MODE_TYPE : marker;
  REACT_SUSPENSE_TYPE : marker;
  REACT_MEMO_TYPE : marker;
  REACT_LAZY_TYPE : marker
}.

(** Modelled from the spec: the closed set of node kinds of shared/ReactWorkTags,
    under the names ReactFiber.js imports. *)
Inductive WorkTag : Type :=
| IndeterminateComponent
| ClassComponent
| HostRoot
| HostComponent
| HostText
| HostPortal
| ForwardRef
| Fragment
| Mode
| ContextProvider
| ContextConsumer
| Profiler
| SuspenseComponent
| FunctionComponent
| MemoComponent
| LazyComponent.

#[global] Instance WorkTag_eq_dec : EqDecision WorkTag.
Proof. solve_decision. Defined.

(** What running application code computes.  [call fid this args] is the call of a
    function: updater functions are required to be pure (the source warns when one
    schedules an update), so a call is a function of its receiver and arguments.
    [toString v] is the conversion of a value to a string, which calls the
    [toString] or [valueOf] method of an object and may throw what they throw; for
    a symbol it throws a [TypeError]. *)
Class Calls : Type := {
  call : nat → value → list value → value;
  toString : value → result string;
  toString_symbol : ∀ description, toString (VSymbol description) = Throw TypeError
}.

(** ** The heap *)

Module Fiber.

(** The [Fiber] record of ReactFiber.js, with the fields [FiberNode] initialises.
    Pointers to other fibers and to the update queue are arena addresses; [return_]
    is the source's [return].  The DEV-only [_debug*] fields are left out. *)

Record t : Type := mk {
  tag : WorkTag;
  key : option string;
  elementType : value;
  type : value;
  stateNode : value;
  return_ : option addr;
  child : option addr;
  sibling : option addr;
  index : Z;
  ref : value;
  pendingProps : value;
  memoizedProps : value;
  updateQueue : option addr;
  memoizedState : value;
  contextDependencies : value;
  mode : Z;
  effectTag : Z;
  nextEffect : option addr;
  firstEffect : option addr;
  lastEffect : option addr;
  expirationTime : Z;
  childExpirationTime : Z;
  alternate : option addr;
  actualDuration : value;
  actualStartTime : value;
  selfBaseDuration : value;
  treeBaseDuration : value
}.

Definition set_elementType (v : value) (x : t) : t :=
  {| tag := tag x; key := key x; elementType := v; type := type x;
     stateNode := stateNode x; return_ := return_ x; child := child x;
     sibling := sibling x; index := index x; ref := ref x; pendingProps := pendingProps x;
     memoizedProps := memoizedProps x; updateQueue := updateQueue x;
     memoizedState := memoizedState x; contextDependencies := contextDependencies x;
     mode := mode x; effectTag := effectTag x; nextEffect := nextEffect x;
     firstEffect := firstEffect x; lastEffect := lastEffect x;
     expirationTime := expirationTime x; childExpirationTime := childExpirationTime x;
     alternate := alternate x; actualDuration := actualDuration x;
     actualStartTime := actualStartTime x; selfBaseDuration := selfBaseDuration x;
     treeBaseDuration := treeBaseDuration x |}.

Definition set_type (v : value) (x : t) : t :=
  {| tag := tag x; key := key x; elementType := elementType x; type := v;
     stateNode := stateNode x; return_ := return_ x; child := child x;
     sibling := sibling x; index := index x; ref := ref x; pendingProps := pendingProps x;
     memoizedProps := memoizedProps x; updateQueue := updateQueue x;
     memoizedState := memoizedState x; contextDependencies := contextDependencies x;
     mode := mode x; effectTag := effectTag x; nextEffect := nextEffect x;
     firstEffect := firstEffect x; lastEffect := lastEffect x;
     expirationTime := expirationTime x; childExpirationTime := childExpirationTime x;
     alternate := alternate x; actualDuration := actualDuration x;
     actualStartTime := actualStartTime x; selfBaseDuration := selfBaseDuration x;
     treeBaseDuration := treeBaseDuration x |}.

Definition set_stateNode (v : value) (x : t) : t :=
  {| tag := tag x; key := key x; elementType := elementType x; type := type x;
     stateNode := v; return_ := return_ x; child := child x; sibling := sibling x;
     index := index x; ref := ref x; pendingProps := pendingProps x;
     memoizedProps := memoizedProps x; updateQueue := updateQueue x;
     memoizedState := memoizedState x; contextDependencies := contextDependencies x;
     mode := mode x; effectTag := effectTag x; nextEffect := nextEffect x;
     firstEffect := firstEffect x; lastEffect := lastEffect x;
     expirationTime := expirationTime x; childExpirationTime := childExpirationTime x;
     alternate := alternate x; actualDuration := actualDuration x;
     actualStartTime := actualStartTime x; selfBaseDuration := selfBaseDuration x;
     treeBaseDuration := treeBaseDuration x |}.

Definition set_return_ (v : option addr) (x : t) : t :=
  {| tag := tag x; key := key x; elementType := elementType x; type := type x;
     stateNode := stateNode x; return_ := v; child := child x; sibling := sibling x;
     index := index x; ref := ref x; pendingProps := pendingProps x;
     memoizedProps := memoizedProps x; updateQueue := updateQueue x;
     memoizedState := memoizedState x; contextDependencies := contextDependencies x;
     mode := mode x; effectTag := effectTag x; nextEffect := nextEffect x;
     firstEffect := firstEffect x; lastEffect := lastEffect x;
     expirationTime := expirationTime x; childExpirationTime := childExpirationTime x;
     alternate := alternate x; actualDuration := actualDuration x;
     actualStartTime := actualStartTime x; selfBaseDuration := selfBaseDuration x;
     treeBaseDuration := treeBaseDuration x |}.

Definition set_child (v : option addr) (x : t) : t :=
  {| tag := tag x; key := key x; elementType := elementType x; type := type x;
     stateNode := stateNode x; return_ := return_ x; child := v; sibling := sibling x;
     index := index x; ref := ref x; pendingProps := pendingProps x;
     memoizedProps := memoizedProps x; updateQueue := updateQueue x;
     memoizedState := memoizedState x; contextDependencies := contextDependencies x;
     mode := mode x; effectTag := effectTag x; nextEffect := nextEffect x;
     firstEffect := firstEffect x; lastEffect := lastEffect x;
     expirationTime := expirationTime x; childExpirationTime := childExpirationTime x;
     alternate := alternate x; actualDuration := actualDuration x;
     actualStartTime := actualStartTime x; selfBaseDuration := selfBaseDuration x;
     treeBaseDuration := treeBaseDuration x |}.

Definition set_sibling (v : option addr) (x : t) : t :=
  {| tag := tag x; key := key x; elementType := elementType x; type := type x;
     stateNode := stateNode x; return_ := return_ x; child := child x; sibling := v;
     index := index x; ref := ref x; pendingProps := pendingProps x;
     memoizedProps := memoizedProps x; updateQueue := updateQueue x;
     memoizedState := memoizedState x; contextDependencies := contextDependencies x;
     mode := mode x; effectTag := effectTag x; nextEffect := nextEffect x;
     firstEffect := firstEffect x; lastEffect := lastEffect x;
     expirationTime := expirationTime x; childExpirationTime := childExpirationTime x;
     alternate := alternate x; actualDuration := actualDuration x;
     actualStartTime := actualStartTime x; selfBaseDuration := selfBaseDuration x;
     treeBaseDuration := treeBaseDuration x |}.

Definition set_index (v : Z) (x : t) : t :=
  {| tag := tag x; key := key x; elementType := elementType x; type := type x;
     stateNode := stateNode x; return_ := return_ x; child := child x;
     sibling := sibling x; index := v; ref := ref x; pendingProps := pendingProps x;
     memoizedProps := memoizedProps x; updateQueue := updateQueue x;
     memoizedState := memoizedState x; contextDependencies := contextDependencies x;
     mode := mode x; effectTag := effectTag x; nextEffect := nextEffect x;
     firstEffect := firstEffect x; lastEffect := lastEffect x;
     expirationTime := expirationTime x; childExpirationTime := childExpirationTime x;
     alternate := alternate x; actualDuration := actualDuration x;
     actualStartTime := actualStartTime x; selfBaseDuration := selfBaseDuration x;
     treeBaseDuration := treeBaseDuration x |}.

Definition set_ref (v : value) (x : t) : t :=
  {| tag := tag x; key := key x; elementType := elementType x; type := type x;
     stateNode := stateNode x; return_ := return_ x; child := child x;
     sibling := sibling x; index := index x; ref := v; pendingProps := pendingProps x;
     memoizedProps := memoizedProps x; updateQueue := updateQueue x;
     memoizedState := memoizedState x; contextDependencies := contextDependencies x;
     mode := mode x; effectTag := effectTag x; nextEffect := nextEffect x;
     firstEffect := firstEffect x; lastEffect := lastEffect x;
     expirationTime := expirationTime x; childExpirationTime := childExpirationTime x;
     alternate := alternate x; actualDuration := actualDuration x;
     actualStartTime := actualStartTime x; selfBaseDuration := selfBaseDuration x;
     treeBaseDuration := treeBaseDuration x |}.

Definition set_pendingProps (v : value) (x : t) : t :=
  {| tag := tag x; key := key x; elementType := elementType x; type := type x;
     stateNode := stateNode x; return_ := return_ x; child := child x;
     sibling := sibling x; index := index x; ref := ref x; pendingProps := v;
     memoizedProps := memoizedProps x; updateQueue := updateQueue x;
     memoizedState := memoizedState x; contextDependencies := contextDependencies x;
     mode := mode x; effectTag := effectTag x; nextEffect := nextEffect x;
     firstEffect := firstEffect x; lastEffect := lastEffect x;
     expirationTime := expirationTime x; childExpirationTime := childExpirationTime x;
     alternate := alternate x; actualDuration := actualDuration x;
     actualStartTime := actualStartTime x; selfBaseDuration := selfBaseDuration x;
     treeBaseDuration := treeBaseDuration x |}.

Definition set_memoizedProps (v : value) (x : t) : t :=
  {| tag := tag x; key := key x; elementType := elementType x; type := type x;
     stateNode := stateNode x; return_ := return_ x; child := child x;
     sibling := sibling x; index := index x; ref := ref x; pendingProps := pendingProps x;
     memoizedProps := v; updateQueue := updateQueue x; memoizedState := memoizedState x;
     contextDependencies := contextDependencies x; mode := mode x;
     effectTag := effectTag x; nextEffect := nextEffect x; firstEffect := firstEffect x;
     lastEffect := lastEffect x; expirationTime := expirationTime x;
     childExpirationTime := childExpirationTime x; alternate := alternate x;
     actualDuration := actualDuration x; actualStartTime := actualStartTime x;
     selfBaseDuration := selfBaseDuration x; treeBaseDuration := treeBaseDuration x |}.

Definition set_updateQueue (v : option addr) (x : t) : t :=
  {| tag := tag x; key := key x; elementType := elementType x; type := type x;
     stateNode := stateNode x; return_ := return_ x; child := child x;
     sibling := sibling x; index := index x; ref := ref x; pendingProps := pendingProps x;
     memoizedProps := memoizedProps x; updateQueue := v; memoizedState := memoizedState x;
     contextDependencies := contextDependencies x; mode := mode x;
     effectTag := effectTag x; nextEffect := nextEffect x; firstEffect := firstEffect x;
     lastEffect := lastEffect x; expirationTime := expirationTime x;
     childExpirationTime := childExpirationTime x; alternate := alternate x;
     actualDuration := actualDuration x; actualStartTime := actualStartTime x;
     selfBaseDuration := selfBaseDuration x; treeBaseDuration := treeBaseDuration x |}.

Definition set_memoizedState (v : value) (x : t) : t :=
  {| tag := tag x; key := key x; elementType := elementType x; type := type x;
     stateNode := stateNode x; return_ := return_ x; child := child x;
     sibling := sibling x; index := index x; ref := ref x; pendingProps := pendingProps x;
     memoizedProps := memoizedProps x; updateQueue := updateQueue x; memoizedState := v;
     contextDependencies := contextDependencies x; mode := mode x;
     effectTag := effectTag x; nextEffect := nextEffect x; firstEffect := firstEffect x;
     lastEffect := lastEffect x; expirationTime := expirationTime x;
     childExpirationTime := childExpirationTime x; alternate := alternate x;
     actualDuration := actualDuration x; actualStartTime := actualStartTime x;
     selfBaseDuration := selfBaseDuration x; treeBaseDuration := treeBaseDuration x |}.

Definition set_contextDependencies (v : value) (x : t) : t :=
  {| tag := tag x; key := key x; elementType := elementType x; type := type x;
     stateNode := stateNode x; return_ := return_ x; child := child x;
     sibling := sibling x; index := index x; ref := ref x; pendingProps := pendingProps x;
     memoizedProps := memoizedProps x; updateQueue := updateQueue x;
     memoizedState := memoizedState x; contextDependencies := v; mode := mode x;
     effectTag := effectTag x; nextEffect := nextEffect x; firstEffect := firstEffect x;
     lastEffect := lastEffect x; expirationTime := expirationTime x;
     childExpirationTime := childExpirationTime x; alternate := alternate x;
     actualDuration := actualDuration x; actualStartTime := actualStartTime x;
     selfBaseDuration := selfBaseDuration x; treeBaseDuration := treeBaseDuration x |}.

Definition set_effectTag (v : Z) (x : t) : t :=
  {| tag := tag x; key := key x; elementType := elementType x; type := type x;
     stateNode := stateNode x; return_ := return_ x; child := child x;
     sibling := sibling x; index := index x; ref := ref x; pendingProps := pendingProps x;
     memoizedProps := memoizedProps x; updateQueue := updateQueue x;
     memoizedState := memoizedState x; contextDependencies := contextDependencies x;
     mode := mode x; effectTag := v; nextEffect := nextEffect x;
     firstEffect := firstEffect x; lastEffect := lastEffect x;
     expirationTime := expirationTime x; childExpirationTime := childExpirationTime x;
     alternate := alternate x; actualDuration := actualDuration x;
     actualStartTime := actualStartTime x; selfBaseDuration := selfBaseDuration x;
     treeBaseDuration := treeBaseDuration x |}.

Definition set_nextEffect (v : option addr) (x : t) : t :=
  {| tag := tag x; key := key x; elementType := elementType x; type := type x;
     stateNode := stateNode x; return_ := return_ x; child := child x;
     sibling := sibling x; index := index x; ref := ref x; pendingProps := pendingProps x;
     memoizedProps := memoizedProps x; updateQueue := updateQueue x;
     memoizedState := memoizedState x; contextDependencies := contextDependencies x;
     mode := mode x; effectTag := effectTag x; nextEffect := v;
     firstEffect := firstEffect x; lastEffect := lastEffect x;
     expirationTime := expirationTime x; childExpirationTime := childExpirationTime x;
     alternate := alternate x; actualDuration := actualDuration x;
     actualStartTime := actualStartTime x; selfBaseDuration := selfBaseDuration x;
     treeBaseDuration := treeBaseDuration x |}.

Definition set_firstEffect (v : option addr) (x : t) : t :=
  {| tag := tag x; key := key x; elementType := elementType x; type := type x;
     stateNode := stateNode x; return_ := return_ x; child := child x;
     sibling := sibling x; index := index x; ref := ref x; pendingProps := pendingProps x;
     memoizedProps := memoizedProps x; updateQueue := updateQueue x;
     memoizedState := memoizedState x; contextDependencies := contextDependencies x;
     mode := mode x; effectTag := effectTag x; nextEffect := nextEffect x;
     firstEffect := v; lastEffect := lastEffect x; expirationTime := expirationTime x;
     childExpirationTime := childExpirationTime x; alternate := alternate x;
     actualDuration := actualDuration x; actualStartTime := actualStartTime x;
     selfBaseDuration := selfBaseDuration x; treeBaseDuration := treeBaseDuration x |}.

Definition set_lastEffect (v : option addr) (x : t) : t :=
  {| tag := tag x; key := key x; elementType := elementType x; type := type x;
     stateNode := stateNode x; return_ := return_ x; child := child x;
     sibling := sibling x; index := index x; ref := ref x; pendingProps := pendingProps x;
     memoizedProps := memoizedProps x; updateQueue := updateQueue x;
     memoizedState := memoizedState x; contextDependencies := contextDependencies x;
     mode := mode x; effectTag := effectTag x; nextEffect := nextEffect x;
     firstEffect := firstEffect x; lastEffect := v; expirationTime := expirationTime x;
     childExpirationTime := childExpirationTime x; alternate := alternate x;
     actualDuration := actualDuration x; actualStartTime := actualStartTime x;
     selfBaseDuration := selfBaseDuration x; treeBaseDuration := treeBaseDuration x |}.

Definition set_expirationTime (v : Z) (x : t) : t :=
  {| tag := tag x; key := key x; elementType := elementType x; type := type x;
     stateNode := stateNode x; return_ := return_ x; child := child x;
     sibling := sibling x; index := index x; ref := ref x; pendingProps := pendingProps x;
     memoizedProps := memoizedProps x; updateQueue := updateQueue x;
     memoizedState := memoizedState x; contextDependencies := contextDependencies x;
     mode := mode x; effectTag := effectTag x; nextEffect := nextEffect x;
     firstEffect := firstEffect x; lastEffect := lastEffect x; expirationTime := v;
     childExpirationTime := childExpirationTime x; alternate := alternate x;
     actualDuration := actualDuration x; actualStartTime := actualStartTime x;
     selfBaseDuration := selfBaseDuration x; treeBaseDuration := treeBaseDuration x |}.

Definition set_childExpirationTime (v : Z) (x : t) : t :=
  {| tag := tag x; key := key x; elementType := elementType x; type := type x;
     stateNode := stateNode x; return_ := return_ x; child := child x;
     sibling := sibling x; index := index x; ref := ref x; pendingProps := pendingProps x;
     memoizedProps := memoizedProps x; updateQueue := updateQueue x;
     memoizedState := memoizedState x; contextDependencies := contextDependencies x;
     mode := mode x; effectTag := effectTag x; nextEffect := nextEffect x;
     firstEffect := firstEffect x; lastEffect := lastEffect x;
     expirationTime := expirationTime x; childExpirationTime := v;
     alternate := alternate x; actualDuration := actualDuration x;
     actualStartTime := actualStartTime x; selfBaseDuration := selfBaseDuration x;
     treeBaseDuration := treeBaseDuration x |}.

Definition set_alternate (v : option addr) (x : t) : t :=
  {| tag := tag x; key := key x; elementType := elementType x; type := type x;
     stateNode := stateNode x; return_ := return_ x; child := child x;
     sibling := sibling x; index := index x; ref := ref x; pendingProps := pendingProps x;
     memoizedProps := memoizedProps x; updateQueue := updateQueue x;
     memoizedState := memoizedState x; contextDependencies := contextDependencies x;
     mode := mode x; effectTag := effectTag x; nextEffect := nextEffect x;
     firstEffect := firstEffect x; lastEffect := lastEffect x;
     expirationTime := expirationTime x; childExpirationTime := childExpirationTime x;
     alternate := v; actualDuration := actualDuration x;
     actualStartTime := actualStartTime x; selfBaseDuration := selfBaseDuration x;
     treeBaseDuration := treeBaseDuration x |}.

Definition set_actualDuration (v : value) (x : t) : t :=
  {| tag := tag x; key := key x; elementType := elementType x; type := type x;
     stateNode := stateNode x; return_ := return_ x; child := child x;
     sibling := sibling x; index := index x; ref := ref x; pendingProps := pendingProps x;
     memoizedProps := memoizedProps x; updateQueue := updateQueue x;
     memoizedState := memoizedState x; contextDependencies := contextDependencies x;
     mode := mode x; effectTag := effectTag x; nextEffect := nextEffect x;
     firstEffect := firstEffect x; lastEffect := lastEffect x;
     expirationTime := expirationTime x; childExpirationTime := childExpirationTime x;
     alternate := alternate x; actualDuration := v; actualStartTime := actualStartTime x;
     selfBaseDuration := selfBaseDuration x; treeBaseDuration := treeBaseDuration x |}.

Definition set_actualStartTime (v : value) (x : t) : t :=
  {| tag := tag x; key := key x; elementType := elementType x; type := type x;
     stateNode := stateNode x; return_ := return_ x; child := child x;
     sibling := sibling x; index := index x; ref := ref x; pendingProps := pendingProps x;
     memoizedProps := memoizedProps x; updateQueue := updateQueue x;
     memoizedState := memoizedState x; contextDependencies := contextDependencies x;
     mode := mode x; effectTag := effectTag x; nextEffect := nextEffect x;
     firstEffect := firstEffect x; lastEffect := lastEffect x;
     expirationTime := expirationTime x; childExpirationTime := childExpirationTime x;
     alternate := alternate x; actualDuration := actualDuration x; actualStartTime := v;
     selfBaseDuration := selfBaseDuration x; treeBaseDuration := treeBaseDuration x |}.

Definition set_selfBaseDuration (v : value) (x : t) : t :=
  {| tag := tag x; key := key x; elementType := elementType x; type := type x;
     stateNode := stateNode x; return_ := return_ x; child := child x;
     sibling := sibling x; index := index x; ref := ref x; pendingProps := pendingProps x;
     memoizedProps := memoizedProps x; updateQueue := updateQueue x;
     memoizedState := memoizedState x; contextDependencies := contextDependencies x;
     mode := mode x; effectTag := effectTag x; nextEffect := nextEffect x;
     firstEffect := firstEffect x; lastEffect := lastEffect x;
     expirationTime := expirationTime x; childExpirationTime := childExpirationTime x;
     alternate := alternate x; actualDuration := actualDuration x;
     actualStartTime := actualStartTime x; selfBaseDuration := v;
     treeBaseDuration := treeBaseDuration x |}.

Definition set_treeBaseDuration (v : value) (x : t) : t :=
  {| tag := tag x; key := key x; elementType := elementType x; type := type x;
     stateNode := stateNode x; return_ := return_ x; child := child x;
     sibling := sibling x; index := index x; ref := ref x; pendingProps := pendingProps x;
     memoizedProps := memoizedProps x; updateQueue := updateQueue x;
     memoizedState := memoizedState x; contextDependencies := contextDependencies x;
     mode := mode x; effectTag := effectTag x; nextEffect := nextEffect x;
     firstEffect := firstEffect x; lastEffect := lastEffect x;
     expirationTime := expirationTime x; childExpirationTime := childExpirationTime x;
     alternate := alternate x; actualDuration := actualDuration x;
     actualStartTime := actualStartTime x; selfBaseDuration := selfBaseDuration x;
     treeBaseDuration := v |}.

End Fiber.

Module Update.

(** [Update<State>] of ReactUpdateQueue.js.  [next] and [nextEffect] are addresses in
    the arena of updates; the payload and the callback are JavaScript values. *)

Record t : Type := mk {
  expirationTime : Z;
  tag : Z;
  payload : value;
  callback : value;
  next : option addr;
  nextEffect : option addr
}.

Definition set_callback (v : value) (x : t) : t :=
  {| expirationTime := expirationTime x; tag := tag x; payload := payload x; callback := v;
     next := next x; nextEffect := nextEffect x |}.

Definition set_next (v : option addr) (x : t) : t :=
  {| expirationTime := expirationTime x; tag := tag x; payload := payload x;
     callback := callback x; next := v; nextEffect := nextEffect x |}.

Definition set_nextEffect (v : option addr) (x : t) : t :=
  {| expirationTime := expirationTime x; tag := tag x; payload := payload x;
     callback := callback x; next := next x; nextEffect := v |}.

End Update.

Module UpdateQueue.

(** [UpdateQueue<State>] of ReactUpdateQueue.js. *)

Record t : Type := mk {
  baseState : value;
  firstUpdate : option addr;
  lastUpdate : option addr;
  firstCapturedUpdate : option addr;
  lastCapturedUpdate : option addr;
  firstEffect : option addr;
  lastEffect : option addr;
  firstCapturedEffect : option addr;
  lastCapturedEffect : option addr
}.

Definition set_baseState (v : value) (x : t) : t :=
  {| baseState := v; firstUpdate := firstUpdate x; lastUpdate := lastUpdate x;
     firstCapturedUpdate := firstCapturedUpdate x;
     lastCapturedUpdate := lastCapturedUpdate x; firstEffect := firstEffect x;
     lastEffect := lastEffect x; firstCapturedEffect := firstCapturedEffect x;
     lastCapturedEffect := lastCapturedEffect x |}.

Definition set_firstUpdate (v : option addr) (x : t) : t :=
  {| baseState := baseState x; firstUpdate := v; lastUpdate := lastUpdate x;
     firstCapturedUpdate := firstCapturedUpdate x;
     lastCapturedUpdate := lastCapturedUpdate x; firstEffect := firstEffect x;
     lastEffect := lastEffect x; firstCapturedEffect := firstCapturedEffect x;
     lastCapturedEffect := lastCapturedEffect x |}.

Definition set_lastUpdate (v : option addr) (x : t) : t :=
  {| baseState := baseState x; firstUpdate := firstUpdate x; lastUpdate := v;
     firstCapturedUpdate := firstCapturedUpdate x;
     lastCapturedUpdate := lastCapturedUpdate x; firstEffect := firstEffect x;
     lastEffect := lastEffect x; firstCapturedEffect := firstCapturedEffect x;
     lastCapturedEffect := lastCapturedEffect x |}.

Definition set_firstCapturedUpdate (v : option addr) (x : t) : t :=
  {| baseState := baseState x; firstUpdate := firstUpdate x; lastUpdate := lastUpdate x;
     firstCapturedUpdate := v; lastCapturedUpdate := lastCapturedUpdate x;
     firstEffect := firstEffect x; lastEffect := lastEffect x;
     firstCapturedEffect := firstCapturedEffect x;
     lastCapturedEffect := lastCapturedEffect x |}.

Definition set_lastCapturedUpdate (v : option addr) (x : t) : t :=
  {| baseState := baseState x; firstUpdate := firstUpdate x; lastUpdate := lastUpdate x;
     firstCapturedUpdate := firstCapturedUpdate x; lastCapturedUpdate := v;
     firstEffect := firstEffect x; lastEffect := lastEffect x;
     firstCapturedEffect := firstCapturedEffect x;
     lastCapturedEffect := lastCapturedEffect x |}.

Definition set_firstEffect (v : option addr) (x : t) : t :=
  {| baseState := baseState x; firstUpdate := firstUpdate x; lastUpdate := lastUpdate x;
     firstCapturedUpdate := firstCapturedUpdate x;
     lastCapturedUpdate := lastCapturedUpdate x; firstEffect := v;
     lastEffect := lastEffect x; firstCapturedEffect := firstCapturedEffect x;
     lastCapturedEffect := lastCapturedEffect x |}.

Definition set_lastEffect (v : option addr) (x : t) : t :=
  {| baseState := baseState x; firstUpdate := firstUpdate x; lastUpdate := lastUpdate x;
     firstCapturedUpdate := firstCapturedUpdate x;
     lastCapturedUpdate := lastCapturedUpdate x; firstEffect := firstEffect x;
     lastEffect := v; firstCapturedEffect := firstCapturedEffect x;
     lastCapturedEffect := lastCapturedEffect x |}.

Definition set_firstCapturedEffect (v : option addr) (x : t) : t :=
  {| baseState := baseState x; firstUpdate := firstUpdate x; lastUpdate := lastUpdate x;
     firstCapturedUpdate := firstCapturedUpdate x;
     lastCapturedUpdate := lastCapturedUpdate x; firstEffect := firstEffect x;
     lastEffect := lastEffect x; firstCapturedEffect := v;
     lastCapturedEffect := lastCapturedEffect x |}.

Definition set_lastCapturedEffect (v : option addr) (x : t) : t :=
  {| baseState := baseState x; firstUpdate := firstUpdate x; lastUpdate := lastUpdate x;
     firstCapturedUpdate := firstCapturedUpdate x;
     lastCapturedUpdate := lastCapturedUpdate x; firstEffect := firstEffect x;
     lastEffect := lastEffect x; firstCapturedEffect := firstCapturedEffect x;
     lastCapturedEffect := v |}.

End UpdateQueue.

Module Store.

(** The mutable heap the reconciler works on: one arena per kind of object, the
    module-level flag [hasForceUpdate] of ReactUpdateQueue.js, and the log of the
    callbacks that [callCallback] has invoked, as (callback, context) pairs. *)

Record t : Type := mk {
  fibers : list Fiber.t;
  queues : list UpdateQueue.t;
  updates : list Update.t;
  hasForceUpdate : bool;
  invoked : list (value * value)
}.

Definition set_fibers (v : list Fiber.t) (x : t) : t :=
  {| fibers := v; queues := queues x; updates := updates x;
     hasForceUpdate := hasForceUpdate x; invoked := invoked x |}.

Definition set_queues (v : list UpdateQueue.t) (x : t) : t :=
  {| fibers := fibers x; queues := v; updates := updates x;
     hasForceUpdate := hasForceUpdate x; invoked := invoked x |}.

Definition set_updates (v : list Update.t) (x : t) : t :=
  {| fibers := fibers x; queues := queues x; updates := v;
     hasForceUpdate := hasForceUpdate x; invoked := invoked x |}.

Definition set_hasForceUpdate (v : bool) (x : t) : t :=
  {| fibers := fibers x; queues := queues x; updates := updates x; hasForceUpdate := v;
     invoked := invoked x |}.

Definition set_invoked (v : list (value * value)) (x : t) : t :=
  {| fibers := fibers x; queues := queues x; updates := updates x;
     hasForceUpdate := hasForceUpdate x; invoked := v |}.

End Store.


#[global] Instance result_ret : MRet result := λ A a, Ok a.

#[global] Instance result_bind : MBind result :=
  λ A B f r, match r with Ok a => f a | Throw e => Throw e end.

(** ** Reading and writing the arenas *)

Module Heap.

(** Dereference a pointer into an arena. *)
Definition deref {A : Type} (arena : Store.t → list A) (a : addr) : M Store.t A :=
  λ s, match arena s !! a with
       | Some x => (Ok x, s)
       | None => (Throw BadReference, s)
       end.

Definition getFiber : addr → M Store.t Fiber.t := deref Store.fibers.

Definition getQueue : addr → M Store.t UpdateQueue.t := deref Store.queues.

Definition getUpdate : addr → M Store.t Update.t := deref Store.updates.

(** [a.field = ...]: the object at [a] is replaced by [g] of it. *)
Definition setFiber (a : addr) (g : Fiber.t → Fiber.t) : M Store.t unit :=
  x ← getFiber a;
  modify (λ s, Store.set_fibers (<[a := g x]> (Store.fibers s)) s).

Definition setQueue (a : addr) (g : UpdateQueue.t → UpdateQueue.t) : M Store.t unit :=
  x ← getQueue a;
  modify (λ s, Store.set_queues (<[a := g x]> (Store.queues s)) s).

Definition setUpdate (a : addr) (g : Update.t → Update.t) : M Store.t unit :=
  x ← getUpdate a;
  modify (λ s, Store.set_updates (<[a := g x]> (Store.updates s)) s).

(** Allocation: the new object takes the next free address of its arena. *)
Definition newFiber (x : Fiber.t) : M Store.t addr :=
  λ s, (Ok (length (Store.fibers s)), Store.set_fibers (Store.fibers s ++ [x]) s).

Definition newQueue (x : UpdateQueue.t) : M Store.t addr :=
  λ s, (Ok (length (Store.queues s)), Store.set_queues (Store.queues s ++ [x]) s).

Definition newUpdate (x : Update.t) : M Store.t addr :=
  λ s, (Ok (length (Store.updates s)), Store.set_updates (Store.updates s ++ [x]) s).

(** [a.field], read from the heap. *)
Definition readFiber {A : Type} (a : addr) (field : Fiber.t → A) : M Store.t A :=
  x ← getFiber a; mret (field x).

Definition readQueue {A : Type} (a : addr) (field : UpdateQueue.t → A) : M Store.t A :=
  x ← getQueue a; mret (field x).

Definition readUpdate {A : Type} (a : addr) (field : Update.t → A) : M Store.t A :=
  x ← getUpdate a; mret (field x).

(** [target.field = source.field]. *)
Definition copyField {A : Type} (target source : addr)
    (field : Fiber.t → A) (set : A → Fiber.t → Fiber.t) : M Store.t unit :=
  v ← readFiber source field;
  setFiber target (set v).

(** The store before anything is allocated. *)
Definition empty : Store.t :=
  {| Store.fibers := []; Store.queues := []; Store.updates := [];
     Store.hasForceUpdate := false; Store.invoked := [] |}.

End Heap.
Import Heap.

(** ** ReactFiber.js *)

Module ReactFiber.

Section Definitions.
Context `{SideEffectTags, ExpirationTimes, TypeOfMode, FeatureFlags, ReactSymbols}.

(** The constructor [FiberNode].  With the profiler timer enabled the four duration
    fields end up as 0, -1, 0 and 0; otherwise they are never assigned. *)
Definition FiberNode (tag : WorkTag) (pendingProps : value) (key : option string)
    (mode : Z) : Fiber.t :=
  {| Fiber.tag := tag;
     Fiber.key := key;
     Fiber.elementType := VNull;
     Fiber.type := VNull;
     Fiber.stateNode := VNull;
     Fiber.return_ := None;
     Fiber.child := None;
     Fiber.sibling := None;
     Fiber.index := 0;
     Fiber.ref := VNull;
     Fiber.pendingProps := pendingProps;
     Fiber.memoizedProps := VNull;
     Fiber.updateQueue := None;
     Fiber.memoizedState := VNull;
     Fiber.contextDependencies := VNull;
     Fiber.mode := mode;
     Fiber.effectTag := NoEffect;
     Fiber.nextEffect := None;
     Fiber.firstEffect := None;
     Fiber.lastEffect := None;
     Fiber.expirationTime := NoWork;
     Fiber.childExpirationTime := NoWork;
     Fiber.alternate := None;
     Fiber.actualDuration := if enableProfilerTimer then VNumber 0 else VUndefined;
     Fiber.actualStartTime := if enableProfilerTimer then VNumber (-1) else VUndefined;
     Fiber.selfBaseDuration := if enableProfilerTimer then VNumber 0 else VUndefined;
     Fiber.treeBaseDuration := if enableProfilerTimer then VNumber 0 else VUndefined |}.

(** [createFiber]: [new FiberNode(tag, pendingProps, key, mode)]. *)
Definition createFiber (tag : WorkTag) (pendingProps : value) (key : option string)
    (mode : Z) : M Store.t addr :=
  newFiber (FiberNode tag pendingProps key mode).

(** [shouldConstruct]: [!!(prototype && prototype.isReactComponent)]. *)
Definition shouldConstruct (Component : value) : result bool :=
  prototype ← getProp Component "prototype";
  if toBoolean prototype
  then isReactComponent ← getProp prototype "isReactComponent";
       mret (toBoolean isReactComponent)
  else mret false.

(** [createWorkInProgress]: the alternate of [current], created on the first call and
    refreshed from [current] on every call. *)
Definition createWorkInProgress (current : addr) (pendingProps : value)
    (expirationTime : Z) : M Store.t addr :=
  alternate ← readFiber current Fiber.alternate;
  workInProgress ←
    match alternate with
    | None =>
        tag ← readFiber current Fiber.tag;
        key ← readFiber current Fiber.key;
        mode ← readFiber current Fiber.mode;
        workInProgress ← createFiber tag pendingProps key mode;
        copyField workInProgress current Fiber.elementType Fiber.set_elementType;;
        copyField workInProgress current Fiber.type Fiber.set_type;;
        copyField workInProgress current Fiber.stateNode Fiber.set_stateNode;;
        setFiber workInProgress (Fiber.set_alternate (Some current));;
        setFiber current (Fiber.set_alternate (Some workInProgress));;
        mret workInProgress
    | Some workInProgress =>
        setFiber workInProgress (Fiber.set_pendingProps pendingProps);;
        setFiber workInProgress (Fiber.set_effectTag NoEffect);;
        setFiber workInProgress (Fiber.set_nextEffect None);;
        setFiber workInProgress (Fiber.set_firstEffect None);;
        setFiber workInProgress (Fiber.set_lastEffect None);;
        (if enableProfilerTimer
         then setFiber workInProgress (Fiber.set_actualDuration (VNumber 0));;
              setFiber workInProgress (Fiber.set_actualStartTime (VNumber (-1)))
         else mret tt);;
        mret workInProgress
    end;
  copyField workInProgress current Fiber.childExpirationTime Fiber.set_childExpirationTime;;
  copyField workInProgress current Fiber.expirationTime Fiber.set_expirationTime;;
  copyField workInProgress current Fiber.child Fiber.set_child;;
  copyField workInProgress current Fiber.memoizedProps Fiber.set_memoizedProps;;
  copyField workInProgress current Fiber.memoizedState Fiber.set_memoizedState;;
  copyField workInProgress current Fiber.updateQueue Fiber.set_updateQueue;;
  copyField workInProgress current Fiber.contextDependencies Fiber.set_contextDependencies;;
  copyField workInProgress current Fiber.sibling Fiber.set_sibling;;
  copyField workInProgress current Fiber.index Fiber.set_index;;
  copyField workInProgress current Fiber.ref Fiber.set_ref;;
  (if enableProfilerTimer
   then copyField workInProgress current Fiber.selfBaseDuration Fiber.set_selfBaseDuration;;
        copyField workInProgress current Fiber.treeBaseDuration Fiber.set_treeBaseDuration
   else mret tt);;
  mret workInProgress.

(** [createFiberFromFragment]. *)
Definition createFiberFromFragment (elements : value) (mode expirationTime : Z)
    (key : option string) : M Store.t addr :=
  fiber ← createFiber Fragment elements key mode;
  setFiber fiber (Fiber.set_expirationTime expirationTime);;
  mret fiber.

(** [createFiberFromProfiler]. *)
Definition createFiberFromProfiler (pendingProps : value) (mode expirationTime : Z)
    (key : option string) : M Store.t addr :=
  fiber ← createFiber Profiler pendingProps key (bitor mode ProfileMode);
  setFiber fiber (Fiber.set_elementType (marker_value REACT_PROFILER_TYPE));;
  setFiber fiber (Fiber.set_type (marker_value REACT_PROFILER_TYPE));;
  setFiber fiber (Fiber.set_expirationTime expirationTime);;
  mret fiber.

(** [createFiberFromMode]. *)
Definition createFiberFromMode (pendingProps : value) (mode expirationTime : Z)
    (key : option string) : M Store.t addr :=
  fiber ← createFiber Mode pendingProps key mode;
  let type :=
    if (bitand mode ConcurrentMode =? NoContext)%Z
    then marker_value REACT_STRICT_MODE_TYPE
    else marker_value REACT_CONCURRENT_MODE_TYPE in
  setFiber fiber (Fiber.set_elementType type);;
  setFiber fiber (Fiber.set_type type);;
  setFiber fiber (Fiber.set_expirationTime expirationTime);;
  mret fiber.

(** [createFiberFromSuspense]. *)
Definition createFiberFromSuspense (pendingProps : value) (mode expirationTime : Z)
    (key : option string) : M Store.t addr :=
  fiber ← createFiber SuspenseComponent pendingProps key mode;
  setFiber fiber (Fiber.set_elementType (marker_value REACT_SUSPENSE_TYPE));;
  setFiber fiber (Fiber.set_type (marker_value REACT_SUSPENSE_TYPE));;
  setFiber fiber (Fiber.set_expirationTime expirationTime);;
  mret fiber.

(** The inner [switch (type.$$typeof)] of [createFiberFromTypeAndProps]: the tag and
    the resolved type of a tagged object, [None] when no case matches. *)
Definition tagOfTypeof (type typeof_ : value) : option (WorkTag * value) :=
  if is_marker REACT_PROVIDER_TYPE typeof_ then Some (ContextProvider, type)
  else if is_marker REACT_CONTEXT_TYPE typeof_ then Some (ContextConsumer, type)
  else if is_marker REACT_FORWARD_REF_TYPE typeof_ then Some (ForwardRef, type)
  else if is_marker REACT_MEMO_TYPE typeof_ then Some (MemoComponent, type)
  else if is_marker REACT_LAZY_TYPE typeof_ then Some (LazyComponent, VNull)
  else None.

Definition invalidElementType : string :=
  "Element type is invalid: expected a string (for built-in components) or a class/function (for composite components) but got: %s.%s".

(** [createFiberFromTypeAndProps].  [finish] is the code after the labelled block
    [getTag], reached with the tag and the resolved type chosen in it. *)
Definition createFiberFromTypeAndProps (type : value) (key : option string)
    (pendingProps : value) (owner : option addr) (mode expirationTime : Z)
  : M Store.t addr :=
  let finish (fiberTag : WorkTag) (resolvedType : value) : M Store.t addr :=
    fiber ← createFiber fiberTag pendingProps key mode;
    setFiber fiber (Fiber.set_elementType type);;
    setFiber fiber (Fiber.set_type resolvedType);;
    setFiber fiber (Fiber.set_expirationTime expirationTime);;
    mret fiber in
  if decide (typeof type = TFunction) then
    construct ← lift (shouldConstruct type);
    finish (if construct : bool then ClassComponent else IndeterminateComponent) type
  else if decide (typeof type = TString) then
    finish HostComponent type
  else if is_marker REACT_FRAGMENT_TYPE type then
    children ← lift (getProp pendingProps "children");
    createFiberFromFragment children mode expirationTime key
  else if is_marker REACT_CONCURRENT_MODE_TYPE type then
    createFiberFromMode pendingProps (bitor (bitor mode ConcurrentMode) StrictMode)
      expirationTime key
  else if is_marker REACT_STRICT_MODE_TYPE type then
    createFiberFromMode pendingProps (bitor mode StrictMode) expirationTime key
  else if is_marker REACT_PROFILER_TYPE type then
    createFiberFromProfiler pendingProps mode expirationTime key
  else if is_marker REACT_SUSPENSE_TYPE type then
    createFiberFromSuspense pendingProps mode expirationTime key
  else
    resolved ←
      (if decide (typeof type = TObject) then
         if is_null type then mret None
         else typeof_ ← lift (getProp type "$$typeof");
              mret (tagOfTypeof type typeof_)
       else mret None);
    match resolved with
    | Some (fiberTag, resolvedType) => finish fiberTag resolvedType
    | None =>
        invariant false invalidElementType;;
        finish IndeterminateComponent type
    end.

End Definitions.

End ReactFiber.

(** ** ReactUpdateQueue.js *)

Module ReactUpdateQueue.

Definition UpdateState : Z := 0.
Definition ReplaceState : Z := 1.
Definition ForceUpdate : Z := 2.
Definition CaptureUpdate : Z := 3.

Section Definitions.
Context `{SideEffectTags, ExpirationTimes, Calls}.

(** [createUpdateQueue]. *)
Definition createUpdateQueue (baseState : value) : M Store.t addr :=
  newQueue
    {| UpdateQueue.baseState := baseState;
       UpdateQueue.firstUpdate := None;
       UpdateQueue.lastUpdate := None;
       UpdateQueue.firstCapturedUpdate := None;
       UpdateQueue.lastCapturedUpdate := None;
       UpdateQueue.firstEffect := None;
       UpdateQueue.lastEffect := None;
       UpdateQueue.firstCapturedEffect := None;
       UpdateQueue.lastCapturedEffect := None |}.

(** [cloneUpdateQueue]: a new queue object that shares the list of updates. *)
Definition cloneUpdateQueue (currentQueue : addr) : M Store.t addr :=
  baseState ← readQueue currentQueue UpdateQueue.baseState;
  firstUpdate ← readQueue currentQueue UpdateQueue.firstUpdate;
  lastUpdate ← readQueue currentQueue UpdateQueue.lastUpdate;
  newQueue
    {| UpdateQueue.baseState := baseState;
       UpdateQueue.firstUpdate := firstUpdate;
       UpdateQueue.lastUpdate := lastUpdate;
       UpdateQueue.firstCapturedUpdate := None;
       UpdateQueue.lastCapturedUpdate := None;
       UpdateQueue.firstEffect := None;
       UpdateQueue.lastEffect := None;
       UpdateQueue.firstCapturedEffect := None;
       UpdateQueue.lastCapturedEffect := None |}.

(** [createUpdate]. *)
Definition createUpdate (expirationTime : Z) : M Store.t addr :=
  newUpdate
    {| Update.expirationTime := expirationTime;
       Update.tag := UpdateState;
       Update.payload := VNull;
       Update.callback := VNull;
       Update.next := None;
       Update.nextEffect := None |}.


(** [fiber.updateQueue = createUpdateQueue(fiber.memoizedState)]. *)
Definition createQueueFor (fiber : addr) : M Store.t addr :=
  memoizedState ← readFiber fiber Fiber.memoizedState;
  queue ← createUpdateQueue memoizedState;
  setFiber fiber (Fiber.set_updateQueue (Some queue));;
  mret queue.

(** [fiber.updateQueue = cloneUpdateQueue(queue)]. *)
Definition cloneQueueFor (fiber queue : addr) : M Store.t addr :=
  clone ← cloneUpdateQueue queue;
  setFiber fiber (Fiber.set_updateQueue (Some clone));;
  mret clone.


(** [ensureWorkInProgressQueueIsAClone]. *)
Definition ensureWorkInProgressQueueIsAClone (workInProgress queue : addr)
  : M Store.t addr :=
  current ← readFiber workInProgress Fiber.alternate;
  match current with
  | Some current =>
      currentQueue ← readFiber current Fiber.updateQueue;
      if decide (Some queue = currentQueue)
      then cloneQueueFor workInProgress queue
      else mret queue
  | None => mret queue
  end.

(** [enqueueCapturedUpdate]. *)
Definition enqueueCapturedUpdate (workInProgress update : addr) : M Store.t unit :=
  workInProgressQueue ← readFiber workInProgress Fiber.updateQueue;
  workInProgressQueue ←
    match workInProgressQueue with
    | None => createQueueFor workInProgress
    | Some queue => ensureWorkInProgressQueueIsAClone workInProgress queue
    end;
  lastCapturedUpdate ← readQueue workInProgressQueue UpdateQueue.lastCapturedUpdate;
  match lastCapturedUpdate with
  | None =>
      setQueue workInProgressQueue (UpdateQueue.set_lastCapturedUpdate (Some update));;
      setQueue workInProgressQueue (UpdateQueue.set_firstCapturedUpdate (Some update))
  | Some last =>
      setUpdate last (Update.set_next (Some update));;
      setQueue workInProgressQueue (UpdateQueue.set_lastCapturedUpdate (Some update))
  end.

(** [payload.call(instance, prevState, nextProps)] when the payload is a function,
    the payload itself otherwise. *)
Definition payloadResult (payload prevState nextProps instance : value) : value :=
  match payload with
  | VFunction fid _ => call fid instance [prevState; nextProps]
  | _ => payload
  end.

(** [getStateFromUpdate]. *)
Definition getStateFromUpdate (workInProgress queue update : addr)
    (prevState nextProps instance : value) : M Store.t value :=
  tag ← readUpdate update Update.tag;
  if (tag =? ReplaceState)%Z then
    payload ← readUpdate update Update.payload;
    mret (payloadResult payload prevState nextProps instance)
  else
    (if (tag =? CaptureUpdate)%Z
     then effectTag ← readFiber workInProgress Fiber.effectTag;
          setFiber workInProgress
            (Fiber.set_effectTag (bitor (bitand effectTag (bitnot ShouldCapture)) DidCapture))
     else mret tt);;
    if ((tag =? CaptureUpdate) || (tag =? UpdateState))%Z then
      payload ← readUpdate update Update.payload;
      let partialState := payloadResult payload prevState nextProps instance in
      if is_null partialState || is_undefined partialState
      then mret prevState
      else mret (VObject (Object_assign ∅ [prevState; partialState]))
    else if (tag =? ForceUpdate)%Z then
      modify (Store.set_hasForceUpdate true);;
      mret prevState
    else mret prevState.

(** The local variables of [processUpdateQueue] that its loops change. *)
Record Locals : Type := mkLocals {
  newBaseState : value;
  newFirstUpdate : option addr;
  newFirstCapturedUpdate : option addr;
  newExpirationTime : Z;
  resultState : value
}.

(** The bookkeeping for a skipped update that both loops share: it stays in the
    list, so the remaining expiration time covers it. *)
Definition remaining (newExpirationTime updateExpirationTime : Z) : Z :=
  if (newExpirationTime <? updateExpirationTime)%Z
  then updateExpirationTime else newExpirationTime.

(** The first [while] loop of [processUpdateQueue], over the normal list.  [fuel]
    bounds the number of iterations. *)
Fixpoint processUpdates (fuel : nat) (workInProgress queue : addr)
    (props instance : value) (renderExpirationTime : Z)
    (update : option addr) (l : Locals) : M Store.t Locals :=
  match update with
  | None => mret l
  | Some update =>
      match fuel with
      | O => throw Diverges
      | S fuel =>
          updateExpirationTime ← readUpdate update Update.expirationTime;
          l ←
            (if (updateExpirationTime <? renderExpirationTime)%Z then
               let l :=
                 match newFirstUpdate l with
                 | None =>
                     mkLocals (resultState l) (Some update) (newFirstCapturedUpdate l)
                       (newExpirationTime l) (resultState l)
                 | Some _ => l
                 end in
               mret (mkLocals (newBaseState l) (newFirstUpdate l)
                       (newFirstCapturedUpdate l)
                       (remaining (newExpirationTime l) updateExpirationTime)
                       (resultState l))
             else
               state ← getStateFromUpdate workInProgress queue update
                         (resultState l) props instance;
               callback ← readUpdate update Update.callback;
               (if is_null callback then mret tt
                else
                  effectTag ← readFiber workInProgress Fiber.effectTag;
                  setFiber workInProgress (Fiber.set_effectTag (bitor effectTag Callback));;
                  setUpdate update (Update.set_nextEffect None);;
                  lastEffect ← readQueue queue UpdateQueue.lastEffect;
                  match lastEffect with
                  | None =>
                      setQueue queue (UpdateQueue.set_lastEffect (Some update));;
                      setQueue queue (UpdateQueue.set_firstEffect (Some update))
                  | Some last =>
                      setUpdate last (Update.set_nextEffect (Some update));;
                      setQueue queue (UpdateQueue.set_lastEffect (Some update))
                  end);;
               mret (mkLocals (newBaseState l) (newFirstUpdate l)
                       (newFirstCapturedUpdate l) (newExpirationTime l) state));
          next ← readUpdate update Update.next;
          processUpdates fuel workInProgress queue props instance renderExpirationTime
            next l
      end
  end.

(** The second [while] loop, over the captured list. *)
Fixpoint processCapturedUpdates (fuel : nat) (workInProgress queue : addr)
    (props instance : value) (renderExpirationTime : Z)
    (update : option addr) (l : Locals) : M Store.t Locals :=
  match update with
  | None => mret l
  | Some update =>
      match fuel with
      | O => throw Diverges
      | S fuel =>
          updateExpirationTime ← readUpdate update Update.expirationTime;
          l ←
            (if (updateExpirationTime <? renderExpirationTime)%Z then
               let l :=
                 match newFirstCapturedUpdate l with
                 | None =>
                     mkLocals
                       (match newFirstUpdate l with
                        | None => resultState l
                        | Some _ => newBaseState l
                        end)
                       (newFirstUpdate l) (Some update) (newExpirationTime l)
                       (resultState l)
                 | Some _ => l
                 end in
               mret (mkLocals (newBaseState l) (newFirstUpdate l)
                       (newFirstCapturedUpdate l)
                       (remaining (newExpirationTime l) updateExpirationTime)
                       (resultState l))
             else
               state ← getStateFromUpdate workInProgress queue update
                         (resultState l) props instance;
               callback ← readUpdate update Update.callback;
               (if is_null callback then mret tt
                else
                  effectTag ← readFiber workInProgress Fiber.effectTag;
                  setFiber workInProgress (Fiber.set_effectTag (bitor effectTag Callback));;
                  setUpdate update (Update.set_nextEffect None);;
                  lastEffect ← readQueue queue UpdateQueue.lastCapturedEffect;
                  match lastEffect with
                  | None =>
                      setQueue queue (UpdateQueue.set_lastCapturedEffect (Some update));;
                      setQueue queue (UpdateQueue.set_firstCapturedEffect (Some update))
                  | Some last =>
                      setUpdate last (Update.set_nextEffect (Some update));;
                      setQueue queue (UpdateQueue.set_lastCapturedEffect (Some update))
                  end);;
               mret (mkLocals (newBaseState l) (newFirstUpdate l)
                       (newFirstCapturedUpdate l) (newExpirationTime l) state));
          next ← readUpdate update Update.next;
          processCapturedUpdates fuel workInProgress queue props instance
            renderExpirationTime next l
      end
  end.

(** The bound on the iterations of a loop over a list of updates: a list without a
    cycle has no more nodes than the arena. *)
Definition listFuel : M Store.t nat := gets (λ s, S (length (Store.updates s))).

(** [processUpdateQueue]. *)
Definition processUpdateQueue (workInProgress queue : addr) (props instance : value)
    (renderExpirationTime : Z) : M Store.t unit :=
  modify (Store.set_hasForceUpdate false);;
  queue ← ensureWorkInProgressQueueIsAClone workInProgress queue;
  baseState ← readQueue queue UpdateQueue.baseState;
  firstUpdate ← readQueue queue UpdateQueue.firstUpdate;
  fuel ← listFuel;
  l ← processUpdates fuel workInProgress queue props instance renderExpirationTime
        firstUpdate (mkLocals baseState None None NoWork baseState);
  firstCapturedUpdate ← readQueue queue UpdateQueue.firstCapturedUpdate;
  fuel ← listFuel;
  l ← processCapturedUpdates fuel workInProgress queue props instance
        renderExpirationTime firstCapturedUpdate l;
  (if newFirstUpdate l is None
   then setQueue queue (UpdateQueue.set_lastUpdate None)
   else mret tt);;
  (if newFirstCapturedUpdate l is None
   then setQueue queue (UpdateQueue.set_lastCapturedUpdate None)
   else effectTag ← readFiber workInProgress Fiber.effectTag;
        setFiber workInProgress (Fiber.set_effectTag (bitor effectTag Callback)));;
  let newBaseState :=
    match newFirstUpdate l, newFirstCapturedUpdate l with
    | None, None => resultState l
    | _, _ => newBaseState l
    end in
  setQueue queue (UpdateQueue.set_baseState newBaseState);;
  setQueue queue (UpdateQueue.set_firstUpdate (newFirstUpdate l));;
  setQueue queue (UpdateQueue.set_firstCapturedUpdate (newFirstCapturedUpdate l));;
  setFiber workInProgress (Fiber.set_expirationTime (newExpirationTime l));;
  setFiber workInProgress (Fiber.set_memoizedState (resultState l)).

Definition invalidCallback : string :=
  "Invalid argument passed as callback. Expected a function. Instead received: %s".

(** [callCallback]: the callback is the argument of the invariant's message; the
    call itself is recorded in the store's log. *)
Definition callCallback (callback context : value) : M Store.t unit :=
  invariantWith toString (bool_decide (typeof callback = TFunction)) invalidCallback
    callback;;
  modify (λ s, Store.set_invoked (Store.invoked s ++ [(callback, context)]) s).

(** [commitUpdateEffects]. *)
Fixpoint commitUpdateEffects (fuel : nat) (effect : option addr) (instance : value)
  : M Store.t unit :=
  match effect with
  | None => mret tt
  | Some effect =>
      match fuel with
      | O => throw Diverges
      | S fuel =>
          callback ← readUpdate effect Update.callback;
          (if is_null callback then mret tt
           else setUpdate effect (Update.set_callback VNull);;
                callCallback callback instance);;
          next ← readUpdate effect Update.nextEffect;
          commitUpdateEffects fuel next instance
      end
  end.

(** [commitUpdateQueue]. *)
Definition commitUpdateQueue (finishedWork finishedQueue : addr) (instance : value)
    (renderExpirationTime : Z) : M Store.t unit :=
  firstCapturedUpdate ← readQueue finishedQueue UpdateQueue.firstCapturedUpdate;
  (if firstCapturedUpdate is Some _ then
     lastUpdate ← readQueue finishedQueue UpdateQueue.lastUpdate;
     (if lastUpdate is Some last then
        firstCapturedUpdate ← readQueue finishedQueue UpdateQueue.firstCapturedUpdate;
        setUpdate last (Update.set_next firstCapturedUpdate);;
        lastCapturedUpdate ← readQueue finishedQueue UpdateQueue.lastCapturedUpdate;
        setQueue finishedQueue (UpdateQueue.set_lastUpdate lastCapturedUpdate)
      else mret tt);;
     setQueue finishedQueue (UpdateQueue.set_lastCapturedUpdate None);;
     setQueue finishedQueue (UpdateQueue.set_firstCapturedUpdate None)
   else mret tt);;
  firstEffect ← readQueue finishedQueue UpdateQueue.firstEffect;
  fuel ← listFuel;
  commitUpdateEffects fuel firstEffect instance;;
  setQueue finishedQueue (UpdateQueue.set_lastEffect None);;
  setQueue finishedQueue (UpdateQueue.set_firstEffect None);;
  firstCapturedEffect ← readQueue finishedQueue UpdateQueue.firstCapturedEffect;
  fuel ← listFuel;
  commitUpdateEffects fuel firstCapturedEffect instance;;
  setQueue finishedQueue (UpdateQueue.set_lastCapturedEffect None);;
  setQueue finishedQueue (UpdateQueue.set_firstCapturedEffect None).

End Definitions.

End ReactUpdateQueue.

(** ** ReactFiberHostContext.js *)

Module ReactFiberHostContext.

(** The host configuration (ReactFiberHostConfig), which a renderer supplies: the
    types of containers and of host contexts, equality of contexts by identity, and
    the two functions that compute a context.  Either may throw in renderer code. *)
Class HostConfig : Type := {
  Container : Type;
  HostContext : Type;
  HostContext_eq_dec : EqDecision HostContext;
  getRootHostContext : Container → result HostContext;
  getChildHostContext : HostContext → value → Container → result HostContext
}.
#[global] Existing Instance HostContext_eq_dec.

Section Definitions.
Context `{HostConfig}.

(** What a cursor or a stack slot holds: the private object [NO_CONTEXT], which no
    renderer value is identical to, or a context, a fiber or a container. *)
Inductive StackValue : Type :=
| NO_CONTEXT
| AContext (context : HostContext)
| AFiber (fiber : addr)
| AContainer (container : Container).

(** The three cursors of the module. *)
Inductive Cursor : Type :=
| contextStackCursor
| contextFiberStackCursor
| rootInstanceStackCursor.

(** The state of the module: the value stack shared by all cursors, most recent
    entry first, and the current value of each cursor. *)
Record Stack : Type := mkStack {
  valueStack : list StackValue;
  contextCurrent : StackValue;
  contextFiberCurrent : StackValue;
  rootInstanceCurrent : StackValue
}.

(** [cursor.current]. *)
Definition current (cursor : Cursor) (s : Stack) : StackValue :=
  match cursor with
  | contextStackCursor => contextCurrent s
  | contextFiberStackCursor => contextFiberCurrent s
  | rootInstanceStackCursor => rootInstanceCurrent s
  end.

(** [cursor.current = v]. *)
Definition setCurrent (cursor : Cursor) (v : StackValue) (s : Stack) : Stack :=
  match cursor with
  | contextStackCursor =>
      mkStack (valueStack s) v (contextFiberCurrent s) (rootInstanceCurrent s)
  | contextFiberStackCursor =>
      mkStack (valueStack s) (contextCurrent s) v (rootInstanceCurrent s)
  | rootInstanceStackCursor =>
      mkStack (valueStack s) (contextCurrent s) (contextFiberCurrent s) v
  end.

Definition setValueStack (l : list StackValue) (s : Stack) : Stack :=
  mkStack l (contextCurrent s) (contextFiberCurrent s) (rootInstanceCurrent s).

(** Modelled from the spec: ReactFiberStack ([createCursor], [push], [pop]) is not
    among the sources.  The spec describes a strict stack whose entries are pushed
    and popped in LIFO order: [push] saves the cursor's current value on the stack
    and makes the new value current. *)
Definition push (cursor : Cursor) (v : StackValue) (fiber : addr) : M Stack unit :=
  modify (λ s, setCurrent cursor v (setValueStack (current cursor s :: valueStack s) s)).

(** Modelled from the spec: [pop] of ReactFiberStack restores the value saved by the
    matching [push]; on an empty stack there is nothing to restore. *)
Definition pop (cursor : Cursor) (fiber : addr) : M Stack unit :=
  modify (λ s,
    match valueStack s with
    | [] => s
    | v :: rest => setCurrent cursor v (setValueStack rest s)
    end).

(** Modelled from the spec: the state after the three [createCursor(NO_CONTEXT)]
    calls at module initialisation, with nothing on the stack. *)
Definition initial : Stack := mkStack [] NO_CONTEXT NO_CONTEXT NO_CONTEXT.

Definition missingHostContext : string :=
  "Expected host context to exist. This error is likely caused by a bug in React. Please file an issue.".

(** [requiredContext]. *)
Definition requiredContext (c : StackValue) : M Stack StackValue :=
  invariant (match c with NO_CONTEXT => false | _ => true end) missingHostContext;;
  mret c.

(** [getRootHostContainer]. *)
Definition getRootHostContainer : M Stack StackValue :=
  c ← gets (current rootInstanceStackCursor);
  rootInstance ← requiredContext c;
  mret rootInstance.

(** [pushHostContainer]. *)
Definition pushHostContainer (fiber : addr) (nextRootInstance : Container)
  : M Stack unit :=
  push rootInstanceStackCursor (AContainer nextRootInstance) fiber;;
  push contextFiberStackCursor (AFiber fiber) fiber;;
  push contextStackCursor NO_CONTEXT fiber;;
  nextRootContext ← lift (getRootHostContext nextRootInstance);
  pop contextStackCursor fiber;;
  push contextStackCursor (AContext nextRootContext) fiber.

(** [popHostContainer]. *)
Definition popHostContainer (fiber : addr) : M Stack unit :=
  pop contextStackCursor fiber;;
  pop contextFiberStackCursor fiber;;
  pop rootInstanceStackCursor fiber.

(** [getHostContext]. *)
Definition getHostContext : M Stack StackValue :=
  c ← gets (current contextStackCursor);
  context ← requiredContext c;
  mret context.

(** [pushHostContext].  [fiberType] is [fiber.type]; the two reads are typed as a
    container and a context by the source's annotations. *)
Definition pushHostContext (fiber : addr) (fiberType : value) : M Stack unit :=
  c ← gets (current rootInstanceStackCursor);
  rootInstance ← requiredContext c;
  c ← gets (current contextStackCursor);
  context ← requiredContext c;
  match context, rootInstance with
  | AContext context, AContainer rootInstance =>
      nextContext ← lift (getChildHostContext context fiberType rootInstance);
      if decide (context = nextContext) then mret tt
      else
        push contextFiberStackCursor (AFiber fiber) fiber;;
        push contextStackCursor (AContext nextContext) fiber
  | _, _ => throw BadReference
  end.

(** [popHostContext]. *)
Definition popHostContext (fiber : addr) : M Stack unit :=
  c ← gets (current contextFiberStackCursor);
  if (match c with AFiber f => bool_decide (f = fiber) | _ => false end)
  then pop contextStackCursor fiber;;
       pop contextFiberStackCursor fiber
  else mret tt.

(** A bracketed use of the stack by container fibers: a sequence of
    [pushHostContainer] and [popHostContainer] calls. *)
Inductive Op : Type :=
| PushContainer (fiber : addr) (container : Container)
| PopContainer (fiber : addr).

Definition runOp (o : Op) : M Stack unit :=
  match o with
  | PushContainer fiber container => pushHostContainer fiber container
  | PopContainer fiber => popHostContainer fiber
  end.

Fixpoint runOps (ops : list Op) : M Stack unit :=
  match ops with
  | [] => mret tt
  | o :: ops => runOp o;; runOps ops
  end.

(** The number of containers pushed and not yet popped after [ops], starting from
    [depth]; [None] when a pop has no push before it. *)
Fixpoint liveContainers (depth : nat) (ops : list Op) : option nat :=
  match ops with
  | [] => Some depth
  | PushContainer _ _ :: ops => liveContainers (S depth) ops
  | PopContainer _ :: ops =>
      match depth with
      | O => None
      | S depth => liveContainers depth ops
      end
  end.

End Definitions.

End ReactFiberHostContext.

(** ** DOMProperty.js and DOMPropertyOperations.js *)

Module DOMProperty.

Definition RESERVED : Z := 0.
Definition STRING : Z := 1.
Definition BOOLEANISH_STRING : Z := 2.
Definition BOOLEAN : Z := 3.
Definition OVERLOADED_BOOLEAN : Z := 4.
Definition NUMERIC : Z := 5.
Definition POSITIVE_NUMERIC : Z := 6.

Module PropertyInfo.

(** The type [PropertyInfo]. *)
Record t : Type := mk {
  acceptsBooleans : bool;
  attributeName : string;
  attributeNamespace : option string;
  mustUseProperty : bool;
  propertyName : string;
  type : Z
}.

End PropertyInfo.

(** The constructor [PropertyInfoRecord]. *)
Definition PropertyInfoRecord (name : string) (type : Z) (mustUseProperty : bool)
    (attributeName : string) (attributeNamespace : option string) : PropertyInfo.t :=
  {| PropertyInfo.acceptsBooleans :=
       (type =? BOOLEANISH_STRING)%Z || (type =? BOOLEAN)%Z
       || (type =? OVERLOADED_BOOLEAN)%Z;
     PropertyInfo.attributeName := attributeName;
     PropertyInfo.attributeNamespace := attributeNamespace;
     PropertyInfo.mustUseProperty := mustUseProperty;
     PropertyInfo.propertyName := name;
     PropertyInfo.type := type |}.

(** Strings are sequences of code units; a character of a Rocq string stands for the
    code unit of the same number. *)
Definition codeUnits (s : string) : list N :=
  N_of_ascii <$> list_ascii_of_string s.

Definition between (lo hi c : N) : bool := (lo <=? c)%N && (c <=? hi)%N.

(** A code unit in the class [ATTRIBUTE_NAME_START_CHAR]. *)
Definition isNameStartChar (c : N) : bool :=
  (c =? 0x3A)%N || between 0x41 0x5A c || (c =? 0x5F)%N || between 0x61 0x7A c
  || between 0xC0 0xD6 c || between 0xD8 0xF6 c || between 0xF8 0x2FF c
  || between 0x370 0x37D c || between 0x37F 0x1FFF c || between 0x200C 0x200D c
  || between 0x2070 0x218F c || between 0x2C00 0x2FEF c || between 0x3001 0xD7FF c
  || between 0xF900 0xFDCF c || between 0xFDF0 0xFFFD c.

(** A code unit in the class [ATTRIBUTE_NAME_CHAR]. *)
Definition isNameChar (c : N) : bool :=
  isNameStartChar c || (c =? 0x2D)%N || (c =? 0x2E)%N || between 0x30 0x39 c
  || (c =? 0xB7)%N || between 0x300 0x36F c || between 0x203F 0x2040 c.

(** [VALID_ATTRIBUTE_NAME_REGEX.test(name)]: one start character, then name
    characters up to the end. *)
Definition validAttributeName (name : string) : bool :=
  match codeUnits name with
  | [] => false
  | c :: rest => isNameStartChar c && forallb isNameChar rest
  end.

(** The upper-case and lower-case forms of the letters a-z and A-Z. *)
Definition upperAscii (c : ascii) : ascii :=
  let n := N_of_ascii c in
  if between 0x61 0x7A n then ascii_of_N (n - 32) else c.

Definition lowerAscii (c : ascii) : ascii :=
  let n := N_of_ascii c in
  if between 0x41 0x5A n then ascii_of_N (n + 32) else c.

Fixpoint toLowerCase (s : string) : string :=
  match s with
  | EmptyString => EmptyString
  | String c s' => String (lowerAscii c) (toLowerCase s')
  end.

(** [s.slice(0, n)]. *)
Fixpoint slice0 (n : nat) (s : string) : string :=
  match n, s with
  | S n, String c s' => String c (slice0 n s')
  | _, _ => EmptyString
  end.

(** [attributeName.replace(CAMELIZE, capitalize)]: a hyphen or colon followed by a
    lower-case letter is replaced by the upper-case letter. *)
Fixpoint camelize (s : string) : string :=
  match s with
  | EmptyString => EmptyString
  | String c s' =>
      if Ascii.eqb c "-" || Ascii.eqb c ":" then
        match s' with
        | String d s'' =>
            if between 0x61 0x7A (N_of_ascii d)
            then String (upperAscii d) (camelize s'')
            else String c (camelize s')
        | EmptyString => String c EmptyString
        end
      else String c (camelize s')
  end.

(** One [forEach] block of the table: [properties[name] = new PropertyInfoRecord(...)]
    for each entry. *)
Definition addAll {A : Type} (entries : list A) (name : A → string)
    (info : A → PropertyInfo.t) (properties : gmap string PropertyInfo.t)
  : gmap string PropertyInfo.t :=
  foldl (λ properties e, <[name e := info e]> properties) properties entries.

Definition reservedNames : list string :=
  ["children"; "dangerouslySetInnerHTML"; "defaultValue"; "defaultChecked"; "innerHTML";
   "suppressContentEditableWarning"; "suppressHydrationWarning"; "style"].

Definition renamedNames : list (string * string) :=
  [("acceptCharset", "accept-charset"); ("className", "class"); ("htmlFor", "for");
   ("httpEquiv", "http-equiv")].

Definition enumeratedHtmlNames : list string :=
  ["contentEditable"; "draggable"; "spellCheck"; "value"].

Definition enumeratedSvgNames : list string :=
  ["autoReverse"; "externalResourcesRequired"; "focusable"; "preserveAlpha"].

Definition booleanNames : list string :=
  ["allowFullScreen"; "async"; "autoFocus"; "autoPlay"; "controls"; "default"; "defer";
   "disabled"; "formNoValidate"; "hidden"; "loop"; "noModule"; "noValidate"; "open";
   "playsInline"; "readOnly"; "required"; "reversed"; "scoped"; "seamless"; "itemScope"].

Definition booleanPropertyNames : list string :=
  ["checked"; "multiple"; "muted"; "selected"].

Definition overloadedBooleanNames : list string := ["capture"; "download"].

Definition positiveNumericNames : list string := ["cols"; "rows"; "size"; "span"].

Definition numericNames : list string := ["rowSpan"; "start"].

Definition svgAttributeNames : list string :=
  ["accent-height"; "alignment-baseline"; "arabic-form"; "baseline-shift"; "cap-height";
   "clip-path"; "clip-rule"; "color-interpolation"; "color-interpolation-filters";
   "color-profile"; "color-rendering"; "dominant-baseline"; "enable-background";
   "fill-opacity"; "fill-rule"; "flood-color"; "flood-opacity"; "font-family";
   "font-size"; "font-size-adjust"; "font-stretch"; "font-style"; "font-variant";
   "font-weight"; "glyph-name"; "glyph-orientation-horizontal";
   "glyph-orientation-vertical"; "horiz-adv-x"; "horiz-origin-x"; "image-rendering";
   "letter-spacing"; "lighting-color"; "marker-end"; "marker-mid"; "marker-start";
   "overline-position"; "overline-thickness"; "paint-order"; "panose-1";
   "pointer-events"; "rendering-intent"; "shape-rendering"; "stop-color";
   "stop-opacity"; "strikethrough-position"; "strikethrough-thickness";
   "stroke-dasharray"; "stroke-dashoffset"; "stroke-linecap"; "stroke-linejoin";
   "stroke-miterlimit"; "stroke-opacity"; "stroke-width"; "text-anchor";
   "text-decoration"; "text-rendering"; "underline-position"; "underline-thickness";
   "unicode-bidi"; "unicode-range"; "units-per-em"; "v-alphabetic"; "v-hanging";
   "v-ideographic"; "v-mathematical"; "vector-effect"; "vert-adv-y"; "vert-origin-x";
   "vert-origin-y"; "word-spacing"; "writing-mode"; "xmlns:xlink"; "x-height"].

Definition xlinkAttributeNames : list string :=
  ["xlink:actuate"; "xlink:arcrole"; "xlink:href"; "xlink:role"; "xlink:show";
   "xlink:title"; "xlink:type"].

Definition xmlAttributeNames : list string := ["xml:base"; "xml:lang"; "xml:space"].

Definition htmlAndSvgNames : list string := ["tabIndex"; "crossOrigin"].

(** The table [properties], filled block by block in the order of the source. *)
Definition properties : gmap string PropertyInfo.t :=
  let step {A : Type} (entries : list A) (name : A → string) (info : A → PropertyInfo.t)
      (table : gmap string PropertyInfo.t) := addAll entries name info table in
  let t := ∅ in
  let t := step reservedNames id (λ name, PropertyInfoRecord name RESERVED false name None) t in
  let t := step renamedNames fst
             (λ e, PropertyInfoRecord (fst e) STRING false (snd e) None) t in
  let t := step enumeratedHtmlNames id
             (λ name, PropertyInfoRecord name BOOLEANISH_STRING false (toLowerCase name) None) t in
  let t := step enumeratedSvgNames id
             (λ name, PropertyInfoRecord name BOOLEANISH_STRING false name None) t in
  let t := step booleanNames id
             (λ name, PropertyInfoRecord name BOOLEAN false (toLowerCase name) None) t in
  let t := step booleanPropertyNames id
             (λ name, PropertyInfoRecord name BOOLEAN true name None) t in
  let t := step overloadedBooleanNames id
             (λ name, PropertyInfoRecord name OVERLOADED_BOOLEAN false name None) t in
  let t := step positiveNumericNames id
             (λ name, PropertyInfoRecord name POSITIVE_NUMERIC false name None) t in
  let t := step numericNames id
             (λ name, PropertyInfoRecord name NUMERIC false (toLowerCase name) None) t in
  let t := step svgAttributeNames camelize
             (λ a, PropertyInfoRecord (camelize a) STRING false a None) t in
  let t := step xlinkAttributeNames camelize
             (λ a, PropertyInfoRecord (camelize a) STRING false a
                     (Some "http://www.w3.org/1999/xlink")) t in
  let t := step xmlAttributeNames camelize
             (λ a, PropertyInfoRecord (camelize a) STRING false a
                     (Some "http://www.w3.org/XML/1998/namespace")) t in
  step htmlAndSvgNames id
    (λ a, PropertyInfoRecord a STRING false (toLowerCase a) None) t.

(** [getPropertyInfo]. *)
Definition getPropertyInfo (name : string) : option PropertyInfo.t :=
  properties !! name.

(** [shouldIgnoreAttribute]. *)
Definition shouldIgnoreAttribute (name : string) (propertyInfo : option PropertyInfo.t)
    (isCustomComponentTag : bool) : bool :=
  match propertyInfo with
  | Some info => (PropertyInfo.type info =? RESERVED)%Z
  | None =>
      if isCustomComponentTag then false
      else
        match name with
        | String c0 (String c1 (String _ _)) =>
            if (Ascii.eqb c0 "o" || Ascii.eqb c0 "O")
               && (Ascii.eqb c1 "n" || Ascii.eqb c1 "N")
            then true else false
        | _ => false
        end
  end.

(** [shouldRemoveAttributeWithWarning]. *)
Definition shouldRemoveAttributeWithWarning (name : string) (value : value)
    (propertyInfo : option PropertyInfo.t) (isCustomComponentTag : bool) : bool :=
  if (match propertyInfo with
      | Some info => (PropertyInfo.type info =? RESERVED)%Z
      | None => false
      end)
  then false
  else
    match typeof value with
    | TFunction | TSymbol => true
    | TBoolean =>
        if isCustomComponentTag then false
        else
          match propertyInfo with
          | Some info => negb (PropertyInfo.acceptsBooleans info)
          | None =>
              let prefix := slice0 5 (toLowerCase name) in
              negb (String.eqb prefix "data-") && negb (String.eqb prefix "aria-")
          end
    | _ => false
    end.

(** The conversions of the language that [shouldRemoveAttribute] and
    [setValueForProperty] apply to a prop value: the concatenation with the empty
    string, [isNaN(v)] and [v < 1].  Each may throw (on a symbol, or in a
    [valueOf]). *)
Class Coercions : Type := {
  toStringConcat : value → result string;
  isNaN : value → result bool;
  lessThanOne : value → result bool
}.

Section Operations.
Context `{Coercions}.

(** [shouldRemoveAttribute]. *)
Definition shouldRemoveAttribute (name : string) (value : value)
    (propertyInfo : option PropertyInfo.t) (isCustomComponentTag : bool) : result bool :=
  if is_null value || bool_decide (typeof value = TUndefined) then mret true
  else if shouldRemoveAttributeWithWarning name value propertyInfo isCustomComponentTag
  then mret true
  else if isCustomComponentTag then mret false
  else
    match propertyInfo with
    | Some info =>
        let type := PropertyInfo.type info in
        if (type =? BOOLEAN)%Z then mret (negb (toBoolean value))
        else if (type =? OVERLOADED_BOOLEAN)%Z then mret (is_false value)
        else if (type =? NUMERIC)%Z then isNaN value
        else if (type =? POSITIVE_NUMERIC)%Z then
          nan ← isNaN value;
          if nan : bool then mret true else lessThanOne value
        else mret false
    | None => mret false
    end.

(** A call made on a host node. *)
Inductive DomCall : Type :=
| RemoveAttribute (name : string)
| SetAttribute (name text : string)
| SetAttributeNS (namespace name text : string)
| SetProperty (name : string) (v : value).

(** The state the operations work on: the two caches of [isAttributeNameSafe] and
    the calls made on host nodes so far, oldest first, each with its node. *)
Record Dom : Type := mkDom {
  validatedAttributeNameCache : gset string;
  illegalAttributeNameCache : gset string;
  domCalls : list (nat * DomCall)
}.

Definition domCall (node : nat) (c : DomCall) : M Dom unit :=
  modify (λ d, mkDom (validatedAttributeNameCache d) (illegalAttributeNameCache d)
                 (domCalls d ++ [(node, c)])).

(** [isAttributeNameSafe]. *)
Definition isAttributeNameSafe (attributeName : string) : M Dom bool :=
  validated ← gets validatedAttributeNameCache;
  illegal ← gets illegalAttributeNameCache;
  if bool_decide (attributeName ∈ validated) then mret true
  else if bool_decide (attributeName ∈ illegal) then mret false
  else if validAttributeName attributeName then
    modify (λ d, mkDom ({[attributeName]} ∪ validatedAttributeNameCache d)
                   (illegalAttributeNameCache d) (domCalls d));;
    mret true
  else
    modify (λ d, mkDom (validatedAttributeNameCache d)
                   ({[attributeName]} ∪ illegalAttributeNameCache d) (domCalls d));;
    mret false.

(** [setValueForProperty]. *)
Definition setValueForProperty (node : nat) (name : string) (value : value)
    (isCustomComponentTag : bool) : M Dom unit :=
  let propertyInfo := getPropertyInfo name in
  if shouldIgnoreAttribute name propertyInfo isCustomComponentTag then mret tt
  else
    remove ← lift (shouldRemoveAttribute name value propertyInfo isCustomComponentTag);
    let value := if remove : bool then VNull else value in
    match (if isCustomComponentTag then None else propertyInfo) with
    | None =>
        safe ← isAttributeNameSafe name;
        if safe : bool then
          if is_null value then domCall node (RemoveAttribute name)
          else text ← lift (toStringConcat value);
               domCall node (SetAttribute name text)
        else mret tt
    | Some info =>
        if PropertyInfo.mustUseProperty info then
          if is_null value then
            domCall node
              (SetProperty (PropertyInfo.propertyName info)
                 (if (PropertyInfo.type info =? BOOLEAN)%Z
                  then VBool false else VString EmptyString))
          else domCall node (SetProperty (PropertyInfo.propertyName info) value)
        else if is_null value then
          domCall node (RemoveAttribute (PropertyInfo.attributeName info))
        else
          let type := PropertyInfo.type info in
          attributeValue ←
            (if (type =? BOOLEAN)%Z || ((type =? OVERLOADED_BOOLEAN)%Z && is_true value)
             then mret EmptyString
             else lift (toStringConcat value));
          match PropertyInfo.attributeNamespace info with
          | Some namespace =>
              if String.eqb namespace EmptyString
              then domCall node
                     (SetAttribute (PropertyInfo.attributeName info) attributeValue)
              else domCall node
                     (SetAttributeNS namespace (PropertyInfo.attributeName info)
                        attributeValue)
          | None =>
              domCall node (SetAttribute (PropertyInfo.attributeName info) attributeValue)
          end
    end.

End Operations.

End DOMProperty.

(** ** Sample instances

    Concrete values for the constants and functions the development is parametric
    in.  They serve to run the definitions on examples. *)

Module Examples.

Definition sideEffectTags : SideEffectTags :=
  {| NoEffect := 0; Callback := 32; ShouldCapture := 2048; DidCapture := 64 |}.

Definition expirationTimes : ExpirationTimes := {| NoWork := 0 |}.

Definition typeOfMode : TypeOfMode :=
  {| NoContext := 0; ConcurrentMode := 1; StrictMode := 2; ProfileMode := 4 |}.

Definition featureFlags : FeatureFlags := {| enableProfilerTimer := true |}.

Definition reactSymbols : ReactSymbols :=
  {| REACT_FORWARD_REF_TYPE := SymbolFor "react.forward_ref";
     REACT_FRAGMENT_TYPE := SymbolFor "react.fragment";
     REACT_STRICT_MODE_TYPE := SymbolFor "react.strict_mode";
     REACT_PROFILER_TYPE := SymbolFor "react.profiler";
     REACT_PROVIDER_TYPE := SymbolFor "react.provider";
     REACT_CONTEXT_TYPE := SymbolFor "react.context";
     REACT_CONCURRENT_MODE_TYPE := SymbolFor "react.concurrent_mode";
     REACT_SUSPENSE_TYPE := SymbolFor "react.suspense";
     REACT_MEMO_TYPE := SymbolFor "react.memo";
     REACT_LAZY_TYPE := SymbolFor "react.lazy" |}.

(** Four updater functions [prev => prev + letter], for the letters A to D; any
    other function returns [undefined]. *)
Definition appendLetter (letter : string) (args : list value) : value :=
  match args with
  | VString prev :: _ => VString (prev +:+ letter)
  | _ => VUndefined
  end.

(** The conversion to a string is the one of the language on the primitive values,
    with the numbers in decimal digits (as they print below 10^21); an object or a
    function is taken to have no [toString] or [valueOf] of its own. *)
Definition calls : Calls :=
  {| call fid this args :=
       match fid with
       | 0 => appendLetter "A" args
       | 1 => appendLetter "B" args
       | 2 => appendLetter "C" args
       | 3 => appendLetter "D" args
       | _ => VUndefined
       end;
     toString v :=
       match v with
       | VUndefined => Ok "undefined"
       | VNull => Ok "null"
       | VBool true => Ok "true"
       | VBool false => Ok "false"
       | VNumber n => Ok (pretty n)
       | VNaN => Ok "NaN"
       | VString s => Ok s
       | VSymbol _ => Throw TypeError
       | VFunction _ _ => Ok "function () {}"
       | VObject _ => Ok "[object Object]"
       end;
     toString_symbol _ := eq_refl |}.

(** The conversions on the values whose conversion needs no parsing and no call of
    user code: the numbers print in decimal digits (as they do below 10^21), and a
    string counts as a number only when it is empty, so the instance is right for
    the strings that are no numeric literal. *)
Definition coercions : DOMProperty.Coercions :=
  {| DOMProperty.toStringConcat v :=
       match v with
       | VUndefined => Ok "undefined"
       | VNull => Ok "null"
       | VBool true => Ok "true"
       | VBool false => Ok "false"
       | VNumber n => Ok (pretty n)
       | VNaN => Ok "NaN"
       | VString s => Ok s
       | VSymbol _ => Throw TypeError
       | VFunction _ _ => Ok "function () {}"
       | VObject _ => Ok "[object Object]"
       end;
     DOMProperty.isNaN v :=
       match v with
       | VNull | VBool _ | VNumber _ => Ok false
       | VString s => Ok (negb (String.eqb s EmptyString))
       | VSymbol _ => Throw TypeError
       | _ => Ok true
       end;
     DOMProperty.lessThanOne v :=
       match v with
       | VNull | VBool false => Ok true
       | VNumber n => Ok (n <? 1)%Z
       | VString s => Ok (String.eqb s EmptyString)
       | VSymbol _ => Throw TypeError
       | _ => Ok false
       end |}.

(** A host whose containers are named by strings and whose context is a namespace:
    the namespace of an [svg] element is the SVG one. *)
Definition hostConfig : ReactFiberHostContext.HostConfig :=
  {| ReactFiberHostContext.Container := string;
     ReactFiberHostContext.HostContext := string;
     ReactFiberHostContext.getRootHostContext _ := Ok "http://www.w3.org/1999/xhtml";
     ReactFiberHostContext.getChildHostContext context type _ :=
       match type with
       | VString "svg" => Ok "http://www.w3.org/2000/svg"
       | _ => Ok context
       end |}.

End Examples.

(** * Properties *)

(** ** The monad *)

Module MonadFacts.

Lemma bind_ok {S A B : Type} (m : M S A) (f : A → M S B) (s s' : S) (a : A) :
  m s = (Ok a, s') → (m ≫= f) s = f a s'.
Proof. intros Hm. unfold mbind, M_bind. by rewrite Hm. Qed.

Lemma bind_throw {S A B : Type} (m : M S A) (f : A → M S B) (s s' : S) (e : exn) :
  m s = (Throw e, s') → (m ≫= f) s = (Throw e, s').
Proof. intros Hm. unfold mbind, M_bind. by rewrite Hm. Qed.

Lemma bind_assoc {S A B C : Type} (m : M S A) (f : A → M S B) (g : B → M S C) (s : S) :
  ((m ≫= f) ≫= g) s = (m ≫= (λ a, f a ≫= g)) s.
Proof. unfold mbind, M_bind. by destruct (m s) as [[a|e] s']. Qed.

End MonadFacts.
Import MonadFacts.

(** ** DOM properties *)

Module DOMPropertyFacts.
Import DOMProperty.

(** What [setValueForProperty] may do with a prop it must not write: remove the
    attribute, or reset the DOM property to [false] or the empty string. *)
Definition removesOrResets (c : DomCall) : Prop :=
  match c with
  | RemoveAttribute _ => True
  | SetProperty _ v => v = VBool false ∨ v = VString EmptyString
  | _ => False
  end.

(** The call that takes a prop of the table off the node: the DOM property is
    reset to [false] or the empty string, the attribute is removed. *)
Definition resetOrRemoval (info : PropertyInfo.t) : DomCall :=
  if PropertyInfo.mustUseProperty info then
    SetProperty (PropertyInfo.propertyName info)
      (if (PropertyInfo.type info =? BOOLEAN)%Z then VBool false
       else VString EmptyString)
  else RemoveAttribute (PropertyInfo.attributeName info).

(** What [isAttributeNameSafe] answers in the state [d]: a name in the cache of
    validated names is safe, a name in the cache of illegal names is not, and any
    other name is tested. *)
Definition safeIn (d : Dom) (name : string) : bool :=
  bool_decide (name ∈ validatedAttributeNameCache d)
  || (negb (bool_decide (name ∈ illegalAttributeNameCache d))
      && validAttributeName name).

(** The calls [setValueForProperty] makes on the node for a prop whose value is a
    function or a symbol. *)
Definition removalCalls (node : nat) (name : string) (custom : bool) (d : Dom)
  : list (nat * DomCall) :=
  if shouldIgnoreAttribute name (getPropertyInfo name) custom then []
  else
    match (if custom then None else getPropertyInfo name) with
    | Some info => [(node, resetOrRemoval info)]
    | None => if safeIn d name then [(node, RemoveAttribute name)] else []
    end.

Section Facts.
Context `{Coercions}.

Lemma not_null_function_symbol v :
  typeof v = TFunction ∨ typeof v = TSymbol → is_null v = false.
Proof. intros [Hv | Hv]; by destruct v. Qed.

Lemma withWarning_function_symbol name v info custom :
  typeof v = TFunction ∨ typeof v = TSymbol →
  shouldRemoveAttributeWithWarning name v info custom
  = negb (match info with
          | Some i => (PropertyInfo.type i =? RESERVED)%Z
          | None => false
          end).
Proof.
  intros Hv. unfold shouldRemoveAttributeWithWarning.
  destruct info as [i|]; simpl.
  - destruct (PropertyInfo.type i =? RESERVED)%Z; [done|].
    by destruct Hv as [-> | ->].
  - by destruct Hv as [-> | ->].
Qed.

Lemma shouldRemoveAttribute_function_symbol name v info custom :
  typeof v = TFunction ∨ typeof v = TSymbol →
  (if info is Some i then PropertyInfo.type i ≠ RESERVED else True) →
  shouldRemoveAttribute name v info custom = Ok true.
Proof.
  intros Hv Hinfo. unfold shouldRemoveAttribute.
  rewrite (not_null_function_symbol v) by done.
  assert (bool_decide (typeof v = TUndefined) = false) as ->.
  { apply bool_decide_eq_false. destruct Hv as [-> | ->]; discriminate. }
  simpl. rewrite withWarning_function_symbol by done.
  destruct info as [i|]; [|done].
  destruct (Z.eqb_spec (PropertyInfo.type i) RESERVED); done.
Qed.

Lemma shouldRemoveAttribute_reserved name v i custom :
  typeof v = TFunction ∨ typeof v = TSymbol →
  PropertyInfo.type i = RESERVED →
  shouldRemoveAttribute name v (Some i) custom = Ok false
  ∧ shouldIgnoreAttribute name (Some i) custom = true.
Proof.
  intros Hv Hi. unfold shouldRemoveAttribute, shouldIgnoreAttribute.
  rewrite (not_null_function_symbol v) by done.
  assert (bool_decide (typeof v = TUndefined) = false) as ->.
  { apply bool_decide_eq_false. destruct Hv as [-> | ->]; discriminate. }
  simpl. rewrite withWarning_function_symbol by done.
  rewrite Hi. simpl. by destruct custom.
Qed.

Lemma isAttributeNameSafe_calls name d :
  ∃ b d', isAttributeNameSafe name d = (Ok b, d') ∧ domCalls d' = domCalls d.
Proof.
  unfold isAttributeNameSafe, mbind, M_bind, gets, modify, mret, M_ret. simpl.
  repeat case_bool_decide; try case_match; simpl; eauto.
Qed.

Lemma isAttributeNameSafe_safeIn name d :
  ∃ d', isAttributeNameSafe name d = (Ok (safeIn d name), d')
        ∧ domCalls d' = domCalls d.
Proof.
  unfold isAttributeNameSafe, safeIn, mbind, M_bind, gets, modify, mret, M_ret.
  simpl. repeat case_bool_decide; try case_match; simpl; eauto.
Qed.

Lemma removesOrResets_resetOrRemoval info : removesOrResets (resetOrRemoval info).
Proof.
  unfold resetOrRemoval. destruct (PropertyInfo.mustUseProperty info); [|done].
  simpl. destruct (PropertyInfo.type info =? BOOLEAN)%Z; auto.
Qed.

Lemma removalCalls_cases node name custom d :
  removalCalls node name custom d = []
  ∨ ∃ c, removalCalls node name custom d = [(node, c)] ∧ removesOrResets c.
Proof.
  unfold removalCalls.
  destruct (shouldIgnoreAttribute _ _ _); [by left|].
  destruct (if custom then None else getPropertyInfo name) as [info|].
  - right. eexists. split; [done|]. apply removesOrResets_resetOrRemoval.
  - destruct (safeIn d name); [|by left]. right. by eexists.
Qed.

Lemma setValueForProperty_function_symbol node name v custom d :
  typeof v = TFunction ∨ typeof v = TSymbol →
  ∃ d', setValueForProperty node name v custom d = (Ok tt, d')
        ∧ domCalls d' = domCalls d ++ removalCalls node name custom d.
Proof.
  intros Hv. unfold setValueForProperty, removalCalls.
  destruct (shouldIgnoreAttribute name (getPropertyInfo name) custom) eqn:Hignore.
  { eexists. split; [done|]. by rewrite app_nil_r. }
  assert (shouldRemoveAttribute name v (getPropertyInfo name) custom = Ok true) as Hrm.
  { apply shouldRemoveAttribute_function_symbol; [done|].
    destruct (getPropertyInfo name) as [i|]; [|done].
    simpl in Hignore. by apply Z.eqb_neq. }
  erewrite bind_ok by (unfold lift; by rewrite Hrm). simpl.
  destruct (if custom then None else getPropertyInfo name) as [info|].
  - unfold resetOrRemoval. destruct (PropertyInfo.mustUseProperty info).
    + eexists. split; [done|]. done.
    + eexists. split; [done|]. done.
  - destruct (isAttributeNameSafe_safeIn name d) as (d' & Hsafe & Hcalls).
    erewrite bind_ok by done. destruct (safeIn d name).
    + eexists. split; [done|]. simpl. by rewrite Hcalls.
    + eexists. split; [done|]. by rewrite app_nil_r.
Qed.

End Facts.

(** C10, as the code has it: for every attribute name and both settings of the
    custom-element flag, a value whose type is function or symbol is judged
    removable by [shouldRemoveAttribute] under every classification other than
    RESERVED, and under none.  Under a RESERVED classification it answers false,
    and [shouldIgnoreAttribute] makes [setValueForProperty] skip the prop.  In every
    case [setValueForProperty] ends normally and never writes the function or the
    symbol.  It makes no call for a prop that [shouldIgnoreAttribute] ignores, and
    none for a prop of a custom element or outside the table whose name
    [isAttributeNameSafe] rejects; in every other case it makes exactly one call on
    the node it was given: [removeAttribute] with the prop's name for a custom
    element or a prop outside the table, the assignment of [false] or of the empty
    string for a prop of the table that must be set as a DOM property, and
    [removeAttribute] with the attribute name of the table otherwise. *)
Theorem function_or_symbol_prop_is_never_written `{Coercions}
    (name : string) (v : value) (custom : bool) :
  typeof v = TFunction ∨ typeof v = TSymbol →
  shouldRemoveAttribute name v None custom = Ok true
  ∧ (∀ i, PropertyInfo.type i ≠ RESERVED →
          shouldRemoveAttribute name v (Some i) custom = Ok true)
  ∧ (∀ i, PropertyInfo.type i = RESERVED →
          shouldRemoveAttribute name v (Some i) custom = Ok false
          ∧ shouldIgnoreAttribute name (Some i) custom = true)
  ∧ (∀ node d, ∃ d',
        setValueForProperty node name v custom d = (Ok tt, d')
        ∧ domCalls d' = domCalls d ++ removalCalls node name custom d
        ∧ (domCalls d' = domCalls d
           ∨ ∃ c, domCalls d' = domCalls d ++ [(node, c)] ∧ removesOrResets c)).
Proof.
  intros Hv. split_and!.
  - by apply shouldRemoveAttribute_function_symbol.
  - intros i Hi. by apply shouldRemoveAttribute_function_symbol.
  - intros i Hi. by apply shouldRemoveAttribute_reserved.
  - intros node d.
    destruct (setValueForProperty_function_symbol node name v custom d Hv)
      as (d' & Hrun & Hcalls).
    exists d'. split; [done|]. split; [done|]. rewrite Hcalls.
    destruct (removalCalls_cases node name custom d) as [->|(c & -> & Hc)].
    + left. by rewrite app_nil_r.
    + right. by exists c.
Qed.

(** The theorem at a function as the value of three props, on a node without a
    call so far: [onClick] of a custom element is removed by its name, [checked] is
    reset to [false], and [className] is removed as the attribute [class]. *)
Lemma function_or_symbol_prop_is_never_written_witness :
  let v := VFunction 7 ∅ in
  let d := mkDom ∅ ∅ [] in
  (typeof v = TFunction ∨ typeof v = TSymbol)
  ∧ @shouldRemoveAttribute Examples.coercions "onClick" v None true = Ok true
  ∧ (∃ d', @setValueForProperty Examples.coercions 0 "onClick" v true d = (Ok tt, d')
           ∧ domCalls d' = [(0, RemoveAttribute "onClick")])
  ∧ (∃ d', @setValueForProperty Examples.coercions 0 "checked" v false d = (Ok tt, d')
           ∧ domCalls d' = [(0, SetProperty "checked" (VBool false))])
  ∧ (∃ d', @setValueForProperty Examples.coercions 0 "className" v false d
           = (Ok tt, d')
           ∧ domCalls d' = [(0, RemoveAttribute "class")]).
Proof.
  assert (∀ name custom calls,
             removalCalls 0 name custom (mkDom ∅ ∅ []) = calls →
             ∃ d', @setValueForProperty Examples.coercions 0 name (VFunction 7 ∅)
                     custom (mkDom ∅ ∅ []) = (Ok tt, d')
                   ∧ domCalls d' = calls) as Hcalls.
  { intros name custom calls <-.
    destruct (proj2 (proj2 (proj2
                (@function_or_symbol_prop_is_never_written Examples.coercions
                   name (VFunction 7 ∅) custom ltac:(by left)))) 0 (mkDom ∅ ∅ []))
      as (d' & Hrun & Hd' & _).
    by exists d'. }
  split; [by left|]. split.
  { apply (@function_or_symbol_prop_is_never_written Examples.coercions
             "onClick" (VFunction 7 ∅) true).
    by left. }
  split; [|split]; apply Hcalls; by vm_compute.
Defined.

(** C10 as stated fails: the table classifies [style] as RESERVED, and for it
    [shouldRemoveAttribute] does not judge a function removable. *)
Lemma reserved_function_is_not_removable :
  let v := VFunction 7 ∅ in
  typeof v = TFunction
  ∧ (PropertyInfo.type <$> getPropertyInfo "style") = Some RESERVED
  ∧ @shouldRemoveAttribute Examples.coercions "style" v (getPropertyInfo "style") false
    = Ok false
  ∧ @shouldRemoveAttribute Examples.coercions "style" v (getPropertyInfo "style") false
    ≠ Ok true.
Proof. vm_compute. split_and!; congruence. Qed.

End DOMPropertyFacts.

(** ** The host-context stack *)

Module ReactFiberHostContextFacts.
Import ReactFiberHostContext.

Section Facts.
Context `{HostConfig}.

(** The state in which the containers of [frames] are live, the innermost first:
    each frame holds the fiber, the container and the root context it pushed. *)
Fixpoint stateOf (frames : list (addr * Container * HostContext)) : Stack :=
  match frames with
  | [] => initial
  | (fiber, container, context) :: frames =>
      let s := stateOf frames in
      mkStack
        (contextCurrent s :: contextFiberCurrent s :: rootInstanceCurrent s
           :: valueStack s)
        (AContext context) (AFiber fiber) (AContainer container)
  end.

Lemma pushHostContainer_ok fiber container context s :
  getRootHostContext container = Ok context →
  pushHostContainer fiber container s
  = (Ok tt,
     mkStack
       (contextCurrent s :: contextFiberCurrent s :: rootInstanceCurrent s
          :: valueStack s)
       (AContext context) (AFiber fiber) (AContainer container)).
Proof.
  intros Hroot. unfold pushHostContainer, push, pop, lift, modify, mbind, M_bind.
  simpl. by rewrite Hroot.
Qed.

Lemma pushHostContainer_inv fiber container s s' :
  pushHostContainer fiber container s = (Ok tt, s') →
  ∃ context, getRootHostContext container = Ok context.
Proof.
  unfold pushHostContainer, push, pop, lift, modify, mbind, M_bind. simpl.
  destruct (getRootHostContext container) as [context|e]; [eauto|done].
Qed.

Lemma popHostContainer_frame fiber fiber' container context frames :
  popHostContainer fiber (stateOf ((fiber', container, context) :: frames))
  = (Ok tt, stateOf frames).
Proof.
  unfold popHostContainer, pop, modify, mbind, M_bind. simpl.
  by destruct (stateOf frames).
Qed.

Lemma runOps_frames ops : ∀ frames s n,
  runOps ops (stateOf frames) = (Ok tt, s) →
  liveContainers (length frames) ops = Some n →
  ∃ frames', s = stateOf frames' ∧ length frames' = n.
Proof.
  induction ops as [|[fiber container|fiber] ops IH]; intros frames s n Hrun Hlive.
  - injection Hrun as <-. simpl in Hlive. exists frames. split; congruence.
  - simpl in Hrun, Hlive. unfold mbind, M_bind in Hrun.
    destruct (pushHostContainer fiber container (stateOf frames))
      as [[[]|e] s1] eqn:Hpush; [|done].
    destruct (pushHostContainer_inv _ _ _ _ Hpush) as [context Hroot].
    rewrite (pushHostContainer_ok _ _ context) in Hpush by done.
    injection Hpush as <-.
    by apply (IH ((fiber, container, context) :: frames)).
  - simpl in Hrun, Hlive. destruct frames as [|[[fiber' container] context] frames].
    { done. }
    unfold mbind, M_bind in Hrun. rewrite popHostContainer_frame in Hrun.
    by apply (IH frames).
Qed.

Lemma reads_fail_initial :
  getHostContext initial = (Throw (InvariantViolation missingHostContext), initial)
  ∧ getRootHostContainer initial
    = (Throw (InvariantViolation missingHostContext), initial).
Proof. done. Qed.

Lemma reads_succeed_frame fiber container context frames :
  let s := stateOf ((fiber, container, context) :: frames) in
  getHostContext s = (Ok (AContext context), s)
  ∧ getRootHostContainer s = (Ok (AContainer container), s).
Proof. done. Qed.

End Facts.

(** C9: with nothing on the stack, that is in the initial state and after every
    sequence of [pushHostContainer] and [popHostContainer] calls that has popped all
    it pushed, [getHostContext] and [getRootHostContainer] throw the invariant
    violation 'Expected host context to exist'; after a [pushHostContainer] that
    returned, from any state, and whenever a pushed container is still live, both
    return a value (the root context and the container). *)
Theorem host_context_reads_need_a_live_container `{HostConfig} :
  (getHostContext initial = (Throw (InvariantViolation missingHostContext), initial)
   ∧ getRootHostContainer initial
     = (Throw (InvariantViolation missingHostContext), initial))
  ∧ (∀ ops s,
       runOps ops initial = (Ok tt, s) →
       liveContainers 0 ops = Some 0 →
       getHostContext s = (Throw (InvariantViolation missingHostContext), s)
       ∧ getRootHostContainer s = (Throw (InvariantViolation missingHostContext), s))
  ∧ (∀ ops s n,
       runOps ops initial = (Ok tt, s) →
       liveContainers 0 ops = Some (S n) →
       ∃ context container,
         getHostContext s = (Ok (AContext context), s)
         ∧ getRootHostContainer s = (Ok (AContainer container), s))
  ∧ (∀ fiber container s s',
       pushHostContainer fiber container s = (Ok tt, s') →
       ∃ context,
         getHostContext s' = (Ok (AContext context), s')
         ∧ getRootHostContainer s' = (Ok (AContainer container), s')).
Proof.
  split; [|split; [|split]].
  - apply reads_fail_initial.
  - intros ops s Hrun Hlive.
    destruct (runOps_frames ops [] s 0 Hrun Hlive) as (frames & -> & Hlen).
    destruct frames; [|done]. apply reads_fail_initial.
  - intros ops s n Hrun Hlive.
    destruct (runOps_frames ops [] s (S n) Hrun Hlive) as (frames & -> & Hlen).
    destruct frames as [|[[fiber container] context] frames]; [done|].
    exists context, container. apply reads_succeed_frame.
  - intros fiber container s s' Hpush.
    destruct (pushHostContainer_inv _ _ _ _ Hpush) as [context Hroot].
    rewrite (pushHostContainer_ok _ _ context) in Hpush by done.
    injection Hpush as <-. by exists context.
Qed.

(** On the sample host: a container pushed, a second one pushed and popped inside
    it, so that one container is live. *)
Definition sampleOps : list (@Op Examples.hostConfig) :=
  [@PushContainer Examples.hostConfig 0 "root"%string;
   @PushContainer Examples.hostConfig 1 "portal"%string;
   @PopContainer Examples.hostConfig 1].

(** The theorem at [sampleOps]. *)
Lemma host_context_reads_need_a_live_container_witness :
  let ops := sampleOps in
  let s := (@runOps Examples.hostConfig ops initial).2 in
  @runOps Examples.hostConfig ops initial = (Ok tt, s)
  ∧ liveContainers 0 ops = Some 1
  ∧ ∃ context container,
      getHostContext s = (Ok (AContext context), s)
      ∧ getRootHostContainer s = (Ok (AContainer container), s).
Proof.
  split; [by vm_compute|]. split; [by vm_compute|].
  pose proof (proj1 (proj2 (proj2 (@host_context_reads_need_a_live_container
                                      Examples.hostConfig))) sampleOps) as Hlive.
  apply (Hlive _ 0); by vm_compute.
Defined.

End ReactFiberHostContextFacts.

(** ** The heap *)

Module HeapFacts.

Lemma deref_ok {A : Type} (arena : Store.t → list A) a x s :
  arena s !! a = Some x → deref arena a s = (Ok x, s).
Proof. intros Hx. unfold deref. by rewrite Hx. Qed.

Lemma readFiber_ok {A : Type} a (field : Fiber.t → A) x s :
  Store.fibers s !! a = Some x → readFiber a field s = (Ok (field x), s).
Proof.
  intros Hx. unfold readFiber, getFiber.
  by rewrite (bind_ok _ _ _ _ _ (deref_ok _ _ _ _ Hx)).
Qed.

Lemma readQueue_ok {A : Type} a (field : UpdateQueue.t → A) x s :
  Store.queues s !! a = Some x → readQueue a field s = (Ok (field x), s).
Proof.
  intros Hx. unfold readQueue, getQueue.
  by rewrite (bind_ok _ _ _ _ _ (deref_ok _ _ _ _ Hx)).
Qed.

Lemma readUpdate_ok {A : Type} a (field : Update.t → A) x s :
  Store.updates s !! a = Some x → readUpdate a field s = (Ok (field x), s).
Proof.
  intros Hx. unfold readUpdate, getUpdate.
  by rewrite (bind_ok _ _ _ _ _ (deref_ok _ _ _ _ Hx)).
Qed.

Lemma setFiber_ok a g x s :
  Store.fibers s !! a = Some x →
  setFiber a g s = (Ok tt, Store.set_fibers (<[a := g x]> (Store.fibers s)) s).
Proof.
  intros Hx. unfold setFiber, getFiber.
  by rewrite (bind_ok _ _ _ _ _ (deref_ok _ _ _ _ Hx)).
Qed.

Lemma setQueue_ok a g x s :
  Store.queues s !! a = Some x →
  setQueue a g s = (Ok tt, Store.set_queues (<[a := g x]> (Store.queues s)) s).
Proof.
  intros Hx. unfold setQueue, getQueue.
  by rewrite (bind_ok _ _ _ _ _ (deref_ok _ _ _ _ Hx)).
Qed.

Lemma setUpdate_ok a g x s :
  Store.updates s !! a = Some x →
  setUpdate a g s = (Ok tt, Store.set_updates (<[a := g x]> (Store.updates s)) s).
Proof.
  intros Hx. unfold setUpdate, getUpdate.
  by rewrite (bind_ok _ _ _ _ _ (deref_ok _ _ _ _ Hx)).
Qed.

Lemma copyField_ok {A : Type} target source (field : Fiber.t → A) set x y s :
  Store.fibers s !! source = Some x →
  Store.fibers s !! target = Some y →
  copyField target source field set s
  = (Ok tt, Store.set_fibers (<[target := set (field x) y]> (Store.fibers s)) s).
Proof.
  intros Hx Hy. unfold copyField.
  rewrite (bind_ok _ _ _ _ _ (readFiber_ok _ _ _ _ Hx)).
  by apply setFiber_ok.
Qed.

(** Reading an arena cell after a write. *)
Lemma lookup_insert_same {A : Type} (l : list A) i x y :
  l !! i = Some y → <[i := x]> l !! i = Some x.
Proof. intros Hy. apply list_lookup_insert_eq. by eapply lookup_lt_Some. Qed.

End HeapFacts.
Import HeapFacts.

(** ** The update queue: the state an update produces *)

Module StateFromUpdateFacts.
Import ReactUpdateQueue.

Section Facts.
Context `{SideEffectTags, ExpirationTimes, Calls}.

Lemma lookup_Object_assign (prevState partialState : value) (k : string) :
  Object_assign ∅ [prevState; partialState] !! k
  = match ownEnumerable partialState !! k with
    | Some v => Some v
    | None => ownEnumerable prevState !! k
    end.
Proof.
  unfold Object_assign. simpl. rewrite lookup_union.
  destruct (ownEnumerable partialState !! k) as [v|] eqn:Hk.
  - by destruct ((ownEnumerable prevState ∪ ∅) !! k).
  - rewrite (left_id None _). rewrite lookup_union, lookup_empty.
    by destruct (ownEnumerable prevState !! k).
Qed.

Lemma getStateFromUpdate_UpdateState workInProgress queue update U
    prevState nextProps instance s :
  Store.updates s !! update = Some U →
  Update.tag U = UpdateState →
  getStateFromUpdate workInProgress queue update prevState nextProps instance s
  = (Ok (let partialState :=
           payloadResult (Update.payload U) prevState nextProps instance in
         if is_null partialState || is_undefined partialState
         then prevState
         else VObject (Object_assign ∅ [prevState; partialState])), s).
Proof.
  intros HU Htag. unfold getStateFromUpdate.
  rewrite (bind_ok _ _ _ _ _ (readUpdate_ok _ Update.tag _ _ HU)). rewrite Htag.
  simpl. unfold mbind at 1, M_bind at 1. simpl.
  rewrite (bind_ok _ _ _ _ _ (readUpdate_ok _ Update.payload _ _ HU)).
  by destruct (is_null _ || is_undefined _).
Qed.

End Facts.

(** C3: for an update of the merge kind ([UpdateState]), a payload that is a
    function is called on the instance with the previous state and the props, and
    any other payload is the partial state itself.  When the partial state is
    [null] or [undefined], [getStateFromUpdate] returns the previous state.
    Otherwise it returns a new object, built from the empty object, in which every
    key of the partial state has the partial state's value and every other key
    has the value the previous state gives it.  In both cases the heap is left as
    it was, so the previous state is not written to. *)
Theorem merge_update_merges_partial_state `{SideEffectTags, ExpirationTimes, Calls}
    (workInProgress queue update : addr) (U : Update.t)
    (prevState nextProps instance : value) (s : Store.t) :
  Store.updates s !! update = Some U →
  Update.tag U = UpdateState →
  ∃ partialState,
    (∀ fid props, Update.payload U = VFunction fid props →
                  partialState = call fid instance [prevState; nextProps])
    ∧ (typeof (Update.payload U) ≠ TFunction → partialState = Update.payload U)
    ∧ (partialState = VNull ∨ partialState = VUndefined →
       getStateFromUpdate workInProgress queue update prevState nextProps instance s
       = (Ok prevState, s))
    ∧ (partialState ≠ VNull → partialState ≠ VUndefined →
       ∃ merged,
         getStateFromUpdate workInProgress queue update prevState nextProps instance s
         = (Ok (VObject merged), s)
         ∧ merged = ownEnumerable partialState ∪ (ownEnumerable prevState ∪ ∅)
         ∧ (∀ k v, ownEnumerable partialState !! k = Some v → merged !! k = Some v)
         ∧ (∀ k, ownEnumerable partialState !! k = None →
                 merged !! k = ownEnumerable prevState !! k)).
Proof.
  intros HU Htag.
  exists (payloadResult (Update.payload U) prevState nextProps instance).
  rewrite (getStateFromUpdate_UpdateState _ _ _ U) by done. simpl.
  split_and!.
  - by intros fid props ->.
  - intros Hfun. by destruct (Update.payload U).
  - by intros [-> | ->].
  - intros Hnull Hundef.
    set (partialState := payloadResult _ _ _ _) in *.
    assert (is_null partialState || is_undefined partialState = false) as ->.
    { by destruct partialState. }
    exists (Object_assign ∅ [prevState; partialState]).
    split; [done|]. split; [done|]. split.
    + intros k v Hk. by rewrite lookup_Object_assign, Hk.
    + intros k Hk. by rewrite lookup_Object_assign, Hk.
Qed.

End StateFromUpdateFacts.

(** ** Fibers *)

Module ReactFiberFacts.
Import ReactFiber.

Lemma insert_snoc {A : Type} (l : list A) (n : nat) (x y : A) :
  length l = n → <[n := y]> (l ++ [x]) = l ++ [y].
Proof.
  intros <-. rewrite insert_app_r_alt by lia. by rewrite Nat.sub_diag.
Qed.

Lemma set_fibers_twice (l l' : list Fiber.t) (s : Store.t) :
  Store.set_fibers l (Store.set_fibers l' s) = Store.set_fibers l s.
Proof. done. Qed.

(** Find the value of an arena cell after appends and writes. *)
Ltac solve_lookup :=
  simpl;
  first
    [ eassumption
    | apply list_lookup_middle; rewrite ?length_insert; reflexivity
    | eapply lookup_insert_same; solve_lookup
    | rewrite list_lookup_insert_ne
        by (first [assumption | apply not_eq_sym; assumption | lia]);
      solve_lookup
    | apply lookup_app_l_Some; solve_lookup ].

(** Run the first command of a computation whose outcome is known, and bring the
    arena of fibers back to the form [l], [<[a := x]> l] or [l ++ [x]]. *)
Ltac heap_step :=
  rewrite ?bind_assoc;
  erewrite bind_ok;
  [ | first [ reflexivity
            | apply readFiber_ok; solve_lookup
            | apply setFiber_ok; solve_lookup
            | eapply copyField_ok; solve_lookup ] ];
  simpl;
  rewrite ?set_fibers_twice;
  rewrite ?list_insert_insert_eq;
  rewrite ?insert_snoc by (rewrite ?length_insert; reflexivity);
  rewrite ?insert_app_l by (rewrite ?length_insert; lia).

Section Facts.
Context `{SideEffectTags, ExpirationTimes, TypeOfMode, FeatureFlags, ReactSymbols}.

(** *** Creation from an element type *)






Lemma shouldConstruct_function Component :
  typeof Component = TFunction → ∃ b, shouldConstruct Component = Ok b.
Proof.
  intros Hfun. destruct Component; try done. unfold shouldConstruct. simpl.
  destruct (default VUndefined (props !! "prototype")) as [| |[]| | | | | |] eqn:Hp;
    simpl; eauto.
  - destruct (n =? 0)%Z; simpl; eauto.
  - destruct (String.eqb s ""); simpl; eauto.
Qed.









(** *** The double buffer *)

(** What the branch of [createWorkInProgress] for an existing alternate writes. *)
Definition reset (pendingProps : value) (W : Fiber.t) : Fiber.t :=
  let W :=
    Fiber.set_lastEffect None
      (Fiber.set_firstEffect None
         (Fiber.set_nextEffect None
            (Fiber.set_effectTag NoEffect (Fiber.set_pendingProps pendingProps W)))) in
  if enableProfilerTimer
  then Fiber.set_actualStartTime (VNumber (-1)) (Fiber.set_actualDuration (VNumber 0) W)
  else W.

(** What the branch for a missing alternate builds. *)
Definition fresh (current : addr) (pendingProps : value) (C : Fiber.t) : Fiber.t :=
  Fiber.set_alternate (Some current)
    (Fiber.set_stateNode (Fiber.stateNode C)
       (Fiber.set_type (Fiber.type C)
          (Fiber.set_elementType (Fiber.elementType C)
             (FiberNode (Fiber.tag C) pendingProps (Fiber.key C) (Fiber.mode C))))).

(** The fields both branches copy from [current] afterwards. *)
Definition refresh (C W : Fiber.t) : Fiber.t :=
  let W :=
    Fiber.set_ref (Fiber.ref C)
      (Fiber.set_index (Fiber.index C)
         (Fiber.set_sibling (Fiber.sibling C)
            (Fiber.set_contextDependencies (Fiber.contextDependencies C)
               (Fiber.set_updateQueue (Fiber.updateQueue C)
                  (Fiber.set_memoizedState (Fiber.memoizedState C)
                     (Fiber.set_memoizedProps (Fiber.memoizedProps C)
                        (Fiber.set_child (Fiber.child C)
                           (Fiber.set_expirationTime (Fiber.expirationTime C)
                              (Fiber.set_childExpirationTime
                                 (Fiber.childExpirationTime C) W))))))))) in
  if enableProfilerTimer
  then Fiber.set_treeBaseDuration (Fiber.treeBaseDuration C)
         (Fiber.set_selfBaseDuration (Fiber.selfBaseDuration C) W)
  else W.

Lemma createWorkInProgress_reuse current pendingProps expirationTime s C w W :
  Store.fibers s !! current = Some C →
  Fiber.alternate C = Some w →
  Store.fibers s !! w = Some W →
  w ≠ current →
  createWorkInProgress current pendingProps expirationTime s
  = (Ok w, Store.set_fibers
             (<[w := refresh C (reset pendingProps W)]> (Store.fibers s)) s).
Proof.
  intros Hcurrent Halternate Hw Hne. unfold createWorkInProgress.
  heap_step. rewrite Halternate. unfold refresh, reset.
  destruct enableProfilerTimer; repeat heap_step; reflexivity.
Qed.

Lemma createWorkInProgress_create current pendingProps expirationTime s C :
  Store.fibers s !! current = Some C →
  Fiber.alternate C = None →
  createWorkInProgress current pendingProps expirationTime s
  = (Ok (length (Store.fibers s)),
     Store.set_fibers
       (<[current := Fiber.set_alternate (Some (length (Store.fibers s))) C]>
          (Store.fibers s)
        ++ [refresh C (fresh current pendingProps C)]) s).
Proof.
  intros Hcurrent Halternate. unfold createWorkInProgress, createFiber.
  pose proof (lookup_lt_Some _ _ _ Hcurrent) as Hlt.
  heap_step. rewrite Halternate. unfold refresh, fresh.
  destruct enableProfilerTimer; repeat heap_step; reflexivity.
Qed.

(** The alternate relation is symmetric, irreflexive and preserves tag, key and
    mode: the invariant of the double buffer (P1 of the specification). *)
Definition paired (fs : list Fiber.t) : Prop :=
  ∀ n F m,
    fs !! n = Some F → Fiber.alternate F = Some m →
    m ≠ n
    ∧ ∃ G, fs !! m = Some G
           ∧ Fiber.alternate G = Some n
           ∧ Fiber.tag G = Fiber.tag F
           ∧ Fiber.key G = Fiber.key F
           ∧ Fiber.mode G = Fiber.mode F.

Lemma paired_empty : paired (Store.fibers Heap.empty).
Proof. intros n F m Hn. done. Qed.

(** A fiber just made by [createFiber] has no alternate and keeps the invariant. *)
Lemma paired_createFiber fs tag pendingProps key mode :
  paired fs → paired (fs ++ [FiberNode tag pendingProps key mode]).
Proof.
  intros Hpaired n F m Hn Halt.
  apply lookup_app_Some in Hn as [Hn | [_ Hn]].
  - destruct (Hpaired n F m Hn Halt) as (Hne & G & HG & ?).
    split; [done|]. exists G. split; [|done]. by apply lookup_app_l_Some.
  - apply list_lookup_singleton_Some in Hn as [_ <-]. done.
Qed.

Lemma paired_reuse fs w W X :
  paired fs →
  fs !! w = Some W →
  Fiber.alternate X = Fiber.alternate W →
  Fiber.tag X = Fiber.tag W →
  Fiber.key X = Fiber.key W →
  Fiber.mode X = Fiber.mode W →
  paired (<[w := X]> fs).
Proof.
  intros Hpaired Hw Halt Htag Hkey Hmode n F m Hn HF.
  assert (∃ F0, fs !! n = Some F0 ∧ Fiber.alternate F0 = Some m
                ∧ Fiber.tag F0 = Fiber.tag F ∧ Fiber.key F0 = Fiber.key F
                ∧ Fiber.mode F0 = Fiber.mode F) as (F0 & HF0 & Halt0 & Ht0 & Hk0 & Hm0).
  { destruct (decide (w = n)) as [->|Hwn].
    - rewrite (lookup_insert_same _ _ _ _ Hw) in Hn. injection Hn as <-.
      exists W. repeat split; congruence.
    - rewrite list_lookup_insert_ne in Hn by done. exists F. done. }
  destruct (Hpaired n F0 m HF0 Halt0) as (Hne & G & HG & HGalt & HGt & HGk & HGm).
  split; [done|].
  destruct (decide (w = m)) as [->|Hwm].
  - exists X. rewrite (lookup_insert_same _ _ _ _ Hw).
    assert (G = W) as -> by congruence.
    repeat split; congruence.
  - exists G. rewrite list_lookup_insert_ne by done. repeat split; congruence.
Qed.

Lemma paired_create fs current C X :
  paired fs →
  fs !! current = Some C →
  Fiber.alternate C = None →
  Fiber.alternate X = Some current →
  Fiber.tag X = Fiber.tag C →
  Fiber.key X = Fiber.key C →
  Fiber.mode X = Fiber.mode C →
  paired (<[current := Fiber.set_alternate (Some (length fs)) C]> fs ++ [X]).
Proof.
  intros Hpaired Hcurrent HCalt HXalt Htag Hkey Hmode n F m Hn HF.
  pose proof (lookup_lt_Some _ _ _ Hcurrent) as Hlt.
  apply lookup_app_Some in Hn as [Hn | [Hge Hn]].
  - destruct (decide (current = n)) as [->|Hcn].
    + rewrite (lookup_insert_same _ _ _ _ Hcurrent) in Hn. injection Hn as <-.
      simpl in HF. injection HF as <-. split; [lia|].
      exists X. split.
      { rewrite lookup_app_r by (rewrite length_insert; lia).
        rewrite length_insert, Nat.sub_diag. done. }
      done.
    + rewrite list_lookup_insert_ne in Hn by done.
      destruct (Hpaired n F m Hn HF) as (Hne & G & HG & HGalt & HGrest).
      split; [done|]. exists G. split; [|done].
      apply lookup_app_l_Some. rewrite list_lookup_insert_ne; [done|].
      intros <-. congruence.
  - rewrite length_insert in Hge, Hn.
    apply list_lookup_singleton_Some in Hn as [Hn <-].
    assert (n = length fs) as -> by lia.
    rewrite HXalt in HF. injection HF as <-. split; [lia|].
    exists (Fiber.set_alternate (Some (length fs)) C). split; [|done].
    apply lookup_app_l_Some. by apply (lookup_insert_same _ _ _ C).
Qed.

Lemma refresh_reset_again C W pendingProps :
  refresh C (reset pendingProps (refresh C (reset pendingProps W)))
  = refresh C (reset pendingProps W).
Proof. unfold refresh, reset. destruct enableProfilerTimer; lazy; reflexivity. Qed.

Lemma refresh_fresh_again C current pendingProps a :
  refresh (Fiber.set_alternate a C)
    (reset pendingProps (refresh C (fresh current pendingProps C)))
  = refresh C (fresh current pendingProps C).
Proof.
  unfold refresh, reset, fresh, FiberNode.
  destruct enableProfilerTimer eqn:Htimer; lazy; rewrite ?Htimer; reflexivity.
Qed.

Lemma set_fibers_same s : Store.set_fibers (Store.fibers s) s = s.
Proof. by destruct s. Qed.

(** The outcome of [createWorkInProgress] under the invariant, in one statement for
    both branches. *)
Lemma createWorkInProgress_outcome current pendingProps expirationTime s C :
  paired (Store.fibers s) →
  Store.fibers s !! current = Some C →
  ∃ w W' fs',
    createWorkInProgress current pendingProps expirationTime s
    = (Ok w, Store.set_fibers fs' s)
    ∧ w ≠ current
    ∧ fs' !! current
      = Some (if Fiber.alternate C is Some _ then C
              else Fiber.set_alternate (Some w) C)
    ∧ fs' !! w = Some W'
    ∧ (∀ w0, Fiber.alternate C = Some w0 → w = w0)
    ∧ (Fiber.alternate C = None → w = length (Store.fibers s))
    ∧ length fs'
      = (if Fiber.alternate C is Some _ then length (Store.fibers s)
         else S (length (Store.fibers s)))
    ∧ (∀ i, i ≠ current → i ≠ w → fs' !! i = Store.fibers s !! i)
    ∧ Fiber.alternate W' = Some current
    ∧ Fiber.tag W' = Fiber.tag C
    ∧ Fiber.key W' = Fiber.key C
    ∧ Fiber.mode W' = Fiber.mode C
    ∧ paired fs'
    ∧ refresh (if Fiber.alternate C is Some _ then C
               else Fiber.set_alternate (Some w) C)
        (reset pendingProps W') = W'.
Proof.
  intros Hpaired Hcurrent.
  destruct (Fiber.alternate C) as [w|] eqn:Halternate.
  - destruct (Hpaired current C w Hcurrent Halternate)
      as (Hne & W & Hw & HWalt & HWtag & HWkey & HWmode).
    eexists w, _, _. split.
    { by apply (createWorkInProgress_reuse _ _ _ _ C w W). }
    split; [done|]. split; [by rewrite list_lookup_insert_ne|].
    split; [by apply (lookup_insert_same _ _ _ W)|].
    split; [by intros w0 [= <-]|]. split; [done|].
    split; [by rewrite length_insert|].
    split; [by intros i _ Hi; rewrite list_lookup_insert_ne|].
    assert (Fiber.alternate (refresh C (reset pendingProps W)) = Fiber.alternate W
            ∧ Fiber.tag (refresh C (reset pendingProps W)) = Fiber.tag W
            ∧ Fiber.key (refresh C (reset pendingProps W)) = Fiber.key W
            ∧ Fiber.mode (refresh C (reset pendingProps W)) = Fiber.mode W)
      as (Ha & Ht & Hk & Hm).
    { unfold refresh, reset. by destruct enableProfilerTimer. }
    split; [congruence|]. split; [congruence|]. split; [congruence|].
    split; [congruence|]. split.
    + by apply (paired_reuse _ _ W).
    + apply refresh_reset_again.
  - pose proof (lookup_lt_Some _ _ _ Hcurrent) as Hlt.
    assert (Fiber.alternate (refresh C (fresh current pendingProps C)) = Some current
            ∧ Fiber.tag (refresh C (fresh current pendingProps C)) = Fiber.tag C
            ∧ Fiber.key (refresh C (fresh current pendingProps C)) = Fiber.key C
            ∧ Fiber.mode (refresh C (fresh current pendingProps C)) = Fiber.mode C)
      as (Ha & Ht & Hk & Hm).
    { unfold refresh, fresh. by destruct enableProfilerTimer. }
    eexists (length (Store.fibers s)), _, _. split.
    { by apply createWorkInProgress_create. }
    split; [lia|]. split.
    { apply lookup_app_l_Some. by apply (lookup_insert_same _ _ _ C). }
    split.
    { apply list_lookup_middle. by rewrite length_insert. }
    split; [done|]. split; [done|].
    split; [rewrite length_app, length_insert; simpl; lia|].
    split.
    { intros i Hic Hiw. destruct (decide (i < length (Store.fibers s))).
      - rewrite lookup_app_l by (by rewrite length_insert).
        by rewrite list_lookup_insert_ne.
      - rewrite !lookup_ge_None_2; [done|lia|].
        rewrite length_app, length_insert. simpl. lia. }
    split; [done|]. split; [done|]. split; [done|]. split; [done|]. split.
    + by apply paired_create.
    + apply refresh_fresh_again.
Qed.

(** A second call finds the alternate and writes it again. *)
Lemma createWorkInProgress_again current pendingProps expirationTime s C w W :
  Store.fibers s !! current = Some C →
  Fiber.alternate C = Some w →
  Store.fibers s !! w = Some W →
  w ≠ current →
  refresh C (reset pendingProps W) = W →
  createWorkInProgress current pendingProps expirationTime s = (Ok w, s).
Proof.
  intros Hcurrent Halternate Hw Hne Hsame.
  rewrite (createWorkInProgress_reuse _ _ _ _ C w W) by done.
  by rewrite Hsame, list_insert_id, set_fibers_same.
Qed.

End Facts.



(** C5: under the invariant [paired], for every fiber [current] the node [w] that
    [createWorkInProgress] returns is another fiber, linked with [current] in both
    directions and of the same tag, key and mode; an alternate that existed is the
    one returned; the invariant holds again afterwards; and every later call for
    [current] returns the same [w]. *)
Theorem createWorkInProgress_pairs_alternates
    `{SideEffectTags, ExpirationTimes, TypeOfMode, FeatureFlags, ReactSymbols}
    (current : addr) (pendingProps : value) (expirationTime : Z) (s : Store.t)
    (C : Fiber.t) :
  paired (Store.fibers s) →
  Store.fibers s !! current = Some C →
  ∃ w s' C' W',
    createWorkInProgress current pendingProps expirationTime s = (Ok w, s')
    ∧ Store.fibers s' !! current = Some C'
    ∧ Store.fibers s' !! w = Some W'
    ∧ w ≠ current
    ∧ Fiber.alternate W' = Some current
    ∧ Fiber.alternate C' = Some w
    ∧ Fiber.tag W' = Fiber.tag C' ∧ Fiber.tag C' = Fiber.tag C
    ∧ Fiber.key W' = Fiber.key C' ∧ Fiber.key C' = Fiber.key C
    ∧ Fiber.mode W' = Fiber.mode C' ∧ Fiber.mode C' = Fiber.mode C
    ∧ (∀ w0, Fiber.alternate C = Some w0 → w = w0)
    ∧ paired (Store.fibers s')
    ∧ (∀ pendingProps' expirationTime', ∃ s'',
         createWorkInProgress current pendingProps' expirationTime' s' = (Ok w, s'')
         ∧ paired (Store.fibers s'')).
Proof.
  intros Hpaired Hcurrent.
  destruct (createWorkInProgress_outcome current pendingProps expirationTime s C
              Hpaired Hcurrent)
    as (w & W' & fs' & Hrun & Hne & Hcurrent' & Hw' & Hreuse & _ & _ & _
        & Halt & Htag & Hkey & Hmode & Hpaired' & _).
  set (C' := if Fiber.alternate C is Some _ then C
             else Fiber.set_alternate (Some w) C) in *.
  assert (Fiber.alternate C' = Some w ∧ Fiber.tag C' = Fiber.tag C
          ∧ Fiber.key C' = Fiber.key C ∧ Fiber.mode C' = Fiber.mode C)
    as (HC'alt & HC'tag & HC'key & HC'mode).
  { subst C'. destruct (Fiber.alternate C) as [w0|] eqn:HCalt; [|done].
    by rewrite (Hreuse w0 eq_refl). }
  exists w, (Store.set_fibers fs' s), C', W'.
  split; [done|]. split; [done|]. split; [done|]. split; [done|].
  split; [done|]. split; [done|].
  split; [congruence|]. split; [done|]. split; [congruence|]. split; [done|].
  split; [congruence|]. split; [done|]. split; [done|]. split; [done|].
  intros pendingProps' expirationTime'.
  destruct (createWorkInProgress_outcome current pendingProps' expirationTime'
              (Store.set_fibers fs' s) C' Hpaired' Hcurrent')
    as (w2 & W2 & fs2 & Hrun2 & _ & _ & _ & Hreuse2 & _ & _ & _ & _ & _ & _ & _
        & Hpaired2 & _).
  rewrite (Hreuse2 w HC'alt) in Hrun2.
  eexists. split; [exact Hrun2|done].
Qed.

(** C7: under the invariant [paired], [createWorkInProgress] leaves [current] as it
    was except that a null [alternate] now points to the returned node, leaves every
    fiber other than [current] and the returned node as it was, and writes nothing
    outside the arena of fibers; it allocates one fiber when [current] had no
    alternate and none otherwise.  Called again with the same arguments it returns
    the same node and changes nothing; called again with any arguments it returns
    the same node, allocates nothing and leaves [current] as it is. *)
Theorem createWorkInProgress_keeps_current_and_reuses
    `{SideEffectTags, ExpirationTimes, TypeOfMode, FeatureFlags, ReactSymbols}
    (current : addr) (pendingProps : value) (expirationTime : Z) (s : Store.t)
    (C : Fiber.t) :
  paired (Store.fibers s) →
  Store.fibers s !! current = Some C →
  ∃ w s',
    createWorkInProgress current pendingProps expirationTime s = (Ok w, s')
    ∧ Store.fibers s' !! current
      = Some (if Fiber.alternate C is Some _ then C
              else Fiber.set_alternate (Some w) C)
    ∧ (∀ i, i ≠ current → i ≠ w → Store.fibers s' !! i = Store.fibers s !! i)
    ∧ length (Store.fibers s')
      = (if Fiber.alternate C is Some _ then length (Store.fibers s)
         else S (length (Store.fibers s)))
    ∧ Store.queues s' = Store.queues s
    ∧ Store.updates s' = Store.updates s
    ∧ Store.hasForceUpdate s' = Store.hasForceUpdate s
    ∧ Store.invoked s' = Store.invoked s
    ∧ createWorkInProgress current pendingProps expirationTime s' = (Ok w, s')
    ∧ (∀ pendingProps' expirationTime', ∃ s'',
         createWorkInProgress current pendingProps' expirationTime' s' = (Ok w, s'')
         ∧ length (Store.fibers s'') = length (Store.fibers s')
         ∧ Store.fibers s'' !! current = Store.fibers s' !! current).
Proof.
  intros Hpaired Hcurrent.
  destruct (createWorkInProgress_outcome current pendingProps expirationTime s C
              Hpaired Hcurrent)
    as (w & W' & fs' & Hrun & Hne & Hcurrent' & Hw' & Hreuse & _ & Hlength & Hframe
        & _ & _ & _ & _ & Hpaired' & Hsame).
  set (C' := if Fiber.alternate C is Some _ then C
             else Fiber.set_alternate (Some w) C) in *.
  assert (Fiber.alternate C' = Some w) as HC'alt.
  { subst C'. destruct (Fiber.alternate C) as [w0|] eqn:HCalt; [|done].
    by rewrite (Hreuse w0 eq_refl). }
  exists w, (Store.set_fibers fs' s).
  split; [done|]. split; [done|]. split; [done|]. split; [done|].
  split; [done|]. split; [done|]. split; [done|]. split; [done|]. split.
  - by apply (createWorkInProgress_again _ _ _ _ C' w W').
  - intros pendingProps' expirationTime'.
    destruct (createWorkInProgress_outcome current pendingProps' expirationTime'
                (Store.set_fibers fs' s) C' Hpaired' Hcurrent')
      as (w2 & W2 & fs2 & Hrun2 & _ & Hcurrent2 & _ & Hreuse2 & _ & Hlength2 & _).
    rewrite (Hreuse2 w HC'alt) in Hrun2, Hcurrent2.
    rewrite HC'alt in Hcurrent2, Hlength2.
    eexists. split; [exact Hrun2|]. simpl. split; [done|]. congruence.
Qed.

(** C6: when [current] already has an alternate, whatever that alternate's
    [effectTag], [nextEffect], [firstEffect] and [lastEffect] are,
    [createWorkInProgress] returns that alternate with [effectTag] equal to
    [NoEffect], the three effect-list pointers null and [pendingProps] equal to the
    new props. *)
Theorem createWorkInProgress_clears_effects
    `{SideEffectTags, ExpirationTimes, TypeOfMode, FeatureFlags, ReactSymbols}
    (current : addr) (pendingProps : value) (expirationTime : Z) (s : Store.t)
    (C : Fiber.t) (w : addr) (W : Fiber.t) :
  Store.fibers s !! current = Some C →
  Fiber.alternate C = Some w →
  Store.fibers s !! w = Some W →
  ∃ s' W',
    createWorkInProgress current pendingProps expirationTime s = (Ok w, s')
    ∧ Store.fibers s' !! w = Some W'
    ∧ Fiber.effectTag W' = NoEffect
    ∧ Fiber.nextEffect W' = None
    ∧ Fiber.firstEffect W' = None
    ∧ Fiber.lastEffect W' = None
    ∧ Fiber.pendingProps W' = pendingProps.
Proof.
  intros Hcurrent Halternate Hw.
  destruct (decide (w = current)) as [->|Hne].
  - assert (W = C) as -> by congruence. clear Hw.
    unfold createWorkInProgress. heap_step. rewrite Halternate.
    destruct enableProfilerTimer; repeat heap_step;
      (eexists _, _; split; [reflexivity|]; split; [solve_lookup|]; done).
  - rewrite (createWorkInProgress_reuse _ _ _ _ C w W) by done.
    eexists _, _. split; [reflexivity|]. split; [solve_lookup|].
    unfold refresh, reset. by destruct enableProfilerTimer.
Qed.

(** *** Samples *)

Section Samples.
#[local] Existing Instance Examples.sideEffectTags.
#[local] Existing Instance Examples.expirationTimes.
#[local] Existing Instance Examples.typeOfMode.
#[local] Existing Instance Examples.featureFlags.
#[local] Existing Instance Examples.reactSymbols.

(** A store with one host root that has no alternate yet. *)
Definition rootOnly : Store.t :=
  Store.set_fibers [FiberNode HostRoot VNull None 0] Heap.empty.

(** A store with a host root and its alternate, left by an abandoned pass with two
    effect flags set and an effect list. *)
Definition rootWithStaleAlternate : Store.t :=
  Store.set_fibers
    [Fiber.set_alternate (Some 1) (FiberNode HostRoot VNull None 0);
     Fiber.set_lastEffect (Some 0)
       (Fiber.set_firstEffect (Some 0)
          (Fiber.set_nextEffect (Some 0)
             (Fiber.set_effectTag 6
                (Fiber.set_alternate (Some 0) (FiberNode HostRoot VNull None 0)))))]
    Heap.empty.

Lemma paired_rootOnly : paired (Store.fibers rootOnly).
Proof. apply (paired_createFiber []), paired_empty. Qed.

(** The theorem at [rootOnly]: the root gets the new fiber 1 as its alternate. *)
Lemma createWorkInProgress_pairs_alternates_witness :
  paired (Store.fibers rootOnly)
  ∧ Store.fibers rootOnly !! 0 = Some (FiberNode HostRoot VNull None 0)
  ∧ ∃ w s' C' W',
      createWorkInProgress 0 (VObject ∅) 1 rootOnly = (Ok w, s')
      ∧ Store.fibers s' !! 0 = Some C'
      ∧ Store.fibers s' !! w = Some W'
      ∧ w ≠ 0
      ∧ Fiber.alternate W' = Some 0
      ∧ Fiber.alternate C' = Some w.
Proof.
  split; [apply paired_rootOnly|]. split; [reflexivity|].
  destruct (createWorkInProgress_pairs_alternates 0 (VObject ∅) 1 rootOnly
              (FiberNode HostRoot VNull None 0) paired_rootOnly eq_refl)
    as (w & s' & C' & W' & Hrun & HC' & HW' & Hne & HWalt & HCalt & _).
  by exists w, s', C', W'.
Defined.

(** The theorem at [rootOnly]. *)
Lemma createWorkInProgress_keeps_current_and_reuses_witness :
  paired (Store.fibers rootOnly)
  ∧ Store.fibers rootOnly !! 0 = Some (FiberNode HostRoot VNull None 0)
  ∧ ∃ w s',
      createWorkInProgress 0 (VObject ∅) 1 rootOnly = (Ok w, s')
      ∧ length (Store.fibers s') = 2
      ∧ createWorkInProgress 0 (VObject ∅) 1 s' = (Ok w, s').
Proof.
  split; [apply paired_rootOnly|]. split; [reflexivity|].
  destruct (createWorkInProgress_keeps_current_and_reuses 0 (VObject ∅) 1 rootOnly
              (FiberNode HostRoot VNull None 0) paired_rootOnly eq_refl)
    as (w & s' & Hrun & _ & _ & Hlength & _ & _ & _ & _ & Hagain & _).
  by exists w, s'.
Defined.

(** The theorem at [rootWithStaleAlternate]. *)
Lemma createWorkInProgress_clears_effects_witness :
  let W := Fiber.set_lastEffect (Some 0)
             (Fiber.set_firstEffect (Some 0)
                (Fiber.set_nextEffect (Some 0)
                   (Fiber.set_effectTag 6
                      (Fiber.set_alternate (Some 0)
                         (FiberNode HostRoot VNull None 0))))) in
  Store.fibers rootWithStaleAlternate !! 0
  = Some (Fiber.set_alternate (Some 1) (FiberNode HostRoot VNull None 0))
  ∧ Store.fibers rootWithStaleAlternate !! 1 = Some W
  ∧ Fiber.effectTag W = 6%Z
  ∧ ∃ s' W',
      createWorkInProgress 0 (VObject ∅) 1 rootWithStaleAlternate = (Ok 1, s')
      ∧ Store.fibers s' !! 1 = Some W'
      ∧ Fiber.effectTag W' = 0%Z
      ∧ Fiber.nextEffect W' = None.
Proof.
  split; [reflexivity|]. split; [reflexivity|]. split; [reflexivity|].
  destruct (createWorkInProgress_clears_effects 0 (VObject ∅) 1 rootWithStaleAlternate
              _ 1 _ eq_refl eq_refl eq_refl)
    as (s' & W' & Hrun & HW' & Htag & Hnext & _).
  by exists s', W'.
Defined.



End Samples.

End ReactFiberFacts.

(** *** A sample merge *)

Module MergeSample.
Import ReactUpdateQueue StateFromUpdateFacts.

(** An update that merges [{b: 2}] into the state. *)
Definition update : Update.t :=
  {| Update.expirationTime := 1;
     Update.tag := UpdateState;
     Update.payload := VObject {["b" := VNumber 2]};
     Update.callback := VNull;
     Update.next := None;
     Update.nextEffect := None |}.

Definition store : Store.t := Store.set_updates [update] Heap.empty.

(** The previous state [{a: 1, b: 1}]. *)
Definition prevState : value := VObject (<["a" := VNumber 1]> {["b" := VNumber 1]}).

(** The theorem at the sample: the merge yields [{a: 1, b: 2}]. *)
Lemma merge_update_merges_partial_state_witness :
  Store.updates store !! 0 = Some update
  ∧ Update.tag update = UpdateState
  ∧ ∃ merged,
      @getStateFromUpdate Examples.sideEffectTags Examples.calls 0 0 0 prevState VNull
        VNull store
      = (Ok (VObject merged), store)
      ∧ merged !! "a" = Some (VNumber 1)
      ∧ merged !! "b" = Some (VNumber 2).
Proof.
  split; [reflexivity|]. split; [reflexivity|].
  destruct (@merge_update_merges_partial_state Examples.sideEffectTags
              Examples.expirationTimes Examples.calls 0 0 0 update prevState VNull
              VNull store eq_refl eq_refl)
    as (partialState & _ & Hvalue & _ & Hmerge).
  specialize (Hvalue ltac:(discriminate)). subst partialState.
  destruct (Hmerge ltac:(discriminate) ltac:(discriminate))
    as (merged & Hrun & _ & Hwins & Hkeeps).
  exists merged. split; [exact Hrun|]. split.
  - rewrite Hkeeps; reflexivity.
  - apply Hwins. reflexivity.
Defined.

End MergeSample.

(** ** Lists of updates in the heap *)

Module UpdateListFacts.

(** [chain us first l]: following [next] from [first] in the arena [us] visits the
    updates at the addresses [l], in this order, and then reaches null.  This is the
    list a loop [while (update !== null) ... update = update.next] goes through. *)
Fixpoint chain (us : list Update.t) (first : option addr) (l : list addr) : Prop :=
  match l with
  | [] => first = None
  | a :: l' => first = Some a ∧ ∃ U, us !! a = Some U ∧ chain us (Update.next U) l'
  end.

Lemma chain_functional us first l1 l2 :
  chain us first l1 → chain us first l2 → l1 = l2.
Proof.
  revert first l2. induction l1 as [|a l1 IH]; intros first [|b l2]; simpl.
  - done.
  - intros -> [? _]. done.
  - intros [-> _] ?. done.
  - intros [-> (U & HU & H1)] [[= <-] (U' & HU' & H2)].
    assert (U' = U) as -> by congruence. f_equal. by eapply IH.
Qed.

(** The part of a chain from one of its nodes on is a chain. *)
Lemma chain_drop us first l1 a l2 :
  chain us first (l1 ++ a :: l2) → chain us (Some a) (a :: l2).
Proof.
  revert first. induction l1 as [|b l1 IH]; intros first; simpl.
  - intros [_ HU]. done.
  - intros [_ (U & _ & Hrest)]. by eapply IH.
Qed.

Lemma chain_valid us first l a :
  chain us first l → a ∈ l → a < length us.
Proof.
  revert first. induction l as [|b l IH]; intros first Hchain Ha.
  - by apply elem_of_nil in Ha.
  - destruct Hchain as [_ (U & HU & Hrest)].
    apply elem_of_cons in Ha as [->|Ha].
    + by eapply lookup_lt_Some.
    + by eapply IH.
Qed.

(** A chain ends, so it visits no update twice. *)
Lemma chain_NoDup us first l : chain us first l → NoDup l.
Proof.
  revert first. induction l as [|a l IH]; intros first Hchain.
  - constructor.
  - pose proof Hchain as [-> (U & HU & Hrest)]. constructor; [|by eapply IH].
    intros Ha. apply list_elem_of_split in Ha as (l1 & l2 & ->).
    pose proof (chain_drop _ _ _ _ _ Hrest) as Hsuffix.
    pose proof (chain_functional _ _ _ _ Hchain Hsuffix) as Heq.
    apply (f_equal length) in Heq. simpl in Heq. rewrite length_app in Heq.
    simpl in Heq. lia.
Qed.

(** So a chain is no longer than the arena: an iteration bound of one more than the
    size of the arena lets a loop reach the end of every chain. *)
Lemma chain_length us first l : chain us first l → length l ≤ length us.
Proof.
  intros Hchain.
  assert (l ⊆+ seq 0 (length us)) as Hsub.
  { apply NoDup_submseteq; [by eapply chain_NoDup|].
    intros a Ha. apply elem_of_seq. split; [lia|].
    simpl. by eapply chain_valid. }
  apply submseteq_length in Hsub. by rewrite length_seq in Hsub.
Qed.

(** A chain only depends on the [next] fields of its own nodes. *)
Lemma chain_ext us us' first l :
  (∀ a U, a ∈ l → us !! a = Some U →
          ∃ U', us' !! a = Some U' ∧ Update.next U' = Update.next U) →
  chain us first l → chain us' first l.
Proof.
  revert first. induction l as [|a l IH]; intros first Hsame Hchain; [done|].
  destruct Hchain as [-> (U & HU & Hrest)]. split; [done|].
  destruct (Hsame a U) as (U' & HU' & Hnext); [by left|done|].
  exists U'. split; [done|]. rewrite Hnext. apply IH; [|done].
  intros b B Hb. apply Hsame. by right.
Qed.

Lemma chain_grow us extra first l :
  chain us first l → chain (us ++ extra) first l.
Proof.
  apply chain_ext. intros a U _ HU. exists U. split; [|done].
  by apply lookup_app_l_Some.
Qed.

Lemma chain_insert_other us first l a X :
  a ∉ l → chain us first l → chain (<[a := X]> us) first l.
Proof.
  intros Ha. apply chain_ext. intros b U Hb HU. exists U. split; [|done].
  rewrite list_lookup_insert_ne; [done|]. by intros ->.
Qed.

Lemma chain_insert_same_next us first l a X U :
  us !! a = Some U → Update.next X = Update.next U →
  chain us first l → chain (<[a := X]> us) first l.
Proof.
  intros HU Hnext. apply chain_ext. intros b B Hb HB.
  destruct (decide (a = b)) as [->|Hne].
  - exists X. rewrite (lookup_insert_same _ _ _ _ HU). split; congruence.
  - exists B. by rewrite list_lookup_insert_ne.
Qed.

(** The last node of a chain is the one whose [next] is null. *)
Lemma chain_last us first l t :
  chain us first l → last l = Some t →
  ∃ T, us !! t = Some T ∧ Update.next T = None.
Proof.
  revert first. induction l as [|a l IH]; intros first Hchain Hlast; [done|].
  destruct Hchain as [-> (U & HU & Hrest)]. destruct l as [|b l].
  - injection Hlast as <-. exists U. split; [done|]. apply Hrest.
  - by eapply IH.
Qed.

(** Writing the head of a second chain into the [next] field of the last node of a
    first one joins them, when the last node is not part of the second. *)
Lemma chain_splice us first l t T mid l2 :
  chain us first l →
  last l = Some t →
  us !! t = Some T →
  chain us mid l2 →
  t ∉ l2 →
  chain (<[t := Update.set_next mid T]> us) first (l ++ l2).
Proof.
  intros Hchain Hlast HT Hchain2 Hfresh.
  pose proof (chain_NoDup _ _ _ Hchain) as Hnodup.
  revert first Hchain Hlast Hnodup.
  induction l as [|a l IH]; intros first Hchain Hlast Hnodup; [done|].
  destruct Hchain as [-> (U & HU & Hrest)]. split; [done|].
  destruct l as [|b l].
  - injection Hlast as <-. exists (Update.set_next mid T).
    split; [by apply (lookup_insert_same _ _ _ T)|]. simpl.
    by apply chain_insert_other.
  - apply NoDup_cons in Hnodup as [Ha Hnodup].
    assert (t ≠ a) as Hne.
    { intros ->. apply Ha. change (last (b :: l) = Some a) in Hlast.
      by apply last_Some_elem_of. }
    exists U. split; [by rewrite list_lookup_insert_ne|].
    by apply IH.
Qed.

(** Appending one update whose [next] is null. *)
Lemma chain_snoc us first l t T u U :
  chain us first l →
  last l = Some t →
  us !! t = Some T →
  us !! u = Some U →
  Update.next U = None →
  u ≠ t →
  chain (<[t := Update.set_next (Some u) T]> us) first (l ++ [u]).
Proof.
  intros Hchain Hlast HT HU Hnext Hne.
  apply chain_splice; try done.
  - split; [done|]. exists U. by split.
  - apply not_elem_of_cons. split; [done|]. apply not_elem_of_nil.
Qed.

Lemma chain_singleton us u U :
  us !! u = Some U → Update.next U = None → chain us (Some u) [u].
Proof. intros HU Hnext. split; [done|]. exists U. by split. Qed.

End UpdateListFacts.

(** ** Scheduling an update *)

Module EnqueueFacts.
Import ReactUpdateQueue UpdateListFacts.

(** [queueList s q l]: the normal list of the queue at [q] holds the updates [l], and
    the queue's [lastUpdate] is the last of them (null when there is none). *)
Definition queueList (s : Store.t) (q : addr) (l : list addr) : Prop :=
  ∃ Q, Store.queues s !! q = Some Q
       ∧ chain (Store.updates s) (UpdateQueue.firstUpdate Q) l
       ∧ UpdateQueue.lastUpdate Q = last l.


(** The queue [createUpdateQueue] makes and the one [cloneUpdateQueue] makes. *)
Definition emptyQueue (baseState : value) : UpdateQueue.t :=
  {| UpdateQueue.baseState := baseState;
     UpdateQueue.firstUpdate := None;
     UpdateQueue.lastUpdate := None;
     UpdateQueue.firstCapturedUpdate := None;
     UpdateQueue.lastCapturedUpdate := None;
     UpdateQueue.firstEffect := None;
     UpdateQueue.lastEffect := None;
     UpdateQueue.firstCapturedEffect := None;
     UpdateQueue.lastCapturedEffect := None |}.

Definition cloneOf (Q : UpdateQueue.t) : UpdateQueue.t :=
  {| UpdateQueue.baseState := UpdateQueue.baseState Q;
     UpdateQueue.firstUpdate := UpdateQueue.firstUpdate Q;
     UpdateQueue.lastUpdate := UpdateQueue.lastUpdate Q;
     UpdateQueue.firstCapturedUpdate := None;
     UpdateQueue.lastCapturedUpdate := None;
     UpdateQueue.firstEffect := None;
     UpdateQueue.lastEffect := None;
     UpdateQueue.firstCapturedEffect := None;
     UpdateQueue.lastCapturedEffect := None |}.

(** Find the value of an arena cell after appends and writes. *)
Ltac solve_lookup :=
  simpl;
  first
    [ eassumption
    | apply list_lookup_middle; rewrite ?length_insert; reflexivity
    | eapply lookup_insert_same; solve_lookup
    | rewrite list_lookup_insert_ne
        by (first [assumption | apply not_eq_sym; assumption | lia]);
      solve_lookup
    | apply lookup_app_l_Some; solve_lookup ].

(** Run the first command of a computation whose outcome is known. *)
Ltac heap_step :=
  rewrite ?bind_assoc;
  erewrite bind_ok;
  [ | first [ reflexivity
            | apply readFiber_ok; solve_lookup
            | apply readQueue_ok; solve_lookup
            | apply readUpdate_ok; solve_lookup
            | apply setFiber_ok; solve_lookup
            | apply setQueue_ok; solve_lookup
            | apply setUpdate_ok; solve_lookup ] ];
  simpl.

Section Facts.
Context `{SideEffectTags, ExpirationTimes, Calls}.


Lemma cloneQueueFor_ok fiber F queue Q s :
  Store.fibers s !! fiber = Some F →
  Store.queues s !! queue = Some Q →
  cloneQueueFor fiber queue s
  = (Ok (length (Store.queues s)),
     Store.set_fibers
       (<[fiber := Fiber.set_updateQueue (Some (length (Store.queues s))) F]>
          (Store.fibers s))
       (Store.set_queues (Store.queues s ++ [cloneOf Q]) s)).
Proof.
  intros HF HQ. unfold cloneQueueFor, cloneUpdateQueue.
  do 5 heap_step. reflexivity.
Qed.






Lemma queueList_last s q Q l :
  queueList s q l → Store.queues s !! q = Some Q → UpdateQueue.lastUpdate Q = last l.
Proof. intros (Q' & HQ' & _ & Hlast) HQ. congruence. Qed.











End Facts.


Section Samples.
#[local] Existing Instance Examples.sideEffectTags.
#[local] Existing Instance Examples.expirationTimes.
#[local] Existing Instance Examples.calls.
#[local] Existing Instance Examples.featureFlags.






End Samples.

End EnqueueFacts.


(** ** Processing the queue *)

Module ProcessFacts.
Import ReactUpdateQueue UpdateListFacts EnqueueFacts.

(** What processing never changes: an update but for its [nextEffect], a queue but
    for its four effect pointers, a fiber but for its [effectTag]. *)
Definition coreU (U : Update.t) : Update.t := Update.set_nextEffect None U.

Definition coreQ (Q : UpdateQueue.t) : UpdateQueue.t :=
  UpdateQueue.set_firstEffect None
    (UpdateQueue.set_lastEffect None
       (UpdateQueue.set_firstCapturedEffect None
          (UpdateQueue.set_lastCapturedEffect None Q))).

Definition coreF (F : Fiber.t) : Fiber.t := Fiber.set_effectTag 0 F.

(** [stable s s']: the two stores agree but for the effect bookkeeping, the flag
    [hasForceUpdate] and the log of callbacks. *)
Definition stable (s s' : Store.t) : Prop :=
  coreU <$> Store.updates s' = coreU <$> Store.updates s
  ∧ coreQ <$> Store.queues s' = coreQ <$> Store.queues s
  ∧ coreF <$> Store.fibers s' = coreF <$> Store.fibers s.

Lemma stable_refl s : stable s s.
Proof. done. Qed.

Lemma stable_trans s1 s2 s3 : stable s1 s2 → stable s2 s3 → stable s1 s3.
Proof. intros (? & ? & ?) (? & ? & ?). repeat split; congruence. Qed.

Lemma fmap_insert_same {A B : Type} (f : A → B) (l : list A) i x y :
  l !! i = Some x → f y = f x → f <$> <[i := y]> l = f <$> l.
Proof.
  intros Hx Hf. rewrite list_fmap_insert, Hf. apply list_insert_id.
  by rewrite list_lookup_fmap, Hx.
Qed.

Lemma fmap_lookup_same {A B : Type} (f : A → B) (l l' : list A) i x :
  f <$> l' = f <$> l → l !! i = Some x → ∃ x', l' !! i = Some x' ∧ f x' = f x.
Proof.
  intros Heq Hx. assert ((f <$> l') !! i = Some (f x)) as Hx'.
  { by rewrite Heq, list_lookup_fmap, Hx. }
  rewrite list_lookup_fmap in Hx'. destruct (l' !! i) as [x'|]; [|done].
  exists x'. split; [done|]. by injection Hx'.
Qed.

Lemma fmap_length_same {A B : Type} (f : A → B) (l l' : list A) :
  f <$> l' = f <$> l → length l' = length l.
Proof. intros Heq. apply (f_equal length) in Heq. by rewrite !length_fmap in Heq. Qed.

Lemma stable_update s s' a U :
  stable s s' → Store.updates s !! a = Some U →
  ∃ U', Store.updates s' !! a = Some U'
        ∧ Update.expirationTime U' = Update.expirationTime U
        ∧ Update.tag U' = Update.tag U
        ∧ Update.payload U' = Update.payload U
        ∧ Update.callback U' = Update.callback U
        ∧ Update.next U' = Update.next U.
Proof.
  intros (Hus & _) HU.
  destruct (fmap_lookup_same _ _ _ _ _ Hus HU) as (U' & HU' & Hcore).
  exists U'. split; [done|].
  split; [exact (f_equal Update.expirationTime Hcore)|].
  split; [exact (f_equal Update.tag Hcore)|].
  split; [exact (f_equal Update.payload Hcore)|].
  split; [exact (f_equal Update.callback Hcore)|].
  exact (f_equal Update.next Hcore).
Qed.

Lemma stable_sym s s' : stable s s' → stable s' s.
Proof. intros (? & ? & ?). by repeat split. Qed.

Lemma stable_queue s s' q Q :
  stable s s' → Store.queues s !! q = Some Q →
  ∃ Q', Store.queues s' !! q = Some Q'
        ∧ UpdateQueue.baseState Q' = UpdateQueue.baseState Q
        ∧ UpdateQueue.firstUpdate Q' = UpdateQueue.firstUpdate Q
        ∧ UpdateQueue.lastUpdate Q' = UpdateQueue.lastUpdate Q
        ∧ UpdateQueue.firstCapturedUpdate Q' = UpdateQueue.firstCapturedUpdate Q
        ∧ UpdateQueue.lastCapturedUpdate Q' = UpdateQueue.lastCapturedUpdate Q.
Proof.
  intros (_ & Hqs & _) HQ.
  destruct (fmap_lookup_same _ _ _ _ _ Hqs HQ) as (Q' & HQ' & Hcore).
  exists Q'. split; [done|].
  split; [exact (f_equal UpdateQueue.baseState Hcore)|].
  split; [exact (f_equal UpdateQueue.firstUpdate Hcore)|].
  split; [exact (f_equal UpdateQueue.lastUpdate Hcore)|].
  split; [exact (f_equal UpdateQueue.firstCapturedUpdate Hcore)|].
  exact (f_equal UpdateQueue.lastCapturedUpdate Hcore).
Qed.

Lemma stable_fiber s s' a F :
  stable s s' → Store.fibers s !! a = Some F →
  ∃ F', Store.fibers s' !! a = Some F'
        ∧ Fiber.alternate F' = Fiber.alternate F
        ∧ Fiber.updateQueue F' = Fiber.updateQueue F
        ∧ Fiber.memoizedState F' = Fiber.memoizedState F
        ∧ Fiber.expirationTime F' = Fiber.expirationTime F.
Proof.
  intros (_ & _ & Hfs) HF.
  destruct (fmap_lookup_same _ _ _ _ _ Hfs HF) as (F' & HF' & Hcore).
  exists F'. split; [done|].
  split; [exact (f_equal Fiber.alternate Hcore)|].
  split; [exact (f_equal Fiber.updateQueue Hcore)|].
  split; [exact (f_equal Fiber.memoizedState Hcore)|].
  exact (f_equal Fiber.expirationTime Hcore).
Qed.

Lemma chain_stable s s' first l :
  stable s s' → chain (Store.updates s) first l → chain (Store.updates s') first l.
Proof.
  intros Hstable. apply chain_ext. intros a U _ HU.
  destruct (stable_update _ _ _ _ Hstable HU) as (U' & HU' & _ & _ & _ & _ & Hnext).
  by exists U'.
Qed.

(** Writes that keep the stores [stable]. *)
Lemma write_fiber a g s :
  a < length (Store.fibers s) →
  (∀ F, coreF (g F) = coreF F) →
  ∃ s', setFiber a g s = (Ok tt, s')
        ∧ stable s s'
        ∧ Store.queues s' = Store.queues s
        ∧ Store.updates s' = Store.updates s.
Proof.
  intros Ha Hg. destruct (lookup_lt_is_Some_2 _ _ Ha) as [F HF].
  eexists. split; [by apply setFiber_ok|]. split; [|done].
  split; [done|]. split; [done|]. simpl. by apply (fmap_insert_same _ _ _ F).
Qed.

Lemma write_update a g s :
  a < length (Store.updates s) →
  (∀ U, coreU (g U) = coreU U) →
  ∃ s', setUpdate a g s = (Ok tt, s')
        ∧ stable s s'
        ∧ Store.queues s' = Store.queues s
        ∧ Store.fibers s' = Store.fibers s.
Proof.
  intros Ha Hg. destruct (lookup_lt_is_Some_2 _ _ Ha) as [U HU].
  eexists. split; [by apply setUpdate_ok|]. split; [|done].
  split; [|done]. simpl. by apply (fmap_insert_same _ _ _ U).
Qed.

Lemma write_queue a g s Q :
  Store.queues s !! a = Some Q →
  coreQ (g Q) = coreQ Q →
  ∃ s', setQueue a g s = (Ok tt, s')
        ∧ stable s s'
        ∧ Store.queues s' = <[a := g Q]> (Store.queues s)
        ∧ Store.updates s' = Store.updates s
        ∧ Store.fibers s' = Store.fibers s.
Proof.
  intros HQ Hg.
  eexists. split; [by apply setQueue_ok|]. split; [|done].
  split; [done|]. split; [|done]. simpl. by apply (fmap_insert_same _ _ _ Q).
Qed.

Section Facts.
Context `{SideEffectTags, ExpirationTimes, Calls}.

(** The state an update produces from the previous state, as a function: what
    [getStateFromUpdate] returns. *)
Definition stateFromUpdate (U : Update.t) (prevState nextProps instance : value)
  : value :=
  if (Update.tag U =? ReplaceState)%Z then
    payloadResult (Update.payload U) prevState nextProps instance
  else if ((Update.tag U =? CaptureUpdate) || (Update.tag U =? UpdateState))%Z then
    let partialState := payloadResult (Update.payload U) prevState nextProps instance in
    if is_null partialState || is_undefined partialState
    then prevState
    else VObject (Object_assign ∅ [prevState; partialState])
  else prevState.

Lemma getStateFromUpdate_ok workInProgress queue update U prevState nextProps
    instance s :
  Store.updates s !! update = Some U →
  workInProgress < length (Store.fibers s) →
  ∃ s',
    getStateFromUpdate workInProgress queue update prevState nextProps instance s
    = (Ok (stateFromUpdate U prevState nextProps instance), s')
    ∧ stable s s'
    ∧ Store.queues s' = Store.queues s
    ∧ Store.updates s' = Store.updates s.
Proof.
  intros HU Hwip. unfold getStateFromUpdate, stateFromUpdate.
  rewrite (bind_ok _ _ _ _ _ (readUpdate_ok _ Update.tag _ _ HU)).
  destruct (Update.tag U =? ReplaceState)%Z.
  { rewrite (bind_ok _ _ _ _ _ (readUpdate_ok _ Update.payload _ _ HU)).
    by eexists. }
  destruct (Update.tag U =? CaptureUpdate)%Z eqn:Hcapture; simpl.
  - destruct (lookup_lt_is_Some_2 _ _ Hwip) as [F HF].
    rewrite bind_assoc.
    rewrite (bind_ok _ _ _ _ _ (readFiber_ok _ Fiber.effectTag _ _ HF)).
    destruct (write_fiber workInProgress
                (Fiber.set_effectTag
                   (bitor (bitand (Fiber.effectTag F) (bitnot ShouldCapture)) DidCapture))
                s Hwip ltac:(done))
      as (s1 & Hrun & Hstable & Hqueues & Hupdates).
    erewrite bind_ok by exact Hrun.
    rewrite <- Hupdates in HU.
    rewrite (bind_ok _ _ _ _ _ (readUpdate_ok _ Update.payload _ _ HU)).
    destruct (is_null _ || is_undefined _); by eexists.
  - erewrite bind_ok by reflexivity.
    destruct (Update.tag U =? UpdateState)%Z.
    + rewrite (bind_ok _ _ _ _ _ (readUpdate_ok _ Update.payload _ _ HU)).
      destruct (is_null _ || is_undefined _); by eexists.
    + destruct (Update.tag U =? ForceUpdate)%Z; by eexists.
Qed.

(** The effect pointers of a queue that the loops dereference lie in the arena. *)
Definition effectsValid (s : Store.t) (queue : addr) : Prop :=
  ∀ Q, Store.queues s !! queue = Some Q →
       (∀ a, UpdateQueue.lastEffect Q = Some a → a < length (Store.updates s))
       ∧ (∀ a, UpdateQueue.lastCapturedEffect Q = Some a →
               a < length (Store.updates s)).

(** The part of the first loop that puts an update with a callback on the effect
    list. *)
Definition appendEffect (workInProgress queue update : addr) : M Store.t unit :=
  effectTag ← readFiber workInProgress Fiber.effectTag;
  setFiber workInProgress (Fiber.set_effectTag (bitor effectTag Callback));;
  setUpdate update (Update.set_nextEffect None);;
  lastEffect ← readQueue queue UpdateQueue.lastEffect;
  match lastEffect with
  | None =>
      setQueue queue (UpdateQueue.set_lastEffect (Some update));;
      setQueue queue (UpdateQueue.set_firstEffect (Some update))
  | Some last =>
      setUpdate last (Update.set_nextEffect (Some update));;
      setQueue queue (UpdateQueue.set_lastEffect (Some update))
  end.

Lemma appendEffect_ok workInProgress queue update s :
  workInProgress < length (Store.fibers s) →
  queue < length (Store.queues s) →
  update < length (Store.updates s) →
  effectsValid s queue →
  ∃ s', appendEffect workInProgress queue update s = (Ok tt, s')
        ∧ stable s s'
        ∧ effectsValid s' queue.
Proof.
  intros Hwip Hqueue Hupdate Hvalid. unfold appendEffect.
  destruct (lookup_lt_is_Some_2 _ _ Hwip) as [F HF].
  destruct (lookup_lt_is_Some_2 _ _ Hqueue) as [Q HQ].
  destruct (Hvalid Q HQ) as [Hlast Hcaptured].
  rewrite (bind_ok _ _ _ _ _ (readFiber_ok _ Fiber.effectTag _ _ HF)).
  destruct (write_fiber workInProgress
              (Fiber.set_effectTag (bitor (Fiber.effectTag F) Callback)) s
              Hwip ltac:(done))
    as (s1 & Hrun1 & Hstable1 & Hqueues1 & Hupdates1).
  erewrite bind_ok by exact Hrun1.
  destruct (write_update update (Update.set_nextEffect None) s1
              ltac:(by rewrite Hupdates1) ltac:(done))
    as (s2 & Hrun2 & Hstable2 & Hqueues2 & _).
  erewrite bind_ok by exact Hrun2.
  assert (length (Store.updates s2) = length (Store.updates s)) as Hlength2.
  { rewrite <- Hupdates1. eapply fmap_length_same, Hstable2. }
  assert (Store.queues s2 !! queue = Some Q) as HQ2 by congruence.
  rewrite (bind_ok _ _ _ _ _ (readQueue_ok _ UpdateQueue.lastEffect _ _ HQ2)).
  destruct (UpdateQueue.lastEffect Q) as [last|] eqn:HlastEffect.
  - destruct (write_update last (Update.set_nextEffect (Some update)) s2
                ltac:(rewrite Hlength2; by apply Hlast) ltac:(done))
      as (s3 & Hrun3 & Hstable3 & Hqueues3 & _).
    erewrite bind_ok by exact Hrun3.
    destruct (write_queue queue (UpdateQueue.set_lastEffect (Some update)) s3 Q
                ltac:(congruence) ltac:(done))
      as (s4 & Hrun4 & Hstable4 & Hqueues4 & Hupdates4 & _).
    exists s4. split; [exact Hrun4|].
    assert (stable s s4) as Hstable.
    { eauto using stable_trans. }
    split; [done|]. intros Q' HQ'.
    rewrite Hqueues4, list_lookup_insert_eq in HQ'
      by (rewrite Hqueues3; by eapply lookup_lt_Some).
    injection HQ' as <-. rewrite (fmap_length_same _ _ _ (proj1 Hstable)). simpl.
    split; [by intros a [= <-]|done].
  - destruct (write_queue queue (UpdateQueue.set_lastEffect (Some update)) s2 Q
                HQ2 ltac:(done))
      as (s3 & Hrun3 & Hstable3 & Hqueues3 & Hupdates3 & _).
    erewrite bind_ok by exact Hrun3.
    destruct (write_queue queue (UpdateQueue.set_firstEffect (Some update)) s3
                (UpdateQueue.set_lastEffect (Some update) Q)
                ltac:(rewrite Hqueues3; by apply (lookup_insert_same _ _ _ Q))
                ltac:(done))
      as (s4 & Hrun4 & Hstable4 & Hqueues4 & Hupdates4 & _).
    exists s4. split; [exact Hrun4|].
    assert (stable s s4) as Hstable.
    { eauto using stable_trans. }
    split; [done|]. intros Q' HQ'.
    rewrite Hqueues4, list_lookup_insert_eq in HQ'
      by (rewrite Hqueues3, length_insert; by eapply lookup_lt_Some).
    injection HQ' as <-. rewrite (fmap_length_same _ _ _ (proj1 Hstable)). simpl.
    split; [by intros a [= <-]|done].
Qed.

(** One iteration of the first loop on the local variables. *)
Definition normalStep (renderExpirationTime : Z) (props instance : value)
    (update : addr) (U : Update.t) (l : Locals) : Locals :=
  if (Update.expirationTime U <? renderExpirationTime)%Z then
    let l :=
      match newFirstUpdate l with
      | None =>
          mkLocals (resultState l) (Some update) (newFirstCapturedUpdate l)
            (newExpirationTime l) (resultState l)
      | Some _ => l
      end in
    mkLocals (newBaseState l) (newFirstUpdate l) (newFirstCapturedUpdate l)
      (remaining (newExpirationTime l) (Update.expirationTime U)) (resultState l)
  else
    mkLocals (newBaseState l) (newFirstUpdate l) (newFirstCapturedUpdate l)
      (newExpirationTime l) (stateFromUpdate U (resultState l) props instance).

(** The first loop over the list [updates] of addresses. *)
Fixpoint normalPass (us : list Update.t) (renderExpirationTime : Z)
    (props instance : value) (updates : list addr) (l : Locals) : Locals :=
  match updates with
  | [] => l
  | update :: updates =>
      match us !! update with
      | Some U =>
          normalPass us renderExpirationTime props instance updates
            (normalStep renderExpirationTime props instance update U l)
      | None => l
      end
  end.

(** All the updates of a list applied in order. *)
Fixpoint applyAll (us : list Update.t) (props instance : value)
    (updates : list addr) (state : value) : value :=
  match updates with
  | [] => state
  | update :: updates =>
      match us !! update with
      | Some U =>
          applyAll us props instance updates (stateFromUpdate U state props instance)
      | None => state
      end
  end.

Lemma stateFromUpdate_core U U' prevState props instance :
  coreU U' = coreU U →
  stateFromUpdate U' prevState props instance
  = stateFromUpdate U prevState props instance.
Proof.
  intros Hcore. unfold stateFromUpdate.
  by rewrite (f_equal Update.tag Hcore : Update.tag U' = Update.tag U),
    (f_equal Update.payload Hcore : Update.payload U' = Update.payload U).
Qed.

Lemma normalStep_core r props instance update U U' l :
  coreU U' = coreU U →
  normalStep r props instance update U' l = normalStep r props instance update U l.
Proof.
  intros Hcore. unfold normalStep.
  by rewrite (stateFromUpdate_core _ _ _ _ _ Hcore),
    (f_equal Update.expirationTime Hcore
       : Update.expirationTime U' = Update.expirationTime U).
Qed.

Lemma lookup_core (us us' : list Update.t) a :
  coreU <$> us' = coreU <$> us →
  match us !! a with
  | Some U => ∃ U', us' !! a = Some U' ∧ coreU U' = coreU U
  | None => us' !! a = None
  end.
Proof.
  intros Hcore. destruct (us !! a) as [U|] eqn:HU.
  - by eapply fmap_lookup_same.
  - destruct (us' !! a) as [U'|] eqn:HU'; [|done].
    destruct (fmap_lookup_same _ _ _ _ _ (eq_sym Hcore) HU') as (U & HU2 & _).
    congruence.
Qed.

Lemma normalPass_stable us us' r props instance updates l :
  coreU <$> us' = coreU <$> us →
  normalPass us' r props instance updates l = normalPass us r props instance updates l.
Proof.
  intros Hcore. revert l. induction updates as [|a updates IH]; intros l; [done|].
  simpl. pose proof (lookup_core us us' a Hcore) as Ha.
  destruct (us !! a) as [U|].
  - destruct Ha as (U' & -> & HU'). by rewrite IH, (normalStep_core _ _ _ _ _ _ _ HU').
  - by rewrite Ha.
Qed.

Lemma applyAll_stable us us' props instance updates state :
  coreU <$> us' = coreU <$> us →
  applyAll us' props instance updates state = applyAll us props instance updates state.
Proof.
  intros Hcore. revert state.
  induction updates as [|a updates IH]; intros state; [done|].
  simpl. pose proof (lookup_core us us' a Hcore) as Ha.
  destruct (us !! a) as [U|].
  - destruct Ha as (U' & -> & HU'). by rewrite IH, (stateFromUpdate_core _ _ _ _ _ HU').
  - by rewrite Ha.
Qed.

Lemma applyAll_app us props instance l1 l2 state :
  Forall (λ a, a < length us) l1 →
  applyAll us props instance (l1 ++ l2) state
  = applyAll us props instance l2 (applyAll us props instance l1 state).
Proof.
  intros Hvalid. revert state.
  induction Hvalid as [|a l1 Ha _ IH]; intros state; [done|].
  simpl. destruct (lookup_lt_is_Some_2 _ _ Ha) as [U ->]. apply IH.
Qed.

(** A pass that skips nothing applies all the updates. *)
Lemma normalPass_full us r props instance updates l :
  (∀ a U, a ∈ updates → us !! a = Some U → (r ≤ Update.expirationTime U)%Z) →
  normalPass us r props instance updates l
  = mkLocals (newBaseState l) (newFirstUpdate l) (newFirstCapturedUpdate l)
      (newExpirationTime l) (applyAll us props instance updates (resultState l)).
Proof.
  revert l. induction updates as [|a updates IH]; intros l Hfull; simpl.
  - by destruct l.
  - destruct (us !! a) as [U|] eqn:HU; [|by destruct l].
    rewrite IH by (intros b B Hb; apply Hfull; apply elem_of_cons; by right).
    unfold normalStep.
    pose proof (Hfull a U ltac:(apply elem_of_cons; by left) HU) as Hle.
    apply Z.ltb_ge in Hle. by rewrite Hle.
Qed.

(** Once an update was skipped, the first skipped update and the state before it
    stay. *)
Lemma normalPass_skipped us r props instance updates l first :
  newFirstUpdate l = Some first →
  newFirstUpdate (normalPass us r props instance updates l) = Some first
  ∧ newBaseState (normalPass us r props instance updates l) = newBaseState l.
Proof.
  revert l. induction updates as [|a updates IH]; intros l Hfirst; [done|].
  simpl. destruct (us !! a) as [U|]; [|done].
  assert (newFirstUpdate (normalStep r props instance a U l) = Some first
          ∧ newBaseState (normalStep r props instance a U l) = newBaseState l)
    as [Hfirst' Hbase'].
  { unfold normalStep. rewrite Hfirst.
    by destruct (Update.expirationTime U <? r)%Z. }
  destruct (IH _ Hfirst') as [? ?]. split; congruence.
Qed.

Lemma normalPass_captured us r props instance updates l :
  newFirstCapturedUpdate (normalPass us r props instance updates l)
  = newFirstCapturedUpdate l.
Proof.
  revert l. induction updates as [|a updates IH]; intros l; [done|].
  simpl. destruct (us !! a) as [U|]; [|done]. rewrite IH. unfold normalStep.
  destruct (Update.expirationTime U <? r)%Z; [|done].
  by destruct (newFirstUpdate l).
Qed.

(** What a pass leaves: either nothing was skipped and the result is all the
    updates applied, or the list splits at the first skipped update and the new
    base state is the updates before it applied. *)
Lemma normalPass_rebase us r props instance updates l :
  newFirstUpdate l = None →
  (newFirstUpdate (normalPass us r props instance updates l) = None
   ∧ resultState (normalPass us r props instance updates l)
     = applyAll us props instance updates (resultState l))
  ∨ (∃ l1 first l2,
        updates = l1 ++ first :: l2
        ∧ newFirstUpdate (normalPass us r props instance updates l) = Some first
        ∧ newBaseState (normalPass us r props instance updates l)
          = applyAll us props instance l1 (resultState l)).
Proof.
  revert l. induction updates as [|a updates IH]; intros l Hnone; simpl.
  - by left.
  - destruct (us !! a) as [U|] eqn:HU; [|by left].
    destruct (Update.expirationTime U <? r)%Z eqn:Hskip.
    + right. exists [], a, updates. split; [done|].
      edestruct (normalPass_skipped us r props instance updates
                   (normalStep r props instance a U l) a) as [-> ->].
      { unfold normalStep. by rewrite Hskip, Hnone. }
      split; [done|]. unfold normalStep. by rewrite Hskip, Hnone.
    + destruct (IH (normalStep r props instance a U l)) as
        [[Hfirst Hresult]|(l1 & first & l2 & -> & Hfirst & Hbase)].
      { unfold normalStep. by rewrite Hskip. }
      * left. split; [done|]. rewrite Hresult. unfold normalStep. by rewrite Hskip.
      * right. exists (a :: l1), first, l2. split; [done|]. split; [done|].
        rewrite Hbase. simpl. rewrite HU. unfold normalStep. by rewrite Hskip.
Qed.

(** The first loop computes [normalPass]; a list of [length l] updates needs no
    more than [length l + 1] rounds. *)
Lemma processUpdates_ok workInProgress queue props instance r l :
  ∀ fuel first L s,
    chain (Store.updates s) first l →
    length l < fuel →
    workInProgress < length (Store.fibers s) →
    queue < length (Store.queues s) →
    effectsValid s queue →
    ∃ s',
      processUpdates fuel workInProgress queue props instance r first L s
      = (Ok (normalPass (Store.updates s) r props instance l L), s')
      ∧ stable s s'
      ∧ effectsValid s' queue.
Proof.
  induction l as [|a l IH]; intros fuel first L s Hchain Hfuel Hwip Hqueue Hvalid.
  { simpl in Hchain. subst first. exists s. by destruct fuel. }
  destruct Hchain as [-> (U & HU & Hrest)].
  destruct fuel as [|fuel]; [simpl in Hfuel; lia|].
  simpl in Hfuel. simpl. rewrite HU.
  rewrite (bind_ok _ _ _ _ _ (readUpdate_ok _ Update.expirationTime _ _ HU)).
  unfold normalStep.
  destruct (Update.expirationTime U <? r)%Z.
  - erewrite bind_ok by reflexivity.
    rewrite (bind_ok _ _ _ _ _ (readUpdate_ok _ Update.next _ _ HU)).
    apply IH; [done|lia|done..].
  - rewrite !bind_assoc.
    destruct (getStateFromUpdate_ok workInProgress queue a U (resultState L) props
                instance s HU Hwip)
      as (s1 & Hrun1 & Hstable1 & Hqueues1 & Hupdates1).
    erewrite bind_ok by exact Hrun1.
    assert (Store.updates s1 !! a = Some U) as HU1 by congruence.
    rewrite !bind_assoc.
    rewrite (bind_ok _ _ _ _ _ (readUpdate_ok _ Update.callback _ _ HU1)).
    assert (length (Store.fibers s1) = length (Store.fibers s)) as Hfibers1.
    { eapply fmap_length_same, Hstable1. }
    assert (effectsValid s1 queue) as Hvalid1.
    { intros Q HQ. rewrite Hupdates1. apply Hvalid. congruence. }
    assert (∃ s2, (if is_null (Update.callback U) then mret tt
                   else appendEffect workInProgress queue a) s1 = (Ok tt, s2)
                  ∧ stable s1 s2 ∧ effectsValid s2 queue)
      as (s2 & Hrun2 & Hstable2 & Hvalid2).
    { destruct (is_null (Update.callback U)).
      - by exists s1.
      - apply appendEffect_ok; [lia|congruence| |done].
        rewrite Hupdates1. by eapply lookup_lt_Some. }
    rewrite !bind_assoc.
    erewrite bind_ok by exact Hrun2.
    erewrite bind_ok by reflexivity.
    assert (stable s s2) as Hstable by eauto using stable_trans.
    destruct (stable_update _ _ _ _ Hstable HU) as (U2 & HU2 & _ & _ & _ & _ & Hnext).
    rewrite (bind_ok _ _ _ _ _ (readUpdate_ok _ Update.next _ _ HU2)).
    rewrite Hnext.
    destruct (IH fuel (Update.next U)
                (mkLocals (newBaseState L) (newFirstUpdate L) (newFirstCapturedUpdate L)
                   (newExpirationTime L)
                   (stateFromUpdate U (resultState L) props instance)) s2)
      as (s3 & Hrun3 & Hstable3 & Hvalid3).
    + by eapply chain_stable.
    + lia.
    + rewrite (fmap_length_same _ _ _ (proj2 (proj2 Hstable))). done.
    + rewrite (fmap_length_same _ _ _ (proj1 (proj2 Hstable))). done.
    + done.
    + exists s3. rewrite Hrun3.
      rewrite (normalPass_stable _ _ _ _ _ _ _ (proj1 Hstable)).
      split; [done|]. split; [|done]. by eapply stable_trans.
Qed.

(** The clone that [processUpdateQueue] works on. *)
Lemma ensureWorkInProgressQueueIsAClone_ok workInProgress queue F Q s :
  Store.fibers s !! workInProgress = Some F →
  (∀ current, Fiber.alternate F = Some current → current < length (Store.fibers s)) →
  Fiber.updateQueue F = Some queue →
  Store.queues s !! queue = Some Q →
  effectsValid s queue →
  ∃ s0 queue0 F0 Q0,
    ensureWorkInProgressQueueIsAClone workInProgress queue s = (Ok queue0, s0)
    ∧ Store.updates s0 = Store.updates s
    ∧ length (Store.fibers s0) = length (Store.fibers s)
    ∧ Store.fibers s0 !! workInProgress = Some F0
    ∧ Fiber.updateQueue F0 = Some queue0
    ∧ (Fiber.alternate F = None → queue0 = queue)
    ∧ Fiber.alternate F0 = Fiber.alternate F
    ∧ Store.queues s0 !! queue0 = Some Q0
    ∧ UpdateQueue.baseState Q0 = UpdateQueue.baseState Q
    ∧ UpdateQueue.firstUpdate Q0 = UpdateQueue.firstUpdate Q
    ∧ (UpdateQueue.firstCapturedUpdate Q = None →
       UpdateQueue.firstCapturedUpdate Q0 = None)
    ∧ effectsValid s0 queue0.
Proof.
  intros HF Halternate HupdateQueue HQ Hvalid.
  unfold ensureWorkInProgressQueueIsAClone.
  rewrite (bind_ok _ _ _ _ _ (readFiber_ok _ Fiber.alternate _ _ HF)).
  assert (∃ s0 queue0 F0 Q0,
             (mret queue : M Store.t addr) s = (Ok queue0, s0)
             ∧ Store.updates s0 = Store.updates s
             ∧ length (Store.fibers s0) = length (Store.fibers s)
             ∧ Store.fibers s0 !! workInProgress = Some F0
             ∧ Fiber.updateQueue F0 = Some queue0
             ∧ (Fiber.alternate F = None → queue0 = queue)
             ∧ Fiber.alternate F0 = Fiber.alternate F
             ∧ Store.queues s0 !! queue0 = Some Q0
             ∧ UpdateQueue.baseState Q0 = UpdateQueue.baseState Q
             ∧ UpdateQueue.firstUpdate Q0 = UpdateQueue.firstUpdate Q
             ∧ (UpdateQueue.firstCapturedUpdate Q = None →
                UpdateQueue.firstCapturedUpdate Q0 = None)
             ∧ effectsValid s0 queue0) as Hsame.
  { by exists s, queue, F, Q. }
  destruct (Fiber.alternate F) as [current|] eqn:Hcurrent; [|exact Hsame].
  destruct (lookup_lt_is_Some_2 _ _ (Halternate current eq_refl)) as [C HC].
  rewrite (bind_ok _ _ _ _ _ (readFiber_ok _ Fiber.updateQueue _ _ HC)).
  destruct (decide (Some queue = Fiber.updateQueue C)); [|exact Hsame].
  rewrite (cloneQueueFor_ok _ _ _ _ _ HF HQ).
  eexists _, _, _, (cloneOf Q). split; [reflexivity|]. simpl.
  split; [done|]. split; [by rewrite length_insert|].
  split; [by apply (lookup_insert_same _ _ _ F)|].
  split; [done|]. split; [done|]. split; [done|].
  split; [by apply list_lookup_middle|].
  split; [done|]. split; [done|]. split; [done|].
  intros Q' HQ'. simpl in HQ'. rewrite list_lookup_middle in HQ' by done.
  injection HQ' as <-. by split.
Qed.

(** What a pass over the normal list leaves in the local variables. *)
Definition passResult (us : list Update.t) (r : Z) (props instance : value)
    (l : list addr) (Q : UpdateQueue.t) : Locals :=
  normalPass us r props instance l
    (mkLocals (UpdateQueue.baseState Q) None None NoWork (UpdateQueue.baseState Q)).

(** [processUpdateQueue] on a queue whose captured list is empty: it returns, the
    fiber gets the result and the remaining expiration time, and the queue keeps
    the list from the first skipped update on, with the state before that update
    as its base state. *)
Lemma processUpdateQueue_ok workInProgress queue props instance r F Q l s :
  Store.fibers s !! workInProgress = Some F →
  (∀ current, Fiber.alternate F = Some current → current < length (Store.fibers s)) →
  Fiber.updateQueue F = Some queue →
  Store.queues s !! queue = Some Q →
  chain (Store.updates s) (UpdateQueue.firstUpdate Q) l →
  UpdateQueue.firstCapturedUpdate Q = None →
  effectsValid s queue →
  ∃ s' queue' F' Q',
    processUpdateQueue workInProgress queue props instance r s = (Ok tt, s')
    ∧ coreU <$> Store.updates s' = coreU <$> Store.updates s
    ∧ length (Store.fibers s') = length (Store.fibers s)
    ∧ Store.fibers s' !! workInProgress = Some F'
    ∧ Fiber.updateQueue F' = Some queue'
    ∧ (Fiber.alternate F = None → queue' = queue)
    ∧ Fiber.alternate F' = Fiber.alternate F
    ∧ Fiber.memoizedState F'
      = resultState (passResult (Store.updates s) r props instance l Q)
    ∧ Fiber.expirationTime F'
      = newExpirationTime (passResult (Store.updates s) r props instance l Q)
    ∧ Store.queues s' !! queue' = Some Q'
    ∧ UpdateQueue.baseState Q'
      = match newFirstUpdate (passResult (Store.updates s) r props instance l Q) with
        | None => resultState (passResult (Store.updates s) r props instance l Q)
        | Some _ => newBaseState (passResult (Store.updates s) r props instance l Q)
        end
    ∧ UpdateQueue.firstUpdate Q'
      = newFirstUpdate (passResult (Store.updates s) r props instance l Q)
    ∧ UpdateQueue.firstCapturedUpdate Q' = None
    ∧ effectsValid s' queue'.
Proof.
  intros HF Halternate HupdateQueue HQ Hchain Hcaptured Hvalid.
  unfold processUpdateQueue.
  erewrite bind_ok by reflexivity.
  destruct (ensureWorkInProgressQueueIsAClone_ok workInProgress queue F Q
              (Store.set_hasForceUpdate false s) HF Halternate HupdateQueue HQ Hvalid)
    as (s0 & queue0 & F0 & Q0 & Hrun0 & Hupdates0 & Hlength0 & HF0 & HupdateQueue0
        & Hsame0 & Halternate0 & HQ0 & HbaseState0 & HfirstUpdate0 & Hcaptured0 & Hvalid0).
  simpl in Hupdates0, Hlength0.
  erewrite bind_ok by exact Hrun0.
  rewrite (bind_ok _ _ _ _ _ (readQueue_ok _ UpdateQueue.baseState _ _ HQ0)).
  rewrite (bind_ok _ _ _ _ _ (readQueue_ok _ UpdateQueue.firstUpdate _ _ HQ0)).
  erewrite bind_ok by reflexivity.
  rewrite HbaseState0, HfirstUpdate0.
  destruct (processUpdates_ok workInProgress queue0 props instance r l
              (S (length (Store.updates s0))) (UpdateQueue.firstUpdate Q)
              (mkLocals (UpdateQueue.baseState Q) None None NoWork
                 (UpdateQueue.baseState Q)) s0)
    as (s1 & Hrun1 & Hstable1 & Hvalid1).
  { by rewrite Hupdates0. }
  { rewrite Hupdates0. apply Nat.lt_succ_r. by eapply chain_length. }
  { by eapply lookup_lt_Some. }
  { by eapply lookup_lt_Some. }
  { done. }
  erewrite bind_ok by exact Hrun1.
  rewrite Hupdates0. fold (passResult (Store.updates s) r props instance l Q).
  destruct (stable_queue _ _ _ _ Hstable1 HQ0)
    as (Q1 & HQ1 & HbaseState1 & HfirstUpdate1 & HlastUpdate1 & Hcaptured1 & _).
  destruct (stable_fiber _ _ _ _ Hstable1 HF0)
    as (F1 & HF1 & Halternate1 & HupdateQueue1 & _).
  rewrite (bind_ok _ _ _ _ _ (readQueue_ok _ UpdateQueue.firstCapturedUpdate _ _ HQ1)).
  rewrite Hcaptured1, (Hcaptured0 Hcaptured).
  erewrite bind_ok by reflexivity.
  erewrite bind_ok by reflexivity.
  assert (newFirstCapturedUpdate (passResult (Store.updates s) r props instance l Q)
          = None) as Hnone.
  { unfold passResult. by rewrite normalPass_captured. }
  rewrite Hnone.
  assert (coreU <$> Store.updates s1 = coreU <$> Store.updates s) as Hcore.
  { rewrite <- Hupdates0. apply Hstable1. }
  assert (length (Store.fibers s1) = length (Store.fibers s)) as Hlength1.
  { rewrite <- Hlength0. eapply fmap_length_same, Hstable1. }
  destruct (newFirstUpdate (passResult (Store.updates s) r props instance l Q))
    as [first|].
  - erewrite bind_ok by reflexivity.
    do 5 heap_step.
    eexists _, queue0, _, _. split; [by apply setFiber_ok; solve_lookup|]. simpl.
    split; [done|]. split; [by rewrite !length_insert|].
    split; [solve_lookup|]. simpl.
    split; [congruence|]. split; [done|]. split; [congruence|].
    split; [done|]. split; [done|].
    split; [solve_lookup|]. simpl.
    split; [done|]. split; [done|]. split; [done|].
    intros Q' HQ'. simpl in HQ'.
    rewrite list_lookup_insert_eq in HQ'
      by (rewrite !length_insert; by eapply lookup_lt_Some).
    injection HQ' as <-. simpl. apply Hvalid1, HQ1.
  - do 6 heap_step.
    eexists _, queue0, _, _. split; [by apply setFiber_ok; solve_lookup|]. simpl.
    split; [done|]. split; [by rewrite !length_insert|].
    split; [solve_lookup|]. simpl.
    split; [congruence|]. split; [done|]. split; [congruence|].
    split; [done|]. split; [done|].
    split; [solve_lookup|]. simpl.
    split; [done|]. split; [done|]. split; [done|].
    intros Q' HQ'. simpl in HQ'.
    rewrite list_lookup_insert_eq in HQ'
      by (rewrite !length_insert; by eapply lookup_lt_Some).
    injection HQ' as <-. simpl. apply Hvalid1, HQ1.
Qed.

Lemma chain_core us us' first l :
  coreU <$> us' = coreU <$> us → chain us first l → chain us' first l.
Proof.
  intros Hcore. apply chain_ext. intros a U _ HU.
  destruct (fmap_lookup_same _ _ _ _ _ Hcore HU) as (U' & HU' & HUU').
  exists U'. split; [done|]. exact (f_equal Update.next HUU').
Qed.

(** A pass that skips nothing leaves all the updates applied to the base state. *)
Lemma processUpdateQueue_full workInProgress queue props instance r F Q l s :
  Store.fibers s !! workInProgress = Some F →
  (∀ current, Fiber.alternate F = Some current → current < length (Store.fibers s)) →
  Fiber.updateQueue F = Some queue →
  Store.queues s !! queue = Some Q →
  chain (Store.updates s) (UpdateQueue.firstUpdate Q) l →
  UpdateQueue.firstCapturedUpdate Q = None →
  effectsValid s queue →
  (∀ a U, a ∈ l → Store.updates s !! a = Some U → (r ≤ Update.expirationTime U)%Z) →
  ∃ s' F',
    processUpdateQueue workInProgress queue props instance r s = (Ok tt, s')
    ∧ Store.fibers s' !! workInProgress = Some F'
    ∧ Fiber.memoizedState F'
      = applyAll (Store.updates s) props instance l (UpdateQueue.baseState Q).
Proof.
  intros HF Halternate HupdateQueue HQ Hchain Hcaptured Hvalid Hfull.
  destruct (processUpdateQueue_ok workInProgress queue props instance r F Q l s)
    as (s' & queue' & F' & Q' & Hrun & _ & _ & HF' & _ & _ & _ & Hmemoized & _);
    [done..|].
  exists s', F'. split; [done|]. split; [done|].
  rewrite Hmemoized. unfold passResult. by rewrite normalPass_full.
Qed.

(** A pass at any expiration time, then a pass that skips nothing on what the
    first one left: the second one ends with all the updates applied to the
    original base state. *)
Lemma processUpdateQueue_twice workInProgress queue props instance r1 r2 F Q l s :
  Store.fibers s !! workInProgress = Some F →
  (∀ current, Fiber.alternate F = Some current → current < length (Store.fibers s)) →
  Fiber.updateQueue F = Some queue →
  Store.queues s !! queue = Some Q →
  chain (Store.updates s) (UpdateQueue.firstUpdate Q) l →
  UpdateQueue.firstCapturedUpdate Q = None →
  effectsValid s queue →
  (∀ a U, a ∈ l → Store.updates s !! a = Some U → (r2 ≤ Update.expirationTime U)%Z) →
  ∃ s1 queue1 F1 Q1 s2 F2,
    processUpdateQueue workInProgress queue props instance r1 s = (Ok tt, s1)
    ∧ Store.fibers s1 !! workInProgress = Some F1
    ∧ Fiber.updateQueue F1 = Some queue1
    ∧ (Fiber.alternate F = None → queue1 = queue)
    ∧ Fiber.memoizedState F1
      = resultState (passResult (Store.updates s) r1 props instance l Q)
    ∧ Fiber.expirationTime F1
      = newExpirationTime (passResult (Store.updates s) r1 props instance l Q)
    ∧ Store.queues s1 !! queue1 = Some Q1
    ∧ UpdateQueue.baseState Q1
      = match newFirstUpdate (passResult (Store.updates s) r1 props instance l Q) with
        | None => resultState (passResult (Store.updates s) r1 props instance l Q)
        | Some _ => newBaseState (passResult (Store.updates s) r1 props instance l Q)
        end
    ∧ processUpdateQueue workInProgress queue1 props instance r2 s1 = (Ok tt, s2)
    ∧ Store.fibers s2 !! workInProgress = Some F2
    ∧ Fiber.memoizedState F2
      = applyAll (Store.updates s) props instance l (UpdateQueue.baseState Q).
Proof.
  intros HF Halternate HupdateQueue HQ Hchain Hcaptured Hvalid Hfull.
  destruct (processUpdateQueue_ok workInProgress queue props instance r1 F Q l s)
    as (s1 & queue1 & F1 & Q1 & Hrun1 & Hcore1 & Hlength1 & HF1 & HupdateQueue1
        & Hsame1 & Halternate1 & Hmemoized1 & Hexpiration1 & HQ1 & HbaseState1
        & HfirstUpdate1 & Hcaptured1 & Hvalid1);
    [done..|].
  assert (∃ rest,
             chain (Store.updates s1) (UpdateQueue.firstUpdate Q1) rest
             ∧ (∀ a U, a ∈ rest → Store.updates s1 !! a = Some U →
                       (r2 ≤ Update.expirationTime U)%Z)
             ∧ applyAll (Store.updates s1) props instance rest
                 (UpdateQueue.baseState Q1)
               = applyAll (Store.updates s) props instance l
                   (UpdateQueue.baseState Q))
    as (rest & Hchain1 & Hfull1 & Hall).
  { assert (∀ rest, rest ⊆ l → ∀ a U, a ∈ rest → Store.updates s1 !! a = Some U →
                                      (r2 ≤ Update.expirationTime U)%Z) as Hsub.
    { intros rest Hrest a U1 Ha HU1.
      destruct (fmap_lookup_same _ _ _ _ _ (eq_sym Hcore1) HU1) as (U & HU & HUU).
      rewrite <- (f_equal Update.expirationTime HUU
                    : Update.expirationTime U = Update.expirationTime U1).
      apply (Hfull a U); [by apply Hrest|done]. }
    rewrite HfirstUpdate1, HbaseState1. unfold passResult.
    destruct (normalPass_rebase (Store.updates s) r1 props instance l
                (mkLocals (UpdateQueue.baseState Q) None None NoWork
                   (UpdateQueue.baseState Q)) eq_refl)
      as [[-> ->]|(l1 & first & l2 & Hsplit & -> & ->)].
    - exists []. split; [done|]. split; [|done]. intros a U Ha.
      by apply elem_of_nil in Ha.
    - exists (first :: l2). subst l. simpl resultState. split; [|split].
      + eapply chain_core; [exact Hcore1|]. by eapply chain_drop.
      + apply Hsub. intros a Ha. apply elem_of_app. by right.
      + rewrite (applyAll_stable _ _ _ _ _ _ Hcore1).
        rewrite applyAll_app; [done|].
        apply Forall_forall. intros a Ha.
        eapply chain_valid; [exact Hchain|]. apply elem_of_app. by left. }
  destruct (processUpdateQueue_full workInProgress queue1 props instance r2 F1 Q1
              rest s1)
    as (s2 & F2 & Hrun2 & HF2 & Hmemoized2); [done| |done..|].
  { intros current Hcurrent. rewrite Hlength1. apply Halternate. congruence. }
  exists s1, queue1, F1, Q1, s2, F2. rewrite Hmemoized2, Hall. by repeat split.
Qed.

End Facts.

Section Samples.

#[local] Existing Instance Examples.sideEffectTags.
#[local] Existing Instance Examples.expirationTimes.
#[local] Existing Instance Examples.typeOfMode.
#[local] Existing Instance Examples.featureFlags.
#[local] Existing Instance Examples.calls.

(** An update that replaces the state, a string, by the state with a letter
    appended: its payload is the function [fid] of [Examples.calls]. *)
Definition letterUpdate (fid : nat) (expirationTime : Z) (next : option addr)
  : Update.t :=
  {| Update.expirationTime := expirationTime;
     Update.tag := ReplaceState;
     Update.payload := VFunction fid ∅;
     Update.callback := VNull;
     Update.next := next;
     Update.nextEffect := None |}.

Definition letterFiber : Fiber.t :=
  Fiber.set_updateQueue (Some 0)
    (Fiber.set_memoizedState (VString "")
       (ReactFiber.FiberNode ClassComponent VNull None 0)).

Definition letterQueue : UpdateQueue.t :=
  UpdateQueue.set_lastUpdate (Some 3)
    (UpdateQueue.set_firstUpdate (Some 0) (emptyQueue (VString ""))).

(** Base state [""] and the updates A, B, C, D in this order, A and C with the
    expiration time [prio1], B and D with [prio2]. *)
Definition letters (prio1 prio2 : Z) : Store.t :=
  {| Store.fibers := [letterFiber];
     Store.queues := [letterQueue];
     Store.updates :=
       [letterUpdate 0 prio1 (Some 1); letterUpdate 1 prio2 (Some 2);
        letterUpdate 2 prio1 (Some 3); letterUpdate 3 prio2 None];
     Store.hasForceUpdate := false;
     Store.invoked := [] |}.

(** [processUpdateQueue] on the fiber and the queue of [letters]. *)
Definition processLetters (renderExpirationTime : Z) : M Store.t unit :=
  processUpdateQueue 0 0 VNull VNull renderExpirationTime.

Lemma letters_chain prio1 prio2 :
  chain (Store.updates (letters prio1 prio2)) (UpdateQueue.firstUpdate letterQueue)
    [0; 1; 2; 3].
Proof.
  simpl. split; [done|]. eexists. split; [reflexivity|]. simpl.
  split; [done|]. eexists. split; [reflexivity|]. simpl.
  split; [done|]. eexists. split; [reflexivity|]. simpl.
  split; [done|]. eexists. split; [reflexivity|]. done.
Qed.

Lemma letters_effectsValid prio1 prio2 : effectsValid (letters prio1 prio2) 0.
Proof. intros Q [= <-]. by split. Qed.

Lemma letters_all prio1 prio2 :
  ∀ a U, a ∈ [0; 1; 2; 3] → Store.updates (letters prio1 prio2) !! a = Some U →
         (prio2 < prio1)%Z → (prio2 ≤ Update.expirationTime U)%Z.
Proof.
  intros a U Ha HU Hlt.
  repeat (apply elem_of_cons in Ha as [->|Ha]; [injection HU as <-; simpl; lia|]).
  by apply elem_of_nil in Ha.
Qed.

Lemma letters_passResult prio1 prio2 :
  (0 < prio2 < prio1)%Z →
  passResult (Store.updates (letters prio1 prio2)) prio1 VNull VNull [0; 1; 2; 3]
    letterQueue
  = mkLocals (VString "A") (Some 1) None prio2 (VString "AC").
Proof.
  intros [Hlow Hhigh]. unfold passResult. simpl. unfold normalStep. simpl.
  rewrite Z.ltb_irrefl, (proj2 (Z.ltb_lt prio2 prio1) Hhigh). simpl.
  unfold remaining. rewrite (proj2 (Z.ltb_lt 0 prio2) Hlow), Z.ltb_irrefl.
  reflexivity.
Qed.

(** The two passes over [letters]. *)
Lemma letters_passes prio1 prio2 :
  (0 < prio2 < prio1)%Z →
  ∃ s1 F1 Q1 s2 F2,
    processLetters prio1 (letters prio1 prio2) = (Ok tt, s1)
    ∧ Store.fibers s1 !! 0 = Some F1
    ∧ Fiber.memoizedState F1 = VString "AC"
    ∧ Fiber.expirationTime F1 = prio2
    ∧ Fiber.updateQueue F1 = Some 0
    ∧ Store.queues s1 !! 0 = Some Q1
    ∧ UpdateQueue.baseState Q1 = VString "A"
    ∧ processLetters prio2 s1 = (Ok tt, s2)
    ∧ Store.fibers s2 !! 0 = Some F2
    ∧ Fiber.memoizedState F2 = VString "ABCD".
Proof.
  intros Hprio.
  destruct (processUpdateQueue_twice 0 0 VNull VNull prio1 prio2 letterFiber
              letterQueue [0; 1; 2; 3] (letters prio1 prio2))
    as (s1 & queue1 & F1 & Q1 & s2 & F2 & Hrun1 & HF1 & HupdateQueue1 & Hsame
        & Hmemoized1 & Hexpiration1 & HQ1 & HbaseState1 & Hrun2 & HF2 & Hmemoized2).
  { done. }
  { done. }
  { done. }
  { done. }
  { apply letters_chain. }
  { done. }
  { apply letters_effectsValid. }
  { intros a U Ha HU. eapply letters_all; [done..|lia]. }
  rewrite (Hsame eq_refl) in *.
  rewrite (letters_passResult _ _ Hprio) in *. simpl in *.
  by exists s1, F1, Q1, s2, F2.
Qed.

End Samples.

(** C1.  Whatever the first pass skips, a second pass that skips nothing ends in the
    state that a single pass that skips nothing gives: for a fiber whose queue has
    the pending updates [l] and no captured update, for every expiration time [r1]
    of the first pass and every [r2] that no update of [l] is below, processing at
    [r1] and then processing the queue the fiber then has at [r2] both return, and
    the fiber's [memoizedState] is the one that processing once at [r2] gives.
    And for the updates A, B, C, D that append their letter to the state, A and C
    with the expiration time [prio1], B and D with the lower [prio2], and the base
    state [""]: processing at [prio1] gives the [memoizedState] ["AC"], the
    remaining expiration time [prio2] and the [baseState] ["A"]; processing then at
    [prio2] gives ["ABCD"]. *)
Theorem two_passes_agree_with_one_pass :
  (∀ (tags : SideEffectTags) (times : ExpirationTimes) (calls : Calls)
     (workInProgress queue : addr) (props instance : value) (r1 r2 : Z)
     (F : Fiber.t) (Q : UpdateQueue.t) (l : list addr) (s : Store.t),
      Store.fibers s !! workInProgress = Some F →
      (∀ current, Fiber.alternate F = Some current →
                  current < length (Store.fibers s)) →
      Fiber.updateQueue F = Some queue →
      Store.queues s !! queue = Some Q →
      chain (Store.updates s) (UpdateQueue.firstUpdate Q) l →
      UpdateQueue.firstCapturedUpdate Q = None →
      effectsValid s queue →
      (∀ a U, a ∈ l → Store.updates s !! a = Some U →
              (r2 ≤ Update.expirationTime U)%Z) →
      ∃ s1 queue1 F1 s2 F2 s' F',
        processUpdateQueue workInProgress queue props instance r1 s = (Ok tt, s1)
        ∧ Store.fibers s1 !! workInProgress = Some F1
        ∧ Fiber.updateQueue F1 = Some queue1
        ∧ processUpdateQueue workInProgress queue1 props instance r2 s1 = (Ok tt, s2)
        ∧ Store.fibers s2 !! workInProgress = Some F2
        ∧ processUpdateQueue workInProgress queue props instance r2 s = (Ok tt, s')
        ∧ Store.fibers s' !! workInProgress = Some F'
        ∧ Fiber.memoizedState F2 = Fiber.memoizedState F')
  ∧ (∀ prio1 prio2 : Z,
        (0 < prio2 < prio1)%Z →
        ∃ s1 F1 Q1 s2 F2,
          processLetters prio1 (letters prio1 prio2) = (Ok tt, s1)
          ∧ Store.fibers s1 !! 0 = Some F1
          ∧ Fiber.memoizedState F1 = VString "AC"
          ∧ Fiber.expirationTime F1 = prio2
          ∧ Fiber.updateQueue F1 = Some 0
          ∧ Store.queues s1 !! 0 = Some Q1
          ∧ UpdateQueue.baseState Q1 = VString "A"
          ∧ processLetters prio2 s1 = (Ok tt, s2)
          ∧ Store.fibers s2 !! 0 = Some F2
          ∧ Fiber.memoizedState F2 = VString "ABCD").
Proof.
  split.
  - intros tags times calls workInProgress queue props instance r1 r2 F Q l s
      HF Halternate HupdateQueue HQ Hchain Hcaptured Hvalid Hfull.
    destruct (processUpdateQueue_twice workInProgress queue props instance r1 r2
                F Q l s)
      as (s1 & queue1 & F1 & Q1 & s2 & F2 & Hrun1 & HF1 & HupdateQueue1 & _ & _ & _
          & _ & _ & Hrun2 & HF2 & Hmemoized2); [done..|].
    destruct (processUpdateQueue_full workInProgress queue props instance r2 F Q l s)
      as (s' & F' & Hrun & HF' & Hmemoized); [done..|].
    exists s1, queue1, F1, s2, F2, s', F'. rewrite Hmemoized2, Hmemoized.
    by repeat split.
  - apply letters_passes.
Qed.

(** The passes at the expiration times 2 and 1 over the four letters. *)
Lemma two_passes_agree_with_one_pass_witness :
  ∃ s1 queue1 F1 s2 F2 s' F',
    processLetters 2 (letters 2 1) = (Ok tt, s1)
    ∧ Store.fibers s1 !! 0 = Some F1
    ∧ Fiber.updateQueue F1 = Some queue1
    ∧ @processUpdateQueue Examples.sideEffectTags Examples.expirationTimes
        Examples.calls 0 queue1 VNull VNull 1 s1 = (Ok tt, s2)
    ∧ Store.fibers s2 !! 0 = Some F2
    ∧ processLetters 1 (letters 2 1) = (Ok tt, s')
    ∧ Store.fibers s' !! 0 = Some F'
    ∧ Fiber.memoizedState F2 = Fiber.memoizedState F'.
Proof.
  apply (proj1 two_passes_agree_with_one_pass Examples.sideEffectTags
           Examples.expirationTimes Examples.calls 0 0 VNull VNull 2%Z 1%Z letterFiber
           letterQueue [0; 1; 2; 3] (letters 2 1)).
  - done.
  - done.
  - done.
  - done.
  - apply letters_chain.
  - done.
  - apply letters_effectsValid.
  - intros a U Ha HU. eapply letters_all; [done..|lia].
Defined.

End ProcessFacts.

(** ** Committing the queue *)

Module CommitFacts.
Import ReactUpdateQueue UpdateListFacts EnqueueFacts.

(** The list of effects is linked by [nextEffect]: it is a [chain] once every
    update shows its [nextEffect] as its [next]. *)
Definition effectView (U : Update.t) : Update.t :=
  Update.set_next (Update.nextEffect U) U.

Definition effectList (us : list Update.t) (first : option addr) (l : list addr)
  : Prop :=
  chain (effectView <$> us) first l.

(** A callback that [callCallback] accepts, or none. *)
Definition callbackOk (U : Update.t) : Prop :=
  is_null (Update.callback U) = true ∨ typeof (Update.callback U) = TFunction.

(** What committing the effects does to an update: nothing, or its callback is
    reset. *)
Definition calledBack (U U' : Update.t) : Prop :=
  U' = U ∨ U' = Update.set_callback VNull U.

Definition kept (s s' : Store.t) : Prop :=
  Store.queues s' = Store.queues s
  ∧ ∀ a U, Store.updates s !! a = Some U →
           ∃ U', Store.updates s' !! a = Some U' ∧ calledBack U U'.

Lemma kept_refl s : kept s s.
Proof. split; [done|]. intros a U HU. exists U. split; [done|]. by left. Qed.

Lemma kept_trans s1 s2 s3 : kept s1 s2 → kept s2 s3 → kept s1 s3.
Proof.
  intros [Hq12 Hu12] [Hq23 Hu23]. split; [congruence|]. intros a U HU.
  destruct (Hu12 a U HU) as (U' & HU' & H12).
  destruct (Hu23 a U' HU') as (U'' & HU'' & H23).
  exists U''. split; [done|].
  destruct H12 as [->| ->]; [done|]. destruct H23 as [->| ->]; by right.
Qed.

Lemma chain_kept s s' first l :
  kept s s' → chain (Store.updates s) first l → chain (Store.updates s') first l.
Proof.
  intros [_ Hus]. apply chain_ext. intros a U _ HU.
  destruct (Hus a U HU) as (U' & HU' & [->| ->]); by eexists.
Qed.

Lemma effectList_kept s s' first l :
  kept s s' →
  effectList (Store.updates s) first l → effectList (Store.updates s') first l.
Proof.
  intros [_ Hus]. apply chain_ext. intros a V _ HV.
  rewrite list_lookup_fmap in HV.
  destruct (Store.updates s !! a) as [U|] eqn:HU; [|done].
  injection HV as <-.
  destruct (Hus a U HU) as (U' & HU' & HUU').
  exists (effectView U'). rewrite list_lookup_fmap, HU'. split; [done|].
  by destruct HUU' as [->| ->].
Qed.

(** The updates of [l] have callbacks that [callCallback] accepts. *)
Definition callbacksOk (us : list Update.t) (l : list addr) : Prop :=
  ∀ a, a ∈ l → ∃ U, us !! a = Some U ∧ callbackOk U.

Lemma callbacksOk_kept s s' l :
  kept s s' →
  callbacksOk (Store.updates s) l → callbacksOk (Store.updates s') l.
Proof.
  intros [_ Hus] Hok a Ha. destruct (Hok a Ha) as (U & HU & HUok).
  destruct (Hus a U HU) as (U' & HU' & [->| ->]); eexists; (split; [done|]).
  - done.
  - by left.
Qed.

Lemma kept_setUpdate s a U :
  Store.updates s !! a = Some U →
  kept s (Store.set_updates (<[a := Update.set_callback VNull U]> (Store.updates s)) s).
Proof.
  intros HU. split; [done|]. intros b B HB. simpl.
  destruct (decide (a = b)) as [->|Hne].
  - assert (B = U) as -> by congruence.
    eexists. split; [by apply (lookup_insert_same _ _ _ U)|]. by right.
  - exists B. rewrite list_lookup_insert_ne by done. split; [done|]. by left.
Qed.

Section Facts.
Context `{SideEffectTags, ExpirationTimes, Calls}.

(** With callbacks that are functions, committing a list of effects returns. *)
Lemma commitUpdateEffects_ok instance l :
  ∀ fuel effect s,
    effectList (Store.updates s) effect l →
    length l < fuel →
    callbacksOk (Store.updates s) l →
    ∃ s', commitUpdateEffects fuel effect instance s = (Ok tt, s') ∧ kept s s'.
Proof.
  induction l as [|a l IH]; intros fuel effect s Hlist Hfuel Hok.
  { unfold effectList in Hlist. simpl in Hlist. subst effect.
    exists s. split; [by destruct fuel|apply kept_refl]. }
  destruct Hlist as [-> (V & HV & Hrest)].
  rewrite list_lookup_fmap in HV.
  destruct (Store.updates s !! a) as [U|] eqn:HU; [|done].
  injection HV as <-. simpl in Hrest.
  destruct fuel as [|fuel]; [simpl in Hfuel; lia|]. simpl in Hfuel. simpl.
  rewrite (bind_ok _ _ _ _ _ (readUpdate_ok _ Update.callback _ _ HU)).
  destruct (is_null (Update.callback U)) eqn:Hnull.
  - erewrite bind_ok by reflexivity.
    rewrite (bind_ok _ _ _ _ _ (readUpdate_ok _ Update.nextEffect _ _ HU)).
    apply IH; [done|lia|]. intros b Hb. apply Hok, elem_of_cons. by right.
  - destruct (Hok a ltac:(apply elem_of_cons; by left)) as (U' & HU' & HUok).
    assert (U' = U) as -> by congruence.
    destruct HUok as [Hnull'|Hfunction]; [congruence|].
    rewrite !bind_assoc.
    erewrite bind_ok by (by apply setUpdate_ok).
    unfold callCallback, invariantWith. rewrite bool_decide_eq_true_2 by done.
    rewrite !bind_assoc.
    erewrite bind_ok by reflexivity.
    erewrite bind_ok by reflexivity.
    pose proof (kept_setUpdate s a U HU) as Hkept.
    set (s1 := Store.set_updates _ s) in *.
    set (s2 := Store.set_invoked _ s1).
    assert (kept s s2) as Hkept2.
    { destruct Hkept as [Hq Hu]. by split. }
    assert (Store.updates s2 !! a = Some (Update.set_callback VNull U)) as HU2.
    { by apply (lookup_insert_same _ _ _ U). }
    rewrite (bind_ok _ _ _ _ _ (readUpdate_ok _ Update.nextEffect _ _ HU2)).
    destruct (IH fuel (Update.nextEffect U) s2) as (s' & Hrun & Hkept').
    + by eapply effectList_kept.
    + lia.
    + eapply callbacksOk_kept; [done|].
      intros b Hb. apply Hok, elem_of_cons. by right.
    + exists s'. split; [done|]. by eapply kept_trans.
Qed.

(** The first part of [commitUpdateQueue], once [firstCapturedUpdate] is read. *)
Definition spliceCaptured (finishedQueue : addr) (firstCapturedUpdate : option addr)
  : M Store.t unit :=
  if firstCapturedUpdate is Some _ then
    lastUpdate ← readQueue finishedQueue UpdateQueue.lastUpdate;
    (if lastUpdate is Some last then
       firstCapturedUpdate ← readQueue finishedQueue UpdateQueue.firstCapturedUpdate;
       setUpdate last (Update.set_next firstCapturedUpdate);;
       lastCapturedUpdate ← readQueue finishedQueue UpdateQueue.lastCapturedUpdate;
       setQueue finishedQueue (UpdateQueue.set_lastUpdate lastCapturedUpdate)
     else mret tt);;
    setQueue finishedQueue (UpdateQueue.set_lastCapturedUpdate None);;
    setQueue finishedQueue (UpdateQueue.set_firstCapturedUpdate None)
  else mret tt.

(** The queue after the captured list was spliced. *)
Definition spliced (Q : UpdateQueue.t) : UpdateQueue.t :=
  UpdateQueue.set_firstCapturedUpdate None
    (UpdateQueue.set_lastCapturedUpdate None
       (UpdateQueue.set_lastUpdate (UpdateQueue.lastCapturedUpdate Q) Q)).

Lemma spliceCaptured_ok finishedQueue Q first last T s :
  Store.queues s !! finishedQueue = Some Q →
  UpdateQueue.firstCapturedUpdate Q = Some first →
  UpdateQueue.lastUpdate Q = Some last →
  Store.updates s !! last = Some T →
  spliceCaptured finishedQueue (Some first) s
  = (Ok tt,
     Store.set_queues (<[finishedQueue := spliced Q]> (Store.queues s))
       (Store.set_updates
          (<[last := Update.set_next (Some first) T]> (Store.updates s)) s)).
Proof.
  intros HQ Hfirst Hlast HT. unfold spliceCaptured.
  heap_step. rewrite Hlast. do 5 heap_step. rewrite Hfirst.
  erewrite setQueue_ok by solve_lookup. simpl.
  by rewrite !list_insert_insert_eq.
Qed.

Lemma effectView_insert_next (us : list Update.t) a U next :
  us !! a = Some U →
  effectView <$> <[a := Update.set_next next U]> us = effectView <$> us.
Proof. intros HU. by apply (ProcessFacts.fmap_insert_same _ _ _ U). Qed.

Lemma callbacksOk_insert_next (us : list Update.t) a U next l :
  us !! a = Some U →
  callbacksOk us l → callbacksOk (<[a := Update.set_next next U]> us) l.
Proof.
  intros HU Hok b Hb. destruct (Hok b Hb) as (B & HB & HBok).
  destruct (decide (a = b)) as [->|Hne].
  - assert (B = U) as -> by congruence.
    eexists. split; [by apply (lookup_insert_same _ _ _ U)|]. done.
  - exists B. by rewrite list_lookup_insert_ne.
Qed.

Lemma effectList_fuel us first l : effectList us first l → length l < S (length us).
Proof.
  intros Hlist. apply chain_length in Hlist. rewrite length_fmap in Hlist. lia.
Qed.

(** The first part on a queue without a pending update: nothing is linked. *)
Lemma spliceCaptured_empty finishedQueue Q first s :
  Store.queues s !! finishedQueue = Some Q →
  UpdateQueue.lastUpdate Q = None →
  spliceCaptured finishedQueue (Some first) s
  = (Ok tt,
     Store.set_queues
       (<[finishedQueue := UpdateQueue.set_firstCapturedUpdate None
                             (UpdateQueue.set_lastCapturedUpdate None Q)]>
          (Store.queues s)) s).
Proof.
  intros HQ Hlast. unfold spliceCaptured.
  heap_step. rewrite Hlast. do 2 heap_step.
  erewrite setQueue_ok by solve_lookup. simpl.
  by rewrite !list_insert_insert_eq.
Qed.

(** The second part of [commitUpdateQueue]: the two lists of effects. *)
Definition commitEffects (finishedQueue : addr) (instance : value) : M Store.t unit :=
  firstEffect ← readQueue finishedQueue UpdateQueue.firstEffect;
  fuel ← listFuel;
  commitUpdateEffects fuel firstEffect instance;;
  setQueue finishedQueue (UpdateQueue.set_lastEffect None);;
  setQueue finishedQueue (UpdateQueue.set_firstEffect None);;
  firstCapturedEffect ← readQueue finishedQueue UpdateQueue.firstCapturedEffect;
  fuel ← listFuel;
  commitUpdateEffects fuel firstCapturedEffect instance;;
  setQueue finishedQueue (UpdateQueue.set_lastCapturedEffect None);;
  setQueue finishedQueue (UpdateQueue.set_firstCapturedEffect None).

Lemma commitUpdateQueue_halves finishedWork finishedQueue instance
    renderExpirationTime :
  commitUpdateQueue finishedWork finishedQueue instance renderExpirationTime
  = (firstCapturedUpdate ← readQueue finishedQueue UpdateQueue.firstCapturedUpdate;
     spliceCaptured finishedQueue firstCapturedUpdate;;
     commitEffects finishedQueue instance).
Proof. reflexivity. Qed.

(** With effect lists that are well formed and callbacks that are functions, the
    second part returns; it leaves the four pointers to the updates of the queue
    and every list of updates as they are. *)
Lemma commitEffects_ok finishedQueue instance Q le lce s :
  Store.queues s !! finishedQueue = Some Q →
  effectList (Store.updates s) (UpdateQueue.firstEffect Q) le →
  effectList (Store.updates s) (UpdateQueue.firstCapturedEffect Q) lce →
  callbacksOk (Store.updates s) (le ++ lce) →
  ∃ s' Q',
    commitEffects finishedQueue instance s = (Ok tt, s')
    ∧ Store.queues s' !! finishedQueue = Some Q'
    ∧ UpdateQueue.firstUpdate Q' = UpdateQueue.firstUpdate Q
    ∧ UpdateQueue.lastUpdate Q' = UpdateQueue.lastUpdate Q
    ∧ UpdateQueue.firstCapturedUpdate Q' = UpdateQueue.firstCapturedUpdate Q
    ∧ UpdateQueue.lastCapturedUpdate Q' = UpdateQueue.lastCapturedUpdate Q
    ∧ ∀ first l, chain (Store.updates s) first l → chain (Store.updates s') first l.
Proof.
  intros HQ Heffects1 Heffects2 Hok. unfold commitEffects.
  rewrite (bind_ok _ _ _ _ _ (readQueue_ok _ UpdateQueue.firstEffect _ _ HQ)).
  erewrite bind_ok by reflexivity.
  assert (callbacksOk (Store.updates s) le ∧ callbacksOk (Store.updates s) lce)
    as [Hok1 Hok2].
  { split; intros a Ha; apply Hok, elem_of_app; [by left|by right]. }
  destruct (commitUpdateEffects_ok instance le (S (length (Store.updates s)))
              (UpdateQueue.firstEffect Q) s Heffects1
              (effectList_fuel _ _ _ Heffects1) Hok1)
    as (s1 & Hrun1 & Hkept1).
  erewrite bind_ok by exact Hrun1.
  assert (Store.queues s1 !! finishedQueue = Some Q) as HQ1.
  { by rewrite (proj1 Hkept1). }
  assert (effectList (Store.updates s1) (UpdateQueue.firstCapturedEffect Q) lce)
    as Heffects3 by (by eapply effectList_kept).
  assert (callbacksOk (Store.updates s1) lce) as Hok3
    by (by eapply callbacksOk_kept).
  do 3 heap_step.
  erewrite bind_ok by reflexivity.
  match goal with
  | |- context [(commitUpdateEffects _ _ _ ≫= _) ?st] => set (s2 := st)
  end.
  destruct (commitUpdateEffects_ok instance lce (S (length (Store.updates s2)))
              (UpdateQueue.firstCapturedEffect Q) s2 Heffects3
              (effectList_fuel _ _ _ Heffects3) Hok3)
    as (s3 & Hrun3 & Hkept3).
  erewrite bind_ok by exact Hrun3.
  assert (Store.queues s3 !! finishedQueue
          = Some (UpdateQueue.set_firstEffect None
                    (UpdateQueue.set_lastEffect None Q))) as HQ3.
  { rewrite (proj1 Hkept3). simpl. rewrite list_lookup_insert_eq; [done|].
    rewrite length_insert. by eapply lookup_lt_Some. }
  heap_step.
  eexists _, _. split; [by apply setQueue_ok; solve_lookup|]. simpl.
  split; [solve_lookup|]. simpl.
  split; [done|]. split; [done|]. split; [done|]. split; [done|].
  intros first l Hchain. apply (chain_kept s2 s3 _ _ Hkept3).
  change (chain (Store.updates s1) first l).
  by apply (chain_kept s s1 _ _ Hkept1).
Qed.

(** C4, as the code has it.  Let the queue list the pending updates [l] and the
    captured updates [lc], not empty and apart from the last pending update; let
    its two lists of effects be linked by [nextEffect] and carry callbacks that are
    functions.  Then [commitUpdateQueue] returns and the captured list of the queue
    is empty.  When there is a pending update, the queue then lists [l] followed by
    [lc] from its [firstUpdate], and its [lastUpdate] is the last captured update.
    When there is none, so that [lastUpdate] is [null], nothing is linked: the
    queue has no first and no last update, and no captured update is in a list of
    the queue any more. *)
Theorem commitUpdateQueue_splices_captured_updates finishedWork finishedQueue
    instance renderExpirationTime s Q l lc le lce :
  Store.queues s !! finishedQueue = Some Q →
  chain (Store.updates s) (UpdateQueue.firstUpdate Q) l →
  UpdateQueue.lastUpdate Q = last l →
  chain (Store.updates s) (UpdateQueue.firstCapturedUpdate Q) lc →
  UpdateQueue.lastCapturedUpdate Q = last lc →
  lc ≠ [] →
  (∀ t, last l = Some t → t ∉ lc) →
  effectList (Store.updates s) (UpdateQueue.firstEffect Q) le →
  effectList (Store.updates s) (UpdateQueue.firstCapturedEffect Q) lce →
  callbacksOk (Store.updates s) (le ++ lce) →
  ∃ s' Q',
    commitUpdateQueue finishedWork finishedQueue instance renderExpirationTime s
    = (Ok tt, s')
    ∧ Store.queues s' !! finishedQueue = Some Q'
    ∧ UpdateQueue.firstCapturedUpdate Q' = None
    ∧ UpdateQueue.lastCapturedUpdate Q' = None
    ∧ (l ≠ [] →
       chain (Store.updates s') (UpdateQueue.firstUpdate Q') (l ++ lc)
       ∧ UpdateQueue.lastUpdate Q' = last (l ++ lc))
    ∧ (l = [] →
       UpdateQueue.firstUpdate Q' = None
       ∧ UpdateQueue.lastUpdate Q' = None
       ∧ ∀ l' c, chain (Store.updates s') (UpdateQueue.firstUpdate Q') l' →
                 c ∈ lc → c ∉ l').
Proof.
  intros HQ Hchain HlastUpdate Hcaptured HlastCaptured Hnonempty Hapart
    Heffects HcapturedEffects Hok.
  destruct lc as [|c lc]; [done|]. clear Hnonempty.
  pose proof Hcaptured as [Hfirst _].
  rewrite commitUpdateQueue_halves.
  rewrite (bind_ok _ _ _ _ _ (readQueue_ok _ UpdateQueue.firstCapturedUpdate _ _ HQ)).
  rewrite Hfirst.
  destruct (last l) as [t|] eqn:Hlast.
  - destruct (chain_last _ _ _ _ Hchain Hlast) as (T & HT & HnextT).
    erewrite bind_ok by exact (spliceCaptured_ok _ _ _ _ _ _ HQ Hfirst HlastUpdate HT).
    set (sA := Store.set_queues _ _).
    destruct (commitEffects_ok finishedQueue instance (spliced Q) le lce sA)
      as (s' & Q' & Hrun & HQ' & HfirstUpdate' & HlastUpdate' & Hfirst' & Hlast'
          & Hchains).
    { by apply (lookup_insert_same _ _ _ Q). }
    { unfold effectList. simpl. by rewrite effectView_insert_next. }
    { unfold effectList. simpl. by rewrite effectView_insert_next. }
    { by apply callbacksOk_insert_next. }
    exists s', Q'. split; [done|]. split; [done|]. split; [done|]. split; [done|].
    split.
    + intros _. split.
      * rewrite HfirstUpdate'. apply Hchains. simpl. rewrite Hfirst in Hcaptured.
        apply chain_splice; try done. by apply Hapart.
      * rewrite HlastUpdate'. simpl. by rewrite HlastCaptured, last_app_cons.
    + intros ->. done.
  - apply last_None in Hlast as ->. simpl in Hchain.
    erewrite bind_ok by exact (spliceCaptured_empty _ _ _ _ HQ HlastUpdate).
    set (sA := Store.set_queues _ _).
    destruct (commitEffects_ok finishedQueue instance
                (UpdateQueue.set_firstCapturedUpdate None
                   (UpdateQueue.set_lastCapturedUpdate None Q)) le lce sA)
      as (s' & Q' & Hrun & HQ' & HfirstUpdate' & HlastUpdate' & Hfirst' & Hlast'
          & Hchains); [by apply (lookup_insert_same _ _ _ Q)|done..|].
    simpl in HfirstUpdate', HlastUpdate', Hfirst', Hlast'.
    exists s', Q'. split; [done|]. split; [done|]. split; [done|]. split; [done|].
    split; [done|]. intros _.
    split; [congruence|]. split; [congruence|].
    intros l' c' Hl' _. rewrite HfirstUpdate', Hchain in Hl'.
    destruct l' as [|a l']; [apply not_elem_of_nil|]. by destruct Hl'.
Qed.

End Facts.

Section Samples.

#[local] Existing Instance Examples.sideEffectTags.
#[local] Existing Instance Examples.expirationTimes.
#[local] Existing Instance Examples.calls.

Definition pendingUpdate : Update.t :=
  {| Update.expirationTime := 1;
     Update.tag := UpdateState;
     Update.payload := VNull;
     Update.callback := VFunction 0 ∅;
     Update.next := None;
     Update.nextEffect := None |}.

Definition capturedUpdate : Update.t :=
  {| Update.expirationTime := 1;
     Update.tag := CaptureUpdate;
     Update.payload := VNull;
     Update.callback := VNull;
     Update.next := None;
     Update.nextEffect := None |}.

(** A queue with the pending update 0, which has a callback to commit, and the
    captured update 1. *)
Definition pendingQueue : UpdateQueue.t :=
  {| UpdateQueue.baseState := VNull;
     UpdateQueue.firstUpdate := Some 0;
     UpdateQueue.lastUpdate := Some 0;
     UpdateQueue.firstCapturedUpdate := Some 1;
     UpdateQueue.lastCapturedUpdate := Some 1;
     UpdateQueue.firstEffect := Some 0;
     UpdateQueue.lastEffect := Some 0;
     UpdateQueue.firstCapturedEffect := None;
     UpdateQueue.lastCapturedEffect := None |}.

Definition pendingAndCaptured : Store.t :=
  {| Store.fibers := [];
     Store.queues := [pendingQueue];
     Store.updates := [pendingUpdate; capturedUpdate];
     Store.hasForceUpdate := false;
     Store.invoked := [] |}.

(** A queue that has no pending update left and the captured update 0. *)
Definition capturedQueue : UpdateQueue.t :=
  {| UpdateQueue.baseState := VNull;
     UpdateQueue.firstUpdate := None;
     UpdateQueue.lastUpdate := None;
     UpdateQueue.firstCapturedUpdate := Some 0;
     UpdateQueue.lastCapturedUpdate := Some 0;
     UpdateQueue.firstEffect := None;
     UpdateQueue.lastEffect := None;
     UpdateQueue.firstCapturedEffect := None;
     UpdateQueue.lastCapturedEffect := None |}.

Definition capturedOnly : Store.t :=
  {| Store.fibers := [];
     Store.queues := [capturedQueue];
     Store.updates := [capturedUpdate];
     Store.hasForceUpdate := false;
     Store.invoked := [] |}.

(** The theorem at [pendingAndCaptured], where the queue then lists the updates 0
    and 1, and at [capturedOnly], where the queue then lists no update. *)
Lemma commitUpdateQueue_splices_captured_updates_witness :
  (∃ s' Q',
      commitUpdateQueue 0 0 VNull 0 pendingAndCaptured = (Ok tt, s')
      ∧ Store.queues s' !! 0 = Some Q'
      ∧ chain (Store.updates s') (UpdateQueue.firstUpdate Q') [0; 1]
      ∧ UpdateQueue.lastUpdate Q' = Some 1
      ∧ UpdateQueue.firstCapturedUpdate Q' = None
      ∧ UpdateQueue.lastCapturedUpdate Q' = None)
  ∧ (∃ s' Q',
        commitUpdateQueue 0 0 VNull 0 capturedOnly = (Ok tt, s')
        ∧ Store.queues s' !! 0 = Some Q'
        ∧ UpdateQueue.firstUpdate Q' = None
        ∧ UpdateQueue.lastUpdate Q' = None
        ∧ UpdateQueue.firstCapturedUpdate Q' = None
        ∧ UpdateQueue.lastCapturedUpdate Q' = None).
Proof.
  split.
  - assert (chain (Store.updates pendingAndCaptured) (Some 0) [0]) as Hpending.
    { split; [done|]. eexists. by split. }
    assert (chain (Store.updates pendingAndCaptured) (Some 1) [1]) as Hcaptured.
    { split; [done|]. eexists. by split. }
    assert (∀ t, last [0] = Some t → t ∉ [1]) as Hapart.
    { intros t [= <-]. rewrite not_elem_of_cons. split; [lia|apply not_elem_of_nil]. }
    assert (effectList (Store.updates pendingAndCaptured) (Some 0) [0]) as Heffects.
    { split; [done|]. eexists. by split. }
    assert (effectList (Store.updates pendingAndCaptured) None []) as Hnone by done.
    assert (callbacksOk (Store.updates pendingAndCaptured) ([0] ++ [])) as Hok.
    { intros a Ha. apply elem_of_cons in Ha as [->|Ha]; [|by apply elem_of_nil in Ha].
      exists pendingUpdate. split; [done|]. by right. }
    destruct (commitUpdateQueue_splices_captured_updates 0 0 VNull 0%Z
                pendingAndCaptured pendingQueue [0] [1] [0] [] eq_refl Hpending
                eq_refl Hcaptured eq_refl ltac:(done) Hapart Heffects Hnone Hok)
      as (s' & Q' & Hrun & HQ' & Hfirst & Hlast & Hspliced & _).
    destruct (Hspliced ltac:(done)) as [Hchain HlastUpdate].
    exists s', Q'. split; [exact Hrun|]. split; [exact HQ'|]. split; [exact Hchain|].
    split; [exact HlastUpdate|]. split; [exact Hfirst|exact Hlast].
  - assert (chain (Store.updates capturedOnly) (Some 0) [0]) as Hcaptured.
    { split; [done|]. eexists. by split. }
    assert (∀ t, last [] = Some t → t ∉ [0]) as Hapart by (by intros t [=]).
    assert (effectList (Store.updates capturedOnly) None []) as Hnone by done.
    assert (callbacksOk (Store.updates capturedOnly) ([] ++ [])) as Hok.
    { intros a Ha. by apply elem_of_nil in Ha. }
    destruct (commitUpdateQueue_splices_captured_updates 0 0 VNull 0%Z
                capturedOnly capturedQueue [] [0] [] [] eq_refl eq_refl
                eq_refl Hcaptured eq_refl ltac:(done) Hapart Hnone Hnone Hok)
      as (s' & Q' & Hrun & HQ' & Hfirst & Hlast & _ & Hdropped).
    destruct (Hdropped eq_refl) as (HfirstUpdate & HlastUpdate & _).
    exists s', Q'. split; [exact Hrun|]. split; [exact HQ'|].
    split; [exact HfirstUpdate|]. split; [exact HlastUpdate|].
    split; [exact Hfirst|exact Hlast].
Defined.

(** Committing [capturedOnly] returns and leaves a queue with no update at all:
    the captured update 0, the only one of a captured list that was not empty, is
    in neither list of the queue. *)
Lemma captured_update_is_dropped :
  chain (Store.updates capturedOnly)
    (UpdateQueue.firstCapturedUpdate capturedQueue) [0]
  ∧ ∃ s' Q',
      commitUpdateQueue 0 0 VNull 0 capturedOnly = (Ok tt, s')
      ∧ Store.queues s' !! 0 = Some Q'
      ∧ UpdateQueue.firstCapturedUpdate Q' = None
      ∧ UpdateQueue.lastCapturedUpdate Q' = None
      ∧ UpdateQueue.firstUpdate Q' = None
      ∧ ∀ l, chain (Store.updates s') (UpdateQueue.firstUpdate Q') l → 0 ∉ l.
Proof.
  split.
  { split; [done|]. eexists. by split. }
  eexists _, _. split; [by vm_compute|]. split; [by vm_compute|].
  split; [done|]. split; [done|]. split; [done|].
  intros [|a l] Hchain; [apply not_elem_of_nil|]. by destruct Hchain.
Qed.

End Samples.

End CommitFacts.

(** ** The property table and the attributes written *)

Module AttributeFacts.
Import DOMProperty DOMPropertyFacts.

(** The entries of the table in the order in which the [forEach] blocks add them. *)
Definition tableEntries : list (string * PropertyInfo.t) :=
  ((λ name, (name, PropertyInfoRecord name RESERVED false name None)) <$> reservedNames)
  ++ ((λ e, (fst e, PropertyInfoRecord (fst e) STRING false (snd e) None))
        <$> renamedNames)
  ++ ((λ name, (name, PropertyInfoRecord name BOOLEANISH_STRING false
                        (toLowerCase name) None)) <$> enumeratedHtmlNames)
  ++ ((λ name, (name, PropertyInfoRecord name BOOLEANISH_STRING false name None))
        <$> enumeratedSvgNames)
  ++ ((λ name, (name, PropertyInfoRecord name BOOLEAN false (toLowerCase name) None))
        <$> booleanNames)
  ++ ((λ name, (name, PropertyInfoRecord name BOOLEAN true name None))
        <$> booleanPropertyNames)
  ++ ((λ name, (name, PropertyInfoRecord name OVERLOADED_BOOLEAN false name None))
        <$> overloadedBooleanNames)
  ++ ((λ name, (name, PropertyInfoRecord name POSITIVE_NUMERIC false name None))
        <$> positiveNumericNames)
  ++ ((λ name, (name, PropertyInfoRecord name NUMERIC false (toLowerCase name) None))
        <$> numericNames)
  ++ ((λ a, (camelize a, PropertyInfoRecord (camelize a) STRING false a None))
        <$> svgAttributeNames)
  ++ ((λ a, (camelize a, PropertyInfoRecord (camelize a) STRING false a
                           (Some "http://www.w3.org/1999/xlink")))
        <$> xlinkAttributeNames)
  ++ ((λ a, (camelize a, PropertyInfoRecord (camelize a) STRING false a
                           (Some "http://www.w3.org/XML/1998/namespace")))
        <$> xmlAttributeNames)
  ++ ((λ a, (a, PropertyInfoRecord a STRING false (toLowerCase a) None))
        <$> htmlAndSvgNames).

Definition addEntry (table : gmap string PropertyInfo.t) (e : string * PropertyInfo.t)
  : gmap string PropertyInfo.t :=
  <[e.1 := e.2]> table.

Lemma addAll_entries {A : Type} (entries : list A) (name : A → string)
    (info : A → PropertyInfo.t) table :
  addAll entries name info table
  = foldl addEntry table ((λ e, (name e, info e)) <$> entries).
Proof.
  unfold addAll. revert table.
  induction entries as [|e entries IH]; intros table; [done|]. simpl. apply IH.
Qed.

Lemma properties_entries : properties = foldl addEntry ∅ tableEntries.
Proof.
  unfold properties, tableEntries. cbv zeta.
  rewrite !foldl_app, !addAll_entries. reflexivity.
Qed.

Lemma foldl_addEntry_lookup entries :
  ∀ table name info,
    foldl addEntry table entries !! name = Some info →
    (name, info) ∈ entries ∨ table !! name = Some info.
Proof.
  induction entries as [|e entries IH]; intros table name info Hlookup; [by right|].
  simpl in Hlookup. apply IH in Hlookup as [Hin|Hlookup].
  - left. apply elem_of_cons. by right.
  - unfold addEntry in Hlookup. apply lookup_insert_Some in Hlookup as [[<- <-]|[_ ?]].
    + left. apply elem_of_cons. left. by destruct e.
    + by right.
Qed.

(** A property that holds of every entry added to the table holds of whatever
    [getPropertyInfo] finds. *)
Lemma table_forall (P : string → PropertyInfo.t → bool) :
  forallb (λ e, P e.1 e.2) tableEntries = true →
  ∀ name info, getPropertyInfo name = Some info → P name info = true.
Proof.
  intros Hall name info Hinfo.
  unfold getPropertyInfo in Hinfo. rewrite properties_entries in Hinfo.
  apply foldl_addEntry_lookup in Hinfo as [Hin|Hempty]; [|done].
  apply Is_true_true_2, forallb_True in Hall.
  rewrite Forall_forall in Hall. apply Is_true_true_1, (Hall (name, info) Hin).
Qed.

Lemma table_propertyName name info :
  getPropertyInfo name = Some info → PropertyInfo.propertyName info = name.
Proof.
  intros Hinfo. apply String.eqb_eq.
  by apply (table_forall (λ name info, String.eqb (PropertyInfo.propertyName info) name)).
Qed.

(** The properties that are set as properties of the node. *)
Definition domPropertyNames : list string := ["checked"; "multiple"; "muted"; "selected"].

Lemma table_mustUseProperty name info :
  getPropertyInfo name = Some info →
  PropertyInfo.mustUseProperty info = true →
  name ∈ domPropertyNames.
Proof.
  intros Hinfo Hmust.
  pose proof (table_forall
                (λ name info, negb (PropertyInfo.mustUseProperty info)
                              || bool_decide (name ∈ domPropertyNames))
                ltac:(by vm_compute) name info Hinfo) as Hall.
  simpl in Hall. rewrite Hmust in Hall. simpl in Hall.
  by apply bool_decide_eq_true in Hall.
Qed.

Lemma table_attributeName_valid name info :
  getPropertyInfo name = Some info →
  validAttributeName (PropertyInfo.attributeName info) = true.
Proof.
  by apply (table_forall (λ _ info, validAttributeName (PropertyInfo.attributeName info))).
Qed.

(** Only string properties have a namespace, and none is the empty string. *)
Lemma table_namespace name info namespace :
  getPropertyInfo name = Some info →
  PropertyInfo.attributeNamespace info = Some namespace →
  PropertyInfo.type info = STRING ∧ namespace ≠ EmptyString.
Proof.
  intros Hinfo Hnamespace.
  pose proof (table_forall
                (λ _ info,
                   match PropertyInfo.attributeNamespace info with
                   | Some namespace =>
                       (PropertyInfo.type info =? STRING)%Z
                       && negb (String.eqb namespace EmptyString)
                   | None => true
                   end)
                ltac:(by vm_compute) name info Hinfo) as Hall.
  simpl in Hall. rewrite Hnamespace in Hall.
  apply andb_true_iff in Hall as [Htype Hne]. split; [by apply Z.eqb_eq|].
  apply negb_true_iff, String.eqb_neq in Hne. done.
Qed.

(** The test of [shouldIgnoreAttribute] for a prop that may be an event handler:
    more than two characters, the first [o] or [O], the second [n] or [N]. *)
Definition isEventName (name : string) : bool :=
  match name with
  | String c0 (String c1 (String _ _)) =>
      (Ascii.eqb c0 "o" || Ascii.eqb c0 "O") && (Ascii.eqb c1 "n" || Ascii.eqb c1 "N")
  | _ => false
  end.

Lemma table_no_event_name name :
  isEventName name = true → getPropertyInfo name = None.
Proof.
  intros Hevent. destruct (getPropertyInfo name) as [info|] eqn:Hinfo; [|done].
  pose proof (table_forall (λ name _, negb (isEventName name))
                ltac:(by vm_compute) name info Hinfo) as Hall.
  simpl in Hall. by rewrite Hevent in Hall.
Qed.

(** The state of the module before any call: both caches empty. *)
Definition emptyDom : Dom := mkDom ∅ ∅ [].

(** The caches hold what the test of the name gave. *)
Definition cachesOk (d : Dom) : Prop :=
  (∀ name, name ∈ validatedAttributeNameCache d → validAttributeName name = true)
  ∧ (∀ name, name ∈ illegalAttributeNameCache d → validAttributeName name = false).

Lemma cachesOk_empty : cachesOk emptyDom.
Proof. split; intros name Hname; by apply elem_of_empty in Hname. Qed.

Section Facts.
Context `{Coercions}.

Lemma isAttributeNameSafe_result name d :
  cachesOk d →
  ∃ d', isAttributeNameSafe name d = (Ok (validAttributeName name), d')
        ∧ cachesOk d'
        ∧ domCalls d' = domCalls d.
Proof.
  intros [Hvalid Hillegal].
  unfold isAttributeNameSafe, mbind, M_bind, gets, modify, mret, M_ret. simpl.
  case_bool_decide as Hin1.
  { exists d. by rewrite (Hvalid name Hin1). }
  case_bool_decide as Hin2.
  { exists d. by rewrite (Hillegal name Hin2). }
  destruct (validAttributeName name) eqn:Htest; simpl;
    (eexists; split; [done|]; split; [|done]; split; simpl; [|]);
    try done; intros n [->%elem_of_singleton|Hn]%elem_of_union; auto.
Qed.

(** X1.  [isAttributeNameSafe] answers what [VALID_ATTRIBUTE_NAME_REGEX] says of
    the name, whatever the caches hold, as long as they hold results of that test;
    it keeps them so, forgets nothing and calls nothing on a node. *)
Theorem isAttributeNameSafe_tests_the_name (name : string) (d : Dom) :
  cachesOk d →
  ∃ d',
    isAttributeNameSafe name d = (Ok (validAttributeName name), d')
    ∧ cachesOk d'
    ∧ validatedAttributeNameCache d ⊆ validatedAttributeNameCache d'
    ∧ illegalAttributeNameCache d ⊆ illegalAttributeNameCache d'
    ∧ domCalls d' = domCalls d.
Proof.
  intros [Hvalid Hillegal].
  unfold isAttributeNameSafe, mbind, M_bind, gets, modify, mret, M_ret. simpl.
  case_bool_decide as Hin1.
  { exists d. rewrite (Hvalid name Hin1). by repeat split. }
  case_bool_decide as Hin2.
  { exists d. rewrite (Hillegal name Hin2). by repeat split. }
  destruct (validAttributeName name) eqn:Htest; simpl.
  - eexists. split; [done|]. simpl. split; [split|]; simpl.
    + intros n Hn. apply elem_of_union in Hn as [Hn|Hn]; [|by apply Hvalid].
      apply elem_of_singleton in Hn. by subst.
    + done.
    + split; [set_solver|]. done.
  - eexists. split; [done|]. simpl. split; [split|]; simpl.
    + done.
    + intros n Hn. apply elem_of_union in Hn as [Hn|Hn]; [|by apply Hillegal].
      apply elem_of_singleton in Hn. by subst.
    + split; [done|]. split; [set_solver|]. done.
Qed.

Lemma domCall_ok node c d :
  domCall node c d
  = (Ok tt, mkDom (validatedAttributeNameCache d) (illegalAttributeNameCache d)
              (domCalls d ++ [(node, c)])).
Proof. done. Qed.

Lemma lift_bind {A B : Type} (r : result A) (f : A → M Dom B) d :
  (lift r ≫= f) d = match r with Ok a => f a d | Throw e => (Throw e, d) end.
Proof. unfold mbind, M_bind, lift. by destruct r. Qed.

(** X2.  Whatever the prop, its value and the conversions do, [setValueForProperty]
    makes no call on a host node or exactly one, on the node it was given; when it
    throws (in a conversion of the value) it has made none. *)
Theorem setValueForProperty_calls_at_most_once (node : nat) (name : string)
    (v : value) (custom : bool) (d : Dom) :
  ∃ r d',
    setValueForProperty node name v custom d = (r, d')
    ∧ (domCalls d' = domCalls d
       ∨ (r = Ok tt ∧ ∃ c, domCalls d' = domCalls d ++ [(node, c)])).
Proof.
  unfold setValueForProperty.
  destruct (shouldIgnoreAttribute _ _ _); [by eexists _, _; split; [|left]|].
  rewrite lift_bind.
  destruct (shouldRemoveAttribute _ _ _ _) as [remove|e];
    [|by eexists _, _; split; [|left]].
  destruct (if custom then None else getPropertyInfo name) as [info|].
  - destruct (PropertyInfo.mustUseProperty info).
    { destruct (is_null _); rewrite domCall_ok; eexists _, _; (split; [done|]);
        right; (split; [done|]); by eexists. }
    destruct (is_null _).
    { rewrite domCall_ok. eexists _, _. split; [done|]. right. split; [done|].
      by eexists. }
    assert (∀ text : string,
               ∃ c, (match PropertyInfo.attributeNamespace info with
                     | Some namespace =>
                         if String.eqb namespace EmptyString
                         then domCall node
                                (SetAttribute (PropertyInfo.attributeName info) text)
                         else domCall node
                                (SetAttributeNS namespace
                                   (PropertyInfo.attributeName info) text)
                     | None =>
                         domCall node
                           (SetAttribute (PropertyInfo.attributeName info) text)
                     end) d
                    = (Ok tt, mkDom (validatedAttributeNameCache d)
                                (illegalAttributeNameCache d)
                                (domCalls d ++ [(node, c)]))) as Hset.
    { intros text. destruct (PropertyInfo.attributeNamespace info) as [namespace|];
        [destruct (String.eqb namespace EmptyString)|]; by eexists. }
    destruct (_ || _).
    + erewrite bind_ok by reflexivity. destruct (Hset EmptyString) as [c ->].
      eexists _, _. split; [done|]. right. split; [done|]. by eexists.
    + rewrite lift_bind. destruct (toStringConcat _) as [text|e].
      * destruct (Hset text) as [c ->].
        eexists _, _. split; [done|]. right. split; [done|]. by eexists.
      * eexists _, _. split; [done|]. by left.
  - destruct (isAttributeNameSafe_calls name d) as (safe & d1 & Hsafe & Hcalls).
    erewrite bind_ok by exact Hsafe.
    destruct safe; [|by eexists _, _; split; [|left]].
    destruct (is_null _).
    { rewrite domCall_ok. eexists _, _. split; [done|]. right. split; [done|].
      simpl. rewrite Hcalls. by eexists. }
    rewrite lift_bind. destruct (toStringConcat _) as [text|e].
    + rewrite domCall_ok. eexists _, _. split; [done|]. right. split; [done|].
      simpl. rewrite Hcalls. by eexists.
    + eexists _, _. split; [done|]. by left.
Qed.

(** Where a call of [setValueForProperty] takes its name from: the entry of the
    table, or the name of the prop once [isAttributeNameSafe] accepted it. *)
Definition callShape (name : string) (custom : bool) (d : Dom) (c : DomCall) : Prop :=
  match c with
  | SetProperty p _ =>
      custom = false
      ∧ ∃ info, getPropertyInfo name = Some info
                ∧ PropertyInfo.mustUseProperty info = true
                ∧ p = PropertyInfo.propertyName info
  | SetAttributeNS namespace a _ =>
      custom = false
      ∧ ∃ info, getPropertyInfo name = Some info
                ∧ a = PropertyInfo.attributeName info
                ∧ PropertyInfo.attributeNamespace info = Some namespace
  | RemoveAttribute a | SetAttribute a _ =>
      (custom = false
       ∧ ∃ info, getPropertyInfo name = Some info ∧ a = PropertyInfo.attributeName info)
      ∨ (a = name ∧ ∃ d1, isAttributeNameSafe name d = (Ok true, d1))
  end.

Lemma setValueForProperty_shape node name v custom d :
  ∃ r d',
    setValueForProperty node name v custom d = (r, d')
    ∧ (domCalls d' = domCalls d
       ∨ ∃ c, domCalls d' = domCalls d ++ [(node, c)] ∧ callShape name custom d c).
Proof.
  unfold setValueForProperty.
  destruct (shouldIgnoreAttribute _ _ _); [by eexists _, _; split; [|left]|].
  rewrite lift_bind.
  destruct (shouldRemoveAttribute _ _ _ _) as [remove|e];
    [|by eexists _, _; split; [|left]].
  destruct (if custom then None else getPropertyInfo name) as [info|] eqn:Hinfo.
  - destruct custom; [done|].
    destruct (PropertyInfo.mustUseProperty info) eqn:Hmust.
    { destruct (is_null _); rewrite domCall_ok; eexists _, _; (split; [done|]);
        right; eexists; (split; [done|]); split; eauto. }
    destruct (is_null _).
    { rewrite domCall_ok. eexists _, _. split; [done|]. right. eexists.
      split; [done|]. left. eauto. }
    assert (∀ text : string,
               ∃ c, (match PropertyInfo.attributeNamespace info with
                     | Some namespace =>
                         if String.eqb namespace EmptyString
                         then domCall node
                                (SetAttribute (PropertyInfo.attributeName info) text)
                         else domCall node
                                (SetAttributeNS namespace
                                   (PropertyInfo.attributeName info) text)
                     | None =>
                         domCall node
                           (SetAttribute (PropertyInfo.attributeName info) text)
                     end) d
                    = (Ok tt, mkDom (validatedAttributeNameCache d)
                                (illegalAttributeNameCache d)
                                (domCalls d ++ [(node, c)]))
                    ∧ callShape name false d c) as Hset.
    { intros text. destruct (PropertyInfo.attributeNamespace info) as [namespace|] eqn:Hns;
        [destruct (String.eqb namespace EmptyString)|]; eexists; (split; [done|]);
        simpl; eauto 10. }
    destruct (_ || _).
    + erewrite bind_ok by reflexivity. destruct (Hset EmptyString) as (c & -> & Hc).
      eexists _, _. split; [done|]. right. by exists c.
    + rewrite lift_bind. destruct (toStringConcat _) as [text|e].
      * destruct (Hset text) as (c & -> & Hc).
        eexists _, _. split; [done|]. right. by exists c.
      * eexists _, _. split; [done|]. by left.
  - destruct (isAttributeNameSafe_calls name d) as (safe & d1 & Hsafe & Hcalls).
    erewrite bind_ok by exact Hsafe.
    destruct safe; [|by eexists _, _; split; [|left]].
    destruct (is_null _).
    { rewrite domCall_ok. eexists _, _. split; [done|]. right. eexists.
      simpl. rewrite Hcalls. split; [done|]. right. eauto. }
    rewrite lift_bind. destruct (toStringConcat _) as [text|e].
    + rewrite domCall_ok. eexists _, _. split; [done|]. right. eexists.
      simpl. rewrite Hcalls. split; [done|]. right. eauto.
    + eexists _, _. split; [done|]. by left.
Qed.

(** The call that a run added, when it added one. *)
Lemma setValueForProperty_added node name v custom d r d' node' c :
  setValueForProperty node name v custom d = (r, d') →
  domCalls d' = domCalls d ++ [(node', c)] →
  node' = node ∧ callShape name custom d c.
Proof.
  intros Hrun Hcalls.
  destruct (setValueForProperty_shape node name v custom d)
    as (r0 & d0 & Hrun0 & [Hsame|(c0 & Hcalls0 & Hshape)]);
    rewrite Hrun in Hrun0; injection Hrun0 as <- <-.
  - rewrite Hsame in Hcalls. apply (f_equal length) in Hcalls.
    rewrite length_app in Hcalls. simpl in Hcalls. lia.
  - rewrite Hcalls0 in Hcalls. apply app_inv_head in Hcalls.
    by injection Hcalls as <- <-.
Qed.

(** X3.  A property of the node is assigned for the props [checked], [multiple],
    [muted] and [selected] of an element that is not a custom component, and for
    no other prop: every other prop is written with attribute calls. *)
Theorem setValueForProperty_assigns_four_properties (node : nat) (name : string)
    (v : value) (custom : bool) (d : Dom) r d' node' p w :
  setValueForProperty node name v custom d = (r, d') →
  domCalls d' = domCalls d ++ [(node', SetProperty p w)] →
  custom = false ∧ p = name ∧ name ∈ domPropertyNames.
Proof.
  intros Hrun Hcalls.
  destruct (setValueForProperty_added _ _ _ _ _ _ _ _ _ Hrun Hcalls)
    as [_ [Hcustom (info & Hinfo & Hmust & ->)]].
  split; [done|]. split; [by apply table_propertyName|].
  by eapply table_mustUseProperty.
Qed.

(** X4.  With caches that hold results of the test, every attribute name that
    [setValueForProperty] passes to [removeAttribute], [setAttribute] or
    [setAttributeNS] matches [VALID_ATTRIBUTE_NAME_REGEX], for the props of the
    table as for the others. *)
Theorem setValueForProperty_passes_valid_names (node : nat) (name : string)
    (v : value) (custom : bool) (d : Dom) r d' node' c :
  cachesOk d →
  setValueForProperty node name v custom d = (r, d') →
  domCalls d' = domCalls d ++ [(node', c)] →
  match c with
  | RemoveAttribute a | SetAttribute a _ | SetAttributeNS _ a _ =>
      validAttributeName a = true
  | SetProperty _ _ => True
  end.
Proof.
  intros Hcaches Hrun Hcalls.
  destruct (setValueForProperty_added _ _ _ _ _ _ _ _ _ Hrun Hcalls) as [_ Hshape].
  assert (∀ a, a = name ∧ (∃ d1, isAttributeNameSafe name d = (Ok true, d1)) →
               validAttributeName a = true) as Hsafe.
  { intros a [-> [d1 Hsafe]].
    destruct (isAttributeNameSafe_result name d Hcaches) as (d2 & Hrun2 & _).
    congruence. }
  destruct c as [a|a text|namespace a text|]; simpl in Hshape; [| | |done].
  - destruct Hshape as [[_ (info & Hinfo & ->)]|Hname]; [|by apply Hsafe].
    by eapply table_attributeName_valid.
  - destruct Hshape as [[_ (info & Hinfo & ->)]|Hname]; [|by apply Hsafe].
    by eapply table_attributeName_valid.
  - destruct Hshape as [_ (info & Hinfo & -> & _)].
    by eapply table_attributeName_valid.
Qed.

Lemma shouldIgnoreAttribute_unknown name :
  shouldIgnoreAttribute name None false = isEventName name.
Proof.
  destruct name as [|c0 [|c1 [|c2 name]]]; try done. simpl.
  by destruct (_ && _).
Qed.

(** X5.  On an element that is not a custom component, a prop whose name has more
    than two characters and starts with [on], in either case of the letters, is not
    in the table and is ignored: whatever its value, [setValueForProperty] returns
    and changes neither a node nor the caches. *)
Theorem setValueForProperty_ignores_event_names (node : nat) (name : string)
    (v : value) (d : Dom) :
  isEventName name = true →
  getPropertyInfo name = None
  ∧ setValueForProperty node name v false d = (Ok tt, d).
Proof.
  intros Hevent. pose proof (table_no_event_name name Hevent) as Hnone.
  split; [done|]. unfold setValueForProperty.
  by rewrite Hnone, shouldIgnoreAttribute_unknown, Hevent.
Qed.

(** [typeof value] is function or symbol. *)
Definition isFunctionOrSymbol (v : value) : bool :=
  bool_decide (typeof v = TFunction) || bool_decide (typeof v = TSymbol).

(** [value === null] or [typeof value === 'undefined']. *)
Definition isNullish (v : value) : bool :=
  is_null v || bool_decide (typeof v = TUndefined).

(** The state after one call on a node. *)
Definition called (d : Dom) (node : nat) (c : DomCall) : Dom :=
  mkDom (validatedAttributeNameCache d) (illegalAttributeNameCache d)
    (domCalls d ++ [(node, c)]).

Lemma table_acceptsBooleans name info :
  getPropertyInfo name = Some info →
  PropertyInfo.acceptsBooleans info
  = ((PropertyInfo.type info =? BOOLEANISH_STRING)%Z
     || (PropertyInfo.type info =? BOOLEAN)%Z
     || (PropertyInfo.type info =? OVERLOADED_BOOLEAN)%Z).
Proof.
  intros Hinfo.
  pose proof (table_forall
                (λ _ info,
                   bool_decide
                     (PropertyInfo.acceptsBooleans info
                      = ((PropertyInfo.type info =? BOOLEANISH_STRING)%Z
                         || (PropertyInfo.type info =? BOOLEAN)%Z
                         || (PropertyInfo.type info =? OVERLOADED_BOOLEAN)%Z)))
                ltac:(by vm_compute) name info Hinfo) as Hall.
  by apply bool_decide_eq_true in Hall.
Qed.

(** X6.  A boolean attribute of the table (such as [disabled]), on an element that
    is not a custom component, is present or absent: a truthy value that is neither
    a function nor a symbol sets the attribute to the empty string, whatever the
    value is (the string ["false"] too); every other value removes the attribute.
    No conversion of the value is made, so the call never throws. *)
Theorem setValueForProperty_boolean_attribute (node : nat) (name : string)
    (info : PropertyInfo.t) (v : value) (d : Dom) :
  getPropertyInfo name = Some info →
  PropertyInfo.type info = BOOLEAN →
  PropertyInfo.mustUseProperty info = false →
  setValueForProperty node name v false d
  = (Ok tt,
     called d node
       (if toBoolean v && negb (isFunctionOrSymbol v)
        then SetAttribute (PropertyInfo.attributeName info) EmptyString
        else RemoveAttribute (PropertyInfo.attributeName info))).
Proof.
  intros Hinfo Htype Hmust.
  assert (PropertyInfo.attributeNamespace info = None) as Hns.
  { destruct (PropertyInfo.attributeNamespace info) as [namespace|] eqn:Hns; [|done].
    destruct (table_namespace _ _ _ Hinfo Hns) as [Hstring _].
    rewrite Htype in Hstring. done. }
  pose proof (table_acceptsBooleans _ _ Hinfo) as Haccepts.
  rewrite Htype in Haccepts. simpl in Haccepts.
  assert (shouldRemoveAttribute name v (Some info) false
          = Ok (negb (toBoolean v && negb (isFunctionOrSymbol v)))) as Hremove.
  { unfold shouldRemoveAttribute, shouldRemoveAttributeWithWarning, isFunctionOrSymbol.
    rewrite Htype, Haccepts.
    destruct v as [| |[]| | | | | |]; simpl; by rewrite ?andb_true_r. }
  unfold setValueForProperty. rewrite Hinfo.
  unfold shouldIgnoreAttribute. rewrite Htype. simpl.
  rewrite lift_bind, Hremove, Hmust.
  destruct (toBoolean v && negb (isFunctionOrSymbol v)) eqn:Hkeep; simpl; [|done].
  assert (is_null v = false) as -> by (by destruct v).
  erewrite bind_ok by reflexivity. by rewrite Hns.
Qed.

(** X7.  For a custom component the table does not rename or interpret a prop:
    unless the table reserves the prop, [setValueForProperty] passes the prop's own
    name, once it is found valid, to [removeAttribute] for a value that is null,
    undefined, a function or a symbol, and otherwise to [setAttribute] with the value
    converted to a string, a boolean included; when that conversion throws, no call
    was made. *)
Theorem setValueForProperty_custom_component (node : nat) (name : string) (v : value)
    (d : Dom) :
  cachesOk d →
  validAttributeName name = true →
  (∀ info, getPropertyInfo name = Some info → PropertyInfo.type info ≠ RESERVED) →
  ∃ d',
    cachesOk d'
    ∧ domCalls d' = domCalls d
    ∧ setValueForProperty node name v true d
      = if isNullish v || isFunctionOrSymbol v
        then (Ok tt, called d' node (RemoveAttribute name))
        else match toStringConcat v with
             | Ok text => (Ok tt, called d' node (SetAttribute name text))
             | Throw e => (Throw e, d')
             end.
Proof.
  intros Hcaches Hvalid Hreserved.
  destruct (isAttributeNameSafe_result name d Hcaches) as (d' & Hsafe & Hcaches' & Hcalls).
  rewrite Hvalid in Hsafe.
  exists d'. split; [done|]. split; [done|].
  unfold setValueForProperty.
  assert (shouldIgnoreAttribute name (getPropertyInfo name) true = false) as ->.
  { unfold shouldIgnoreAttribute. destruct (getPropertyInfo name) as [info|] eqn:Hinfo;
      [|done]. apply Z.eqb_neq. by apply Hreserved. }
  assert (shouldRemoveAttribute name v (getPropertyInfo name) true
          = Ok (isNullish v || isFunctionOrSymbol v)) as Hremove.
  { unfold shouldRemoveAttribute, shouldRemoveAttributeWithWarning, isNullish,
      isFunctionOrSymbol.
    assert (match getPropertyInfo name with
            | Some info => (PropertyInfo.type info =? RESERVED)%Z
            | None => false
            end = false) as ->.
    { destruct (getPropertyInfo name) as [info|] eqn:Hinfo; [|done].
      apply Z.eqb_neq. by apply Hreserved. }
    by destruct v. }
  rewrite lift_bind, Hremove.
  erewrite bind_ok by exact Hsafe.
  destruct (isNullish v || isFunctionOrSymbol v) eqn:Hgone; simpl.
  - done.
  - assert (is_null v = false) as ->.
    { apply orb_false_iff in Hgone as [Hnullish _].
      by apply orb_false_iff in Hnullish as [? _]. }
    rewrite lift_bind. destruct (toStringConcat v); [|done].
    done.
Qed.

(** [name.toLowerCase().slice(0, 5)] is [data-] or [aria-]. *)
Definition isDataOrAria (name : string) : bool :=
  let prefix := slice0 5 (toLowerCase name) in
  String.eqb prefix "data-" || String.eqb prefix "aria-".

(** X8.  A boolean value of a prop that the table does not know, on an element
    that is not a custom component: when the name starts with [data-] or [aria-],
    in any case of the letters, the attribute is set to the converted boolean;
    otherwise the attribute is removed. *)
Theorem setValueForProperty_unknown_boolean (node : nat) (name : string) (b : bool)
    (d : Dom) :
  cachesOk d →
  validAttributeName name = true →
  getPropertyInfo name = None →
  isEventName name = false →
  ∃ d',
    cachesOk d'
    ∧ domCalls d' = domCalls d
    ∧ setValueForProperty node name (VBool b) false d
      = if isDataOrAria name
        then match toStringConcat (VBool b) with
             | Ok text => (Ok tt, called d' node (SetAttribute name text))
             | Throw e => (Throw e, d')
             end
        else (Ok tt, called d' node (RemoveAttribute name)).
Proof.
  intros Hcaches Hvalid Hnone Hevent.
  destruct (isAttributeNameSafe_result name d Hcaches) as (d' & Hsafe & Hcaches' & Hcalls).
  rewrite Hvalid in Hsafe.
  exists d'. split; [done|]. split; [done|].
  unfold setValueForProperty.
  rewrite Hnone, shouldIgnoreAttribute_unknown, Hevent.
  assert (shouldRemoveAttribute name (VBool b) None false = Ok (negb (isDataOrAria name)))
    as Hremove.
  { unfold shouldRemoveAttribute, shouldRemoveAttributeWithWarning, isDataOrAria. simpl.
    rewrite negb_orb. by destruct (_ && _). }
  rewrite lift_bind, Hremove.
  erewrite bind_ok by exact Hsafe.
  destruct (isDataOrAria name); simpl.
  - rewrite lift_bind. destruct (toStringConcat (VBool b)); [|done].
    done.
  - done.
Qed.

End Facts.

Section Samples.

#[local] Existing Instance Examples.coercions.

(** The first test of the name [class]. *)
Lemma isAttributeNameSafe_tests_the_name_witness :
  cachesOk emptyDom
  ∧ ∃ d',
      isAttributeNameSafe "class" emptyDom = (Ok (validAttributeName "class"), d')
      ∧ cachesOk d'
      ∧ validatedAttributeNameCache emptyDom ⊆ validatedAttributeNameCache d'
      ∧ illegalAttributeNameCache emptyDom ⊆ illegalAttributeNameCache d'
      ∧ domCalls d' = domCalls emptyDom.
Proof.
  split; [apply cachesOk_empty|].
  apply (isAttributeNameSafe_tests_the_name "class" emptyDom cachesOk_empty).
Defined.

Lemma checked_run :
  setValueForProperty 0 "checked" (VBool true) false emptyDom
  = (Ok tt, called emptyDom 0 (SetProperty "checked" (VBool true))).
Proof. by vm_compute. Qed.

(** The prop [checked] with the value [true]. *)
Lemma setValueForProperty_assigns_four_properties_witness :
  false = false ∧ "checked" = "checked" ∧ "checked" ∈ domPropertyNames.
Proof.
  apply (setValueForProperty_assigns_four_properties 0 "checked" (VBool true) false
           emptyDom (Ok tt) _ 0 "checked" (VBool true) checked_run eq_refl).
Defined.

Lemma className_run :
  ∃ d', setValueForProperty 0 "className" (VString "a") false emptyDom = (Ok tt, d')
        ∧ domCalls d' = domCalls emptyDom ++ [(0, SetAttribute "class" "a")].
Proof. eexists. split; [by vm_compute|]. done. Qed.

(** The prop [className], which is written as the attribute [class]. *)
Lemma setValueForProperty_passes_valid_names_witness :
  validAttributeName "class" = true.
Proof.
  destruct className_run as (d' & Hrun & Hcalls).
  apply (setValueForProperty_passes_valid_names 0 "className" (VString "a") false
           emptyDom (Ok tt) d' 0 (SetAttribute "class" "a") cachesOk_empty Hrun Hcalls).
Defined.

(** The prop [onClick]. *)
Lemma setValueForProperty_ignores_event_names_witness :
  getPropertyInfo "onClick" = None
  ∧ setValueForProperty 0 "onClick" (VFunction 7 ∅) false emptyDom = (Ok tt, emptyDom).
Proof.
  apply (setValueForProperty_ignores_event_names 0 "onClick" (VFunction 7 ∅) emptyDom).
  reflexivity.
Defined.

Lemma disabled_info :
  getPropertyInfo "disabled"
  = Some (PropertyInfoRecord "disabled" BOOLEAN false "disabled" None).
Proof. by vm_compute. Qed.

(** The prop [disabled] with the string ["false"], which sets the attribute. *)
Lemma setValueForProperty_boolean_attribute_witness :
  setValueForProperty 0 "disabled" (VString "false") false emptyDom
  = (Ok tt, called emptyDom 0 (SetAttribute "disabled" EmptyString)).
Proof.
  apply (setValueForProperty_boolean_attribute 0 "disabled" _ (VString "false")
           emptyDom disabled_info eq_refl eq_refl).
Defined.

Lemma className_info :
  getPropertyInfo "className"
  = Some (PropertyInfoRecord "className" STRING false "class" None).
Proof. by vm_compute. Qed.

(** The prop [className] of a custom component with the value [false]: the
    attribute [className] is set to ["false"]. *)
Lemma setValueForProperty_custom_component_witness :
  ∃ d',
    cachesOk d'
    ∧ domCalls d' = domCalls emptyDom
    ∧ setValueForProperty 0 "className" (VBool false) true emptyDom
      = (Ok tt, called d' 0 (SetAttribute "className" "false")).
Proof.
  destruct (setValueForProperty_custom_component 0 "className" (VBool false) emptyDom
              cachesOk_empty eq_refl) as (d' & Hcaches & Hcalls & Hrun).
  { intros info Hinfo. rewrite className_info in Hinfo. by injection Hinfo as <-. }
  exists d'. split; [done|]. split; [done|]. exact Hrun.
Defined.

Lemma data_active_unknown : getPropertyInfo "data-active" = None.
Proof. by vm_compute. Qed.

(** The prop [data-active] with the value [true]. *)
Lemma setValueForProperty_unknown_boolean_witness :
  ∃ d',
    cachesOk d'
    ∧ domCalls d' = domCalls emptyDom
    ∧ setValueForProperty 0 "data-active" (VBool true) false emptyDom
      = (Ok tt, called d' 0 (SetAttribute "data-active" "true")).
Proof.
  destruct (setValueForProperty_unknown_boolean 0 "data-active" true emptyDom
              cachesOk_empty eq_refl data_active_unknown eq_refl)
    as (d' & Hcaches & Hcalls & Hrun).
  exists d'. split; [done|]. split; [done|]. exact Hrun.
Defined.

End Samples.

End AttributeFacts.

(** ** isCustomComponent.js *)

Module IsCustomComponent.

(** [s.indexOf(c)] for a single character [c]: the index of its first occurrence,
    or -1. *)
Fixpoint indexOf (c : ascii) (s : string) : Z :=
  match s with
  | EmptyString => -1
  | String c' s' =>
      if Ascii.eqb c' c then 0
      else let i := indexOf c s' in if (i =? -1)%Z then -1 else i + 1
  end%Z.

(** The names of the [switch]: reserved SVG and MathML elements. *)
Definition reservedElements : list string :=
  ["annotation-xml"; "color-profile"; "font-face"; "font-face-src"; "font-face-uri";
   "font-face-format"; "font-face-name"; "missing-glyph"].

(** [isCustomComponent]. *)
Definition isCustomComponent (tagName : string) (props : value) : result bool :=
  if (indexOf "-" tagName =? -1)%Z then
    isProp ← getProp props "is";
    mret (bool_decide (typeof isProp = TString))
  else if bool_decide (tagName ∈ reservedElements) then mret false
  else mret true.

End IsCustomComponent.

Module IsCustomComponentFacts.
Import IsCustomComponent.

Lemma indexOf_range c s : (-1 ≤ indexOf c s < Z.of_nat (String.length s))%Z.
Proof.
  induction s as [|c' s IH]; simpl; [lia|].
  destruct (Ascii.eqb c' c); [lia|]. destruct (Z.eqb_spec (indexOf c s) (-1)); lia.
Qed.

(** [indexOf] finds the character exactly when the string has it. *)
Lemma indexOf_absent c s :
  indexOf c s = (-1)%Z ↔ c ∉ list_ascii_of_string s.
Proof.
  induction s as [|c' s IH]; simpl.
  - split; [intros _; apply not_elem_of_nil|done].
  - rewrite not_elem_of_cons. destruct (Ascii.eqb_spec c' c) as [->|Hne].
    + split; [done|]. by intros [? _].
    + destruct (Z.eqb_spec (indexOf c s) (-1)) as [Hi|Hi].
      * split; [|done]. intros _. split; [done|]. by apply IH.
      * pose proof (indexOf_range c s). split; [lia|]. intros [_ Habsent].
        by apply IH in Habsent.
Qed.

(** X9.  A tag name that has a hyphen is a custom component unless it is one of the
    eight reserved element names, whatever the props are (they are not read, so
    props that are [null] do no harm); a tag name without a hyphen is one exactly
    when [props.is] is a string, and reading it from props that are [null] or
    [undefined] throws. *)
Theorem isCustomComponent_by_hyphen (tagName : string) (props : value) :
  (("-"%char ∈ list_ascii_of_string tagName) →
   isCustomComponent tagName props = Ok (bool_decide (tagName ∉ reservedElements)))
  ∧ (("-"%char ∉ list_ascii_of_string tagName) →
     (tagName ∉ reservedElements)
     ∧ isCustomComponent tagName props
       = match props with
         | VUndefined | VNull => Throw TypeError
         | VFunction _ fields | VObject fields =>
             Ok (match fields !! "is" with Some (VString _) => true | _ => false end)
         | _ => Ok false
         end).
Proof.
  unfold isCustomComponent. split.
  - intros Hhyphen. destruct (Z.eqb_spec (indexOf "-" tagName) (-1)) as [Habsent|_].
    { by apply indexOf_absent in Habsent. }
    by repeat case_bool_decide.
  - intros Hhyphen. split.
    { intros Hreserved. apply Hhyphen. unfold reservedElements in Hreserved.
      repeat (apply elem_of_cons in Hreserved as [->|Hreserved];
              [apply (bool_decide_unpack _); by vm_compute|]).
      by apply elem_of_nil in Hreserved. }
    apply indexOf_absent in Hhyphen. rewrite Hhyphen. simpl.
    destruct props as [| | | | | | |fid fields|fields]; try done; simpl;
      by destruct (fields !! "is") as [[]|].
Qed.

(** The tags [my-element] and [font-face], with props that are [null], and the tag
    [button] with the prop [is]. *)
Lemma isCustomComponent_by_hyphen_witness :
  isCustomComponent "my-element" VNull = Ok true
  ∧ isCustomComponent "font-face" VNull = Ok false
  ∧ isCustomComponent "button" (VObject {["is" := VString "fancy-button"]}) = Ok true.
Proof.
  split; [|split].
  - apply (proj1 (isCustomComponent_by_hyphen "my-element" VNull)).
    apply (bool_decide_unpack _). by vm_compute.
  - apply (proj1 (isCustomComponent_by_hyphen "font-face" VNull)).
    apply (bool_decide_unpack _). by vm_compute.
  - destruct (proj2 (isCustomComponent_by_hyphen "button"
                       (VObject {["is" := VString "fancy-button"]}))) as [_ ->].
    + apply (bool_decide_unpack _). by vm_compute.
    + by rewrite lookup_singleton_eq.
Defined.

End IsCustomComponentFacts.

(** ** The rest of ReactFiber.js *)

Module ReactFiberRest.
Import ReactFiber.

(** The fields that only [assignFiberPropertiesInDEV] writes after construction. *)
Definition set_tag (v : WorkTag) (F : Fiber.t) : Fiber.t :=
  {| Fiber.tag := v;
     Fiber.key := Fiber.key F;
     Fiber.elementType := Fiber.elementType F;
     Fiber.type := Fiber.type F;
     Fiber.stateNode := Fiber.stateNode F;
     Fiber.return_ := Fiber.return_ F;
     Fiber.child := Fiber.child F;
     Fiber.sibling := Fiber.sibling F;
     Fiber.index := Fiber.index F;
     Fiber.ref := Fiber.ref F;
     Fiber.pendingProps := Fiber.pendingProps F;
     Fiber.memoizedProps := Fiber.memoizedProps F;
     Fiber.updateQueue := Fiber.updateQueue F;
     Fiber.memoizedState := Fiber.memoizedState F;
     Fiber.contextDependencies := Fiber.contextDependencies F;
     Fiber.mode := Fiber.mode F;
     Fiber.effectTag := Fiber.effectTag F;
     Fiber.nextEffect := Fiber.nextEffect F;
     Fiber.firstEffect := Fiber.firstEffect F;
     Fiber.lastEffect := Fiber.lastEffect F;
     Fiber.expirationTime := Fiber.expirationTime F;
     Fiber.childExpirationTime := Fiber.childExpirationTime F;
     Fiber.alternate := Fiber.alternate F;
     Fiber.actualDuration := Fiber.actualDuration F;
     Fiber.actualStartTime := Fiber.actualStartTime F;
     Fiber.selfBaseDuration := Fiber.selfBaseDuration F;
     Fiber.treeBaseDuration := Fiber.treeBaseDuration F |}.

Definition set_key (v : option string) (F : Fiber.t) : Fiber.t :=
  {| Fiber.tag := Fiber.tag F;
     Fiber.key := v;
     Fiber.elementType := Fiber.elementType F;
     Fiber.type := Fiber.type F;
     Fiber.stateNode := Fiber.stateNode F;
     Fiber.return_ := Fiber.return_ F;
     Fiber.child := Fiber.child F;
     Fiber.sibling := Fiber.sibling F;
     Fiber.index := Fiber.index F;
     Fiber.ref := Fiber.ref F;
     Fiber.pendingProps := Fiber.pendingProps F;
     Fiber.memoizedProps := Fiber.memoizedProps F;
     Fiber.updateQueue := Fiber.updateQueue F;
     Fiber.memoizedState := Fiber.memoizedState F;
     Fiber.contextDependencies := Fiber.contextDependencies F;
     Fiber.mode := Fiber.mode F;
     Fiber.effectTag := Fiber.effectTag F;
     Fiber.nextEffect := Fiber.nextEffect F;
     Fiber.firstEffect := Fiber.firstEffect F;
     Fiber.lastEffect := Fiber.lastEffect F;
     Fiber.expirationTime := Fiber.expirationTime F;
     Fiber.childExpirationTime := Fiber.childExpirationTime F;
     Fiber.alternate := Fiber.alternate F;
     Fiber.actualDuration := Fiber.actualDuration F;
     Fiber.actualStartTime := Fiber.actualStartTime F;
     Fiber.selfBaseDuration := Fiber.selfBaseDuration F;
     Fiber.treeBaseDuration := Fiber.treeBaseDuration F |}.

Definition set_mode (v : Z) (F : Fiber.t) : Fiber.t :=
  {| Fiber.tag := Fiber.tag F;
     Fiber.key := Fiber.key F;
     Fiber.elementType := Fiber.elementType F;
     Fiber.type := Fiber.type F;
     Fiber.stateNode := Fiber.stateNode F;
     Fiber.return_ := Fiber.return_ F;
     Fiber.child := Fiber.child F;
     Fiber.sibling := Fiber.sibling F;
     Fiber.index := Fiber.index F;
     Fiber.ref := Fiber.ref F;
     Fiber.pendingProps := Fiber.pendingProps F;
     Fiber.memoizedProps := Fiber.memoizedProps F;
     Fiber.updateQueue := Fiber.updateQueue F;
     Fiber.memoizedState := Fiber.memoizedState F;
     Fiber.contextDependencies := Fiber.contextDependencies F;
     Fiber.mode := v;
     Fiber.effectTag := Fiber.effectTag F;
     Fiber.nextEffect := Fiber.nextEffect F;
     Fiber.firstEffect := Fiber.firstEffect F;
     Fiber.lastEffect := Fiber.lastEffect F;
     Fiber.expirationTime := Fiber.expirationTime F;
     Fiber.childExpirationTime := Fiber.childExpirationTime F;
     Fiber.alternate := Fiber.alternate F;
     Fiber.actualDuration := Fiber.actualDuration F;
     Fiber.actualStartTime := Fiber.actualStartTime F;
     Fiber.selfBaseDuration := Fiber.selfBaseDuration F;
     Fiber.treeBaseDuration := Fiber.treeBaseDuration F |}.


Section Definitions.
Context `{SideEffectTags, ExpirationTimes, TypeOfMode, FeatureFlags, ReactSymbols}.

(** [isSimpleFunctionComponent]. *)
Definition isSimpleFunctionComponent (type : value) : result bool :=
  if decide (typeof type = TFunction) then
    construct ← shouldConstruct type;
    if construct : bool then mret false
    else defaultProps ← getProp type "defaultProps";
         mret (is_undefined defaultProps)
  else mret false.

(** [resolveLazyComponentTag]. *)
Definition resolveLazyComponentTag (Component : value) : result WorkTag :=
  if decide (typeof Component = TFunction) then
    construct ← shouldConstruct Component;
    mret (if construct : bool then ClassComponent else FunctionComponent)
  else if negb (is_undefined Component) && negb (is_null Component) then
    typeof_ ← getProp Component "$$typeof";
    if is_marker REACT_FORWARD_REF_TYPE typeof_ then mret ForwardRef
    else if is_marker REACT_MEMO_TYPE typeof_ then mret MemoComponent
    else mret IndeterminateComponent
  else mret IndeterminateComponent.

(** [createHostRootFiber].  [isDevToolsPresent] is a flag of
    ReactFiberDevToolsHook, which is not among the sources; it enters as an
    argument. *)
Definition createHostRootFiber (isDevToolsPresent isConcurrent : bool)
  : M Store.t addr :=
  let mode := if isConcurrent then bitor ConcurrentMode StrictMode else NoContext in
  let mode :=
    if enableProfilerTimer && isDevToolsPresent then bitor mode ProfileMode else mode in
  createFiber HostRoot VNull None mode.


(** [createFiberFromText]. *)
Definition createFiberFromText (content : string) (mode expirationTime : Z)
  : M Store.t addr :=
  fiber ← createFiber HostText (VString content) None mode;
  setFiber fiber (Fiber.set_expirationTime expirationTime);;
  mret fiber.

(** [createFiberFromHostInstanceForDeletion]. *)
Definition createFiberFromHostInstanceForDeletion : M Store.t addr :=
  fiber ← createFiber HostComponent VNull None NoContext;
  setFiber fiber (Fiber.set_elementType (VString "DELETED"));;
  setFiber fiber (Fiber.set_type (VString "DELETED"));;
  mret fiber.

(** [assignFiberPropertiesInDEV]. *)
Definition assignFiberPropertiesInDEV (target : option addr) (source : addr)
  : M Store.t addr :=
  target ←
    match target with
    | None => createFiber IndeterminateComponent VNull None NoContext
    | Some target => mret target
    end;
  copyField target source Fiber.tag set_tag;;
  copyField target source Fiber.key set_key;;
  copyField target source Fiber.elementType Fiber.set_elementType;;
  copyField target source Fiber.type Fiber.set_type;;
  copyField target source Fiber.stateNode Fiber.set_stateNode;;
  copyField target source Fiber.return_ Fiber.set_return_;;
  copyField target source Fiber.child Fiber.set_child;;
  copyField target source Fiber.sibling Fiber.set_sibling;;
  copyField target source Fiber.index Fiber.set_index;;
  copyField target source Fiber.ref Fiber.set_ref;;
  copyField target source Fiber.pendingProps Fiber.set_pendingProps;;
  copyField target source Fiber.memoizedProps Fiber.set_memoizedProps;;
  copyField target source Fiber.updateQueue Fiber.set_updateQueue;;
  copyField target source Fiber.memoizedState Fiber.set_memoizedState;;
  copyField target source Fiber.contextDependencies Fiber.set_contextDependencies;;
  copyField target source Fiber.mode set_mode;;
  copyField target source Fiber.effectTag Fiber.set_effectTag;;
  copyField target source Fiber.nextEffect Fiber.set_nextEffect;;
  copyField target source Fiber.firstEffect Fiber.set_firstEffect;;
  copyField target source Fiber.lastEffect Fiber.set_lastEffect;;
  copyField target source Fiber.expirationTime Fiber.set_expirationTime;;
  copyField target source Fiber.childExpirationTime Fiber.set_childExpirationTime;;
  copyField target source Fiber.alternate Fiber.set_alternate;;
  (if enableProfilerTimer
   then copyField target source Fiber.actualDuration Fiber.set_actualDuration;;
        copyField target source Fiber.actualStartTime Fiber.set_actualStartTime;;
        copyField target source Fiber.selfBaseDuration Fiber.set_selfBaseDuration;;
        copyField target source Fiber.treeBaseDuration Fiber.set_treeBaseDuration
   else mret tt);;
  mret target.

End Definitions.

End ReactFiberRest.


(** ** Fibers from elements *)

Module ReactFiberRestFacts.
Import ReactFiber ReactFiberRest ReactFiberFacts.

(** *** The 32-bit operators *)

Lemma toInt32_range z : (- 2 ^ 31 ≤ toInt32 z < 2 ^ 31)%Z.
Proof.
  unfold toInt32. pose proof (Z.mod_pos_bound (z + 2 ^ 31) (2 ^ 32)). lia.
Qed.

Lemma toInt32_small z : (- 2 ^ 31 ≤ z < 2 ^ 31)%Z → toInt32 z = z.
Proof. intros Hz. unfold toInt32. rewrite Z.mod_small; lia. Qed.

(** A number is in the signed range exactly when its bits from 31 up are all its
    sign. *)
Lemma int32_shiftr z :
  (- 2 ^ 31 ≤ z < 2 ^ 31)%Z ↔ Z.shiftr z 31 = 0%Z ∨ Z.shiftr z 31 = (-1)%Z.
Proof.
  rewrite Z.shiftr_div_pow2 by lia.
  pose proof (Z.div_mod z (2 ^ 31)) as Hdiv.
  pose proof (Z.mod_pos_bound z (2 ^ 31)) as Hmod. lia.
Qed.

Lemma lor_int32 a b :
  (- 2 ^ 31 ≤ a < 2 ^ 31)%Z → (- 2 ^ 31 ≤ b < 2 ^ 31)%Z →
  (- 2 ^ 31 ≤ Z.lor a b < 2 ^ 31)%Z.
Proof.
  rewrite !int32_shiftr, Z.shiftr_lor. intros [-> | ->] [-> | ->]; auto.
Qed.

Lemma toInt32_bitor a b : toInt32 (bitor a b) = bitor a b.
Proof. apply toInt32_small, lor_int32; apply toInt32_range. Qed.

Lemma land_lor_same a b : Z.land (Z.lor a b) a = a.
Proof.
  apply Z.bits_inj'. intros n Hn. rewrite Z.land_spec, Z.lor_spec.
  by destruct (Z.testbit a n), (Z.testbit b n).
Qed.

(** Every bit of [a] is set in [a | b]. *)
Lemma bitand_bitor a b : bitand (bitor a b) a = toInt32 a.
Proof. unfold bitand. rewrite toInt32_bitor. apply land_lor_same. Qed.


Lemma bitand_bitor_bitor a b c : bitand (bitor (bitor a b) c) a = toInt32 a.
Proof.
  unfold bitand. rewrite toInt32_bitor. unfold bitor at 1. rewrite toInt32_bitor.
  unfold bitor. rewrite <- Z.lor_assoc. apply land_lor_same.
Qed.

(** The bit [b] stays set when more bits are added. *)
Lemma bitand_bitor_other a b c :
  bitand a b ≠ 0%Z → bitand (bitor a c) b ≠ 0%Z.
Proof.
  unfold bitand. rewrite toInt32_bitor. unfold bitor.
  rewrite Z.land_lor_distr_l. intros Hset Hzero.
  apply Z.lor_eq_0_iff in Hzero as [? _]. done.
Qed.

Lemma bitand_bitor_distr a b c :
  bitand (bitor a c) b = Z.lor (bitand a b) (bitand c b).
Proof.
  unfold bitand. rewrite toInt32_bitor. unfold bitor. apply Z.land_lor_distr_l.
Qed.

Lemma bitand_bitor_self a b c :
  toInt32 b ≠ 0%Z → bitand (bitor (bitor a b) c) b ≠ 0%Z.
Proof.
  intros Hb. apply bitand_bitor_other. unfold bitand. rewrite toInt32_bitor.
  unfold bitor. rewrite Z.land_lor_distr_l, Z.land_diag. intros Hzero.
  apply Z.lor_eq_0_iff in Hzero as [_ ?]. done.
Qed.

Section Facts.
Context `{SideEffectTags, ExpirationTimes, TypeOfMode, FeatureFlags, ReactSymbols}.

(** *** What a new fiber carries *)

(** [m] allocates the fiber [F] and returns its address. *)
Definition allocates (m : M Store.t addr) (s : Store.t) (F : Fiber.t) : Prop :=
  m s = (Ok (length (Store.fibers s)), Store.set_fibers (Store.fibers s ++ [F]) s).

(** A fiber that is linked to no other fiber and has no work recorded. *)
Definition unlinked (F : Fiber.t) : Prop :=
  Fiber.alternate F = None ∧ Fiber.return_ F = None ∧ Fiber.child F = None
  ∧ Fiber.sibling F = None ∧ Fiber.updateQueue F = None
  ∧ Fiber.effectTag F = NoEffect ∧ Fiber.nextEffect F = None
  ∧ Fiber.firstEffect F = None ∧ Fiber.lastEffect F = None
  ∧ Fiber.childExpirationTime F = NoWork.



Lemma createFiberFromMode_fiber pendingProps mode expirationTime key s :
  let type :=
    if (bitand mode ConcurrentMode =? NoContext)%Z
    then marker_value REACT_STRICT_MODE_TYPE
    else marker_value REACT_CONCURRENT_MODE_TYPE in
  allocates (createFiberFromMode pendingProps mode expirationTime key) s
    (Fiber.set_expirationTime expirationTime
       (Fiber.set_type type
          (Fiber.set_elementType type (FiberNode Mode pendingProps key mode)))).
Proof. unfold allocates, createFiberFromMode, createFiber. do 4 heap_step. done. Qed.





Lemma is_marker_typeof m v :
  is_marker m v = true → typeof v = TSymbol ∨ typeof v = TNumber.
Proof. destruct m, v; simpl; auto; done. Qed.



(** X11.  The type of a mode fiber follows its mode bits, not the element.  With
    [NoContext] being zero: a concurrent-mode element makes a fiber of type
    concurrent mode when [ConcurrentMode] has a bit at all; a strict-mode element
    makes a fiber of type strict mode only below a parent that is not concurrent,
    and below a concurrent parent its fiber has the type and the element type of
    concurrent mode. *)
Theorem mode_fiber_type_follows_mode (type : value) (key : option string)
    (pendingProps : value) (owner : option addr) (mode expirationTime : Z)
    (s : Store.t) :
  NoContext = 0%Z →
  toInt32 ConcurrentMode ≠ 0%Z →
  bitand StrictMode ConcurrentMode = 0%Z →
  is_marker REACT_FRAGMENT_TYPE type = false →
  (is_marker REACT_CONCURRENT_MODE_TYPE type = true →
   ∃ F, allocates (createFiberFromTypeAndProps type key pendingProps owner mode
                     expirationTime) s F
        ∧ Fiber.tag F = Mode
        ∧ Fiber.mode F = bitor (bitor mode ConcurrentMode) StrictMode
        ∧ Fiber.type F = marker_value REACT_CONCURRENT_MODE_TYPE
        ∧ Fiber.elementType F = marker_value REACT_CONCURRENT_MODE_TYPE)
  ∧ (is_marker REACT_CONCURRENT_MODE_TYPE type = false →
     is_marker REACT_STRICT_MODE_TYPE type = true →
     ∃ F, allocates (createFiberFromTypeAndProps type key pendingProps owner mode
                       expirationTime) s F
          ∧ Fiber.tag F = Mode
          ∧ Fiber.mode F = bitor mode StrictMode
          ∧ Fiber.elementType F = Fiber.type F
          ∧ Fiber.type F
            = if (bitand mode ConcurrentMode =? 0)%Z
              then marker_value REACT_STRICT_MODE_TYPE
              else marker_value REACT_CONCURRENT_MODE_TYPE).
Proof.
  intros Hzero Hbit Hdisjoint Hfragment. split.
  - intros Hconcurrent. unfold createFiberFromTypeAndProps.
    destruct (is_marker_typeof _ _ Hconcurrent) as [Htype|Htype];
      rewrite !decide_False by congruence;
      rewrite Hfragment, Hconcurrent;
      (eexists; split; [apply createFiberFromMode_fiber|]); simpl;
      rewrite Hzero;
      destruct (Z.eqb_spec (bitand (bitor (bitor mode ConcurrentMode) StrictMode)
                              ConcurrentMode) 0) as [Hnone|_];
      try done; by apply bitand_bitor_self in Hnone.
  - intros Hconcurrent Hstrict. unfold createFiberFromTypeAndProps.
    assert ((bitand (bitor mode StrictMode) ConcurrentMode =? 0)%Z
            = (bitand mode ConcurrentMode =? 0)%Z) as Hsame.
    { rewrite bitand_bitor_distr, Hdisjoint, Z.lor_0_r. done. }
    destruct (is_marker_typeof _ _ Hstrict) as [Htype|Htype];
      rewrite !decide_False by congruence;
      rewrite Hfragment, Hconcurrent, Hstrict;
      (eexists; split; [apply createFiberFromMode_fiber|]); simpl;
      rewrite Hzero, Hsame; done.
Qed.

(** X12.  [resolveLazyComponentTag] returns for every value, with one of five
    tags: [ClassComponent] exactly for a function that [shouldConstruct] accepts,
    [FunctionComponent] exactly for a function that it does not, and for anything
    that is not a function [ForwardRef], [MemoComponent] or
    [IndeterminateComponent]; a simple function component always resolves to
    [FunctionComponent]. *)
Theorem resolveLazyComponentTag_kinds (Component : value) :
  ∃ tag,
    resolveLazyComponentTag Component = Ok tag
    ∧ (tag = ClassComponent
       ↔ typeof Component = TFunction ∧ shouldConstruct Component = Ok true)
    ∧ (tag = FunctionComponent
       ↔ typeof Component = TFunction ∧ shouldConstruct Component = Ok false)
    ∧ (typeof Component ≠ TFunction →
       tag = ForwardRef ∨ tag = MemoComponent ∨ tag = IndeterminateComponent)
    ∧ (isSimpleFunctionComponent Component = Ok true → tag = FunctionComponent).
Proof.
  unfold resolveLazyComponentTag, isSimpleFunctionComponent.
  destruct (decide (typeof Component = TFunction)) as [Hfun|Hfun].
  - destruct (shouldConstruct_function Component Hfun) as [[] ->]; simpl;
      eexists; (split; [done|]); repeat split; try done; intuition congruence.
  - assert (∃ tag, (if negb (is_undefined Component) && negb (is_null Component)
                    then typeof_ ← getProp Component "$$typeof";
                         if is_marker REACT_FORWARD_REF_TYPE typeof_ then mret ForwardRef
                         else if is_marker REACT_MEMO_TYPE typeof_ then mret MemoComponent
                         else mret IndeterminateComponent
                    else mret IndeterminateComponent) = Ok tag
                   ∧ (tag = ForwardRef ∨ tag = MemoComponent
                      ∨ tag = IndeterminateComponent)) as (tag & -> & Htag).
    { destruct Component; simpl; eauto;
        repeat (match goal with |- context [is_marker ?m ?t] => destruct (is_marker m t) end;
                simpl; eauto). }
    exists tag. split; [done|]. repeat split; try done; intuition congruence.
Qed.

(** What [assignFiberPropertiesInDEV] leaves in the target: the source, but for
    the four durations when the profiler timer is off. *)
Definition assigned (T S : Fiber.t) : Fiber.t :=
  if enableProfilerTimer then S
  else
    Fiber.set_treeBaseDuration (Fiber.treeBaseDuration T)
      (Fiber.set_selfBaseDuration (Fiber.selfBaseDuration T)
         (Fiber.set_actualStartTime (Fiber.actualStartTime T)
            (Fiber.set_actualDuration (Fiber.actualDuration T) S))).

Lemma assignFiberPropertiesInDEV_target target source T S s :
  Store.fibers s !! target = Some T →
  Store.fibers s !! source = Some S →
  target ≠ source →
  assignFiberPropertiesInDEV (Some target) source s
  = (Ok target, Store.set_fibers (<[target := assigned T S]> (Store.fibers s)) s).
Proof.
  intros HT HS Hne. unfold assignFiberPropertiesInDEV.
  erewrite bind_ok by reflexivity.
  do 23 heap_step.
  unfold assigned. destruct enableProfilerTimer.
  - do 4 heap_step. destruct S. reflexivity.
  - heap_step. destruct S. reflexivity.
Qed.

(** X13.  [assignFiberPropertiesInDEV] copies the source into the target, which
    is a new fiber when the target given is [null]: afterwards the target holds
    every field of the source, but for the four durations, which are copied only
    with the profiler timer on; the source and every other fiber are as before. *)
Theorem assignFiberPropertiesInDEV_copies (target : option addr) (source : addr)
    (S : Fiber.t) (s : Store.t) :
  Store.fibers s !! source = Some S →
  (∀ t, target = Some t → t ≠ source ∧ t < length (Store.fibers s)) →
  ∃ t T s',
    assignFiberPropertiesInDEV target source s = (Ok t, s')
    ∧ match target with
      | Some t' => t = t' ∧ Store.fibers s !! t = Some T
      | None =>
          t = length (Store.fibers s)
          ∧ T = FiberNode IndeterminateComponent VNull None NoContext
      end
    ∧ Store.fibers s' !! t = Some (assigned T S)
    ∧ (enableProfilerTimer = true → assigned T S = S)
    ∧ ∀ a, a ≠ t → Store.fibers s' !! a = Store.fibers s !! a.
Proof.
  intros HS Htarget. destruct target as [t|].
  - destruct (Htarget t eq_refl) as [Hne Hlt].
    destruct (lookup_lt_is_Some_2 _ _ Hlt) as [T HT].
    exists t, T. eexists. split; [by apply assignFiberPropertiesInDEV_target|].
    split; [done|]. simpl. split; [by apply (lookup_insert_same _ _ _ T)|].
    split; [unfold assigned; by intros ->|].
    intros a Ha. by rewrite list_lookup_insert_ne.
  - set (T := FiberNode IndeterminateComponent VNull None NoContext).
    set (t := length (Store.fibers s)).
    assert (assignFiberPropertiesInDEV None source s
            = assignFiberPropertiesInDEV (Some t) source
                (Store.set_fibers (Store.fibers s ++ [T]) s)) as ->.
    { unfold assignFiberPropertiesInDEV, createFiber.
      erewrite bind_ok by reflexivity. symmetry. by erewrite bind_ok by reflexivity. }
    exists t, T. eexists. split.
    { apply assignFiberPropertiesInDEV_target; simpl.
      - by apply list_lookup_middle.
      - by apply lookup_app_l_Some.
      - apply lookup_lt_Some in HS. unfold t. lia. }
    split; [done|]. simpl. rewrite insert_snoc by done.
    split; [by apply list_lookup_middle|].
    split; [unfold assigned; by intros ->|].
    intros a Ha. destruct (decide (a < t)) as [Hlt|Hge].
    + by rewrite lookup_app_l.
    + rewrite !lookup_ge_None_2; [done|unfold t in *; lia|].
      rewrite length_app. simpl. unfold t in *. lia.
Qed.

(** X14.  The root fiber of [createHostRootFiber] is a new [HostRoot] fiber linked
    to nothing.  A concurrent root is strict too: its mode has every bit of
    [ConcurrentMode] and of [StrictMode]; the mode of a root that is not concurrent
    is [NoContext], or [NoContext | ProfileMode] when the profiler timer is on and
    the DevTools are present. *)
Theorem createHostRootFiber_mode (isDevToolsPresent isConcurrent : bool)
    (s : Store.t) :
  ∃ F,
    allocates (createHostRootFiber isDevToolsPresent isConcurrent) s F
    ∧ Fiber.tag F = HostRoot
    ∧ unlinked F
    ∧ (if isConcurrent
       then bitand (Fiber.mode F) ConcurrentMode = toInt32 ConcurrentMode
            ∧ bitand (Fiber.mode F) StrictMode = toInt32 StrictMode
       else Fiber.mode F
            = if enableProfilerTimer && isDevToolsPresent
              then bitor NoContext ProfileMode else NoContext).
Proof.
  unfold createHostRootFiber, createFiber, allocates, newFiber.
  eexists. split; [done|]. split; [done|]. split; [by repeat split|]. simpl.
  assert (bitand (bitor ConcurrentMode StrictMode) StrictMode = toInt32 StrictMode)
    as Hstrict.
  { unfold bitand. rewrite toInt32_bitor. unfold bitor.
    rewrite Z.lor_comm. apply land_lor_same. }
  destruct isConcurrent; [|done].
  destruct (enableProfilerTimer && isDevToolsPresent).
  - split.
    + apply bitand_bitor_bitor.
    + rewrite bitand_bitor_distr, Hstrict. unfold bitand.
      apply Z.bits_inj'. intros n Hn. rewrite Z.lor_spec, Z.land_spec.
      by destruct (Z.testbit (toInt32 StrictMode) n), (Z.testbit (toInt32 ProfileMode) n).
  - split; [apply bitand_bitor|done].
Qed.

End Facts.

Section Samples.

#[local] Existing Instance Examples.sideEffectTags.
#[local] Existing Instance Examples.expirationTimes.
#[local] Existing Instance Examples.typeOfMode.
#[local] Existing Instance Examples.featureFlags.
#[local] Existing Instance Examples.reactSymbols.



(** A strict-mode element below a concurrent parent, whose mode is 1. *)
Lemma mode_fiber_type_follows_mode_witness :
  ∃ F, allocates (createFiberFromTypeAndProps (VSymbol "react.strict_mode") None
                    (VObject ∅) None 1 5) Heap.empty F
       ∧ Fiber.tag F = Mode
       ∧ Fiber.mode F = 3%Z
       ∧ Fiber.elementType F = Fiber.type F
       ∧ Fiber.type F = VSymbol "react.concurrent_mode".
Proof.
  pose proof (mode_fiber_type_follows_mode (VSymbol "react.strict_mode") None
                (VObject ∅) None 1 5 Heap.empty) as Hmodes.
  destruct (proj2 (Hmodes eq_refl ltac:(done) eq_refl eq_refl) eq_refl eq_refl)
    as (F & Hrun & Htag & Hmode & Hsame & Htype).
  by exists F.
Defined.

(** A function without a prototype for React and without default props. *)
Lemma resolveLazyComponentTag_kinds_witness :
  ∃ tag, resolveLazyComponentTag (VFunction 0 ∅) = Ok tag ∧ tag = FunctionComponent.
Proof.
  destruct (resolveLazyComponentTag_kinds (VFunction 0 ∅))
    as (tag & Hrun & _ & _ & _ & Hsimple).
  exists tag. split; [exact Hrun|]. apply Hsimple. reflexivity.
Defined.

(** Two fibers; the second is copied over the first. *)
Definition twoFibers : Store.t :=
  Store.set_fibers
    [FiberNode HostRoot VNull None 0;
     Fiber.set_memoizedState (VString "state") (FiberNode ClassComponent VNull (Some "k") 1)]
    Heap.empty.

Lemma assignFiberPropertiesInDEV_copies_witness :
  ∃ t T s',
    assignFiberPropertiesInDEV (Some 0) 1 twoFibers = (Ok t, s')
    ∧ (t = 0 ∧ Store.fibers twoFibers !! t = Some T)
    ∧ Store.fibers s' !! t
      = Some (assigned T (Fiber.set_memoizedState (VString "state")
                            (FiberNode ClassComponent VNull (Some "k") 1)))
    ∧ (enableProfilerTimer = true
       → assigned T (Fiber.set_memoizedState (VString "state")
                       (FiberNode ClassComponent VNull (Some "k") 1))
         = Fiber.set_memoizedState (VString "state")
             (FiberNode ClassComponent VNull (Some "k") 1))
    ∧ ∀ a, a ≠ t → Store.fibers s' !! a = Store.fibers twoFibers !! a.
Proof.
  apply (assignFiberPropertiesInDEV_copies (Some 0) 1 _ twoFibers eq_refl).
  intros t [= <-]. split; [done|]. simpl. lia.
Defined.

End Samples.

End ReactFiberRestFacts.

(** ** One pass over the queue *)

Module PassFacts.
Import ReactUpdateQueue UpdateListFacts EnqueueFacts ProcessFacts.

(** The update at [a] has sufficient priority for the render at [r]: it is not
    skipped. *)
Definition sufficient (us : list Update.t) (r : Z) (a : addr) : bool :=
  match us !! a with
  | Some U => negb (Update.expirationTime U <? r)%Z
  | None => false
  end.

(** The expiration times of the updates of [l] that a pass at [r] skips. *)
Definition skippedTimes (us : list Update.t) (r : Z) (l : list addr) : list Z :=
  omap (λ a, U ← us !! a;
             if (Update.expirationTime U <? r)%Z
             then Some (Update.expirationTime U) else None) l.

Section Facts.
Context `{SideEffectTags, ExpirationTimes, Calls}.

Lemma normalPass_resultState us r props instance l :
  Forall (λ a, a < length us) l →
  ∀ L, resultState (normalPass us r props instance l L)
       = applyAll us props instance (filter (λ a, sufficient us r a = true) l)
           (resultState L).
Proof.
  induction 1 as [|a l Ha _ IH]; intros L; [done|].
  destruct (lookup_lt_is_Some_2 _ _ Ha) as [U HU].
  simpl. rewrite HU, IH. unfold normalStep.
  destruct (Update.expirationTime U <? r)%Z eqn:Hskip; simpl.
  - rewrite filter_cons_False by (unfold sufficient; rewrite HU, Hskip; done).
    by destruct (newFirstUpdate L).
  - rewrite filter_cons_True by (unfold sufficient; rewrite HU, Hskip; done).
    simpl. by rewrite HU.
Qed.

Lemma remaining_max a b : remaining a b = Z.max a b.
Proof. unfold remaining. destruct (Z.ltb_spec a b); lia. Qed.

Lemma normalPass_newExpirationTime us r props instance l :
  Forall (λ a, a < length us) l →
  ∀ L, newExpirationTime (normalPass us r props instance l L)
       = foldl Z.max (newExpirationTime L) (skippedTimes us r l).
Proof.
  induction 1 as [|a l Ha _ IH]; intros L; [done|].
  destruct (lookup_lt_is_Some_2 _ _ Ha) as [U HU].
  simpl. unfold skippedTimes in *. simpl. rewrite HU, IH. simpl. unfold normalStep.
  destruct (Update.expirationTime U <? r)%Z eqn:Hskip; simpl; [|done].
  rewrite remaining_max. by destruct (newFirstUpdate L).
Qed.

(** The maximum of a list of times, from [start] on. *)
Lemma foldl_max_ge (times : list Z) start :
  (start ≤ foldl Z.max start times)%Z
  ∧ ∀ t, t ∈ times → (t ≤ foldl Z.max start times)%Z.
Proof.
  revert start. induction times as [|t' times IH]; intros start; simpl.
  - split; [lia|]. intros t Ht. by apply elem_of_nil in Ht.
  - destruct (IH (Z.max start t')) as [Hstart Hall]. split; [lia|].
    intros t [->|Ht]%elem_of_cons; [lia|by apply Hall].
Qed.

Lemma foldl_max_in (times : list Z) start :
  foldl Z.max start times = start ∨ foldl Z.max start times ∈ times.
Proof.
  revert start. induction times as [|t' times IH]; intros start; simpl; [by left|].
  destruct (IH (Z.max start t')) as [->|Hin].
  - destruct (Z.max_spec start t') as [[_ ->]|[_ ->]]; [right|by left].
    apply elem_of_cons. by left.
  - right. apply elem_of_cons. by right.
Qed.

Lemma elem_of_skippedTimes us r l t :
  t ∈ skippedTimes us r l
  ↔ ∃ a U, a ∈ l ∧ us !! a = Some U ∧ (Update.expirationTime U < r)%Z
           ∧ t = Update.expirationTime U.
Proof.
  unfold skippedTimes. rewrite list_elem_of_omap. split.
  - intros (a & Ha & Ht). destruct (us !! a) as [U|] eqn:HU; [|done]. simpl in Ht.
    destruct (Z.ltb_spec (Update.expirationTime U) r); [|done].
    injection Ht as <-. by exists a, U.
  - intros (a & U & Ha & HU & Hlt & ->). exists a. split; [done|].
    rewrite HU. simpl. by rewrite (proj2 (Z.ltb_lt _ _) Hlt).
Qed.

(** Where a pass leaves the list: at the first update it skips.  The updates before
    it have sufficient priority, and their result is the new base state. *)
Lemma normalPass_split us r props instance l :
  Forall (λ a, a < length us) l →
  ∀ L, newFirstUpdate L = None →
    ∃ l1 l2,
      l = l1 ++ l2
      ∧ Forall (λ a, sufficient us r a = true) l1
      ∧ newFirstUpdate (normalPass us r props instance l L) = head l2
      ∧ (∀ a, head l2 = Some a → sufficient us r a = false)
      ∧ match l2 with
        | [] => resultState (normalPass us r props instance l L)
        | _ => newBaseState (normalPass us r props instance l L)
        end = applyAll us props instance l1 (resultState L).
Proof.
  induction 1 as [|a l Ha _ IH]; intros L Hnone.
  { exists [], []. by repeat split. }
  destruct (lookup_lt_is_Some_2 _ _ Ha) as [U HU].
  destruct (Update.expirationTime U <? r)%Z eqn:Hskip.
  - exists [], (a :: l). simpl. rewrite HU.
    edestruct (normalPass_skipped us r props instance l
                 (normalStep r props instance a U L) a) as [-> ->].
    { unfold normalStep. by rewrite Hskip, Hnone. }
    split; [done|]. split; [done|]. split; [done|]. split.
    + intros ? [= <-]. unfold sufficient. by rewrite HU, Hskip.
    + unfold normalStep. by rewrite Hskip, Hnone.
  - destruct (IH (normalStep r props instance a U L))
      as (l1 & l2 & -> & Hl1 & Hfirst & Hhead & Hbase).
    { unfold normalStep. by rewrite Hskip. }
    exists (a :: l1), l2. simpl. rewrite HU.
    split; [done|]. split.
    { constructor; [|done]. unfold sufficient. by rewrite HU, Hskip. }
    split; [done|]. split; [done|].
    rewrite Hbase. unfold normalStep. by rewrite Hskip.
Qed.

Lemma chain_Forall_valid us first l :
  chain us first l → Forall (λ a, a < length us) l.
Proof. intros Hchain. apply Forall_forall. intros a Ha. by eapply chain_valid. Qed.

(** X15.  One pass of [processUpdateQueue] at the expiration time [r] over a queue
    with the pending updates [l] and no captured update: it returns; the fiber's
    [memoizedState] is the base state with the updates of [l] applied, in order,
    that are not below [r]; and the queue is left with the part [l2] of the list
    from the first skipped update on, processed updates after it included, and with
    the result of the updates before it as its base state. *)
Theorem processUpdateQueue_applies_sufficient_updates (workInProgress queue : addr)
    (props instance : value) (r : Z) (F : Fiber.t) (Q : UpdateQueue.t)
    (l : list addr) (s : Store.t) :
  Store.fibers s !! workInProgress = Some F →
  (∀ current, Fiber.alternate F = Some current → current < length (Store.fibers s)) →
  Fiber.updateQueue F = Some queue →
  Store.queues s !! queue = Some Q →
  chain (Store.updates s) (UpdateQueue.firstUpdate Q) l →
  UpdateQueue.firstCapturedUpdate Q = None →
  effectsValid s queue →
  ∃ s' queue' F' Q' l1 l2,
    processUpdateQueue workInProgress queue props instance r s = (Ok tt, s')
    ∧ Store.fibers s' !! workInProgress = Some F'
    ∧ Fiber.updateQueue F' = Some queue'
    ∧ Store.queues s' !! queue' = Some Q'
    ∧ Fiber.memoizedState F'
      = applyAll (Store.updates s) props instance
          (filter (λ a, sufficient (Store.updates s) r a = true) l)
          (UpdateQueue.baseState Q)
    ∧ l = l1 ++ l2
    ∧ Forall (λ a, sufficient (Store.updates s) r a = true) l1
    ∧ (∀ a, head l2 = Some a → sufficient (Store.updates s) r a = false)
    ∧ chain (Store.updates s') (UpdateQueue.firstUpdate Q') l2
    ∧ UpdateQueue.baseState Q'
      = applyAll (Store.updates s) props instance l1 (UpdateQueue.baseState Q).
Proof.
  intros HF Halternate HupdateQueue HQ Hchain Hcaptured Hvalid.
  destruct (processUpdateQueue_ok workInProgress queue props instance r F Q l s)
    as (s' & queue' & F' & Q' & Hrun & Hcore & _ & HF' & HupdateQueue' & _ & _
        & Hmemoized & _ & HQ' & HbaseState & HfirstUpdate & _);
    [done..|].
  pose proof (chain_Forall_valid _ _ _ Hchain) as Hall.
  destruct (normalPass_split (Store.updates s) r props instance l Hall
              (mkLocals (UpdateQueue.baseState Q) None None NoWork
                 (UpdateQueue.baseState Q)) eq_refl)
    as (l1 & l2 & Hl & Hl1 & Hfirst & Hhead & Hbase).
  unfold passResult in Hmemoized, HbaseState, HfirstUpdate.
  exists s', queue', F', Q', l1, l2.
  split; [done|]. split; [done|]. split; [done|]. split; [done|].
  split. { rewrite Hmemoized. by rewrite normalPass_resultState. }
  split; [done|]. split; [done|]. split; [done|].
  rewrite HfirstUpdate, HbaseState, Hfirst. split.
  - destruct l2 as [|a l2]; [done|]. change (head (a :: l2)) with (Some a).
    eapply chain_core; [exact Hcore|]. subst l. by eapply chain_drop.
  - destruct l2 as [|a l2]; done.
Qed.

(** X16.  After such a pass the fiber's [expirationTime] is the largest of [NoWork]
    and the expiration times of the skipped updates: it is not below [NoWork] nor
    below the time of a skipped update, and it is [NoWork] or the time of a skipped
    update; so it is [NoWork] when no update was skipped. *)
Theorem processUpdateQueue_remaining_time (workInProgress queue : addr)
    (props instance : value) (r : Z) (F : Fiber.t) (Q : UpdateQueue.t)
    (l : list addr) (s : Store.t) :
  Store.fibers s !! workInProgress = Some F →
  (∀ current, Fiber.alternate F = Some current → current < length (Store.fibers s)) →
  Fiber.updateQueue F = Some queue →
  Store.queues s !! queue = Some Q →
  chain (Store.updates s) (UpdateQueue.firstUpdate Q) l →
  UpdateQueue.firstCapturedUpdate Q = None →
  effectsValid s queue →
  ∃ s' F',
    processUpdateQueue workInProgress queue props instance r s = (Ok tt, s')
    ∧ Store.fibers s' !! workInProgress = Some F'
    ∧ (NoWork ≤ Fiber.expirationTime F')%Z
    ∧ (∀ a U, a ∈ l → Store.updates s !! a = Some U →
              (Update.expirationTime U < r)%Z →
              (Update.expirationTime U ≤ Fiber.expirationTime F')%Z)
    ∧ (Fiber.expirationTime F' = NoWork
       ∨ ∃ a U, a ∈ l ∧ Store.updates s !! a = Some U
                ∧ (Update.expirationTime U < r)%Z
                ∧ Fiber.expirationTime F' = Update.expirationTime U)
    ∧ ((∀ a, a ∈ l → sufficient (Store.updates s) r a = true) →
       Fiber.expirationTime F' = NoWork).
Proof.
  intros HF Halternate HupdateQueue HQ Hchain Hcaptured Hvalid.
  destruct (processUpdateQueue_ok workInProgress queue props instance r F Q l s)
    as (s' & queue' & F' & Q' & Hrun & _ & _ & HF' & _ & _ & _ & _ & Hexpiration & _);
    [done..|].
  pose proof (chain_Forall_valid _ _ _ Hchain) as Hall.
  unfold passResult in Hexpiration.
  rewrite normalPass_newExpirationTime in Hexpiration by done. simpl in Hexpiration.
  destruct (foldl_max_ge (skippedTimes (Store.updates s) r l) NoWork) as [Hstart Hge].
  exists s', F'. split; [done|]. split; [done|]. rewrite Hexpiration.
  split; [exact Hstart|]. split; [|split].
  - intros a U Ha HU Hlt. apply Hge, elem_of_skippedTimes. by exists a, U.
  - destruct (foldl_max_in (skippedTimes (Store.updates s) r l) NoWork)
      as [->|Hin]; [by left|].
    right. apply elem_of_skippedTimes in Hin as (a & U & Ha & HU & Hlt & Heq).
    by exists a, U.
  - intros Hsufficient.
    destruct (foldl_max_in (skippedTimes (Store.updates s) r l) NoWork)
      as [->|Hin]; [done|].
    apply elem_of_skippedTimes in Hin as (a & U & Ha & HU & Hlt & _).
    specialize (Hsufficient a Ha). unfold sufficient in Hsufficient.
    rewrite HU in Hsufficient. apply negb_true_iff, Z.ltb_ge in Hsufficient. lia.
Qed.

End Facts.

Section Samples.

#[local] Existing Instance Examples.sideEffectTags.
#[local] Existing Instance Examples.expirationTimes.
#[local] Existing Instance Examples.typeOfMode.
#[local] Existing Instance Examples.featureFlags.
#[local] Existing Instance Examples.calls.

(** The pass at the expiration time 2 over the letters A and C at 2 and B and D
    at 1 leaves AC in the fiber, and in the queue the list from B on with the base
    state A. *)
Lemma processUpdateQueue_applies_sufficient_updates_witness :
  ∃ s' queue' F' Q',
    processLetters 2 (letters 2 1) = (Ok tt, s')
    ∧ Store.fibers s' !! 0 = Some F'
    ∧ Fiber.updateQueue F' = Some queue'
    ∧ Store.queues s' !! queue' = Some Q'
    ∧ Fiber.memoizedState F' = VString "AC"
    ∧ chain (Store.updates s') (UpdateQueue.firstUpdate Q') [1; 2; 3]
    ∧ UpdateQueue.baseState Q' = VString "A".
Proof.
  destruct (processUpdateQueue_applies_sufficient_updates 0 0 VNull VNull 2
              letterFiber letterQueue [0; 1; 2; 3] (letters 2 1))
    as (s' & queue' & F' & Q' & l1 & l2 & Hrun & HF' & HupdateQueue' & HQ'
        & Hmemoized & Hl & Hl1 & Hhead & Hchain & HbaseState);
    [done|done|done|done|apply letters_chain|done|apply letters_effectsValid|].
  assert (l1 = [0] ∧ l2 = [1; 2; 3]) as [-> ->].
  { destruct l1 as [|a l1]; simpl in Hl.
    { subst l2. by specialize (Hhead 0 eq_refl). }
    injection Hl as <- Hl. destruct l1 as [|b l1]; simpl in Hl;
      [subst l2; split; reflexivity|].
    injection Hl as <- Hl. apply Forall_cons in Hl1 as [_ Hl1].
    by apply Forall_cons in Hl1 as [? _]. }
  exists s', queue', F', Q'.
  split; [exact Hrun|]. split; [exact HF'|]. split; [exact HupdateQueue'|].
  split; [exact HQ'|]. split; [by rewrite Hmemoized|]. split; [exact Hchain|].
  by rewrite HbaseState.
Defined.

(** The same pass leaves the expiration time 1 of the skipped letters in the
    fiber. *)
Lemma processUpdateQueue_remaining_time_witness :
  ∃ s' F',
    processLetters 2 (letters 2 1) = (Ok tt, s')
    ∧ Store.fibers s' !! 0 = Some F'
    ∧ Fiber.expirationTime F' = 1%Z.
Proof.
  destruct (processUpdateQueue_remaining_time 0 0 VNull VNull 2 letterFiber
              letterQueue [0; 1; 2; 3] (letters 2 1))
    as (s' & F' & Hrun & HF' & _ & Hge & Hcases & _);
    [done|done|done|done|apply letters_chain|done|apply letters_effectsValid|].
  exists s', F'. split; [exact Hrun|]. split; [exact HF'|]. clear Hrun.
  specialize (Hge 1 (letterUpdate 1 1 (Some 2))
                ltac:(apply (bool_decide_unpack _); by vm_compute) eq_refl
                ltac:(simpl; lia)).
  simpl in Hge.
  destruct Hcases as [Hnone|(a & U & Ha & HU & Hlt & ->)].
  { rewrite Hnone in Hge. simpl in Hge. lia. }
  repeat (apply elem_of_cons in Ha as [->|Ha];
          [injection HU as <-; simpl in Hlt |- *; lia|]).
  by apply elem_of_nil in Ha.
Defined.

End Samples.

End PassFacts.

(** ** What processing leaves alone *)

Module FrameFacts.
Import ReactUpdateQueue UpdateListFacts EnqueueFacts ProcessFacts.

(** [m] relates the state it leaves to the state it starts in by [R], whether it
    returns or throws. *)
Definition preserves {A : Type} (R : relation Store.t) (m : M Store.t A) : Prop :=
  ∀ s r s', m s = (r, s') → R s s'.

Lemma bind_inv {A B : Type} (m : M Store.t A) (f : A → M Store.t B) s r s' :
  (m ≫= f) s = (r, s') →
  (∃ a s1, m s = (Ok a, s1) ∧ f a s1 = (r, s'))
  ∨ (∃ e, m s = (Throw e, s') ∧ r = Throw e).
Proof.
  unfold mbind, M_bind. destruct (m s) as [[a|e] s1]; intros Hrun.
  - left. by exists a, s1.
  - right. injection Hrun as <- <-. by exists e.
Qed.

Section Rules.
Context (R : relation Store.t) `{!PreOrder R}.

Lemma preserves_ret {A : Type} (a : A) : preserves R (mret a).
Proof. intros s r s' [= <- <-]. reflexivity. Qed.

Lemma preserves_throw {A : Type} (e : exn) : preserves R (throw e : M Store.t A).
Proof. intros s r s' [= <- <-]. reflexivity. Qed.

Lemma preserves_gets {A : Type} (f : Store.t → A) : preserves R (gets f).
Proof. intros s r s' [= <- <-]. reflexivity. Qed.

Lemma preserves_bind {A B : Type} (m : M Store.t A) (f : A → M Store.t B) :
  preserves R m → (∀ a, preserves R (f a)) → preserves R (m ≫= f).
Proof.
  intros Hm Hf s r s' Hrun.
  apply bind_inv in Hrun as [(a & s1 & Hrun1 & Hrun2)|(e & Hrun1 & _)].
  - transitivity s1; [by eapply Hm|by eapply Hf].
  - by eapply Hm.
Qed.

Lemma preserves_deref {A : Type} (arena : Store.t → list A) a :
  preserves R (deref arena a).
Proof.
  intros s r s'. unfold deref. destruct (arena s !! a); intros [= <- <-]; reflexivity.
Qed.

Lemma preserves_readFiber {A : Type} a (field : Fiber.t → A) :
  preserves R (readFiber a field).
Proof. apply preserves_bind; [apply preserves_deref|intros; apply preserves_ret]. Qed.

Lemma preserves_readQueue {A : Type} a (field : UpdateQueue.t → A) :
  preserves R (readQueue a field).
Proof. apply preserves_bind; [apply preserves_deref|intros; apply preserves_ret]. Qed.

Lemma preserves_readUpdate {A : Type} a (field : Update.t → A) :
  preserves R (readUpdate a field).
Proof. apply preserves_bind; [apply preserves_deref|intros; apply preserves_ret]. Qed.

Lemma preserves_modify (f : Store.t → Store.t) :
  (∀ s, R s (f s)) → preserves R (modify f).
Proof. intros Hf s r s' [= <- <-]. apply Hf. Qed.

Lemma preserves_setFiber a g :
  (∀ s x, Store.fibers s !! a = Some x →
          R s (Store.set_fibers (<[a := g x]> (Store.fibers s)) s)) →
  preserves R (setFiber a g).
Proof.
  intros Hg s r s'. unfold setFiber, getFiber, deref, mbind, M_bind, modify.
  destruct (Store.fibers s !! a) as [x|] eqn:Hx; intros [= <- <-];
    [by apply Hg|reflexivity].
Qed.

Lemma preserves_setQueue a g :
  (∀ s x, Store.queues s !! a = Some x →
          R s (Store.set_queues (<[a := g x]> (Store.queues s)) s)) →
  preserves R (setQueue a g).
Proof.
  intros Hg s r s'. unfold setQueue, getQueue, deref, mbind, M_bind, modify.
  destruct (Store.queues s !! a) as [x|] eqn:Hx; intros [= <- <-];
    [by apply Hg|reflexivity].
Qed.

Lemma preserves_setUpdate a g :
  (∀ s x, Store.updates s !! a = Some x →
          R s (Store.set_updates (<[a := g x]> (Store.updates s)) s)) →
  preserves R (setUpdate a g).
Proof.
  intros Hg s r s'. unfold setUpdate, getUpdate, deref, mbind, M_bind, modify.
  destruct (Store.updates s !! a) as [x|] eqn:Hx; intros [= <- <-];
    [by apply Hg|reflexivity].
Qed.

End Rules.

(** Take a computation apart by the rules above; the writes are left as goals. *)
Ltac preserve :=
  repeat
    lazymatch goal with
    | |- PreOrder _ => typeclasses eauto
    | |- preserves _ (_ ≫= _) => apply preserves_bind; [| |intros ?]
    | |- preserves _ (mret _) => apply preserves_ret
    | |- preserves _ (throw _) => apply preserves_throw
    | |- preserves _ (gets _) => apply preserves_gets
    | |- preserves _ listFuel => apply preserves_gets
    | |- preserves _ (readFiber _ _) => apply preserves_readFiber
    | |- preserves _ (readQueue _ _) => apply preserves_readQueue
    | |- preserves _ (readUpdate _ _) => apply preserves_readUpdate
    | |- preserves _ (if ?b then _ else _) => destruct b
    | |- preserves _ (match ?x with _ => _ end) => destruct x
    | |- preserves _ (setFiber _ _) => apply preserves_setFiber; [|intros ? ? ?]
    | |- preserves _ (setQueue _ _) => apply preserves_setQueue; [|intros ? ? ?]
    | |- preserves _ (setUpdate _ _) => apply preserves_setUpdate; [|intros ? ? ?]
    | |- preserves _ (modify _) => apply preserves_modify; intros ?
    | _ => fail
    end.

(** [frame workInProgress queue s s']: from [s] to [s'] no fiber but
    [workInProgress] has changed, no queue of [s] but [queue], and no update but in
    its [nextEffect]. *)
Definition frame (workInProgress queue : addr) (s s' : Store.t) : Prop :=
  (∀ f, f ≠ workInProgress → Store.fibers s' !! f = Store.fibers s !! f)
  ∧ coreU <$> Store.updates s' = coreU <$> Store.updates s
  ∧ (∀ q, q ≠ queue → q < length (Store.queues s) →
          Store.queues s' !! q = Store.queues s !! q)
  ∧ length (Store.queues s) ≤ length (Store.queues s').

#[local] Instance frame_preorder workInProgress queue :
  PreOrder (frame workInProgress queue).
Proof.
  split.
  - intros s. by repeat split.
  - intros s1 s2 s3 (Hf12 & Hu12 & Hq12 & Hl12) (Hf23 & Hu23 & Hq23 & Hl23).
    split; [|split; [|split]].
    + intros f Hf. by rewrite Hf23, Hf12.
    + congruence.
    + intros q Hq Hlt. rewrite Hq23, Hq12; [done..|lia].
    + lia.
Qed.

Lemma frame_fiber workInProgress queue s (F : Fiber.t) :
  frame workInProgress queue s
    (Store.set_fibers (<[workInProgress := F]> (Store.fibers s)) s).
Proof.
  split; [|by repeat split]. intros f Hf. simpl.
  by rewrite list_lookup_insert_ne.
Qed.

Lemma frame_queue workInProgress queue s (Q : UpdateQueue.t) :
  frame workInProgress queue s
    (Store.set_queues (<[queue := Q]> (Store.queues s)) s).
Proof.
  split; [done|]. split; [done|]. simpl. split.
  - intros q Hq _. by rewrite list_lookup_insert_ne.
  - by rewrite length_insert.
Qed.

Lemma frame_update workInProgress queue s a (x : Update.t) g :
  Store.updates s !! a = Some x →
  coreU (g x) = coreU x →
  frame workInProgress queue s
    (Store.set_updates (<[a := g x]> (Store.updates s)) s).
Proof.
  intros Hx Hg. split; [done|]. split; [|by split]. simpl.
  by apply (fmap_insert_same _ _ _ x).
Qed.

Section Facts.
Context `{SideEffectTags, ExpirationTimes, Calls}.

Lemma getStateFromUpdate_frame workInProgress queue update prevState props instance :
  preserves (frame workInProgress queue)
    (getStateFromUpdate workInProgress queue update prevState props instance).
Proof.
  unfold getStateFromUpdate. preserve; try apply frame_fiber; by repeat split.
Qed.

Lemma processUpdates_frame workInProgress queue props instance r fuel :
  ∀ update L,
    preserves (frame workInProgress queue)
      (processUpdates fuel workInProgress queue props instance r update L).
Proof.
  induction fuel as [|fuel IH]; intros [update|] L; simpl; preserve;
    try apply getStateFromUpdate_frame; try apply IH;
    try apply frame_fiber; try apply frame_queue;
    try (by eapply frame_update).
Qed.

Lemma processCapturedUpdates_frame workInProgress queue props instance r fuel :
  ∀ update L,
    preserves (frame workInProgress queue)
      (processCapturedUpdates fuel workInProgress queue props instance r update L).
Proof.
  induction fuel as [|fuel IH]; intros [update|] L; simpl; preserve;
    try apply getStateFromUpdate_frame; try apply IH;
    try apply frame_fiber; try apply frame_queue;
    try (by eapply frame_update).
Qed.

(** The queue is the one of the current fiber too. *)
Definition shared (s : Store.t) (workInProgress queue : addr) : Prop :=
  ∃ F current C,
    Store.fibers s !! workInProgress = Some F
    ∧ Fiber.alternate F = Some current
    ∧ Store.fibers s !! current = Some C
    ∧ Fiber.updateQueue C = Some queue.

Lemma ensureWorkInProgressQueueIsAClone_cases workInProgress queue s r s1 :
  ensureWorkInProgressQueueIsAClone workInProgress queue s = (r, s1) →
  (s1 = s ∧ ((r = Ok queue ∧ ¬ shared s workInProgress queue) ∨ ∃ e, r = Throw e))
  ∨ (shared s workInProgress queue
     ∧ ∃ F Q,
        Store.fibers s !! workInProgress = Some F
        ∧ Store.queues s !! queue = Some Q
        ∧ r = Ok (length (Store.queues s))
        ∧ s1 = Store.set_fibers
                 (<[workInProgress
                    := Fiber.set_updateQueue (Some (length (Store.queues s))) F]>
                    (Store.fibers s))
                 (Store.set_queues (Store.queues s ++ [cloneOf Q]) s)).
Proof.
  unfold ensureWorkInProgressQueueIsAClone. intros Hrun.
  destruct (Store.fibers s !! workInProgress) as [F|] eqn:HF.
  2: { unfold readFiber, getFiber, deref, mbind, M_bind in Hrun. rewrite HF in Hrun.
       injection Hrun as <- <-. left. split; [done|]. right. by eexists. }
  rewrite (bind_ok _ _ _ _ _ (readFiber_ok _ Fiber.alternate _ _ HF)) in Hrun.
  destruct (Fiber.alternate F) as [current|] eqn:Hcurrent.
  2: { injection Hrun as <- <-. left. split; [done|]. left. split; [done|].
       intros (F' & c & C & HF' & Hc & _). congruence. }
  destruct (Store.fibers s !! current) as [C|] eqn:HC.
  2: { unfold readFiber, getFiber, deref, mbind, M_bind in Hrun. rewrite HC in Hrun.
       injection Hrun as <- <-. left. split; [done|]. right. by eexists. }
  rewrite (bind_ok _ _ _ _ _ (readFiber_ok _ Fiber.updateQueue _ _ HC)) in Hrun.
  destruct (decide (Some queue = Fiber.updateQueue C)) as [Hshared|Hother].
  2: { injection Hrun as <- <-. left. split; [done|]. left. split; [done|].
       intros (F' & c & C' & HF' & Hc & HC' & Hq). congruence. }
  destruct (Store.queues s !! queue) as [Q|] eqn:HQ.
  - rewrite (cloneQueueFor_ok _ _ _ _ _ HF HQ) in Hrun. injection Hrun as <- <-.
    right. split; [|by exists F, Q]. exists F, current, C. split; [done|].
    split; [done|]. split; [done|]. congruence.
  - unfold cloneQueueFor, cloneUpdateQueue, readQueue, getQueue, deref, mbind, M_bind
      in Hrun.
    rewrite HQ in Hrun. injection Hrun as <- <-.
    left. split; [done|]. right. by eexists.
Qed.

(** X17.  However [processUpdateQueue] ends, it has changed no fiber but the
    work-in-progress fiber, no update but in its [nextEffect], and no queue that
    existed but the one it was given; and when that queue is the queue of the
    current fiber too, it has not changed that queue either: it works on a clone. *)
Theorem processUpdateQueue_writes_only_work_in_progress (workInProgress queue : addr)
    (props instance : value) (r : Z) (s : Store.t) result s' :
  processUpdateQueue workInProgress queue props instance r s = (result, s') →
  (∀ f, f ≠ workInProgress → Store.fibers s' !! f = Store.fibers s !! f)
  ∧ coreU <$> Store.updates s' = coreU <$> Store.updates s
  ∧ (∀ q, q ≠ queue → q < length (Store.queues s) →
          Store.queues s' !! q = Store.queues s !! q)
  ∧ (shared s workInProgress queue →
     Store.queues s' !! queue = Store.queues s !! queue).
Proof.
  intros Hrun. unfold processUpdateQueue in Hrun.
  apply bind_inv in Hrun as [(? & s0 & Hreset & Hrun)|(e & Hreset & _)]; [|done].
  injection Hreset as _ <-.
  apply bind_inv in Hrun as [(queue0 & s1 & Hensure & Hrest)|(e & Hensure & ->)].
  - assert (frame workInProgress queue0 s1 s') as (Hfibers & Hupdates & Hqueues & _).
    { match type of Hrest with
      | ?m _ = _ => assert (preserves (frame workInProgress queue0) m) as Hpreserves
      end.
      { preserve; try apply processUpdates_frame;
          try apply processCapturedUpdates_frame;
          try apply frame_fiber; try apply frame_queue. }
      by eapply Hpreserves. }
    apply ensureWorkInProgressQueueIsAClone_cases in Hensure
      as [[-> [[[= <-] Hnot]|[e ?]]]|(_ & F & Q & HF & HQ & [= ->] & ->)]; [|done|].
    + split; [done|]. split; [done|]. split; [done|].
      intros Hshared. by destruct Hnot.
    + simpl in *. split; [|split; [done|split]].
      * intros f Hf. rewrite Hfibers by done. by rewrite list_lookup_insert_ne.
      * intros q Hq Hlt. rewrite Hqueues; [|lia|rewrite length_app; simpl; lia].
        by rewrite lookup_app_l.
      * intros _. apply lookup_lt_Some in HQ as Hlt.
        rewrite Hqueues; [|lia|rewrite length_app; simpl; lia].
        by rewrite lookup_app_l.
  - apply ensureWorkInProgressQueueIsAClone_cases in Hensure
      as [[-> _]|(_ & F & Q & _ & _ & [=] & _)].
    by repeat split.
Qed.

End Facts.

Section Samples.

#[local] Existing Instance Examples.sideEffectTags.
#[local] Existing Instance Examples.expirationTimes.
#[local] Existing Instance Examples.typeOfMode.
#[local] Existing Instance Examples.featureFlags.
#[local] Existing Instance Examples.calls.

(** The letters with a second fiber, the current one, that has the same queue. *)
Definition sharedLetters : Store.t :=
  Store.set_fibers
    [Fiber.set_alternate (Some 1) letterFiber; Fiber.set_alternate (Some 0) letterFiber]
    (letters 2 1).

(** A pass over the shared queue returns, and leaves the queue and the current
    fiber as they were. *)
Lemma processUpdateQueue_writes_only_work_in_progress_witness :
  ∃ s',
    processUpdateQueue 0 0 VNull VNull 2 sharedLetters = (Ok tt, s')
    ∧ Store.fibers s' !! 1 = Some (Fiber.set_alternate (Some 0) letterFiber)
    ∧ Store.queues s' !! 0 = Some letterQueue.
Proof.
  destruct (processUpdateQueue_ok 0 0 VNull VNull 2
              (Fiber.set_alternate (Some 1) letterFiber) letterQueue [0; 1; 2; 3]
              sharedLetters eq_refl)
    as (s' & _ & _ & _ & Hrun & _);
    [|done|done|apply (letters_chain 2 1)|done| |].
  { intros current [= <-]. simpl. lia. }
  { intros Q [= <-]. by split. }
  exists s'. split; [exact Hrun|].
  destruct (processUpdateQueue_writes_only_work_in_progress 0 0 VNull VNull 2
              sharedLetters (Ok tt) s' Hrun) as (Hfibers & _ & _ & Hshared).
  split; [by apply Hfibers|]. apply Hshared.
  exists (Fiber.set_alternate (Some 1) letterFiber), 1,
    (Fiber.set_alternate (Some 0) letterFiber).
  split; [reflexivity|]. split; [reflexivity|]. split; reflexivity.
Defined.

End Samples.

End FrameFacts.

(** ** Forced updates *)

Module ForceFacts.
Import ReactUpdateQueue UpdateListFacts EnqueueFacts ProcessFacts FrameFacts PassFacts.

(** [checkHasForceUpdateAfterProcessing]. *)
Definition checkHasForceUpdateAfterProcessing : M Store.t bool :=
  gets Store.hasForceUpdate.

(** The update at [a] is a [ForceUpdate] that a pass at [r] does not skip. *)
Definition forces (us : list Update.t) (r : Z) (a : addr) : bool :=
  match us !! a with
  | Some U => negb (Update.expirationTime U <? r)%Z && (Update.tag U =? ForceUpdate)%Z
  | None => false
  end.

(** The flag [hasForceUpdate] is as it was. *)
Definition flagSame (s s' : Store.t) : Prop :=
  Store.hasForceUpdate s' = Store.hasForceUpdate s.

#[local] Instance flagSame_preorder : PreOrder flagSame.
Proof. split; [done|]. intros s1 s2 s3. unfold flagSame. congruence. Qed.

#[local] Existing Instance frame_preorder.

#[local] Instance stable_preorder : PreOrder stable.
Proof. split; [exact stable_refl|exact stable_trans]. Qed.

Lemma stable_fiber_write s a (x : Fiber.t) g :
  Store.fibers s !! a = Some x → coreF (g x) = coreF x →
  stable s (Store.set_fibers (<[a := g x]> (Store.fibers s)) s).
Proof.
  intros Hx Hg. split; [done|]. split; [done|]. simpl.
  by apply (fmap_insert_same _ _ _ x).
Qed.

Lemma stable_queue_write s a (x : UpdateQueue.t) g :
  Store.queues s !! a = Some x → coreQ (g x) = coreQ x →
  stable s (Store.set_queues (<[a := g x]> (Store.queues s)) s).
Proof.
  intros Hx Hg. split; [done|]. split; [|done]. simpl.
  by apply (fmap_insert_same _ _ _ x).
Qed.

Lemma stable_update_write s a (x : Update.t) g :
  Store.updates s !! a = Some x → coreU (g x) = coreU x →
  stable s (Store.set_updates (<[a := g x]> (Store.updates s)) s).
Proof.
  intros Hx Hg. split; [|done]. simpl. by apply (fmap_insert_same _ _ _ x).
Qed.

(** The writes of the loops of [processUpdateQueue] are left to these. *)
Ltac stable_writes :=
  try done;
  try (by eapply stable_fiber_write);
  try (by eapply stable_queue_write);
  try (by eapply stable_update_write).

Section Facts.
Context `{SideEffectTags, ExpirationTimes, Calls}.

Lemma getStateFromUpdate_flag workInProgress queue update U prevState props instance
    s result s' :
  Store.updates s !! update = Some U →
  getStateFromUpdate workInProgress queue update prevState props instance s
  = (result, s') →
  Store.hasForceUpdate s'
  = Store.hasForceUpdate s || (Update.tag U =? ForceUpdate)%Z.
Proof.
  intros HU. unfold getStateFromUpdate.
  rewrite (bind_ok _ _ _ _ _ (readUpdate_ok _ Update.tag _ _ HU)).
  destruct (Z.eqb_spec (Update.tag U) ForceUpdate) as [Hforce|Hother].
  - rewrite Hforce. simpl. intros Hrun.
    apply bind_inv in Hrun as [(? & s1 & [= _ <-] & Hrun)|(e & [=] & _)].
    injection Hrun as _ <-. simpl. by rewrite orb_true_r.
  - rewrite orb_false_r. intros Hrun.
    match type of Hrun with
    | ?m _ = _ => assert (preserves flagSame m) as Hpreserves
    end.
    { preserve; done. }
    by eapply Hpreserves.
Qed.

Lemma forces_core us us' r a :
  coreU <$> us' = coreU <$> us → forces us' r a = forces us r a.
Proof.
  intros Hcore. unfold forces. pose proof (lookup_core us us' a Hcore) as Ha.
  destruct (us !! a) as [U|].
  - destruct Ha as (U' & -> & HU').
    by rewrite (f_equal Update.expirationTime HU'
                  : Update.expirationTime U' = Update.expirationTime U),
      (f_equal Update.tag HU' : Update.tag U' = Update.tag U).
  - by rewrite Ha.
Qed.

Lemma existsb_forces_core us us' r l :
  coreU <$> us' = coreU <$> us →
  existsb (forces us' r) l = existsb (forces us r) l.
Proof.
  intros Hcore. induction l as [|a l IH]; [done|].
  simpl. by rewrite IH, (forces_core _ _ _ _ Hcore).
Qed.

Lemma readUpdate_inv {A : Type} a (field : Update.t → A) s v s' :
  readUpdate a field s = (Ok v, s') →
  s' = s ∧ ∃ U, Store.updates s !! a = Some U ∧ v = field U.
Proof.
  unfold readUpdate, getUpdate, deref, mbind, M_bind.
  destruct (Store.updates s !! a) as [U|]; [|done].
  intros [= <- <-]. split; [done|]. by exists U.
Qed.

(** A run of the first loop that returns has set the flag exactly when it processed
    a [ForceUpdate]. *)
Lemma processUpdates_flag workInProgress queue props instance r l :
  ∀ fuel first L s L' s',
    chain (Store.updates s) first l →
    processUpdates fuel workInProgress queue props instance r first L s = (Ok L', s') →
    Store.hasForceUpdate s'
    = Store.hasForceUpdate s || existsb (forces (Store.updates s) r) l.
Proof.
  induction l as [|a l IH]; intros fuel first L s L' s' Hchain Hrun.
  { simpl in Hchain. subst first. destruct fuel; injection Hrun as _ <-;
      by rewrite orb_false_r. }
  destruct Hchain as [-> (U & HU & Hrest)].
  destruct fuel as [|fuel]; [done|]. simpl in Hrun.
  rewrite (bind_ok _ _ _ _ _ (readUpdate_ok _ Update.expirationTime _ _ HU)) in Hrun.
  simpl. unfold forces at 1. rewrite HU.
  destruct (Update.expirationTime U <? r)%Z.
  - erewrite bind_ok in Hrun by reflexivity.
    rewrite (bind_ok _ _ _ _ _ (readUpdate_ok _ Update.next _ _ HU)) in Hrun.
    by eapply IH.
  - rewrite !bind_assoc in Hrun.
    apply bind_inv in Hrun as [(state & s1 & Hrun1 & Hrun)|(e & _ & [=])].
    pose proof (getStateFromUpdate_flag _ _ _ _ _ _ _ _ _ _ HU Hrun1) as Hflag1.
    pose proof (getStateFromUpdate_frame _ _ _ _ _ _ _ _ _ Hrun1) as (_ & Hcore1 & _).
    rewrite !bind_assoc in Hrun.
    apply bind_inv in Hrun as [(callback & s1' & Hread & Hrun)|(e & _ & [=])].
    apply readUpdate_inv in Hread as [-> _].
    rewrite !bind_assoc in Hrun.
    apply bind_inv in Hrun as [([] & s2 & Hrun2 & Hrun)|(e & _ & [=])].
    assert (flagSame s1 s2 ∧ frame workInProgress queue s1 s2)
      as [Hflag2 (_ & Hcore2 & _)].
    { match type of Hrun2 with
      | ?m _ = _ =>
          assert (preserves flagSame m ∧ preserves (frame workInProgress queue) m)
            as [Hp1 Hp2]
      end.
      { split; preserve; try done; try apply frame_fiber; try apply frame_queue;
          try (by eapply frame_update). }
      split; [by eapply Hp1|by eapply Hp2]. }
    erewrite bind_ok in Hrun by reflexivity.
    apply bind_inv in Hrun as [(next & s2' & Hread & Hrun)|(e & _ & [=])].
    apply readUpdate_inv in Hread as [-> (U2 & HU2 & ->)].
    assert (coreU <$> Store.updates s2 = coreU <$> Store.updates s) as Hcore
      by congruence.
    destruct (fmap_lookup_same _ _ _ _ _ Hcore HU) as (U2' & HU2' & HUU).
    assert (U2' = U2) as -> by congruence.
    rewrite (f_equal Update.next HUU : Update.next U2 = Update.next U) in Hrun.
    erewrite (IH _ _ _ s2 _ _ _ Hrun).
    rewrite (existsb_forces_core _ _ _ _ Hcore). unfold flagSame in Hflag2.
    rewrite Hflag2, Hflag1. simpl. by rewrite orb_assoc.
    Unshelve. by eapply chain_core.
Qed.

Lemma getStateFromUpdate_stable workInProgress queue update prevState props instance :
  preserves stable
    (getStateFromUpdate workInProgress queue update prevState props instance).
Proof. unfold getStateFromUpdate. preserve; stable_writes. Qed.

Lemma processUpdates_stable workInProgress queue props instance r fuel :
  ∀ update L,
    preserves stable
      (processUpdates fuel workInProgress queue props instance r update L).
Proof.
  induction fuel as [|fuel IH]; intros [update|] L; simpl; preserve;
    try apply getStateFromUpdate_stable; try apply IH; stable_writes.
Qed.

(** The same for the second loop, over the captured list. *)
Lemma processCapturedUpdates_flag workInProgress queue props instance r l :
  ∀ fuel first L s L' s',
    chain (Store.updates s) first l →
    processCapturedUpdates fuel workInProgress queue props instance r first L s
    = (Ok L', s') →
    Store.hasForceUpdate s'
    = Store.hasForceUpdate s || existsb (forces (Store.updates s) r) l.
Proof.
  induction l as [|a l IH]; intros fuel first L s L' s' Hchain Hrun.
  { simpl in Hchain. subst first. destruct fuel; injection Hrun as _ <-;
      by rewrite orb_false_r. }
  destruct Hchain as [-> (U & HU & Hrest)].
  destruct fuel as [|fuel]; [done|]. simpl in Hrun.
  rewrite (bind_ok _ _ _ _ _ (readUpdate_ok _ Update.expirationTime _ _ HU)) in Hrun.
  simpl. unfold forces at 1. rewrite HU.
  destruct (Update.expirationTime U <? r)%Z.
  - erewrite bind_ok in Hrun by reflexivity.
    rewrite (bind_ok _ _ _ _ _ (readUpdate_ok _ Update.next _ _ HU)) in Hrun.
    by eapply IH.
  - rewrite !bind_assoc in Hrun.
    apply bind_inv in Hrun as [(state & s1 & Hrun1 & Hrun)|(e & _ & [=])].
    pose proof (getStateFromUpdate_flag _ _ _ _ _ _ _ _ _ _ HU Hrun1) as Hflag1.
    pose proof (getStateFromUpdate_frame _ _ _ _ _ _ _ _ _ Hrun1) as (_ & Hcore1 & _).
    rewrite !bind_assoc in Hrun.
    apply bind_inv in Hrun as [(callback & s1' & Hread & Hrun)|(e & _ & [=])].
    apply readUpdate_inv in Hread as [-> _].
    rewrite !bind_assoc in Hrun.
    apply bind_inv in Hrun as [([] & s2 & Hrun2 & Hrun)|(e & _ & [=])].
    assert (flagSame s1 s2 ∧ frame workInProgress queue s1 s2)
      as [Hflag2 (_ & Hcore2 & _)].
    { match type of Hrun2 with
      | ?m _ = _ =>
          assert (preserves flagSame m ∧ preserves (frame workInProgress queue) m)
            as [Hp1 Hp2]
      end.
      { split; preserve; try done; try apply frame_fiber; try apply frame_queue;
          try (by eapply frame_update). }
      split; [by eapply Hp1|by eapply Hp2]. }
    erewrite bind_ok in Hrun by reflexivity.
    apply bind_inv in Hrun as [(next & s2' & Hread & Hrun)|(e & _ & [=])].
    apply readUpdate_inv in Hread as [-> (U2 & HU2 & ->)].
    assert (coreU <$> Store.updates s2 = coreU <$> Store.updates s) as Hcore
      by congruence.
    destruct (fmap_lookup_same _ _ _ _ _ Hcore HU) as (U2' & HU2' & HUU).
    assert (U2' = U2) as -> by congruence.
    rewrite (f_equal Update.next HUU : Update.next U2 = Update.next U) in Hrun.
    erewrite (IH _ _ _ s2 _ _ _ Hrun).
    rewrite (existsb_forces_core _ _ _ _ Hcore). unfold flagSame in Hflag2.
    rewrite Hflag2, Hflag1. simpl. by rewrite orb_assoc.
    Unshelve. by eapply chain_core.
Qed.

(** X18.  After a pass of [processUpdateQueue] that returns,
    [checkHasForceUpdateAfterProcessing] answers whether the pass has processed a
    [ForceUpdate], whatever the flag was before: the updates it skips for their
    expiration time do not count, and the captured updates of a queue shared with
    the current fiber do not count either, since the clone drops them. *)
Theorem processUpdateQueue_hasForceUpdate (workInProgress queue : addr)
    (props instance : value) (r : Z) (Q : UpdateQueue.t) (l c : list addr)
    (s s' : Store.t) :
  Store.queues s !! queue = Some Q →
  chain (Store.updates s) (UpdateQueue.firstUpdate Q) l →
  chain (Store.updates s) (UpdateQueue.firstCapturedUpdate Q) c →
  processUpdateQueue workInProgress queue props instance r s = (Ok tt, s') →
  (¬ shared s workInProgress queue →
   checkHasForceUpdateAfterProcessing s'
   = (Ok (existsb (forces (Store.updates s) r) (l ++ c)), s'))
  ∧ (shared s workInProgress queue →
     checkHasForceUpdateAfterProcessing s'
     = (Ok (existsb (forces (Store.updates s) r) l), s')).
Proof.
  intros HQ Hl Hc Hrun. unfold processUpdateQueue in Hrun.
  erewrite bind_ok in Hrun by reflexivity.
  apply bind_inv in Hrun as [(queue0 & s0 & Hensure & Hrun)|(e & _ & [=])].
  assert (∃ Q0 c0,
             Store.queues s0 !! queue0 = Some Q0
             ∧ UpdateQueue.firstUpdate Q0 = UpdateQueue.firstUpdate Q
             ∧ chain (Store.updates s) (UpdateQueue.firstCapturedUpdate Q0) c0
             ∧ Store.updates s0 = Store.updates s
             ∧ Store.hasForceUpdate s0 = false
             ∧ (¬ shared s workInProgress queue → c0 = c)
             ∧ (shared s workInProgress queue → c0 = []))
    as (Q0 & c0 & HQ0 & Hfirst0 & Hc0 & Hupdates0 & Hflag0 & Hnot & Hshared).
  { apply ensureWorkInProgressQueueIsAClone_cases in Hensure
      as [[-> [[[= <-] Hnot]|[e ?]]]|(Hshared & F & Q1 & HF & HQ1 & [= ->] & ->)];
      [|done|].
    - exists Q, c. by repeat split.
    - simpl in HQ1. assert (Q1 = Q) as -> by congruence.
      exists (cloneOf Q), []. split; [by apply list_lookup_middle|].
      by repeat split. }
  rewrite (bind_ok _ _ _ _ _ (readQueue_ok _ UpdateQueue.baseState _ _ HQ0)) in Hrun.
  rewrite (bind_ok _ _ _ _ _ (readQueue_ok _ UpdateQueue.firstUpdate _ _ HQ0)) in Hrun.
  erewrite bind_ok in Hrun by reflexivity.
  apply bind_inv in Hrun as [(L1 & s1 & Hrun1 & Hrun)|(e & _ & [=])].
  rewrite Hfirst0 in Hrun1.
  pose proof (processUpdates_flag _ _ _ _ _ l _ _ _ _ _ _
                ltac:(by rewrite Hupdates0) Hrun1) as Hflag1.
  pose proof (processUpdates_stable _ _ _ _ _ _ _ _ _ _ _ Hrun1) as Hstable1.
  destruct (stable_queue _ _ _ _ Hstable1 HQ0)
    as (Q1 & HQ1 & _ & _ & _ & Hcaptured1 & _).
  rewrite (bind_ok _ _ _ _ _ (readQueue_ok _ UpdateQueue.firstCapturedUpdate _ _ HQ1))
    in Hrun.
  erewrite bind_ok in Hrun by reflexivity.
  apply bind_inv in Hrun as [(L2 & s2 & Hrun2 & Hrun)|(e & _ & [=])].
  rewrite Hcaptured1 in Hrun2.
  assert (coreU <$> Store.updates s1 = coreU <$> Store.updates s) as Hcore1.
  { rewrite <- Hupdates0. apply Hstable1. }
  pose proof (processCapturedUpdates_flag _ _ _ _ _ c0 _ _ _ _ _ _
                ltac:(by eapply chain_core) Hrun2) as Hflag2.
  assert (flagSame s2 s') as Hflag.
  { match type of Hrun with
    | ?m _ = _ => assert (preserves flagSame m) as Hpreserves
    end.
    { preserve; done. }
    by eapply Hpreserves. }
  assert (Store.hasForceUpdate s'
          = existsb (forces (Store.updates s) r) (l ++ c0)) as Hresult.
  { rewrite Hflag, Hflag2, Hflag1, Hflag0, Hupdates0.
    rewrite (existsb_forces_core _ _ _ _ Hcore1). simpl. by rewrite existsb_app. }
  unfold checkHasForceUpdateAfterProcessing, gets. rewrite Hresult.
  split; intros Hcase.
  - by rewrite (Hnot Hcase).
  - by rewrite (Hshared Hcase), app_nil_r.
Qed.

End Facts.

Section Samples.

#[local] Existing Instance Examples.sideEffectTags.
#[local] Existing Instance Examples.expirationTimes.
#[local] Existing Instance Examples.typeOfMode.
#[local] Existing Instance Examples.featureFlags.
#[local] Existing Instance Examples.calls.

(** A fiber without an alternate whose queue holds the letter A at the expiration
    time 1 and then a [ForceUpdate] at the expiration time 2. *)
Definition forcedUpdate : Update.t :=
  {| Update.expirationTime := 2;
     Update.tag := ForceUpdate;
     Update.payload := VNull;
     Update.callback := VNull;
     Update.next := None;
     Update.nextEffect := None |}.

Definition forcedQueue : UpdateQueue.t :=
  UpdateQueue.set_lastUpdate (Some 1) letterQueue.

Definition forced : Store.t :=
  {| Store.fibers := [letterFiber];
     Store.queues := [forcedQueue];
     Store.updates := [letterUpdate 0 1 (Some 1); forcedUpdate];
     Store.hasForceUpdate := false;
     Store.invoked := [] |}.

(** The pass at the expiration time 2 skips the letter and processes the
    [ForceUpdate]. *)
Lemma processUpdateQueue_hasForceUpdate_witness :
  ∃ s',
    processUpdateQueue 0 0 VNull VNull 2 forced = (Ok tt, s')
    ∧ checkHasForceUpdateAfterProcessing s' = (Ok true, s').
Proof.
  assert (chain (Store.updates forced) (Some 0) [0; 1]) as Hchain.
  { split; [done|]. eexists. split; [reflexivity|]. simpl.
    split; [done|]. eexists. split; [reflexivity|]. done. }
  destruct (processUpdateQueue_ok 0 0 VNull VNull 2 letterFiber forcedQueue
              [0; 1] forced eq_refl)
    as (s' & _ & _ & _ & Hrun & _); [done|done|done|exact Hchain|done| |].
  { intros Q [= <-]. by split. }
  exists s'. split; [exact Hrun|].
  refine (proj1 (processUpdateQueue_hasForceUpdate 0 0 VNull VNull 2 _ [0; 1] []
                   forced _ eq_refl Hchain eq_refl Hrun) _).
  intros (F & current & C & [= <-] & Hcurrent & _). done.
Defined.

End Samples.

End ForceFacts.

(** ** The callbacks of a commit *)

Module CallbackFacts.
Import ReactUpdateQueue UpdateListFacts EnqueueFacts ProcessFacts CommitFacts FrameFacts.

(** The calls that committing the effects [l] makes: for every update with a
    callback, in the order of the list, the callback with [instance] as [this]. *)
Definition callbacksOf (us : list Update.t) (instance : value) (l : list addr)
  : list (value * value) :=
  omap (λ a, U ← us !! a;
             if is_null (Update.callback U) then None
             else Some (Update.callback U, instance)) l.

(** The update at [a] once the effects [l] are committed. *)
Definition committed (l : list addr) (a : addr) (U : Update.t) : Update.t :=
  if bool_decide (a ∈ l) then Update.set_callback VNull U else U.

(** What the first part of [commitUpdateQueue] leaves alone: the log of calls, the
    updates but for [next], and the effect pointers of the queues. *)
Definition effectFields (U : Update.t) : Update.t := Update.set_next None U.

Definition effectPointers (Q : UpdateQueue.t) : option addr * option addr :=
  (UpdateQueue.firstEffect Q, UpdateQueue.firstCapturedEffect Q).

Definition effectsSame (s s' : Store.t) : Prop :=
  Store.invoked s' = Store.invoked s
  ∧ effectFields <$> Store.updates s' = effectFields <$> Store.updates s
  ∧ effectPointers <$> Store.queues s' = effectPointers <$> Store.queues s.

#[local] Instance effectsSame_preorder : PreOrder effectsSame.
Proof.
  split; [done|]. intros s1 s2 s3 (? & ? & ?) (? & ? & ?).
  repeat split; congruence.
Qed.

Lemma effectView_effectFields U U' :
  effectFields U' = effectFields U → effectView U' = effectView U.
Proof.
  destruct U, U'. unfold effectFields, effectView. simpl. intros [=]. by subst.
Qed.

Lemma effectList_effectFields us us' first l :
  effectFields <$> us' = effectFields <$> us →
  effectList us first l → effectList us' first l.
Proof.
  intros Hsame. unfold effectList.
  assert (effectView <$> us' = effectView <$> us) as ->; [|done].
  apply list_eq. intros i. rewrite !list_lookup_fmap.
  pose proof (f_equal (.!! i) Hsame) as Hi. rewrite !list_lookup_fmap in Hi.
  destruct (us' !! i) as [U'|], (us !! i) as [U|]; try done.
  pose proof (f_equal (from_option id U) Hi : effectFields U' = effectFields U) as HU.
  exact (f_equal Some (effectView_effectFields _ _ HU)).
Qed.

Lemma callbacksOf_ext us us' instance l :
  (∀ a, a ∈ l → Update.callback <$> us' !! a = Update.callback <$> us !! a) →
  callbacksOf us' instance l = callbacksOf us instance l.
Proof.
  induction l as [|a l IH]; intros Hsame; [done|]. simpl.
  rewrite IH by (intros b Hb; apply Hsame, elem_of_cons; by right).
  specialize (Hsame a ltac:(apply elem_of_cons; by left)).
  destruct (us' !! a) as [U'|], (us !! a) as [U|]; try done.
  injection Hsame as Hsame. simpl. by rewrite Hsame.
Qed.

Lemma callbacksOf_app us instance l1 l2 :
  callbacksOf us instance (l1 ++ l2)
  = callbacksOf us instance l1 ++ callbacksOf us instance l2.
Proof. apply omap_app. Qed.

Lemma committed_head a l U :
  a ∉ l → committed (a :: l) a U = Update.set_callback VNull U
          ∧ committed l a U = U.
Proof.
  intros Ha. unfold committed.
  rewrite bool_decide_eq_true_2 by (apply elem_of_cons; by left).
  by rewrite bool_decide_eq_false_2.
Qed.

Lemma committed_tail a b l U :
  b ≠ a → committed (a :: l) b U = committed l b U.
Proof.
  intros Hne. unfold committed.
  assert (bool_decide (b ∈ a :: l) = bool_decide (b ∈ l)) as ->; [|done].
  apply bool_decide_ext. rewrite elem_of_cons. intuition congruence.
Qed.

Lemma set_callback_null U :
  is_null (Update.callback U) = true → Update.set_callback VNull U = U.
Proof. destruct U as [? ? ? callback ? ?]. simpl. by destruct callback. Qed.

Section Facts.
Context `{SideEffectTags, ExpirationTimes, Calls}.

(** A run of [commitUpdateEffects] that returns has called the callbacks of the
    list, in order, and has reset them. *)
Lemma commitUpdateEffects_run instance l :
  ∀ fuel effect s s',
    effectList (Store.updates s) effect l →
    commitUpdateEffects fuel effect instance s = (Ok tt, s') →
    Store.invoked s' = Store.invoked s ++ callbacksOf (Store.updates s) instance l
    ∧ Store.queues s' = Store.queues s
    ∧ Store.fibers s' = Store.fibers s
    ∧ ∀ a, Store.updates s' !! a = committed l a <$> Store.updates s !! a.
Proof.
  induction l as [|a l IH]; intros fuel effect s s' Hlist Hrun.
  { unfold effectList in Hlist. simpl in Hlist. subst effect.
    assert (s' = s) as -> by (destruct fuel; by injection Hrun).
    split; [by rewrite app_nil_r|]. split; [done|]. split; [done|].
    intros a. unfold committed. rewrite bool_decide_eq_false_2 by apply not_elem_of_nil.
    by destruct (Store.updates s !! a). }
  pose proof (chain_NoDup _ _ _ Hlist) as Hnodup.
  apply NoDup_cons in Hnodup as [Ha _].
  destruct Hlist as [-> (V & HV & Hrest)].
  rewrite list_lookup_fmap in HV.
  destruct (Store.updates s !! a) as [U|] eqn:HU; [|done].
  injection HV as <-. simpl in Hrest.
  destruct fuel as [|fuel]; [done|]. simpl in Hrun.
  rewrite (bind_ok _ _ _ _ _ (readUpdate_ok _ Update.callback _ _ HU)) in Hrun.
  destruct (committed_head a l U Ha) as [Hhead Hout].
  destruct (is_null (Update.callback U)) eqn:Hnull.
  - erewrite bind_ok in Hrun by reflexivity.
    rewrite (bind_ok _ _ _ _ _ (readUpdate_ok _ Update.nextEffect _ _ HU)) in Hrun.
    destruct (IH _ _ _ _ Hrest Hrun) as (Hinvoked & Hqueues & Hfibers & Hupdates).
    split. { rewrite Hinvoked. simpl. rewrite HU. simpl. by rewrite Hnull. }
    split; [done|]. split; [done|]. intros b. rewrite Hupdates.
    destruct (decide (b = a)) as [->|Hne].
    + rewrite HU. simpl. by rewrite Hhead, Hout, set_callback_null.
    + destruct (Store.updates s !! b); [|done]. simpl. by rewrite committed_tail.
  - rewrite !bind_assoc in Hrun.
    erewrite bind_ok in Hrun by (by apply setUpdate_ok).
    unfold callCallback, invariantWith in Hrun.
    destruct (bool_decide (typeof (Update.callback U) = TFunction)).
    2: { unfold lift, throw, mbind, M_bind in Hrun.
         by destruct (toString (Update.callback U)). }
    rewrite !bind_assoc in Hrun.
    erewrite bind_ok in Hrun by reflexivity.
    erewrite bind_ok in Hrun by reflexivity.
    pose proof (kept_setUpdate s a U HU) as Hkept.
    set (s1 := Store.set_updates _ s) in *.
    set (s2 := Store.set_invoked _ s1) in *.
    assert (kept s s2) as Hkept2.
    { destruct Hkept as [Hq Hu]. by split. }
    assert (Store.updates s2 !! a = Some (Update.set_callback VNull U)) as HU2.
    { by apply (lookup_insert_same _ _ _ U). }
    rewrite (bind_ok _ _ _ _ _ (readUpdate_ok _ Update.nextEffect _ _ HU2)) in Hrun.
    destruct (IH _ _ _ _ (effectList_kept _ _ _ _ Hkept2 Hrest) Hrun)
      as (Hinvoked & Hqueues & Hfibers & Hupdates).
    split.
    { rewrite Hinvoked. simpl. rewrite HU. simpl. rewrite Hnull, <- app_assoc.
      simpl. do 2 f_equal. apply callbacksOf_ext. intros b Hb. simpl.
      rewrite list_lookup_insert_ne; [done|]. by intros ->. }
    split; [done|]. split; [done|]. intros b. rewrite Hupdates. simpl.
    destruct (decide (b = a)) as [->|Hne].
    + rewrite (lookup_insert_same _ _ _ U), HU by done. simpl.
      rewrite Hhead. unfold committed. by rewrite bool_decide_eq_false_2.
    + rewrite list_lookup_insert_ne by done.
      destruct (Store.updates s !! b); [|done]. simpl. by rewrite committed_tail.
Qed.

Lemma effectsSame_queue s s' q Q :
  effectsSame s s' → Store.queues s !! q = Some Q →
  ∃ Q', Store.queues s' !! q = Some Q'
        ∧ UpdateQueue.firstEffect Q' = UpdateQueue.firstEffect Q
        ∧ UpdateQueue.firstCapturedEffect Q' = UpdateQueue.firstCapturedEffect Q.
Proof.
  intros (_ & _ & Hqueues) HQ.
  destruct (fmap_lookup_same _ _ _ _ _ Hqueues HQ) as (Q' & HQ' & Hsame).
  exists Q'. split; [done|]. unfold effectPointers in Hsame. by injection Hsame.
Qed.

Lemma effectsSame_callback s s' a :
  effectsSame s s' →
  Update.callback <$> Store.updates s' !! a = Update.callback <$> Store.updates s !! a.
Proof.
  intros (_ & Hupdates & _).
  pose proof (f_equal (.!! a) Hupdates) as Ha. rewrite !list_lookup_fmap in Ha.
  destruct (Store.updates s' !! a) as [U'|], (Store.updates s !! a) as [U|];
    try done.
  simpl. f_equal.
  exact (f_equal (from_option Update.callback VNull) Ha).
Qed.

(** The first part of [commitUpdateQueue] touches none of what the effects need. *)
Lemma spliceCaptured_effectsSame finishedQueue firstCapturedUpdate :
  preserves effectsSame (spliceCaptured finishedQueue firstCapturedUpdate).
Proof.
  unfold spliceCaptured. preserve; (split; [done|]); simpl.
  - split; [|done]. by apply (fmap_insert_same _ _ _ x).
  - split; [done|]. by apply (fmap_insert_same _ _ _ x).
  - split; [done|]. by apply (fmap_insert_same _ _ _ x).
  - split; [done|]. by apply (fmap_insert_same _ _ _ x).
Qed.

(** X19.  A commit that returns has called every callback of the two effect lists
    of the queue exactly once: first those of the list of effects, in its order,
    then those of the list of captured effects, each with [instance] as [this].
    It leaves no callback on these updates and no effect list on the queue. *)
Theorem commitUpdateQueue_calls_each_callback_once (finishedWork finishedQueue : addr)
    (instance : value) (renderExpirationTime : Z) (Q : UpdateQueue.t)
    (le lce : list addr) (s s' : Store.t) :
  Store.queues s !! finishedQueue = Some Q →
  effectList (Store.updates s) (UpdateQueue.firstEffect Q) le →
  effectList (Store.updates s) (UpdateQueue.firstCapturedEffect Q) lce →
  (∀ a, a ∈ le → a ∉ lce) →
  commitUpdateQueue finishedWork finishedQueue instance renderExpirationTime s
  = (Ok tt, s') →
  Store.invoked s'
  = Store.invoked s ++ callbacksOf (Store.updates s) instance (le ++ lce)
  ∧ (∀ a, a ∈ le ++ lce →
          ∃ U', Store.updates s' !! a = Some U' ∧ Update.callback U' = VNull)
  ∧ ∃ Q', Store.queues s' !! finishedQueue = Some Q'
          ∧ UpdateQueue.firstEffect Q' = None
          ∧ UpdateQueue.lastEffect Q' = None
          ∧ UpdateQueue.firstCapturedEffect Q' = None
          ∧ UpdateQueue.lastCapturedEffect Q' = None.
Proof.
  intros HQ Hle Hlce Hapart Hrun. unfold commitUpdateQueue in Hrun.
  rewrite (bind_ok _ _ _ _ _ (readQueue_ok _ UpdateQueue.firstCapturedUpdate _ _ HQ))
    in Hrun.
  fold (spliceCaptured finishedQueue (UpdateQueue.firstCapturedUpdate Q)) in Hrun.
  apply bind_inv in Hrun as [([] & s1 & Hsplice & Hrun)|(e & _ & [=])].
  apply spliceCaptured_effectsSame in Hsplice as Hsame.
  destruct (effectsSame_queue _ _ _ _ Hsame HQ) as (Q1 & HQ1 & Hfirst1 & Hcaptured1).
  rewrite (bind_ok _ _ _ _ _ (readQueue_ok _ UpdateQueue.firstEffect _ _ HQ1)) in Hrun.
  erewrite bind_ok in Hrun by reflexivity.
  apply bind_inv in Hrun as [([] & s2 & Hrun2 & Hrun)|(e & _ & [=])].
  rewrite Hfirst1 in Hrun2.
  destruct (commitUpdateEffects_run _ le _ _ _ _
              (effectList_effectFields _ _ _ _ (proj1 (proj2 Hsame)) Hle) Hrun2)
    as (Hinvoked2 & Hqueues2 & _ & Hupdates2).
  assert (Store.queues s2 !! finishedQueue = Some Q1) as HQ2 by congruence.
  erewrite bind_ok in Hrun by (by apply setQueue_ok).
  erewrite bind_ok in Hrun by (apply setQueue_ok; by apply (lookup_insert_same _ _ _ Q1)).
  simpl in Hrun. rewrite list_insert_insert_eq in Hrun.
  match type of Hrun with
  | (_ ≫= _) ?st = _ => set (s3 := st) in *
  end.
  assert (Store.queues s3 !! finishedQueue
          = Some (UpdateQueue.set_firstEffect None
                    (UpdateQueue.set_lastEffect None Q1))) as HQ3.
  { by apply (lookup_insert_same _ _ _ Q1). }
  rewrite (bind_ok _ _ _ _ _ (readQueue_ok _ UpdateQueue.firstCapturedEffect _ _ HQ3))
    in Hrun.
  erewrite bind_ok in Hrun by reflexivity.
  apply bind_inv in Hrun as [([] & s4 & Hrun4 & Hrun)|(e & _ & [=])].
  rewrite (Hcaptured1
           : UpdateQueue.firstCapturedEffect
               (UpdateQueue.set_firstEffect None (UpdateQueue.set_lastEffect None Q1))
             = UpdateQueue.firstCapturedEffect Q) in Hrun4.
  assert (effectList (Store.updates s3) (UpdateQueue.firstCapturedEffect Q) lce)
    as Hlce3.
  { apply (effectList_effectFields _ _ _ _ (proj1 (proj2 Hsame))) in Hlce.
    revert Hlce. apply chain_ext. intros a V _ HV. rewrite list_lookup_fmap in HV.
    simpl. rewrite list_lookup_fmap, Hupdates2.
    destruct (Store.updates s1 !! a) as [U|]; [|done]. injection HV as <-.
    eexists. split; [reflexivity|]. unfold committed.
    by destruct (bool_decide (a ∈ le)). }
  destruct (commitUpdateEffects_run _ lce _ _ _ _ Hlce3 Hrun4)
    as (Hinvoked4 & Hqueues4 & _ & Hupdates4).
  assert (Store.queues s4 !! finishedQueue
          = Some (UpdateQueue.set_firstEffect None
                    (UpdateQueue.set_lastEffect None Q1))) as HQ4 by congruence.
  erewrite bind_ok in Hrun by (by apply setQueue_ok).
  match type of Hrun with
  | setQueue _ _ ?st = _ => set (s5 := st) in *
  end.
  assert (Store.queues s5 !! finishedQueue
          = Some (UpdateQueue.set_lastCapturedEffect None
                    (UpdateQueue.set_firstEffect None
                       (UpdateQueue.set_lastEffect None Q1)))) as HQ5.
  { by apply (lookup_insert_same _ _ _ _ HQ4). }
  rewrite (setQueue_ok _ _ _ _ HQ5) in Hrun.
  injection Hrun as <-. simpl.
  split; [|split].
  - rewrite Hinvoked4. simpl. rewrite Hinvoked2, (proj1 Hsame), <- app_assoc.
    rewrite callbacksOf_app. do 2 f_equal.
    + apply callbacksOf_ext. intros a _. by apply effectsSame_callback.
    + apply callbacksOf_ext. intros a Ha. rewrite Hupdates2.
      rewrite <- (effectsSame_callback _ _ a Hsame).
      destruct (Store.updates s1 !! a) as [U|]; [|done]. simpl. f_equal.
      unfold committed. rewrite bool_decide_eq_false_2; [done|].
      intros Hin. by apply (Hapart a).
  - intros a Ha. rewrite Hupdates4. simpl. rewrite Hupdates2.
    assert (is_Some (Store.updates s1 !! a)) as [U HU].
    { apply lookup_lt_is_Some.
      rewrite <- (length_fmap effectFields), (proj1 (proj2 Hsame)), length_fmap.
      rewrite <- (length_fmap effectView).
      apply elem_of_app in Ha as [Ha|Ha];
        [exact (chain_valid _ _ _ _ Hle Ha)|exact (chain_valid _ _ _ _ Hlce Ha)]. }
    rewrite HU. simpl. eexists. split; [reflexivity|]. unfold committed.
    apply elem_of_app in Ha as [Ha|Ha].
    + rewrite (bool_decide_eq_true_2 (a ∈ le)) by done.
      by destruct (bool_decide (a ∈ lce)).
    + by rewrite (bool_decide_eq_true_2 (a ∈ lce)) by done.
  - eexists. split; [by eapply lookup_insert_same|]. done.
Qed.

(** The first part of [commitUpdateQueue] returns when the last update of the queue
    exists. *)
Lemma spliceCaptured_returns finishedQueue Q s :
  Store.queues s !! finishedQueue = Some Q →
  (∀ t, UpdateQueue.lastUpdate Q = Some t → t < length (Store.updates s)) →
  ∃ s1, spliceCaptured finishedQueue (UpdateQueue.firstCapturedUpdate Q) s
        = (Ok tt, s1).
Proof.
  intros HQ Hlast. unfold spliceCaptured.
  destruct (UpdateQueue.firstCapturedUpdate Q) as [first|]; [|by exists s].
  heap_step. destruct (UpdateQueue.lastUpdate Q) as [t|] eqn:Ht.
  - destruct (lookup_lt_is_Some_2 _ _ (Hlast t eq_refl)) as [T HT].
    do 5 heap_step. eexists. by apply setQueue_ok; solve_lookup.
  - do 2 heap_step. eexists. by apply setQueue_ok; solve_lookup.
Qed.

(** What [callCallback] throws for a callback that is not a function: the error of
    the conversion of the callback to a string, when that throws, and the
    invariant violation otherwise. *)
Definition callbackError (callback : value) : exn :=
  match toString callback with
  | Ok _ => InvariantViolation invalidCallback
  | Throw e => e
  end.

(** [commitUpdateEffects] stops at the first callback that is not a function. *)
Lemma commitUpdateEffects_throws instance l1 a l2 :
  ∀ fuel effect s U,
    effectList (Store.updates s) effect (l1 ++ a :: l2) →
    length l1 < fuel →
    callbacksOk (Store.updates s) l1 →
    Store.updates s !! a = Some U →
    is_null (Update.callback U) = false →
    typeof (Update.callback U) ≠ TFunction →
    ∃ s',
      commitUpdateEffects fuel effect instance s
      = (Throw (callbackError (Update.callback U)), s')
      ∧ Store.invoked s'
        = Store.invoked s ++ callbacksOf (Store.updates s) instance l1
      ∧ Store.queues s' = Store.queues s
      ∧ Store.updates s' !! a = Some (Update.set_callback VNull U).
Proof.
  induction l1 as [|b l1 IH]; intros fuel effect s U Hlist Hfuel Hok HU Hnull Hother.
  { destruct Hlist as [-> _].
    destruct fuel as [|fuel]; [simpl in Hfuel; lia|]. simpl.
    rewrite (bind_ok _ _ _ _ _ (readUpdate_ok _ Update.callback _ _ HU)).
    rewrite Hnull, !bind_assoc.
    erewrite bind_ok by (by apply setUpdate_ok).
    unfold callCallback, invariantWith. rewrite bool_decide_eq_false_2 by done.
    unfold callbackError, lift, throw, mbind, M_bind.
    destruct (toString (Update.callback U)); (eexists; split; [reflexivity|]);
      simpl; (split; [by rewrite app_nil_r|]); (split; [done|]);
      by apply (lookup_insert_same _ _ _ U). }
  pose proof (chain_NoDup _ _ _ Hlist) as Hnodup.
  apply NoDup_cons in Hnodup as [Hb _].
  assert (b ≠ a) as Hne.
  { intros ->. apply Hb, elem_of_app. right. apply elem_of_cons. by left. }
  assert (b ∉ l1) as Hb1.
  { intros Hin. apply Hb, elem_of_app. by left. }
  destruct Hlist as [-> (V & HV & Hrest)].
  rewrite list_lookup_fmap in HV.
  destruct (Store.updates s !! b) as [B|] eqn:HB; [|done].
  injection HV as <-. simpl in Hrest.
  destruct fuel as [|fuel]; [simpl in Hfuel; lia|]. simpl in Hfuel. simpl.
  rewrite (bind_ok _ _ _ _ _ (readUpdate_ok _ Update.callback _ _ HB)).
  assert (callbacksOk (Store.updates s) l1) as Hok1.
  { intros c Hc. apply Hok, elem_of_cons. by right. }
  rewrite HB. simpl.
  destruct (is_null (Update.callback B)) eqn:HnullB.
  - erewrite bind_ok by reflexivity.
    rewrite (bind_ok _ _ _ _ _ (readUpdate_ok _ Update.nextEffect _ _ HB)).
    apply IH; [done|lia|done..].
  - destruct (Hok b ltac:(apply elem_of_cons; by left)) as (B' & HB' & HBok).
    assert (B' = B) as -> by congruence.
    destruct HBok as [?|Hfunction]; [congruence|].
    rewrite !bind_assoc.
    erewrite bind_ok by (by apply setUpdate_ok).
    unfold callCallback, invariantWith. rewrite bool_decide_eq_true_2 by done.
    rewrite !bind_assoc.
    erewrite bind_ok by reflexivity.
    erewrite bind_ok by reflexivity.
    pose proof (kept_setUpdate s b B HB) as Hkept.
    set (s1 := Store.set_updates _ s) in *.
    set (s2 := Store.set_invoked _ s1).
    assert (kept s s2) as Hkept2.
    { destruct Hkept as [Hq Hu]. by split. }
    assert (Store.updates s2 !! b = Some (Update.set_callback VNull B)) as HB2.
    { by apply (lookup_insert_same _ _ _ B). }
    rewrite (bind_ok _ _ _ _ _ (readUpdate_ok _ Update.nextEffect _ _ HB2)).
    destruct (IH fuel (Update.nextEffect B) s2 U) as (s' & Hrun & Hinvoked & Hqueues & HU');
      [by eapply effectList_kept|lia|by eapply callbacksOk_kept| |done|done|].
    { simpl. by rewrite list_lookup_insert_ne. }
    exists s'. split; [done|]. split; [|by split].
    rewrite Hinvoked. simpl. rewrite <- app_assoc. simpl. do 2 f_equal.
    apply callbacksOf_ext. intros c Hc. simpl.
    rewrite list_lookup_insert_ne; [done|]. by intros ->.
Qed.

(** X20.  When the list of effects reaches an update whose callback is neither
    [null] nor a function, [commitUpdateQueue] throws.  What it throws is the
    invariant violation of [callCallback] when the callback can be converted to a
    string for the message, and the error of that conversion when it cannot: a
    [TypeError] for a symbol.  By then it has called the callbacks before that
    update and has reset that update's callback, and the queue still has its list
    of effects. *)
Theorem commitUpdateQueue_rejects_invalid_callback (finishedWork finishedQueue : addr)
    (instance : value) (renderExpirationTime : Z) (Q : UpdateQueue.t)
    (l1 l2 : list addr) (a : addr) (U : Update.t) (s : Store.t) :
  Store.queues s !! finishedQueue = Some Q →
  (∀ t, UpdateQueue.lastUpdate Q = Some t → t < length (Store.updates s)) →
  effectList (Store.updates s) (UpdateQueue.firstEffect Q) (l1 ++ a :: l2) →
  callbacksOk (Store.updates s) l1 →
  Store.updates s !! a = Some U →
  is_null (Update.callback U) = false →
  typeof (Update.callback U) ≠ TFunction →
  ∃ s' U' Q',
    commitUpdateQueue finishedWork finishedQueue instance renderExpirationTime s
    = (Throw (match toString (Update.callback U) with
              | Ok _ => InvariantViolation invalidCallback
              | Throw e => e
              end), s')
    ∧ (typeof (Update.callback U) = TSymbol →
       toString (Update.callback U) = Throw TypeError)
    ∧ Store.invoked s' = Store.invoked s ++ callbacksOf (Store.updates s) instance l1
    ∧ Store.updates s' !! a = Some U'
    ∧ Update.callback U' = VNull
    ∧ Store.queues s' !! finishedQueue = Some Q'
    ∧ UpdateQueue.firstEffect Q' = UpdateQueue.firstEffect Q.
Proof.
  intros HQ Hlast Hlist Hok HU Hnull Hother. unfold commitUpdateQueue.
  rewrite (bind_ok _ _ _ _ _ (readQueue_ok _ UpdateQueue.firstCapturedUpdate _ _ HQ)).
  fold (spliceCaptured finishedQueue (UpdateQueue.firstCapturedUpdate Q)).
  destruct (spliceCaptured_returns finishedQueue Q s HQ Hlast) as (s1 & Hsplice).
  erewrite bind_ok by exact Hsplice.
  apply spliceCaptured_effectsSame in Hsplice as Hsame.
  destruct (effectsSame_queue _ _ _ _ Hsame HQ) as (Q1 & HQ1 & Hfirst1 & _).
  rewrite (bind_ok _ _ _ _ _ (readQueue_ok _ UpdateQueue.firstEffect _ _ HQ1)).
  erewrite bind_ok by reflexivity. rewrite Hfirst1.
  pose proof (effectsSame_callback _ _ a Hsame) as Hcallback. rewrite HU in Hcallback.
  destruct (Store.updates s1 !! a) as [U1|] eqn:HU1; [|done].
  injection Hcallback as Hcallback.
  assert (callbacksOk (Store.updates s1) l1) as Hok1.
  { intros b Hb. destruct (Hok b Hb) as (B & HB & HBok).
    pose proof (effectsSame_callback _ _ b Hsame) as Hsame_b. rewrite HB in Hsame_b.
    destruct (Store.updates s1 !! b) as [B1|]; [|done]. injection Hsame_b as Hsame_b.
    exists B1. split; [done|]. unfold callbackOk. by rewrite Hsame_b. }
  destruct (commitUpdateEffects_throws instance l1 a l2
              (S (length (Store.updates s1))) (UpdateQueue.firstEffect Q) s1 U1)
    as (s' & Hrun & Hinvoked & Hqueues & HU');
    [by eapply effectList_effectFields, Hlist; apply Hsame| |done|done|congruence
    |congruence|].
  { pose proof (effectList_fuel _ _ _
                  (effectList_effectFields _ _ _ _ (proj1 (proj2 Hsame)) Hlist))
      as Hlt.
    rewrite length_app in Hlt. lia. }
  erewrite bind_throw by exact Hrun.
  eexists s', _, Q1. split; [by rewrite Hcallback|]. split.
  { destruct (Update.callback U); try done. intros _. apply toString_symbol. }
  split.
  { rewrite Hinvoked, (proj1 Hsame). f_equal. apply callbacksOf_ext.
    intros b _. by apply effectsSame_callback. }
  split; [exact HU'|]. split; [done|]. split; [congruence|done].
Qed.

End Facts.

Section Samples.

#[local] Existing Instance Examples.sideEffectTags.
#[local] Existing Instance Examples.expirationTimes.
#[local] Existing Instance Examples.calls.

(** An update with the callback [callback] and the next effect [nextEffect]. *)
Definition effectUpdate (callback : value) (nextEffect : option addr) : Update.t :=
  {| Update.expirationTime := 1;
     Update.tag := UpdateState;
     Update.payload := VNull;
     Update.callback := callback;
     Update.next := None;
     Update.nextEffect := nextEffect |}.

(** A queue whose list of effects is the updates 0 and 1 and whose list of
    captured effects is the update 2. *)
Definition effectsQueue : UpdateQueue.t :=
  {| UpdateQueue.baseState := VNull;
     UpdateQueue.firstUpdate := None;
     UpdateQueue.lastUpdate := None;
     UpdateQueue.firstCapturedUpdate := None;
     UpdateQueue.lastCapturedUpdate := None;
     UpdateQueue.firstEffect := Some 0;
     UpdateQueue.lastEffect := Some 1;
     UpdateQueue.firstCapturedEffect := Some 2;
     UpdateQueue.lastCapturedEffect := Some 2 |}.

Definition withEffects (second : value) : Store.t :=
  {| Store.fibers := [];
     Store.queues := [effectsQueue];
     Store.updates :=
       [effectUpdate (VFunction 0 ∅) (Some 1); effectUpdate second None;
        effectUpdate (VFunction 2 ∅) None];
     Store.hasForceUpdate := false;
     Store.invoked := [] |}.

Lemma withEffects_effects second :
  effectList (Store.updates (withEffects second)) (Some 0) [0; 1].
Proof.
  split; [done|]. eexists. split; [reflexivity|]. simpl.
  split; [done|]. eexists. split; [reflexivity|]. done.
Qed.

Lemma withEffects_captured second :
  effectList (Store.updates (withEffects second)) (Some 2) [2].
Proof. split; [done|]. eexists. split; [reflexivity|]. done. Qed.

(** With three functions as callbacks the commit calls them in the order 0, 1,
    2. *)
Lemma commitUpdateQueue_calls_each_callback_once_witness :
  ∃ s',
    commitUpdateQueue 0 0 (VString "this") 0 (withEffects (VFunction 1 ∅))
    = (Ok tt, s')
    ∧ Store.invoked s'
      = [(VFunction 0 ∅, VString "this"); (VFunction 1 ∅, VString "this");
         (VFunction 2 ∅, VString "this")].
Proof.
  assert (commitUpdateQueue 0 0 (VString "this") 0 (withEffects (VFunction 1 ∅))
          = (Ok tt,
             (commitUpdateQueue 0 0 (VString "this") 0
                (withEffects (VFunction 1 ∅))).2)) as Hrun by (by vm_compute).
  eexists. split; [exact Hrun|].
  refine (proj1 (commitUpdateQueue_calls_each_callback_once 0 0 (VString "this") 0
                   effectsQueue [0; 1] [2] (withEffects (VFunction 1 ∅)) _ eq_refl
                   (withEffects_effects _) (withEffects_captured _) _ Hrun)).
  intros a Ha Hcaptured.
  apply elem_of_cons in Hcaptured as [->|Hcaptured];
    [|by apply elem_of_nil in Hcaptured].
  apply elem_of_cons in Ha as [?|Ha]; [done|].
  apply elem_of_cons in Ha as [?|Ha]; [done|]. by apply elem_of_nil in Ha.
Defined.

(** With a string as the second callback the commit throws the invariant
    violation once it has called the first one; with a symbol it throws a
    [TypeError] instead. *)
Lemma commitUpdateQueue_rejects_invalid_callback_witness :
  (∃ s' U' Q',
      commitUpdateQueue 0 0 (VString "this") 0 (withEffects (VString "callback"))
      = (Throw (InvariantViolation invalidCallback), s')
      ∧ Store.invoked s' = [(VFunction 0 ∅, VString "this")]
      ∧ Store.updates s' !! 1 = Some U'
      ∧ Update.callback U' = VNull
      ∧ Store.queues s' !! 0 = Some Q'
      ∧ UpdateQueue.firstEffect Q' = Some 0)
  ∧ (∃ s',
        commitUpdateQueue 0 0 (VString "this") 0 (withEffects (VSymbol "callback"))
        = (Throw TypeError, s')
        ∧ Store.invoked s' = [(VFunction 0 ∅, VString "this")]).
Proof.
  assert (∀ second,
             callbacksOk (Store.updates (withEffects second)) [0]) as Hok.
  { intros second a Ha.
    apply elem_of_cons in Ha as [->|Ha]; [|by apply elem_of_nil in Ha].
    eexists. split; [reflexivity|]. by right. }
  split.
  - destruct (commitUpdateQueue_rejects_invalid_callback 0 0 (VString "this") 0
                effectsQueue [0] [] 1 (effectUpdate (VString "callback") None)
                (withEffects (VString "callback")) eq_refl ltac:(done)
                (withEffects_effects _) (Hok _) eq_refl eq_refl ltac:(done))
      as (s' & U' & Q' & Hrun & _ & Hinvoked & HU' & Hcallback & HQ' & Hfirst).
    exists s', U', Q'. split; [exact Hrun|]. split; [exact Hinvoked|].
    split; [exact HU'|]. split; [exact Hcallback|]. split; [exact HQ'|exact Hfirst].
  - destruct (commitUpdateQueue_rejects_invalid_callback 0 0 (VString "this") 0
                effectsQueue [0] [] 1 (effectUpdate (VSymbol "callback") None)
                (withEffects (VSymbol "callback")) eq_refl ltac:(done)
                (withEffects_effects _) (Hok _) eq_refl eq_refl ltac:(done))
      as (s' & U' & Q' & Hrun & _ & Hinvoked & _).
    exists s'. split; [exact Hrun|exact Hinvoked].
Defined.

End Samples.

End CallbackFacts.

(** ** Captured updates *)

Module CapturedFacts.
Import ReactUpdateQueue UpdateListFacts EnqueueFacts ProcessFacts FrameFacts.

(** The second half of [enqueueCapturedUpdate], once the queue is known. *)
Definition appendCaptured (queue update : addr) : M Store.t unit :=
  lastCapturedUpdate ← readQueue queue UpdateQueue.lastCapturedUpdate;
  match lastCapturedUpdate with
  | None =>
      setQueue queue (UpdateQueue.set_lastCapturedUpdate (Some update));;
      setQueue queue (UpdateQueue.set_firstCapturedUpdate (Some update))
  | Some last =>
      setUpdate last (Update.set_next (Some update));;
      setQueue queue (UpdateQueue.set_lastCapturedUpdate (Some update))
  end.

Section Facts.
Context `{SideEffectTags, ExpirationTimes, Calls}.

Lemma enqueueCapturedUpdate_halves workInProgress update :
  enqueueCapturedUpdate workInProgress update
  = (workInProgressQueue ← readFiber workInProgress Fiber.updateQueue;
     workInProgressQueue ←
       match workInProgressQueue with
       | None => createQueueFor workInProgress
       | Some queue => ensureWorkInProgressQueueIsAClone workInProgress queue
       end;
     appendCaptured workInProgressQueue update).
Proof. reflexivity. Qed.

(** Appending to the captured list [lc] of a queue. *)
Lemma appendCaptured_list queue Q lc update U s :
  Store.queues s !! queue = Some Q →
  chain (Store.updates s) (UpdateQueue.firstCapturedUpdate Q) lc →
  UpdateQueue.lastCapturedUpdate Q = last lc →
  Store.updates s !! update = Some U →
  Update.next U = None →
  update ∉ lc →
  ∃ s' Q',
    appendCaptured queue update s = (Ok tt, s')
    ∧ Store.fibers s' = Store.fibers s
    ∧ Store.queues s' = <[queue := Q']> (Store.queues s)
    ∧ chain (Store.updates s') (UpdateQueue.firstCapturedUpdate Q') (lc ++ [update])
    ∧ UpdateQueue.lastCapturedUpdate Q' = Some update
    ∧ UpdateQueue.baseState Q' = UpdateQueue.baseState Q
    ∧ UpdateQueue.firstUpdate Q' = UpdateQueue.firstUpdate Q
    ∧ UpdateQueue.lastUpdate Q' = UpdateQueue.lastUpdate Q
    ∧ match last lc with
      | None => Store.updates s' = Store.updates s
      | Some t =>
          ∃ T, Store.updates s !! t = Some T
               ∧ Store.updates s'
                 = <[t := Update.set_next (Some update) T]> (Store.updates s)
      end.
Proof.
  intros HQ Hchain Hlast HU Hnext Hfresh. unfold appendCaptured.
  heap_step. rewrite Hlast.
  destruct (last lc) as [t|] eqn:Hl.
  - destruct (chain_last _ _ _ _ Hchain Hl) as (T & HT & _).
    heap_step. eexists _, _. split; [by apply setQueue_ok; solve_lookup|]. simpl.
    split; [done|]. split; [done|]. split.
    { apply (chain_snoc _ _ _ _ _ _ U); try done.
      intros ->. apply Hfresh. by apply last_Some_elem_of. }
    split; [done|]. split; [done|]. split; [done|]. split; [done|]. by exists T.
  - apply last_None in Hl as ->. simpl in Hchain.
    heap_step. eexists _, _. split; [by apply setQueue_ok; solve_lookup|]. simpl.
    split; [done|]. split; [by rewrite list_insert_insert_eq|]. split.
    { by apply (chain_singleton _ _ U). }
    done.
Qed.

(** X21.  [enqueueCapturedUpdate] on a fiber that has a queue returns and leaves
    [update] as the last captured update of the work-in-progress queue, whose
    pending list it does not touch.  When the queue is not the queue of the
    current fiber, [update] is appended to its captured list.  When it is, the
    fiber gets a clone of the queue, whose captured list is [update] alone, and
    neither the queue nor any update is written. *)
Theorem enqueueCapturedUpdate_appends (workInProgress update : addr) (F : Fiber.t)
    (queue : addr) (Q : UpdateQueue.t) (lc : list addr) (U : Update.t)
    (s : Store.t) :
  Store.fibers s !! workInProgress = Some F →
  Fiber.updateQueue F = Some queue →
  (∀ current, Fiber.alternate F = Some current → current < length (Store.fibers s)) →
  Store.queues s !! queue = Some Q →
  chain (Store.updates s) (UpdateQueue.firstCapturedUpdate Q) lc →
  UpdateQueue.lastCapturedUpdate Q = last lc →
  Store.updates s !! update = Some U →
  Update.next U = None →
  update ∉ lc →
  ∃ s' queue' F' Q',
    enqueueCapturedUpdate workInProgress update s = (Ok tt, s')
    ∧ Store.fibers s' !! workInProgress = Some F'
    ∧ Fiber.updateQueue F' = Some queue'
    ∧ Store.queues s' !! queue' = Some Q'
    ∧ UpdateQueue.lastCapturedUpdate Q' = Some update
    ∧ UpdateQueue.baseState Q' = UpdateQueue.baseState Q
    ∧ UpdateQueue.firstUpdate Q' = UpdateQueue.firstUpdate Q
    ∧ UpdateQueue.lastUpdate Q' = UpdateQueue.lastUpdate Q
    ∧ (¬ shared s workInProgress queue →
       queue' = queue
       ∧ chain (Store.updates s') (UpdateQueue.firstCapturedUpdate Q')
           (lc ++ [update]))
    ∧ (shared s workInProgress queue →
       queue' = length (Store.queues s)
       ∧ Store.queues s' !! queue = Some Q
       ∧ Store.updates s' = Store.updates s
       ∧ chain (Store.updates s') (UpdateQueue.firstCapturedUpdate Q') [update]).
Proof.
  intros HF HupdateQueue Halternate HQ Hchain Hlast HU Hnext Hfresh.
  rewrite enqueueCapturedUpdate_halves.
  rewrite (bind_ok _ _ _ _ _ (readFiber_ok _ Fiber.updateQueue _ _ HF)).
  rewrite HupdateQueue.
  assert (¬ shared s workInProgress queue →
          ∃ s' queue' F' Q',
            (appendCaptured queue update) s = (Ok tt, s')
            ∧ Store.fibers s' !! workInProgress = Some F'
            ∧ Fiber.updateQueue F' = Some queue'
            ∧ Store.queues s' !! queue' = Some Q'
            ∧ UpdateQueue.lastCapturedUpdate Q' = Some update
            ∧ UpdateQueue.baseState Q' = UpdateQueue.baseState Q
            ∧ UpdateQueue.firstUpdate Q' = UpdateQueue.firstUpdate Q
            ∧ UpdateQueue.lastUpdate Q' = UpdateQueue.lastUpdate Q
            ∧ (¬ shared s workInProgress queue →
               queue' = queue
               ∧ chain (Store.updates s') (UpdateQueue.firstCapturedUpdate Q')
                   (lc ++ [update]))
            ∧ (shared s workInProgress queue →
               queue' = length (Store.queues s)
               ∧ Store.queues s' !! queue = Some Q
               ∧ Store.updates s' = Store.updates s
               ∧ chain (Store.updates s') (UpdateQueue.firstCapturedUpdate Q')
                   [update])) as Hown.
  { intros Hnot.
    destruct (appendCaptured_list queue Q lc update U s)
      as (s' & Q' & Hrun & Hfibers & Hqueues & Hchain' & Hlast' & Hbase & Hfirst
          & HlastUpdate & _); [done..|].
    exists s', queue, F, Q'. split; [done|]. split; [congruence|]. split; [done|].
    split; [rewrite Hqueues; by apply (lookup_insert_same _ _ _ Q)|].
    split; [done|]. split; [done|]. split; [done|]. split; [done|].
    split; [done|]. intros Hshared. by destruct Hnot. }
  unfold ensureWorkInProgressQueueIsAClone.
  rewrite !bind_assoc.
  rewrite (bind_ok _ _ _ _ _ (readFiber_ok _ Fiber.alternate _ _ HF)).
  destruct (Fiber.alternate F) as [current|] eqn:Hcurrent.
  2: { erewrite bind_ok by reflexivity. apply Hown.
       intros (F' & c & C & HF' & Hc & _). congruence. }
  destruct (lookup_lt_is_Some_2 _ _ (Halternate current eq_refl)) as [C HC].
  rewrite !bind_assoc.
  rewrite (bind_ok _ _ _ _ _ (readFiber_ok _ Fiber.updateQueue _ _ HC)).
  destruct (decide (Some queue = Fiber.updateQueue C)) as [Hshared|Hother].
  2: { erewrite bind_ok by reflexivity. apply Hown.
       intros (F' & c & C' & HF' & Hc & HC' & Hq). congruence. }
  erewrite bind_ok by exact (cloneQueueFor_ok _ _ _ _ _ HF HQ).
  match goal with
  | |- context [appendCaptured _ _ ?st] => set (s0 := st)
  end.
  destruct (appendCaptured_list (length (Store.queues s)) (cloneOf Q) [] update U s0)
    as (s' & Q' & Hrun & Hfibers & Hqueues & Hchain' & Hlast' & Hbase & Hfirst
        & HlastUpdate & Hupdates);
    [by apply list_lookup_middle|done|done|exact HU|done|apply not_elem_of_nil|].
  simpl in Hupdates, Hqueues, Hfibers.
  exists s', (length (Store.queues s)),
    (Fiber.set_updateQueue (Some (length (Store.queues s))) F), Q'.
  split; [exact Hrun|].
  split; [rewrite Hfibers; by apply (lookup_insert_same _ _ _ F)|].
  split; [done|].
  split. { rewrite Hqueues. apply list_lookup_insert_eq.
           rewrite length_app. simpl. lia. }
  split; [done|]. split; [done|]. split; [done|]. split; [done|].
  split.
  { intros Hnot. destruct Hnot. exists F, current, C. by repeat split. }
  intros _. split; [done|]. split; [|by split].
  rewrite Hqueues. apply lookup_lt_Some in HQ as Hlt.
  rewrite list_lookup_insert_ne by lia. by apply lookup_app_l_Some.
Qed.

End Facts.

Section Samples.

#[local] Existing Instance Examples.sideEffectTags.
#[local] Existing Instance Examples.expirationTimes.
#[local] Existing Instance Examples.typeOfMode.
#[local] Existing Instance Examples.featureFlags.
#[local] Existing Instance Examples.calls.

(** The update 3 of the shared letters, the last one, enqueued as a captured
    update of the work-in-progress fiber. *)
Lemma enqueueCapturedUpdate_appends_witness :
  ∃ s' F' Q',
    enqueueCapturedUpdate 0 3 sharedLetters = (Ok tt, s')
    ∧ Store.fibers s' !! 0 = Some F'
    ∧ Fiber.updateQueue F' = Some 1
    ∧ Store.queues s' !! 1 = Some Q'
    ∧ UpdateQueue.firstCapturedUpdate Q' = Some 3
    ∧ UpdateQueue.lastCapturedUpdate Q' = Some 3
    ∧ Store.queues s' !! 0 = Some letterQueue.
Proof.
  destruct (enqueueCapturedUpdate_appends 0 3
              (Fiber.set_alternate (Some 1) letterFiber) 0 letterQueue []
              (letterUpdate 3 1 None) sharedLetters eq_refl eq_refl)
    as (s' & queue' & F' & Q' & Hrun & HF' & HupdateQueue' & HQ' & Hlast & _ & _ & _
        & _ & Hshared); [|done|done|done|done|done|apply not_elem_of_nil|].
  { intros current [= <-]. simpl. lia. }
  destruct Hshared as (-> & HQ & _ & Hfirst & _).
  { exists (Fiber.set_alternate (Some 1) letterFiber), 1,
      (Fiber.set_alternate (Some 0) letterFiber).
    split; [reflexivity|]. split; [reflexivity|]. split; reflexivity. }
  exists s', F', Q'. split; [exact Hrun|]. split; [exact HF'|].
  split; [exact HupdateQueue'|]. split; [exact HQ'|]. split; [exact Hfirst|].
  split; [exact Hlast|exact HQ].
Defined.

End Samples.

End CapturedFacts.

(** ** The host context stack: unwinding *)

Module HostContextUnwindFacts.
Import ReactFiberHostContext.

Section Facts.
Context `{HostConfig}.

(** X22.  [popHostContainer] undoes [pushHostContainer] however the push ended:
    when [getRootHostContext] throws, the push throws the same error with the
    container and the fiber pushed and [NO_CONTEXT] as the context, so that
    [getHostContext] fails until the pop has restored the state. *)
Theorem popHostContainer_undoes_pushHostContainer (fiber fiber' : addr)
    (container : Container) (s : Stack) :
  popHostContainer fiber' (pushHostContainer fiber container s).2 = (Ok tt, s)
  ∧ ∀ e, getRootHostContext container = Throw e →
         let s1 := (pushHostContainer fiber container s).2 in
         pushHostContainer fiber container s = (Throw e, s1)
         ∧ getRootHostContainer s1 = (Ok (AContainer container), s1)
         ∧ getHostContext s1 = (Throw (InvariantViolation missingHostContext), s1).
Proof.
  unfold pushHostContainer, popHostContainer, push, pop, lift, modify, mbind, M_bind.
  simpl. split.
  - destruct (getRootHostContext container); by destruct s.
  - intros e ->. done.
Qed.

(** X23.  On a state with a live container, [pushHostContext] for a fiber that is
    not the provider of the current context makes the child context current, and
    [popHostContext] for the same fiber restores the state; when the child context
    is the current one, the push changes nothing. *)
Theorem popHostContext_undoes_pushHostContext (fiber : addr) (fiberType : value)
    (context next : HostContext) (container : Container) (s : Stack) :
  contextCurrent s = AContext context →
  rootInstanceCurrent s = AContainer container →
  getChildHostContext context fiberType container = Ok next →
  contextFiberCurrent s ≠ AFiber fiber →
  ∃ s1,
    pushHostContext fiber fiberType s = (Ok tt, s1)
    ∧ getHostContext s1 = (Ok (AContext next), s1)
    ∧ popHostContext fiber s1 = (Ok tt, s)
    ∧ (next = context → s1 = s).
Proof.
  intros Hcontext Hroot Hchild Hfiber.
  destruct s as [stack c provider r]. simpl in Hcontext, Hroot, Hfiber. subst c r.
  unfold pushHostContext, getHostContext, popHostContext, requiredContext, invariant,
    push, pop, lift, gets, modify, mbind, M_bind.
  simpl. rewrite Hchild.
  destruct (decide (context = next)) as [<-|Hne].
  - eexists. split; [reflexivity|]. simpl. split; [done|]. split; [|done].
    destruct provider as [| |f|]; try done.
    rewrite bool_decide_eq_false_2; [done|]. congruence.
  - eexists. split; [reflexivity|]. simpl. split; [done|].
    rewrite bool_decide_eq_true_2 by done. simpl. split; [done|]. by intros ->.
Qed.

End Facts.

Section Samples.

#[local] Existing Instance Examples.hostConfig.

(** The state after the container [root] was pushed by the fiber 0. *)
Definition inRoot : Stack := (pushHostContainer 0 "root"%string initial).2.

(** An [svg] element of the fiber 1 inside the root container. *)
Lemma popHostContext_undoes_pushHostContext_witness :
  ∃ s1,
    pushHostContext 1 (VString "svg") inRoot = (Ok tt, s1)
    ∧ getHostContext s1 = (Ok (AContext "http://www.w3.org/2000/svg"%string), s1)
    ∧ popHostContext 1 s1 = (Ok tt, inRoot)
    ∧ ("http://www.w3.org/2000/svg"%string = "http://www.w3.org/1999/xhtml"%string →
       s1 = inRoot).
Proof.
  apply (@popHostContext_undoes_pushHostContext Examples.hostConfig 1 (VString "svg")
           "http://www.w3.org/1999/xhtml"%string "http://www.w3.org/2000/svg"%string
           "root"%string inRoot eq_refl eq_refl eq_refl).
  intros [=].
Defined.

End Samples.

(** A host that cannot tell the context of a detached container. *)
Definition detachedHost : HostConfig :=
  {| Container := string;
     HostContext := string;
     getRootHostContext container :=
       if String.eqb container "detached" then Throw TypeError
       else Ok "http://www.w3.org/1999/xhtml"%string;
     getChildHostContext context _ _ := Ok context |}.

Section Detached.

#[local] Existing Instance detachedHost.

(** The push of a detached container throws and is undone by the pop. *)
Lemma popHostContainer_undoes_pushHostContainer_witness :
  let s1 := (pushHostContainer 0 "detached"%string initial).2 in
  pushHostContainer 0 "detached"%string initial = (Throw TypeError, s1)
  ∧ getRootHostContainer s1 = (Ok (AContainer "detached"%string), s1)
  ∧ getHostContext s1 = (Throw (InvariantViolation missingHostContext), s1)
  ∧ popHostContainer 0 s1 = (Ok tt, initial).
Proof.
  destruct (@popHostContainer_undoes_pushHostContainer detachedHost 0 0
              "detached"%string initial) as [Hpop Hthrow].
  destruct (Hthrow TypeError eq_refl) as (Hpush & Hroot & Hcontext).
  split; [exact Hpush|]. split; [exact Hroot|]. split; [exact Hcontext|exact Hpop].
Defined.

End Detached.

End HostContextUnwindFacts.
